(** * Invoke lowering of the Quick compiler: compiler/dex/quick/gen_invoke.cc

    A shallow embedding of the call-site code generator.  The routines of
    gen_invoke.cc only call mid-level utilities and "op" emitters of the
    backend; the embedding runs them in a small state-and-error monad whose
    state is the log of those utility calls, in program order.  A [LIR*] is
    the position in the log of the call that produced it.  Values returned
    by utilities that live outside this file (register allocator queries,
    target hooks) are read from the backend record of the compilation unit
    and may depend on everything logged so far. *)

From Stdlib Require Import ZArith List Bool Lia.
Import ListNotations.
Local Open Scope Z_scope.

(** ** Data model *)

Inductive InstructionSet := kNone | kArm | kThumb2 | kX86 | kMips.

Inductive InvokeType := kStatic | kDirect | kVirtual | kSuper | kInterface.

Inductive SpecialTargetRegister :=
  | kSelf | kSuspend | kLr | kPc | kSp
  | kArg0 | kArg1 | kArg2 | kArg3
  | kFArg0 | kFArg1 | kFArg2 | kFArg3
  | kRet0 | kRet1 | kInvokeTgt | kHiddenArg | kHiddenFpArg | kCount.

Inductive RegLocationType :=
  kLocDalvikFrame | kLocPhysReg | kLocCompilerTemp | kLocInvalid.

Inductive RegisterClass := kCoreReg | kFPReg | kAnyReg.

Inductive OpSize :=
  kWord | kLong | kSingle | kDouble | kUnsignedHalf | kSignedHalf
  | kUnsignedByte | kSignedByte.

Inductive OpKind :=
  kOpMov | kOpCmp | kOpAdd | kOpAdc | kOpSub | kOpNeg | kOpAnd | kOpXor
  | kOpLsr | kOpAsr | kOpRev | kOpRevsh | kOpBlx.

Inductive ConditionCode := kCondEq | kCondUlt | kCondUge | kCondGt.

Inductive MoveType := kMovA128FP | kMovU128FP | kMovLo128FP | kMovHi128FP.

Inductive MemBarrierKind := kLoadLoad | kStoreStore | kStoreLoad.

Inductive PseudoOpcode :=
  kPseudoIntrinsicRetry | kPseudoTargetLabel.

Inductive QuickEntrypoint :=
  | pInvokeStaticTrampolineWithAccessCheck
  | pInvokeDirectTrampolineWithAccessCheck
  | pInvokeSuperTrampolineWithAccessCheck
  | pInvokeVirtualTrampolineWithAccessCheck
  | pInvokeInterfaceTrampolineWithAccessCheck
  | pMemcpy | pIndexOf | pStringCompareTo.

Definition InstructionSet_eqb (a b : InstructionSet) : bool :=
  match a, b with
  | kNone, kNone | kArm, kArm | kThumb2, kThumb2 | kX86, kX86 | kMips, kMips => true
  | _, _ => false
  end.

Definition RegLocationType_eqb (a b : RegLocationType) : bool :=
  match a, b with
  | kLocDalvikFrame, kLocDalvikFrame | kLocPhysReg, kLocPhysReg
  | kLocCompilerTemp, kLocCompilerTemp | kLocInvalid, kLocInvalid => true
  | _, _ => false
  end.

(** [RegStorage]: a solo register or a pair. *)
Inductive RegStorageKind := kInvalid | k32BitSolo | k64BitSolo | k64BitPair.

Record RegStorage := mkRegStorage {
  rs_kind : RegStorageKind;
  GetReg : Z;
  GetHighReg : Z
}.

Record RegLocation := mkRegLocation {
  location : RegLocationType;
  wide : bool;
  defined : bool;
  is_const : bool;
  fp : bool;
  core : bool;
  ref : bool;
  high_word : bool;
  home : bool;
  reg : RegStorage;
  s_reg_low : Z;
  orig_sreg : Z
}.

Definition set_location (l : RegLocationType) (r : RegLocation) : RegLocation :=
  mkRegLocation l (wide r) (defined r) (is_const r) (fp r) (core r) (ref r)
    (high_word r) (home r) (reg r) (s_reg_low r) (orig_sreg r).
Definition set_wide (b : bool) (r : RegLocation) : RegLocation :=
  mkRegLocation (location r) b (defined r) (is_const r) (fp r) (core r) (ref r)
    (high_word r) (home r) (reg r) (s_reg_low r) (orig_sreg r).
Definition set_is_const (b : bool) (r : RegLocation) : RegLocation :=
  mkRegLocation (location r) (wide r) (defined r) b (fp r) (core r) (ref r)
    (high_word r) (home r) (reg r) (s_reg_low r) (orig_sreg r).
Definition set_home (b : bool) (r : RegLocation) : RegLocation :=
  mkRegLocation (location r) (wide r) (defined r) (is_const r) (fp r) (core r) (ref r)
    (high_word r) b (reg r) (s_reg_low r) (orig_sreg r).
Definition set_reg (s : RegStorage) (r : RegLocation) : RegLocation :=
  mkRegLocation (location r) (wide r) (defined r) (is_const r) (fp r) (core r) (ref r)
    (high_word r) (home r) s (s_reg_low r) (orig_sreg r).

Record PromotionMap := mkPromotionMap {
  core_location : RegLocationType;
  core_reg : Z;
  fp_location : RegLocationType;
  FpReg : Z;
  first_in_pair : bool
}.

Record MethodReference := mkMethodReference {
  dex_file : Z;
  dex_method_index : Z
}.

Record CallInfo := mkCallInfo {
  num_arg_words : Z;
  args : list RegLocation;
  result : RegLocation;
  opt_flags : Z;
  type : InvokeType;
  index : Z;
  is_range : bool;
  offset : Z;
  mir : Z
}.

Definition set_opt_flags (f : Z) (i : CallInfo) : CallInfo :=
  mkCallInfo (num_arg_words i) (args i) (result i) f (type i) (index i)
    (is_range i) (offset i) (mir i).
Definition set_type (t : InvokeType) (i : CallInfo) : CallInfo :=
  mkCallInfo (num_arg_words i) (args i) (result i) (opt_flags i) t (index i)
    (is_range i) (offset i) (mir i).

Record MirMethodLoweringInfo := mkMirMethodLoweringInfo {
  GetInvokeType : InvokeType;
  GetSharpType : InvokeType;
  StatsFlags : Z;
  FastPath : bool;
  GetTargetMethod : MethodReference;
  VTableIndex : Z;
  DirectCode : Z;
  DirectMethod : Z
}.

(** A [LIR*]: the position of the producing utility call in the log. *)
Definition LIRptr := nat.

(** ** The utility calls made by gen_invoke.cc *)

Inductive Op :=
  | LoadConstant (r_dest value : Z)
  | LoadCodeAddress (target_method : MethodReference) (ty : InvokeType)
      (symbolic_reg : SpecialTargetRegister)
  | LoadMethodAddress (target_method : MethodReference) (ty : InvokeType)
      (symbolic_reg : SpecialTargetRegister)
  | LoadCurrMethodDirect (r_tgt : Z)
  | LoadWordDisp (r_base disp r_dest : Z)
  | StoreWordDisp (r_base disp r_src : Z)
  | StoreBaseDisp (r_base disp r_src : Z) (size : OpSize)
  | StoreBaseDispWide (r_base disp r_src_lo r_src_hi : Z)
  | LoadBaseDispWide (r_base disp r_dest_lo r_dest_hi s_reg : Z)
  | LoadBaseIndexed (r_base r_index r_dest scale : Z) (size : OpSize)
  | LoadBaseIndexedDisp (r_base r_index scale disp r_dest r_dest_hi : Z)
      (size : OpSize) (s_reg : Z)
  | StoreBaseIndexed (r_base r_index r_src scale : Z) (size : OpSize)
  | LoadValueDirectFixed (rl_src : RegLocation) (r_dest : Z)
  | LoadValueDirectWideFixed (rl_src : RegLocation) (reg_lo reg_hi : Z)
  | LoadValue (rl_src : RegLocation) (op_kind : RegisterClass)
  | LoadValueWide (rl_src : RegLocation) (op_kind : RegisterClass)
  | EvalLoc (rl : RegLocation) (reg_class : RegisterClass) (update : bool)
  | StoreValue (rl_dest rl_src : RegLocation)
  | StoreValueWide (rl_dest rl_src : RegLocation)
  | GenNullCheck (m_reg opt : Z)
  | MarkPossibleNullPointerException (opt : Z)
  | MarkLive (r s_reg : Z)
  | OpRegCopy (r_dest r_src : Z)
  | OpRegCopyWide (dest_lo dest_hi src_lo src_hi : Z)
  | OpReg (op : OpKind) (r_dest_src : Z)
  | OpRegReg (op : OpKind) (r_dest_src1 r_src2 : Z)
  | OpRegImm (op : OpKind) (r_dest_src1 value : Z)
  | OpRegRegImm (op : OpKind) (r_dest r_src1 value : Z)
  | OpRegRegReg (op : OpKind) (r_dest r_src1 r_src2 : Z)
  | OpRegMem (op : OpKind) (r_dest r_base disp : Z)
  | OpMem (op : OpKind) (r_base disp : Z)
  | OpThreadMem (op : OpKind) (thread_offset : Z)
  | OpRegThreadMem (op : OpKind) (r_dest thread_offset : Z)
  | CallWithLinkerFixup (target_method : MethodReference) (ty : InvokeType)
  | OpCondBranch (cc : ConditionCode) (target : option LIRptr)
  | OpCmpImmBranch (cc : ConditionCode) (r check_value : Z) (target : option LIRptr)
  | OpCmpMemImmBranch (cc : ConditionCode) (temp_reg base_reg disp check_value : Z)
      (target : option LIRptr)
  | OpUnconditionalBranch (target : LIRptr)
  | OpVldm (r_base count : Z)
  | OpVstm (r_base count : Z)
  | OpMovRegMem (r_dest r_base disp : Z) (move_type : MoveType)
  | OpMovMemReg (r_base disp r_src : Z) (move_type : MoveType)
  | SetDefMaskEncodeAll (lir : LIRptr)
  | SetMemRefType (lir : LIRptr) (is_load : bool)
  | AnnotateDalvikRegAccess (lir : LIRptr) (reg_id : Z) (is_load is64bit : bool)
  | NewLIR0 (opcode : PseudoOpcode)
  | GenerateTargetLabel (fromfast : option LIRptr)
  | SetOpcode (lir : LIRptr) (opcode : PseudoOpcode)
  | MarkSafepointPC (inst : LIRptr)
  | LoadHelper (helper_offset : Z)
  | AllocTemp
  | AllocTempDouble
  | FreeTemp (r : Z)
  | LockCallTemps
  | ClobberCallerSave
  | FlushAllRegs
  | ResetRegPool
  | ResetDefTracking
  | GetReturn (is_float : bool)
  | GetReturnWide (is_double : bool)
  | GenMemBarrier (barrier_kind : MemBarrierKind)
  | MarkGCCard (val_reg tgt_addr_reg : Z)
  | ProcessedInvoke (invoke_type : InvokeType) (flags : Z).

(** Constants of headers that are not part of this file: field offsets of the
    managed-object layout, thread entrypoint offsets, the interface method
    table size, the invalid-register marker and the MIR optimisation flags. *)
Record Runtime := mkRuntime {
  DexCacheResolvedMethodsOffset : Z;
  EntryPointFromQuickCompiledCodeOffset : Z;
  ClassOffset : Z;
  VTableOffset : Z;
  ImTableOffset : Z;
  ArrayDataOffset : Z -> Z;
  StringValueOffset : Z;
  StringCountOffset : Z;
  StringOffsetOffset : Z;
  ThreadPeerOffset : Z;
  kImtSize : Z;
  QUICK_ENTRYPOINT_OFFSET : QuickEntrypoint -> Z;
  INVALID_REG : Z;
  INVALID_SREG : Z;
  MIR_IGNORE_NULL_CHECK : Z;
  MIR_IGNORE_RANGE_CHECK : Z;
  kVRegMethodPtrBaseReg : Z;
  kIsDebugBuild : bool
}.

(** The backend object ([Mir2Lir] and its target subclass): the target hooks
    and the utilities whose results gen_invoke.cc consumes.  A result may
    depend on the calls already logged (the register pool is mutable). *)
Record Backend := mkBackend {
  TargetReg : SpecialTargetRegister -> Z;
  GetArgMappingToPhysicalReg : Z -> Z;
  SRegOffset : Z -> Z;
  VRegOffset : Z -> Z;
  promotion_map_ : list PromotionMap;
  ConstantValue : Z -> Z;
  NumMethodIds : Z -> Z;
  GetMethodLoweringInfo : Z -> MirMethodLoweringInfo;
  UpdateLoc : list Op -> RegLocation -> RegLocation;
  UpdateLocWide : list Op -> RegLocation -> RegLocation;
  UpdateRawLoc : list Op -> RegLocation -> RegLocation;
  LoadHelper_result : list Op -> Z -> Z;
  AllocTemp_result : list Op -> Z;
  AllocTempDouble_result : list Op -> Z;
  LoadValue_result : list Op -> RegLocation -> RegisterClass -> RegLocation;
  LoadValueWide_result : list Op -> RegLocation -> RegisterClass -> RegLocation;
  EvalLoc_result : list Op -> RegLocation -> RegisterClass -> bool -> RegLocation;
  GetReturn_result : list Op -> bool -> RegLocation;
  GetReturnWide_result : list Op -> bool -> RegLocation;
  GenNullCheck_result : list Op -> Z -> Z -> option LIRptr
}.

(** The library operations whose inline expansion is generated in this
    file, with the flags their routines take. *)
Inductive InlineMethod :=
  | kIntrinsicDoubleCvt
  | kIntrinsicFloatCvt
  | kIntrinsicReverseBytes (size : OpSize)
  | kIntrinsicAbsInt
  | kIntrinsicAbsLong
  | kIntrinsicAbsFloat
  | kIntrinsicAbsDouble
  | kIntrinsicCharAt
  | kIntrinsicCompareTo
  | kIntrinsicIsEmptyOrLength (is_empty : bool)
  | kIntrinsicIndexOf (zero_based : bool)
  | kIntrinsicCurrentThread
  | kIntrinsicUnsafeGet (is_long is_volatile : bool)
  | kIntrinsicUnsafePut (is_long is_object is_volatile is_ordered : bool).

Record CompilationUnit := mkCompilationUnit {
  instruction_set : InstructionSet;
  num_ins : Z;
  num_dalvik_registers : Z;
  cu_dex_file : Z;
  inline_methods_ : Z -> option InlineMethod;
  cg : Backend
}.

(** ** The code generation monad *)

(** An out-of-line intrinsic retry block registered with [AddSlowPath]. *)
Record LaunchPad := mkLaunchPad {
  info_ : CallInfo;
  current_dex_pc_ : Z;
  fromfast_ : option LIRptr;
  cont_ : option LIRptr
}.

Record CgState := mkCgState {
  lir : list Op;
  slow_paths_ : list LaunchPad
}.

Inductive Fault :=
  | CheckFailed      (* CHECK / DCHECK / LOG(FATAL) *)
  | BadAccess        (* read outside an array: undefined behaviour in C++ *)
  | OutOfFuel.       (* the bound given to a loop of the model was too small *)

Inductive Result (A : Type) :=
  | Ok (a : A) (s : CgState)
  | Stop (f : Fault).
Arguments Ok {A} a s.
Arguments Stop {A} f.

Definition M (A : Type) := CgState -> Result A.

Definition ret {A} (a : A) : M A := fun s => Ok a s.

Definition bind {A B} (m : M A) (k : A -> M B) : M B :=
  fun s => match m s with
           | Ok a s' => k a s'
           | Stop f => Stop f
           end.

Declare Scope cg_scope.
Delimit Scope cg_scope with cg.
Notation "x <- m ;; k" := (bind m (fun x => k))
  (at level 100, m at next level, right associativity) : cg_scope.
Notation "m ;; k" := (bind m (fun _ => k))
  (at level 100, right associativity) : cg_scope.
Notation "' pat <- m ;; k" := (bind m (fun x => match x with pat => k end))
  (at level 100, pat pattern, m at next level, right associativity) : cg_scope.
Local Open Scope cg_scope.

Definition stop {A} (f : Fault) : M A := fun _ => Stop f.

(** Log one utility call; the result is its [LIR*]. *)
Definition emit (o : Op) : M LIRptr :=
  fun s => Ok (length (lir s)) (mkCgState (lir s ++ [o]) (slow_paths_ s)).

(** Read a backend result that depends on the calls logged so far. *)
Definition ask {A} (f : list Op -> A) : M A := fun s => Ok (f (lir s)) s.

Definition AddSlowPath (p : LaunchPad) : M unit :=
  fun s => Ok tt (mkCgState (lir s) (slow_paths_ s ++ [p])).

Definition when (b : bool) (m : M unit) : M unit := if b then m else ret tt.

Definition emit_ (o : Op) : M unit := emit o ;; ret tt.

Definition CHECK (b : bool) : M unit := if b then ret tt else stop CheckFailed.

(** The calls appended by [m] when run from [s]. *)
Definition emitted {A} (m : M A) (s : CgState) : list Op :=
  match m s with
  | Ok _ s' => skipn (length (lir s)) (lir s')
  | Stop _ => []
  end.

Definition returned {A} (m : M A) (s : CgState) : option A :=
  match m s with
  | Ok a _ => Some a
  | Stop _ => None
  end.

(** 32-bit conversions: [int], [uint32_t] and [size_t] are 32 bits wide and
    wrap. *)
Definition to_uint32 (z : Z) : Z := z mod 4294967296.
Definition to_int32 (z : Z) : Z := (z + 2147483648) mod 4294967296 - 2147483648.

Definition is_isa (cu : CompilationUnit) (i : InstructionSet) : bool :=
  InstructionSet_eqb (instruction_set cu) i.

(** [static_cast<unsigned int>(-1)] *)
Definition kUnsignedMinusOne : Z := 4294967295.

(** [info->args[i]] *)
Definition arg_at (info : CallInfo) (i : Z) : M RegLocation :=
  if i <? 0 then stop BadAccess
  else match nth_error (args info) (Z.to_nat i) with
       | Some rl => ret rl
       | None => stop BadAccess
       end.

(** The type of the [NextCallInsn] function pointer. *)
Definition NextCallInsn : Type :=
  CompilationUnit -> CallInfo -> Z -> MethodReference -> Z -> Z -> Z ->
  InvokeType -> M Z.

Section GenInvoke.

Variable rt : Runtime.

Definition DCHECK (b : bool) : M unit :=
  if kIsDebugBuild rt then CHECK b else ret tt.

(** ** Dispatch resolution: one step per call *)

Definition NextSDCallInsn : NextCallInsn :=
  fun cu info state target_method unused direct_code direct_method type =>
  let cg := cg cu in
  if negb (direct_code =? 0) && negb (direct_method =? 0) then
    if state =? 0 then
      (* Get the current Method* [sets kArg0] *)
      (if negb (direct_code =? kUnsignedMinusOne) then
         when (negb (is_isa cu kX86))
           (emit_ (LoadConstant (TargetReg cg kInvokeTgt) (to_int32 direct_code)))
       else
         when (negb (is_isa cu kX86))
           (emit_ (LoadCodeAddress target_method type kInvokeTgt))) ;;
      (if negb (direct_method =? kUnsignedMinusOne) then
         emit_ (LoadConstant (TargetReg cg kArg0) (to_int32 direct_method))
       else
         emit_ (LoadMethodAddress target_method type kArg0)) ;;
      ret (state + 1)
    else ret (-1)
  else
    if state =? 0 then
      (* Get the current Method* [sets kArg0] *)
      emit_ (LoadCurrMethodDirect (TargetReg cg kArg0)) ;;
      ret (state + 1)
    else if state =? 1 then
      (* Get method->dex_cache_resolved_methods_ *)
      emit_ (LoadWordDisp (TargetReg cg kArg0) (DexCacheResolvedMethodsOffset rt)
               (TargetReg cg kArg0)) ;;
      (* Set up direct code if known. *)
      when (negb (direct_code =? 0))
        (if negb (direct_code =? kUnsignedMinusOne) then
           emit_ (LoadConstant (TargetReg cg kInvokeTgt) (to_int32 direct_code))
         else
           when (negb (is_isa cu kX86))
             (CHECK (dex_method_index target_method
                       <? NumMethodIds cg (dex_file target_method)) ;;
              emit_ (LoadCodeAddress target_method type kInvokeTgt))) ;;
      ret (state + 1)
    else if state =? 2 then
      (* Grab target method* *)
      CHECK (cu_dex_file cu =? dex_file target_method) ;;
      emit_ (LoadWordDisp (TargetReg cg kArg0)
               (to_int32 (ArrayDataOffset rt 4 + dex_method_index target_method * 4))
               (TargetReg cg kArg0)) ;;
      ret (state + 1)
    else if state =? 3 then
      (* Grab the code from the method* *)
      if negb (is_isa cu kX86) then
        when (direct_code =? 0)
          (emit_ (LoadWordDisp (TargetReg cg kArg0)
                    (EntryPointFromQuickCompiledCodeOffset rt)
                    (TargetReg cg kInvokeTgt))) ;;
        ret (state + 1)
      else
        (* Intentional fallthrough for x86 *)
        ret (-1)
    else ret (-1).

Definition NextVCallInsn : NextCallInsn :=
  fun cu info state target_method method_idx unused unused2 unused3 =>
  let cg := cg cu in
  if state =? 0 then
    (* Get "this" [set kArg1] *)
    rl_arg <- arg_at info 0 ;;
    emit_ (LoadValueDirectFixed rl_arg (TargetReg cg kArg1)) ;;
    ret (state + 1)
  else if state =? 1 then
    (* Is "this" null? [use kArg1] *)
    emit_ (GenNullCheck (TargetReg cg kArg1) (opt_flags info)) ;;
    (* get this->klass_ [use kArg1, set kInvokeTgt] *)
    emit_ (LoadWordDisp (TargetReg cg kArg1) (ClassOffset rt) (TargetReg cg kInvokeTgt)) ;;
    emit_ (MarkPossibleNullPointerException (opt_flags info)) ;;
    ret (state + 1)
  else if state =? 2 then
    (* Get this->klass_->vtable [usr kInvokeTgt, set kInvokeTgt] *)
    emit_ (LoadWordDisp (TargetReg cg kInvokeTgt) (VTableOffset rt)
             (TargetReg cg kInvokeTgt)) ;;
    ret (state + 1)
  else if state =? 3 then
    (* Get target method [use kInvokeTgt, set kArg0] *)
    emit_ (LoadWordDisp (TargetReg cg kInvokeTgt)
             (to_int32 (method_idx * 4 + ArrayDataOffset rt 4))
             (TargetReg cg kArg0)) ;;
    ret (state + 1)
  else if state =? 4 then
    (* Get the compiled code address [uses kArg0, sets kInvokeTgt] *)
    if negb (is_isa cu kX86) then
      emit_ (LoadWordDisp (TargetReg cg kArg0)
               (EntryPointFromQuickCompiledCodeOffset rt)
               (TargetReg cg kInvokeTgt)) ;;
      ret (state + 1)
    else
      (* Intentional fallthrough for X86 *)
      ret (-1)
  else ret (-1).

Definition NextInterfaceCallInsn : NextCallInsn :=
  fun cu info state target_method method_idx unused direct_method unused2 =>
  let cg := cg cu in
  if state =? 0 then
    (* Set target method index in case of conflict
       [set kHiddenArg, kHiddenFpArg (x86)] *)
    CHECK (dex_method_index target_method
             <? NumMethodIds cg (dex_file target_method)) ;;
    emit_ (LoadConstant (TargetReg cg kHiddenArg)
             (to_int32 (dex_method_index target_method))) ;;
    when (is_isa cu kX86)
      (emit_ (OpRegCopy (TargetReg cg kHiddenFpArg) (TargetReg cg kHiddenArg))) ;;
    ret (state + 1)
  else if state =? 1 then
    (* Get "this" [set kArg1] *)
    rl_arg <- arg_at info 0 ;;
    emit_ (LoadValueDirectFixed rl_arg (TargetReg cg kArg1)) ;;
    ret (state + 1)
  else if state =? 2 then
    (* Is "this" null? [use kArg1] *)
    emit_ (GenNullCheck (TargetReg cg kArg1) (opt_flags info)) ;;
    (* Get this->klass_ [use kArg1, set kInvokeTgt] *)
    emit_ (LoadWordDisp (TargetReg cg kArg1) (ClassOffset rt) (TargetReg cg kInvokeTgt)) ;;
    emit_ (MarkPossibleNullPointerException (opt_flags info)) ;;
    ret (state + 1)
  else if state =? 3 then
    (* Get this->klass_->imtable [use kInvokeTgt, set kInvokeTgt] *)
    emit_ (LoadWordDisp (TargetReg cg kInvokeTgt) (ImTableOffset rt)
             (TargetReg cg kInvokeTgt)) ;;
    ret (state + 1)
  else if state =? 4 then
    (* Get target method [use kInvokeTgt, set kArg0] *)
    emit_ (LoadWordDisp (TargetReg cg kInvokeTgt)
             (to_int32 ((method_idx mod kImtSize rt) * 4 + ArrayDataOffset rt 4))
             (TargetReg cg kArg0)) ;;
    ret (state + 1)
  else if state =? 5 then
    (* Get the compiled code address [use kArg0, set kInvokeTgt] *)
    if negb (is_isa cu kX86) then
      emit_ (LoadWordDisp (TargetReg cg kArg0)
               (EntryPointFromQuickCompiledCodeOffset rt)
               (TargetReg cg kInvokeTgt)) ;;
      ret (state + 1)
    else
      (* Intentional fallthrough for X86 *)
      ret (-1)
  else ret (-1).

(** The base method is not fully resolved at compile time: bail to a
    runtime helper. *)
Definition NextInvokeInsnSP (cu : CompilationUnit) (info : CallInfo)
    (trampoline : Z) (state : Z) (target_method : MethodReference)
    (method_idx : Z) : M Z :=
  let cg := cg cu in
  if state =? 0 then
    when (negb (is_isa cu kX86))
      (* Load trampoline target *)
      (emit_ (LoadWordDisp (TargetReg cg kSelf) trampoline (TargetReg cg kInvokeTgt))) ;;
    (* Load kArg0 with method index *)
    CHECK (cu_dex_file cu =? dex_file target_method) ;;
    emit_ (LoadConstant (TargetReg cg kArg0)
             (to_int32 (dex_method_index target_method))) ;;
    ret 1
  else ret (-1).

Definition NextStaticCallInsnSP : NextCallInsn :=
  fun cu info state target_method unused unused2 unused3 unused4 =>
  let trampoline := QUICK_ENTRYPOINT_OFFSET rt pInvokeStaticTrampolineWithAccessCheck in
  NextInvokeInsnSP cu info trampoline state target_method 0.

Definition NextDirectCallInsnSP : NextCallInsn :=
  fun cu info state target_method unused unused2 unused3 unused4 =>
  let trampoline := QUICK_ENTRYPOINT_OFFSET rt pInvokeDirectTrampolineWithAccessCheck in
  NextInvokeInsnSP cu info trampoline state target_method 0.

Definition NextSuperCallInsnSP : NextCallInsn :=
  fun cu info state target_method unused unused2 unused3 unused4 =>
  let trampoline := QUICK_ENTRYPOINT_OFFSET rt pInvokeSuperTrampolineWithAccessCheck in
  NextInvokeInsnSP cu info trampoline state target_method 0.

Definition NextVCallInsnSP : NextCallInsn :=
  fun cu info state target_method unused unused2 unused3 unused4 =>
  let trampoline := QUICK_ENTRYPOINT_OFFSET rt pInvokeVirtualTrampolineWithAccessCheck in
  NextInvokeInsnSP cu info trampoline state target_method 0.

Definition NextInterfaceCallInsnWithAccessCheck : NextCallInsn :=
  fun cu info state target_method unused unused2 unused3 unused4 =>
  let trampoline := QUICK_ENTRYPOINT_OFFSET rt pInvokeInterfaceTrampolineWithAccessCheck in
  NextInvokeInsnSP cu info trampoline state target_method 0.


(** ** Loops

    A C loop [while (cond) body] over the loop variables [x].  The bound
    [fuel] limits the number of iterations; every use below is shown to pass
    enough. *)
Fixpoint while_ {X : Type} (fuel : nat) (cond : X -> bool) (body : X -> M X)
    (x : X) : M X :=
  if cond x then
    match fuel with
    | O => stop OutOfFuel
    | S n => x' <- body x ;; while_ n cond body x'
    end
  else ret x.

(** Log a utility call and read the value it returns. *)
Definition call_r {A} (o : Op) (f : list Op -> A) : M A :=
  r <- ask f ;; emit_ o ;; ret r.

(** [promotion_map_[i]] *)
Definition promotion_map_at (cu : CompilationUnit) (i : Z) : M PromotionMap :=
  if i <? 0 then stop BadAccess
  else match nth_error (promotion_map_ (cg cu)) (Z.to_nat i) with
       | Some p => ret p
       | None => stop BadAccess
       end.

(** [ArgLocs[i]] *)
Definition loc_at (ArgLocs : list RegLocation) (i : Z) : M RegLocation :=
  if i <? 0 then stop BadAccess
  else match nth_error ArgLocs (Z.to_nat i) with
       | Some rl => ret rl
       | None => stop BadAccess
       end.

Definition is_phys (l : RegLocationType) : bool := RegLocationType_eqb l kLocPhysReg.

(** ** FlushIns *)

(** The body of the loop of [FlushIns] for incoming argument word [i]. *)
Definition FlushIns_word (cu : CompilationUnit) (ArgLocs : list RegLocation)
    (start_vreg i : Z) : M unit :=
  let cg := cg cu in
  v_map <- promotion_map_at cu (start_vreg + i) ;;
  let reg := GetArgMappingToPhysicalReg cg i in
  if negb (reg =? INVALID_REG rt) then
    (* If arriving in register *)
    t_loc <- loc_at ArgLocs i ;;
    need_flush <-
      (if is_phys (core_location v_map) && negb (fp t_loc) then
         emit_ (OpRegCopy (core_reg v_map) reg) ;; ret false
       else if is_phys (fp_location v_map) && fp t_loc then
         emit_ (OpRegCopy (FpReg v_map) reg) ;; ret false
       else ret true) ;;
    (* For wide args, force flush if not fully promoted *)
    need_flush <-
      (if wide t_loc then
         p_map <- promotion_map_at cu
                    (start_vreg + i + (if high_word t_loc then -1 else 1)) ;;
         (* Is only half promoted? *)
         let need_flush := need_flush
               || (negb (RegLocationType_eqb (core_location p_map) (core_location v_map))
                   || negb (RegLocationType_eqb (fp_location p_map) (fp_location v_map))) in
         if is_isa cu kThumb2 && fp t_loc && negb need_flush then
           (* both halves of the double are promoted: make sure they are in
              a usable form *)
           let lowreg_index := start_vreg + i + (if high_word t_loc then -1 else 0) in
           lo <- promotion_map_at cu lowreg_index ;;
           hi <- promotion_map_at cu (lowreg_index + 1) ;;
           let low_reg := FpReg lo in
           let high_reg := FpReg hi in
           if negb (Z.land low_reg 1 =? 0) || negb (high_reg =? low_reg + 1)
           then ret true else ret need_flush
         else ret need_flush
       else ret need_flush) ;;
    when need_flush
      (emit_ (StoreBaseDisp (TargetReg cg kSp) (SRegOffset cg (start_vreg + i)) reg kWord))
  else
    (* If arriving in frame & promoted *)
    when (is_phys (core_location v_map))
      (emit_ (LoadWordDisp (TargetReg cg kSp) (SRegOffset cg (start_vreg + i))
                (core_reg v_map))) ;;
    when (is_phys (fp_location v_map))
      (emit_ (LoadWordDisp (TargetReg cg kSp) (SRegOffset cg (start_vreg + i))
                (FpReg v_map))).

Definition FlushIns (cu : CompilationUnit) (ArgLocs : list RegLocation)
    (rl_method : RegLocation) : M unit :=
  let cg := cg cu in
  (* Dummy up a RegLocation for the incoming Method* *)
  let rl_src := rl_method in
  let rl_src := set_location kLocPhysReg rl_src in
  let rl_src := set_reg (mkRegStorage k32BitSolo (TargetReg cg kArg0) (INVALID_REG rt)) rl_src in
  let rl_src := set_home false rl_src in
  emit_ (MarkLive (GetReg (reg rl_src)) (s_reg_low rl_src)) ;;
  emit_ (StoreValue rl_method rl_src) ;;
  (* If Method* has been promoted, explicitly flush *)
  when (is_phys (location rl_method))
    (emit_ (StoreWordDisp (TargetReg cg kSp) 0 (TargetReg cg kArg0))) ;;
  if num_ins cu =? 0 then ret tt
  else
    let start_vreg := num_dalvik_registers cu - num_ins cu in
    while_ (Z.to_nat (num_ins cu)) (fun i => i <? num_ins cu)
      (fun i => FlushIns_word cu ArgLocs start_vreg i ;; ret (i + 1)) 0 ;;
    ret tt.

(** ** LoadArgRegs *)

(** The body of the loop of [LoadArgRegs], with the increment of the [for],
    over the loop variables [(next_reg, next_arg, call_state)]. *)
Definition LoadArgRegs_body (cu : CompilationUnit) (info : CallInfo)
    (next_call_insn : NextCallInsn) (target_method : MethodReference)
    (vtable_idx direct_code direct_method : Z) (type : InvokeType)
    : Z * Z * Z -> M (Z * Z * Z) :=
  fun '(next_reg, next_arg, call_state) =>
  let cg := cg cu in
  rl_arg <- arg_at info next_arg ;;
  let next_arg := next_arg + 1 in
  rl_arg <- ask (fun l => UpdateRawLoc cg l rl_arg) ;;
  '(next_reg, next_arg) <-
    (if wide rl_arg && (next_reg <=? TargetReg cg kArg2) then
       emit_ (LoadValueDirectWideFixed rl_arg next_reg (next_reg + 1)) ;;
       ret (next_reg + 1, next_arg + 1)
     else
       let rl_arg :=
         if wide rl_arg then set_is_const false (set_wide false rl_arg)
         else rl_arg in
       emit_ (LoadValueDirectFixed rl_arg next_reg) ;;
       ret (next_reg, next_arg)) ;;
  call_state <- next_call_insn cu info call_state target_method vtable_idx
                  direct_code direct_method type ;;
  ret (next_reg + 1, next_arg, call_state).

Definition LoadArgRegs (cu : CompilationUnit) (info : CallInfo) (call_state : Z)
    (next_call_insn : NextCallInsn) (target_method : MethodReference)
    (vtable_idx direct_code direct_method : Z) (type : InvokeType)
    (skip_this : bool) : M Z :=
  let cg := cg cu in
  let last_arg_reg := TargetReg cg kArg3 in
  let next_reg := TargetReg cg kArg1 in
  let next_arg := 0 in
  let '(next_reg, next_arg) :=
    if skip_this then (next_reg + 1, next_arg + 1) else (next_reg, next_arg) in
  '(_, _, call_state) <-
    while_ (Z.to_nat (last_arg_reg - next_reg + 1))
      (fun '(next_reg, next_arg, _) =>
         (next_reg <=? last_arg_reg) && (next_arg <? num_arg_words info))
      (LoadArgRegs_body cu info next_call_insn target_method vtable_idx
         direct_code direct_method type)
      (next_reg, next_arg, call_state) ;;
  ret call_state.

(** ** Runtime helper calls *)

(** Part 1 of a helper call is a NOP for x86, which has a memory call. *)
Definition CallHelperSetup (cu : CompilationUnit) (helper_offset : Z) : M Z :=
  if is_isa cu kX86 then ret 0
  else call_r (LoadHelper helper_offset)
         (fun l => LoadHelper_result (cg cu) l helper_offset).

(** NOTE: if r_tgt is a temp, it will be freed following use *)
Definition CallHelper (cu : CompilationUnit) (r_tgt helper_offset : Z)
    (safepoint_pc : bool) : M LIRptr :=
  call_inst <-
    (if is_isa cu kX86 then emit (OpThreadMem kOpBlx helper_offset)
     else
       call_inst <- emit (OpReg kOpBlx r_tgt) ;;
       emit_ (FreeTemp r_tgt) ;;
       ret call_inst) ;;
  when safepoint_pc (emit_ (MarkSafepointPC call_inst)) ;;
  ret call_inst.

Definition CallRuntimeHelperRegRegImm (cu : CompilationUnit)
    (helper_offset arg0 arg1 arg2 : Z) (safepoint_pc : bool) : M unit :=
  let cg := cg cu in
  r_tgt <- CallHelperSetup cu helper_offset ;;
  (* check copy into arg0 won't clobber arg1 *)
  DCHECK (negb (TargetReg cg kArg0 =? arg1)) ;;
  emit_ (OpRegCopy (TargetReg cg kArg0) arg0) ;;
  emit_ (OpRegCopy (TargetReg cg kArg1) arg1) ;;
  emit_ (LoadConstant (TargetReg cg kArg2) arg2) ;;
  emit_ ClobberCallerSave ;;
  CallHelper cu r_tgt helper_offset safepoint_pc ;;
  ret tt.

(** ** Argument marshalling *)

(** Load up to 5 arguments, the first three of which will be in
    kArg1 .. kArg3.  [pcrLabel] tells whether the out-parameter is non-null;
    what is stored through it is the result of the logged [GenNullCheck]. *)
Definition GenDalvikArgsNoRange (cu : CompilationUnit) (info : CallInfo)
    (call_state : Z) (pcrLabel : bool) (next_call_insn : NextCallInsn)
    (target_method : MethodReference) (vtable_idx direct_code direct_method : Z)
    (type : InvokeType) (skip_this : bool) : M Z :=
  let cg := cg cu in
  let next := fun call_state =>
    next_call_insn cu info call_state target_method vtable_idx
      direct_code direct_method type in
  (* If no arguments, just return *)
  if num_arg_words info =? 0 then ret call_state
  else
    call_state <- next call_state ;;
    DCHECK (num_arg_words info <=? 5) ;;
    call_state <-
      (if num_arg_words info >? 3 then
         let next_use := 3 in
         (* Detect special case of wide arg spanning arg3/arg4 *)
         rl_use0 <- arg_at info 0 ;;
         rl_use1 <- arg_at info 1 ;;
         rl_use2 <- arg_at info 2 ;;
         '(next_use, call_state) <-
           (if ((negb (wide rl_use0) && negb (wide rl_use1)) || wide rl_use0)
               && wide rl_use2 then
              (* Wide spans, we need the 2nd half of uses[2]. *)
              rl_arg <- ask (fun l => UpdateLocWide cg l rl_use2) ;;
              '(reg, call_state) <-
                (if is_phys (location rl_arg) then
                   ret (GetHighReg (reg rl_arg), call_state)
                 else
                   (* kArg2 & rArg3 can safely be used here *)
                   let reg := TargetReg cg kArg3 in
                   emit_ (LoadWordDisp (TargetReg cg kSp)
                            (SRegOffset cg (s_reg_low rl_arg) + 4) reg) ;;
                   call_state <- next call_state ;;
                   ret (reg, call_state)) ;;
              emit_ (StoreBaseDisp (TargetReg cg kSp) ((next_use + 1) * 4) reg kWord) ;;
              call_state <- next call_state ;;
              ret (next_use + 1, call_state)
            else ret (next_use, call_state)) ;;
         (* Loop through the rest *)
         '(_, call_state) <-
           while_ (Z.to_nat (num_arg_words info - next_use))
             (fun '(next_use, _) => next_use <? num_arg_words info)
             (fun '(next_use, call_state) =>
                rl_arg <- arg_at info next_use ;;
                rl_arg <- ask (fun l => UpdateRawLoc cg l rl_arg) ;;
                '(low_reg, high_reg, call_state) <-
                  (if is_phys (location rl_arg) then
                     let low_reg := GetReg (reg rl_arg) in
                     let high_reg :=
                       if wide rl_arg then GetHighReg (reg rl_arg) else -1 in
                     ret (low_reg, high_reg, call_state)
                   else
                     let low_reg := TargetReg cg kArg2 in
                     high_reg <-
                       (if wide rl_arg then
                          let high_reg := TargetReg cg kArg3 in
                          emit_ (LoadValueDirectWideFixed rl_arg low_reg high_reg) ;;
                          ret high_reg
                        else
                          emit_ (LoadValueDirectFixed rl_arg low_reg) ;;
                          ret (-1)) ;;
                     call_state <- next call_state ;;
                     ret (low_reg, high_reg, call_state)) ;;
                let outs_offset := (next_use + 1) * 4 in
                next_use <-
                  (if wide rl_arg then
                     emit_ (StoreBaseDispWide (TargetReg cg kSp) outs_offset
                              low_reg high_reg) ;;
                     ret (next_use + 2)
                   else
                     emit_ (StoreWordDisp (TargetReg cg kSp) outs_offset low_reg) ;;
                     ret (next_use + 1)) ;;
                call_state <- next call_state ;;
                ret (next_use, call_state))
             (next_use, call_state) ;;
         ret call_state
       else ret call_state) ;;
    call_state <- LoadArgRegs cu info call_state next_call_insn target_method
                    vtable_idx direct_code direct_method type skip_this ;;
    when pcrLabel (emit_ (GenNullCheck (TargetReg cg kArg1) (opt_flags info))) ;;
    ret call_state.

(** The x86 stack copy of [GenDalvikArgsRange]: the body of the loop, for the
    loop variables [(current_src_offset, current_dest_offset,
    regs_left_to_pass_via_stack)]. *)
Definition X86StackCopy_step (cu : CompilationUnit) : Z * Z * Z -> M (Z * Z * Z) :=
  fun '(current_src_offset, current_dest_offset, regs_left_to_pass_via_stack) =>
  let cg := cg cu in
  (* This is based on the knowledge that the stack itself is 16-byte aligned. *)
  let src_is_16b_aligned := Z.land current_src_offset 15 =? 0 in
  let dest_is_16b_aligned := Z.land current_dest_offset 15 =? 0 in
  bytes_to_move <-
    (if (regs_left_to_pass_via_stack =? 4)
        || ((regs_left_to_pass_via_stack >? 4)
            && (src_is_16b_aligned || dest_is_16b_aligned)) then
       (* Moving 128-bits via xmm register. *)
       let bytes_to_move := 4 * 4 in
       (* Allocate a free xmm temp. *)
       temp <- call_r AllocTempDouble (AllocTempDouble_result cg) ;;
       CHECK (temp >? 0) ;;
       let src_is_8b_aligned := Z.land current_src_offset 7 =? 0 in
       let dest_is_8b_aligned := Z.land current_dest_offset 7 =? 0 in
       '(ld1, ld2) <-
         (if src_is_16b_aligned then
            ld1 <- emit (OpMovRegMem temp (TargetReg cg kSp) current_src_offset kMovA128FP) ;;
            ret (Some ld1, None)
          else if src_is_8b_aligned then
            ld1 <- emit (OpMovRegMem temp (TargetReg cg kSp) current_src_offset kMovLo128FP) ;;
            ld2 <- emit (OpMovRegMem temp (TargetReg cg kSp)
                           (to_int32 (current_src_offset + Z.shiftr bytes_to_move 1))
                           kMovHi128FP) ;;
            ret (Some ld1, Some ld2)
          else
            ld1 <- emit (OpMovRegMem temp (TargetReg cg kSp) current_src_offset kMovU128FP) ;;
            ret (Some ld1, None)) ;;
       '(st1, st2) <-
         (if dest_is_16b_aligned then
            st1 <- emit (OpMovMemReg (TargetReg cg kSp) current_dest_offset temp kMovA128FP) ;;
            ret (Some st1, None)
          else if dest_is_8b_aligned then
            st1 <- emit (OpMovMemReg (TargetReg cg kSp) current_dest_offset temp kMovLo128FP) ;;
            st2 <- emit (OpMovMemReg (TargetReg cg kSp)
                           (to_int32 (current_dest_offset + Z.shiftr bytes_to_move 1))
                           temp kMovHi128FP) ;;
            ret (Some st1, Some st2)
          else
            st1 <- emit (OpMovMemReg (TargetReg cg kSp) current_dest_offset temp kMovU128FP) ;;
            ret (Some st1, None)) ;;
       match ld1 with
       | Some ld1 =>
           match ld2 with
           | Some ld2 =>
               (* For 64-bit load we can actually set up the aliasing information. *)
               emit_ (AnnotateDalvikRegAccess ld1 (Z.shiftr current_src_offset 2) true true) ;;
               emit_ (AnnotateDalvikRegAccess ld2
                        (Z.shiftr (to_uint32 (current_src_offset + Z.shiftr bytes_to_move 1)) 2)
                        true true)
           | None =>
               (* Set barrier for 128-bit load. *)
               emit_ (SetMemRefType ld1 true) ;;
               emit_ (SetDefMaskEncodeAll ld1)
           end
       | None => ret tt
       end ;;
       match st1 with
       | Some st1 =>
           match st2 with
           | Some st2 =>
               (* For 64-bit store we can actually set up the aliasing information. *)
               emit_ (AnnotateDalvikRegAccess st1 (Z.shiftr current_dest_offset 2) false true) ;;
               emit_ (AnnotateDalvikRegAccess st2
                        (Z.shiftr (to_uint32 (current_dest_offset + Z.shiftr bytes_to_move 1)) 2)
                        false true)
           | None =>
               (* Set barrier for 128-bit store. *)
               emit_ (SetMemRefType st1 false) ;;
               emit_ (SetDefMaskEncodeAll st1)
           end
       | None => ret tt
       end ;;
       (* Free the temporary used for the data movement. *)
       emit_ (FreeTemp temp) ;;
       ret bytes_to_move
     else
       (* Moving 32-bits via general purpose register. *)
       let bytes_to_move := 4 in
       (* Instead of allocating a new temp, simply reuse one of the registers
          being used for argument passing. *)
       let temp := TargetReg cg kArg3 in
       (* Now load the argument VR and store to the outs. *)
       emit_ (LoadWordDisp (TargetReg cg kSp) current_src_offset temp) ;;
       emit_ (StoreWordDisp (TargetReg cg kSp) current_dest_offset temp) ;;
       ret bytes_to_move) ;;
  ret (to_int32 (current_src_offset + bytes_to_move),
       to_int32 (current_dest_offset + bytes_to_move),
       to_int32 (regs_left_to_pass_via_stack - Z.shiftr bytes_to_move 2)).

Definition X86StackCopy (cu : CompilationUnit)
    (current_src_offset current_dest_offset regs_left_to_pass_via_stack : Z)
    : M (Z * Z * Z) :=
  while_ (Z.to_nat regs_left_to_pass_via_stack)
    (fun '(_, _, regs_left_to_pass_via_stack) => regs_left_to_pass_via_stack >? 0)
    (X86StackCopy_step cu)
    (current_src_offset, current_dest_offset, regs_left_to_pass_via_stack).

(** May have 0+ arguments (also used for jumbo).  Source virtual registers
    may be in physical registers, so may need to be flushed to home location
    before copying. *)
Definition GenDalvikArgsRange (cu : CompilationUnit) (info : CallInfo)
    (call_state : Z) (pcrLabel : bool) (next_call_insn : NextCallInsn)
    (target_method : MethodReference) (vtable_idx direct_code direct_method : Z)
    (type : InvokeType) (skip_this : bool) : M Z :=
  let cg := cg cu in
  let next := fun call_state =>
    next_call_insn cu info call_state target_method vtable_idx
      direct_code direct_method type in
  (* If we can treat it as non-range (Jumbo ops will use range form) *)
  if num_arg_words info <=? 5 then
    GenDalvikArgsNoRange cu info call_state pcrLabel next_call_insn target_method
      vtable_idx direct_code direct_method type skip_this
  else
    (* Scan the rest of the args - if in phys_reg flush to memory *)
    while_ (Z.to_nat (num_arg_words info))
      (fun next_arg => next_arg <? num_arg_words info)
      (fun next_arg =>
         loc <- arg_at info next_arg ;;
         if wide loc then
           loc <- ask (fun l => UpdateLocWide cg l loc) ;;
           when ((next_arg >=? 2) && is_phys (location loc))
             (emit_ (StoreBaseDispWide (TargetReg cg kSp) (SRegOffset cg (s_reg_low loc))
                       (GetReg (reg loc)) (GetHighReg (reg loc)))) ;;
           ret (next_arg + 2)
         else
           loc <- ask (fun l => UpdateLoc cg l loc) ;;
           when ((next_arg >=? 3) && is_phys (location loc))
             (emit_ (StoreBaseDisp (TargetReg cg kSp) (SRegOffset cg (s_reg_low loc))
                       (GetReg (reg loc)) kWord)) ;;
           ret (next_arg + 1))
      0 ;;
    (* Logic below assumes that Method pointer is at offset zero from SP. *)
    DCHECK (VRegOffset cg (kVRegMethodPtrBaseReg rt) =? 0) ;;
    (* The first 3 arguments are passed via registers. *)
    let outs_offset := 4 (* Method* *) + 3 * 4 in
    args3 <- arg_at info 3 ;;
    let start_offset := SRegOffset cg (s_reg_low args3) in
    let regs_left_to_pass_via_stack := num_arg_words info - 3 in
    DCHECK (regs_left_to_pass_via_stack >? 0) ;;
    call_state <-
      (if is_isa cu kThumb2 && (regs_left_to_pass_via_stack <=? 16) then
         (* Use vldm/vstm pair using kArg3 as a temp *)
         call_state <- next call_state ;;
         emit_ (OpRegRegImm kOpAdd (TargetReg cg kArg3) (TargetReg cg kSp) start_offset) ;;
         ld <- emit (OpVldm (TargetReg cg kArg3) regs_left_to_pass_via_stack) ;;
         (* TUNING: loosen barrier *)
         emit_ (SetDefMaskEncodeAll ld) ;;
         emit_ (SetMemRefType ld true) ;;
         call_state <- next call_state ;;
         emit_ (OpRegRegImm kOpAdd (TargetReg cg kArg3) (TargetReg cg kSp)
                  (4 (* Method* *) + 3 * 4)) ;;
         call_state <- next call_state ;;
         st <- emit (OpVstm (TargetReg cg kArg3) regs_left_to_pass_via_stack) ;;
         emit_ (SetMemRefType st false) ;;
         emit_ (SetDefMaskEncodeAll st) ;;
         call_state <- next call_state ;;
         ret call_state
       else if is_isa cu kX86 then
         let current_src_offset := start_offset in
         let current_dest_offset := outs_offset in
         X86StackCopy cu current_src_offset current_dest_offset
           regs_left_to_pass_via_stack ;;
         ret call_state
       else
         (* Generate memcpy *)
         emit_ (OpRegRegImm kOpAdd (TargetReg cg kArg0) (TargetReg cg kSp) outs_offset) ;;
         emit_ (OpRegRegImm kOpAdd (TargetReg cg kArg1) (TargetReg cg kSp) start_offset) ;;
         CallRuntimeHelperRegRegImm cu (QUICK_ENTRYPOINT_OFFSET rt pMemcpy)
           (TargetReg cg kArg0) (TargetReg cg kArg1)
           (to_int32 ((num_arg_words info - 3) * 4)) false ;;
         ret call_state) ;;
    call_state <- LoadArgRegs cu info call_state next_call_insn target_method
                    vtable_idx direct_code direct_method type skip_this ;;
    call_state <- next call_state ;;
    when pcrLabel (emit_ (GenNullCheck (TargetReg cg kArg1) (opt_flags info))) ;;
    ret call_state.

(** ** Call emission *)

Definition InvokeType_eqb (a b : InvokeType) : bool :=
  match a, b with
  | kStatic, kStatic | kDirect, kDirect | kVirtual, kVirtual
  | kSuper, kSuper | kInterface, kInterface => true
  | _, _ => false
  end.

(** No dispatch routine of this file is still running after this many
    calls: bound of the loop that finishes the call sequence. *)
Definition kMaxCallSteps : nat := 8.

Definition GenInvokeNoInline (cu : CompilationUnit) (info : CallInfo) : M CallInfo :=
  let cg := cg cu in
  let call_state := 0 in
  emit_ FlushAllRegs ;;  (* Everything to home location *)
  (* Explicit register usage *)
  emit_ LockCallTemps ;;
  let method_info := GetMethodLoweringInfo cg (mir info) in
  emit_ (ProcessedInvoke (GetInvokeType method_info) (StatsFlags method_info)) ;;
  let original_type := GetInvokeType method_info in
  let info := set_type (GetSharpType method_info) info in
  let fast_path := FastPath method_info in
  '(p_null_ck, next_call_insn, skip_this) <-
    (match type info with
     | kInterface =>
         ret (false,
              if fast_path then NextInterfaceCallInsn
              else NextInterfaceCallInsnWithAccessCheck,
              fast_path)
     | kDirect =>
         ret (fast_path,
              if fast_path then NextSDCallInsn else NextDirectCallInsnSP,
              false)
     | kStatic =>
         ret (false,
              if fast_path then NextSDCallInsn else NextStaticCallInsnSP,
              false)
     | kSuper =>
         DCHECK (negb fast_path) ;;  (* Fast path is a direct call. *)
         ret (false, NextSuperCallInsnSP, false)
     | kVirtual =>
         ret (false,
              if fast_path then NextVCallInsn else NextVCallInsnSP,
              fast_path)
     end) ;;
  let target_method := GetTargetMethod method_info in
  call_state <-
    (if negb (is_range info) then
       GenDalvikArgsNoRange cu info call_state p_null_ck next_call_insn target_method
         (VTableIndex method_info) (DirectCode method_info) (DirectMethod method_info)
         original_type skip_this
     else
       GenDalvikArgsRange cu info call_state p_null_ck next_call_insn target_method
         (VTableIndex method_info) (DirectCode method_info) (DirectMethod method_info)
         original_type skip_this) ;;
  (* Finish up any of the call sequence not interleaved in arg loading *)
  while_ kMaxCallSteps (fun call_state => call_state >=? 0)
    (fun call_state =>
       next_call_insn cu info call_state target_method (VTableIndex method_info)
         (DirectCode method_info) (DirectMethod method_info) original_type)
    call_state ;;
  call_inst <-
    (if negb (is_isa cu kX86) then
       emit (OpReg kOpBlx (TargetReg cg kInvokeTgt))
     else
       if fast_path then
         if DirectCode method_info =? kUnsignedMinusOne then
           (* We can have the linker fixup a call relative. *)
           emit (CallWithLinkerFixup target_method (type info))
         else
           emit (OpMem kOpBlx (TargetReg cg kArg0)
                   (EntryPointFromQuickCompiledCodeOffset rt))
       else
         let trampoline :=
           match type info with
           | kInterface =>
               QUICK_ENTRYPOINT_OFFSET rt pInvokeInterfaceTrampolineWithAccessCheck
           | kDirect =>
               QUICK_ENTRYPOINT_OFFSET rt pInvokeDirectTrampolineWithAccessCheck
           | kStatic =>
               QUICK_ENTRYPOINT_OFFSET rt pInvokeStaticTrampolineWithAccessCheck
           | kSuper =>
               QUICK_ENTRYPOINT_OFFSET rt pInvokeSuperTrampolineWithAccessCheck
           | kVirtual =>
               QUICK_ENTRYPOINT_OFFSET rt pInvokeVirtualTrampolineWithAccessCheck
           end in
         emit (OpThreadMem kOpBlx trampoline)) ;;
  emit_ (MarkSafepointPC call_inst) ;;
  emit_ ClobberCallerSave ;;
  when (negb (RegLocationType_eqb (location (result info)) kLocInvalid))
    ((* We have a following MOVE_RESULT - do it now. *)
     if wide (result info) then
       ret_loc <- call_r (GetReturnWide (fp (result info)))
                    (fun l => GetReturnWide_result cg l (fp (result info))) ;;
       emit_ (StoreValueWide (result info) ret_loc)
     else
       ret_loc <- call_r (GetReturn (fp (result info)))
                    (fun l => GetReturn_result cg l (fp (result info))) ;;
       emit_ (StoreValue (result info) ret_loc)) ;;
  ret info.

(** ** Intrinsic launchpads *)

(** [IntrinsicLaunchpadPath::Compile]: the out-of-line retry block. *)
Definition IntrinsicLaunchpadPath_Compile (cu : CompilationUnit) (p : LaunchPad)
    : M CallInfo :=
  emit_ ResetRegPool ;;
  emit_ ResetDefTracking ;;
  label <- emit (GenerateTargetLabel (fromfast_ p)) ;;
  emit_ (SetOpcode label kPseudoIntrinsicRetry) ;;
  (* NOTE: GenInvokeNoInline() handles MarkSafepointPC. *)
  info <- GenInvokeNoInline cu (info_ p) ;;
  match cont_ p with
  | Some cont => emit_ (OpUnconditionalBranch cont)
  | None => ret tt
  end ;;
  ret info.

(** [resume] is [None] at the call sites that pass two arguments: the
    parameter defaults to [nullptr]. *)
Definition AddIntrinsicLaunchpad (info : CallInfo) (branch : option LIRptr)
    (resume : option LIRptr) : M unit :=
  AddSlowPath (mkLaunchPad info (offset info) branch resume).

(** ** Intrinsics *)

Definition InlineTarget (cu : CompilationUnit) (info : CallInfo) : M RegLocation :=
  if RegLocationType_eqb (location (result info)) kLocInvalid then
    call_r (GetReturn false) (fun l => GetReturn_result (cg cu) l false)
  else ret (result info).

Definition InlineTargetWide (cu : CompilationUnit) (info : CallInfo) : M RegLocation :=
  if RegLocationType_eqb (location (result info)) kLocInvalid then
    call_r (GetReturnWide false) (fun l => GetReturnWide_result (cg cu) l false)
  else ret (result info).

Definition do_LoadValue (cu : CompilationUnit) (rl : RegLocation) (k : RegisterClass)
    : M RegLocation :=
  call_r (LoadValue rl k) (fun l => LoadValue_result (cg cu) l rl k).

Definition do_LoadValueWide (cu : CompilationUnit) (rl : RegLocation) (k : RegisterClass)
    : M RegLocation :=
  call_r (LoadValueWide rl k) (fun l => LoadValueWide_result (cg cu) l rl k).

Definition do_EvalLoc (cu : CompilationUnit) (rl : RegLocation) (k : RegisterClass)
    (update : bool) : M RegLocation :=
  call_r (EvalLoc rl k update) (fun l => EvalLoc_result (cg cu) l rl k update).

Definition do_AllocTemp (cu : CompilationUnit) : M Z :=
  call_r AllocTemp (AllocTemp_result (cg cu)).

Definition GenInlinedCharAt (cu : CompilationUnit) (info : CallInfo)
    : M (bool * CallInfo) :=
  let cg := cg cu in
  if is_isa cu kMips then
    (* TODO - add Mips implementation *)
    ret (false, info)
  else
    (* Location of reference to data array *)
    let value_offset := StringValueOffset rt in
    (* Location of count *)
    let count_offset := StringCountOffset rt in
    (* Starting offset within data array *)
    let offset_offset := StringOffsetOffset rt in
    (* Start of char data with array_ *)
    let data_offset := ArrayDataOffset rt 2 in
    rl_obj <- arg_at info 0 ;;
    rl_idx <- arg_at info 1 ;;
    rl_obj <- do_LoadValue cu rl_obj kCoreReg ;;
    (* X86 wants to avoid putting a constant index into a register. *)
    rl_idx <- (if negb (is_isa cu kX86 && is_const rl_idx)
               then do_LoadValue cu rl_idx kCoreReg else ret rl_idx) ;;
    emit_ (GenNullCheck (GetReg (reg rl_obj)) (opt_flags info)) ;;
    let range_check := Z.land (opt_flags info) (MIR_IGNORE_RANGE_CHECK rt) =? 0 in
    '(range_check_branch, reg_off, reg_ptr) <-
      (if negb (is_isa cu kX86) then
         reg_off <- do_AllocTemp cu ;;
         reg_ptr <- do_AllocTemp cu ;;
         (* reg_max is read only when range_check holds *)
         reg_max <-
           (if range_check then
              reg_max <- do_AllocTemp cu ;;
              emit_ (LoadWordDisp (GetReg (reg rl_obj)) count_offset reg_max) ;;
              emit_ (MarkPossibleNullPointerException (opt_flags info)) ;;
              ret reg_max
            else ret 0) ;;
         emit_ (LoadWordDisp (GetReg (reg rl_obj)) offset_offset reg_off) ;;
         emit_ (MarkPossibleNullPointerException (opt_flags info)) ;;
         emit_ (LoadWordDisp (GetReg (reg rl_obj)) value_offset reg_ptr) ;;
         range_check_branch <-
           (if range_check then
              (* Set up a launch pad to allow retry in case of bounds violation *)
              emit_ (OpRegReg kOpCmp (GetReg (reg rl_idx)) reg_max) ;;
              emit_ (FreeTemp reg_max) ;;
              b <- emit (OpCondBranch kCondUge None) ;;
              ret (Some b)
            else ret None) ;;
         emit_ (OpRegImm kOpAdd reg_ptr data_offset) ;;
         ret (range_check_branch, reg_off, reg_ptr)
       else
         range_check_branch <-
           (if range_check then
              (* On x86, we can compare to memory directly *)
              if is_const rl_idx then
                b <- emit (OpCmpMemImmBranch kCondUlt (INVALID_REG rt)
                             (GetReg (reg rl_obj)) count_offset
                             (ConstantValue cg (orig_sreg rl_idx)) None) ;;
                ret (Some b)
              else
                emit_ (OpRegMem kOpCmp (GetReg (reg rl_idx)) (GetReg (reg rl_obj))
                         count_offset) ;;
                b <- emit (OpCondBranch kCondUge None) ;;
                ret (Some b)
            else ret None) ;;
         reg_off <- do_AllocTemp cu ;;
         reg_ptr <- do_AllocTemp cu ;;
         emit_ (LoadWordDisp (GetReg (reg rl_obj)) offset_offset reg_off) ;;
         emit_ (LoadWordDisp (GetReg (reg rl_obj)) value_offset reg_ptr) ;;
         ret (range_check_branch, reg_off, reg_ptr)) ;;
    (if is_const rl_idx then
       emit_ (OpRegImm kOpAdd reg_off (ConstantValue cg (orig_sreg rl_idx)))
     else
       emit_ (OpRegReg kOpAdd reg_off (GetReg (reg rl_idx)))) ;;
    emit_ (FreeTemp (GetReg (reg rl_obj))) ;;
    when (is_phys (location rl_idx)) (emit_ (FreeTemp (GetReg (reg rl_idx)))) ;;
    rl_dest <- InlineTarget cu info ;;
    rl_result <- do_EvalLoc cu rl_dest kCoreReg true ;;
    (if negb (is_isa cu kX86) then
       emit_ (LoadBaseIndexed reg_ptr reg_off (GetReg (reg rl_result)) 1 kUnsignedHalf)
     else
       emit_ (LoadBaseIndexedDisp reg_ptr reg_off 1 data_offset (GetReg (reg rl_result))
                (INVALID_REG rt) kUnsignedHalf (INVALID_SREG rt))) ;;
    emit_ (FreeTemp reg_off) ;;
    emit_ (FreeTemp reg_ptr) ;;
    emit_ (StoreValue rl_dest rl_result) ;;
    if range_check then
      DCHECK (match range_check_branch with Some _ => true | None => false end) ;;
      (* Record that we've already null checked. *)
      let info := set_opt_flags (Z.lor (opt_flags info) (MIR_IGNORE_NULL_CHECK rt)) info in
      AddIntrinsicLaunchpad info range_check_branch None ;;
      ret (true, info)
    else ret (true, info).

(** Generates an inlined String.is_empty or String.length. *)
Definition GenInlinedStringIsEmptyOrLength (cu : CompilationUnit) (info : CallInfo)
    (is_empty : bool) : M (bool * CallInfo) :=
  let cg := cg cu in
  if is_isa cu kMips then
    (* TODO - add Mips implementation *)
    ret (false, info)
  else
    (* dst = src.length(); *)
    rl_obj <- arg_at info 0 ;;
    rl_obj <- do_LoadValue cu rl_obj kCoreReg ;;
    rl_dest <- InlineTarget cu info ;;
    rl_result <- do_EvalLoc cu rl_dest kCoreReg true ;;
    emit_ (GenNullCheck (GetReg (reg rl_obj)) (opt_flags info)) ;;
    emit_ (LoadWordDisp (GetReg (reg rl_obj)) (StringCountOffset rt)
             (GetReg (reg rl_result))) ;;
    emit_ (MarkPossibleNullPointerException (opt_flags info)) ;;
    when is_empty
      ((* dst = (dst == 0); *)
       if is_isa cu kThumb2 then
         t_reg <- do_AllocTemp cu ;;
         emit_ (OpRegReg kOpNeg t_reg (GetReg (reg rl_result))) ;;
         emit_ (OpRegRegReg kOpAdc (GetReg (reg rl_result)) (GetReg (reg rl_result)) t_reg)
       else
         DCHECK (is_isa cu kX86) ;;
         emit_ (OpRegImm kOpSub (GetReg (reg rl_result)) 1) ;;
         emit_ (OpRegImm kOpLsr (GetReg (reg rl_result)) 31)) ;;
    emit_ (StoreValue rl_dest rl_result) ;;
    ret (true, info).

Definition OpSize_eqb (a b : OpSize) : bool :=
  match a, b with
  | kWord, kWord | kLong, kLong | kSingle, kSingle | kDouble, kDouble
  | kUnsignedHalf, kUnsignedHalf | kSignedHalf, kSignedHalf
  | kUnsignedByte, kUnsignedByte | kSignedByte, kSignedByte => true
  | _, _ => false
  end.

Definition GenInlinedReverseBytes (cu : CompilationUnit) (info : CallInfo)
    (size : OpSize) : M (bool * CallInfo) :=
  if is_isa cu kMips then
    (* TODO - add Mips implementation *)
    ret (false, info)
  else
    rl_src_i <- arg_at info 0 ;;
    rl_dest <- (if OpSize_eqb size kLong then InlineTargetWide cu info
                else InlineTarget cu info) ;;  (* result reg *)
    rl_result <- do_EvalLoc cu rl_dest kCoreReg true ;;
    (if OpSize_eqb size kLong then
       rl_i <- do_LoadValueWide cu rl_src_i kCoreReg ;;
       r_i_low <-
         (if GetReg (reg rl_i) =? GetReg (reg rl_result) then
            (* First REV shall clobber rl_result.reg.GetReg(), save the value
               in a temp for the second REV. *)
            r_i_low <- do_AllocTemp cu ;;
            emit_ (OpRegCopy r_i_low (GetReg (reg rl_i))) ;;
            ret r_i_low
          else ret (GetReg (reg rl_i))) ;;
       emit_ (OpRegReg kOpRev (GetReg (reg rl_result)) (GetHighReg (reg rl_i))) ;;
       emit_ (OpRegReg kOpRev (GetHighReg (reg rl_result)) r_i_low) ;;
       when (GetReg (reg rl_i) =? GetReg (reg rl_result)) (emit_ (FreeTemp r_i_low)) ;;
       emit_ (StoreValueWide rl_dest rl_result)
     else
       DCHECK (OpSize_eqb size kWord || OpSize_eqb size kSignedHalf) ;;
       let op := if OpSize_eqb size kWord then kOpRev else kOpRevsh in
       rl_i <- do_LoadValue cu rl_src_i kCoreReg ;;
       emit_ (OpRegReg op (GetReg (reg rl_result)) (GetReg (reg rl_i))) ;;
       emit_ (StoreValue rl_dest rl_result)) ;;
    ret (true, info).

Definition GenInlinedAbsInt (cu : CompilationUnit) (info : CallInfo)
    : M (bool * CallInfo) :=
  if is_isa cu kMips then
    (* TODO - add Mips implementation *)
    ret (false, info)
  else
    rl_src <- arg_at info 0 ;;
    rl_src <- do_LoadValue cu rl_src kCoreReg ;;
    rl_dest <- InlineTarget cu info ;;
    rl_result <- do_EvalLoc cu rl_dest kCoreReg true ;;
    sign_reg <- do_AllocTemp cu ;;
    (* abs(x) = y<=x>>31, (x+y)^y. *)
    emit_ (OpRegRegImm kOpAsr sign_reg (GetReg (reg rl_src)) 31) ;;
    emit_ (OpRegRegReg kOpAdd (GetReg (reg rl_result)) (GetReg (reg rl_src)) sign_reg) ;;
    emit_ (OpRegReg kOpXor (GetReg (reg rl_result)) sign_reg) ;;
    emit_ (StoreValue rl_dest rl_result) ;;
    ret (true, info).

Definition GenInlinedAbsLong (cu : CompilationUnit) (info : CallInfo)
    : M (bool * CallInfo) :=
  if is_isa cu kMips then
    (* TODO - add Mips implementation *)
    ret (false, info)
  else if is_isa cu kThumb2 then
    rl_src <- arg_at info 0 ;;
    rl_src <- do_LoadValueWide cu rl_src kCoreReg ;;
    rl_dest <- InlineTargetWide cu info ;;
    rl_result <- do_EvalLoc cu rl_dest kCoreReg true ;;
    sign_reg <- do_AllocTemp cu ;;
    (* abs(x) = y<=x>>31, (x+y)^y. *)
    emit_ (OpRegRegImm kOpAsr sign_reg (GetHighReg (reg rl_src)) 31) ;;
    emit_ (OpRegRegReg kOpAdd (GetReg (reg rl_result)) (GetReg (reg rl_src)) sign_reg) ;;
    emit_ (OpRegRegReg kOpAdc (GetHighReg (reg rl_result)) (GetHighReg (reg rl_src))
             sign_reg) ;;
    emit_ (OpRegReg kOpXor (GetReg (reg rl_result)) sign_reg) ;;
    emit_ (OpRegReg kOpXor (GetHighReg (reg rl_result)) sign_reg) ;;
    emit_ (StoreValueWide rl_dest rl_result) ;;
    ret (true, info)
  else
    DCHECK (is_isa cu kX86) ;;
    (* Reuse source registers to avoid running out of temps *)
    rl_src <- arg_at info 0 ;;
    rl_src <- do_LoadValueWide cu rl_src kCoreReg ;;
    rl_dest <- InlineTargetWide cu info ;;
    rl_result <- do_EvalLoc cu rl_dest kCoreReg true ;;
    emit_ (OpRegCopyWide (GetReg (reg rl_result)) (GetHighReg (reg rl_result))
             (GetReg (reg rl_src)) (GetHighReg (reg rl_src))) ;;
    emit_ (FreeTemp (GetReg (reg rl_src))) ;;
    emit_ (FreeTemp (GetHighReg (reg rl_src))) ;;
    sign_reg <- do_AllocTemp cu ;;
    (* abs(x) = y<=x>>31, (x+y)^y. *)
    emit_ (OpRegRegImm kOpAsr sign_reg (GetHighReg (reg rl_result)) 31) ;;
    emit_ (OpRegReg kOpAdd (GetReg (reg rl_result)) sign_reg) ;;
    emit_ (OpRegReg kOpAdc (GetHighReg (reg rl_result)) sign_reg) ;;
    emit_ (OpRegReg kOpXor (GetReg (reg rl_result)) sign_reg) ;;
    emit_ (OpRegReg kOpXor (GetHighReg (reg rl_result)) sign_reg) ;;
    emit_ (StoreValueWide rl_dest rl_result) ;;
    ret (true, info).

Definition GenInlinedAbsFloat (cu : CompilationUnit) (info : CallInfo)
    : M (bool * CallInfo) :=
  if is_isa cu kMips then
    (* TODO - add Mips implementation *)
    ret (false, info)
  else
    rl_src <- arg_at info 0 ;;
    rl_src <- do_LoadValue cu rl_src kCoreReg ;;
    rl_dest <- InlineTarget cu info ;;
    rl_result <- do_EvalLoc cu rl_dest kCoreReg true ;;
    signMask <- do_AllocTemp cu ;;
    emit_ (LoadConstant signMask 2147483647) ;;
    emit_ (OpRegRegReg kOpAnd (GetReg (reg rl_result)) (GetReg (reg rl_src)) signMask) ;;
    emit_ (FreeTemp signMask) ;;
    emit_ (StoreValue rl_dest rl_result) ;;
    ret (true, info).

Definition GenInlinedAbsDouble (cu : CompilationUnit) (info : CallInfo)
    : M (bool * CallInfo) :=
  if is_isa cu kMips then
    (* TODO - add Mips implementation *)
    ret (false, info)
  else
    rl_src <- arg_at info 0 ;;
    rl_src <- do_LoadValueWide cu rl_src kCoreReg ;;
    rl_dest <- InlineTargetWide cu info ;;
    rl_result <- do_EvalLoc cu rl_dest kCoreReg true ;;
    emit_ (OpRegCopyWide (GetReg (reg rl_result)) (GetHighReg (reg rl_result))
             (GetReg (reg rl_src)) (GetHighReg (reg rl_src))) ;;
    emit_ (FreeTemp (GetReg (reg rl_src))) ;;
    emit_ (FreeTemp (GetHighReg (reg rl_src))) ;;
    signMask <- do_AllocTemp cu ;;
    emit_ (LoadConstant signMask 2147483647) ;;
    emit_ (OpRegReg kOpAnd (GetHighReg (reg rl_result)) signMask) ;;
    emit_ (FreeTemp signMask) ;;
    emit_ (StoreValueWide rl_dest rl_result) ;;
    ret (true, info).

Definition GenInlinedFloatCvt (cu : CompilationUnit) (info : CallInfo)
    : M (bool * CallInfo) :=
  if is_isa cu kMips then
    (* TODO - add Mips implementation *)
    ret (false, info)
  else
    rl_src <- arg_at info 0 ;;
    rl_dest <- InlineTarget cu info ;;
    emit_ (StoreValue rl_dest rl_src) ;;
    ret (true, info).

Definition GenInlinedDoubleCvt (cu : CompilationUnit) (info : CallInfo)
    : M (bool * CallInfo) :=
  if is_isa cu kMips then
    (* TODO - add Mips implementation *)
    ret (false, info)
  else
    rl_src <- arg_at info 0 ;;
    rl_dest <- InlineTargetWide cu info ;;
    emit_ (StoreValueWide rl_dest rl_src) ;;
    ret (true, info).

(** Fast String.indexOf(I) & (II).  Tests for simple case of char <= 0xFFFF,
    otherwise bails to standard library code. *)
Definition GenInlinedIndexOf (cu : CompilationUnit) (info : CallInfo)
    (zero_based : bool) : M (bool * CallInfo) :=
  let cg := cg cu in
  if is_isa cu kMips then
    (* TODO - add Mips implementation *)
    ret (false, info)
  else
    rl_obj <- arg_at info 0 ;;
    rl_char <- arg_at info 1 ;;
    if is_const rl_char
       && negb (Z.land (ConstantValue cg (orig_sreg rl_char)) (Z.lnot 65535) =? 0) then
      (* Code point beyond 0xFFFF. Punt to the real String.indexOf(). *)
      ret (false, info)
    else
      emit_ ClobberCallerSave ;;
      emit_ LockCallTemps ;;  (* Using fixed registers *)
      let reg_ptr := TargetReg cg kArg0 in
      let reg_char := TargetReg cg kArg1 in
      let reg_start := TargetReg cg kArg2 in
      emit_ (LoadValueDirectFixed rl_obj reg_ptr) ;;
      emit_ (LoadValueDirectFixed rl_char reg_char) ;;
      (if zero_based then
         emit_ (LoadConstant reg_start 0)
       else
         (* 3rd arg only present in III flavor of IndexOf. *)
         rl_start <- arg_at info 2 ;;
         emit_ (LoadValueDirectFixed rl_start reg_start)) ;;
      r_tgt <- call_r (LoadHelper (QUICK_ENTRYPOINT_OFFSET rt pIndexOf))
                 (fun l => LoadHelper_result cg l (QUICK_ENTRYPOINT_OFFSET rt pIndexOf)) ;;
      emit_ (GenNullCheck reg_ptr (opt_flags info)) ;;
      high_code_point_branch <-
        (if is_const rl_char then ret None
         else b <- emit (OpCmpImmBranch kCondGt reg_char 65535 None) ;; ret (Some b)) ;;
      (* NOTE: not a safepoint *)
      emit_ (OpReg kOpBlx r_tgt) ;;
      info <-
        (if negb (is_const rl_char) then
           (* Add the slow path for code points beyond 0xFFFF. *)
           DCHECK (match high_code_point_branch with Some _ => true | None => false end) ;;
           resume_tgt <- emit (NewLIR0 kPseudoTargetLabel) ;;
           (* Record that we've null checked. *)
           let info := set_opt_flags (Z.lor (opt_flags info) (MIR_IGNORE_NULL_CHECK rt)) info in
           AddIntrinsicLaunchpad info high_code_point_branch (Some resume_tgt) ;;
           ret info
         else
           DCHECK (Z.land (ConstantValue cg (orig_sreg rl_char)) (Z.lnot 65535) =? 0) ;;
           DCHECK (match high_code_point_branch with Some _ => false | None => true end) ;;
           ret info) ;;
      rl_return <- call_r (GetReturn false) (fun l => GetReturn_result cg l false) ;;
      rl_dest <- InlineTarget cu info ;;
      emit_ (StoreValue rl_dest rl_return) ;;
      ret (true, info).

(** Fast string.compareTo(Ljava/lang/string;)I. *)
Definition GenInlinedStringCompareTo (cu : CompilationUnit) (info : CallInfo)
    : M (bool * CallInfo) :=
  let cg := cg cu in
  if is_isa cu kMips then
    (* TODO - add Mips implementation *)
    ret (false, info)
  else
    emit_ ClobberCallerSave ;;
    emit_ LockCallTemps ;;  (* Using fixed registers *)
    let reg_this := TargetReg cg kArg0 in
    let reg_cmp := TargetReg cg kArg1 in
    rl_this <- arg_at info 0 ;;
    rl_cmp <- arg_at info 1 ;;
    emit_ (LoadValueDirectFixed rl_this reg_this) ;;
    emit_ (LoadValueDirectFixed rl_cmp reg_cmp) ;;
    r_tgt <-
      (if negb (is_isa cu kX86) then
         call_r (LoadHelper (QUICK_ENTRYPOINT_OFFSET rt pStringCompareTo))
           (fun l => LoadHelper_result cg l (QUICK_ENTRYPOINT_OFFSET rt pStringCompareTo))
       else ret 0) ;;
    emit_ (GenNullCheck reg_this (opt_flags info)) ;;
    (* Record that we've null checked. *)
    let info := set_opt_flags (Z.lor (opt_flags info) (MIR_IGNORE_NULL_CHECK rt)) info in
    (* TUNING: check if rl_cmp.s_reg_low is already null checked *)
    cmp_null_check_branch <- emit (OpCmpImmBranch kCondEq reg_cmp 0 None) ;;
    AddIntrinsicLaunchpad info (Some cmp_null_check_branch) None ;;
    (* NOTE: not a safepoint *)
    (if negb (is_isa cu kX86) then
       emit_ (OpReg kOpBlx r_tgt)
     else
       emit_ (OpThreadMem kOpBlx (QUICK_ENTRYPOINT_OFFSET rt pStringCompareTo))) ;;
    rl_return <- call_r (GetReturn false) (fun l => GetReturn_result cg l false) ;;
    rl_dest <- InlineTarget cu info ;;
    emit_ (StoreValue rl_dest rl_return) ;;
    ret (true, info).

Definition GenInlinedCurrentThread (cu : CompilationUnit) (info : CallInfo)
    : M (bool * CallInfo) :=
  let cg := cg cu in
  rl_dest <- InlineTarget cu info ;;
  rl_result <- do_EvalLoc cu rl_dest kCoreReg true ;;
  let offset := ThreadPeerOffset rt in
  (if is_isa cu kThumb2 || is_isa cu kMips then
     emit_ (LoadWordDisp (TargetReg cg kSelf) offset (GetReg (reg rl_result)))
   else
     CHECK (is_isa cu kX86) ;;
     emit_ (OpRegThreadMem kOpMov (GetReg (reg rl_result)) offset)) ;;
  emit_ (StoreValue rl_dest rl_result) ;;
  ret (true, info).

Definition GenInlinedUnsafeGet (cu : CompilationUnit) (info : CallInfo)
    (is_long is_volatile : bool) : M (bool * CallInfo) :=
  if is_isa cu kMips then
    (* TODO - add Mips implementation *)
    ret (false, info)
  else
    (* Unused - RegLocation rl_src_unsafe = info->args[0]; *)
    rl_src_obj <- arg_at info 1 ;;  (* Object *)
    rl_src_offset <- arg_at info 2 ;;  (* long low *)
    let rl_src_offset := set_wide false rl_src_offset in  (* ignore high half in info->args[3] *)
    rl_dest <- (if is_long then InlineTargetWide cu info else InlineTarget cu info) ;;
    when is_volatile (emit_ (GenMemBarrier kLoadLoad)) ;;
    rl_object <- do_LoadValue cu rl_src_obj kCoreReg ;;
    rl_offset <- do_LoadValue cu rl_src_offset kCoreReg ;;
    rl_result <- do_EvalLoc cu rl_dest kCoreReg true ;;
    (if is_long then
       emit_ (OpRegReg kOpAdd (GetReg (reg rl_object)) (GetReg (reg rl_offset))) ;;
       emit_ (LoadBaseDispWide (GetReg (reg rl_object)) 0 (GetReg (reg rl_result))
                (GetHighReg (reg rl_result)) (INVALID_SREG rt)) ;;
       emit_ (StoreValueWide rl_dest rl_result)
     else
       emit_ (LoadBaseIndexed (GetReg (reg rl_object)) (GetReg (reg rl_offset))
                (GetReg (reg rl_result)) 0 kWord) ;;
       emit_ (StoreValue rl_dest rl_result)) ;;
    ret (true, info).

Definition GenInlinedUnsafePut (cu : CompilationUnit) (info : CallInfo)
    (is_long is_object is_volatile is_ordered : bool) : M (bool * CallInfo) :=
  if is_isa cu kMips then
    (* TODO - add Mips implementation *)
    ret (false, info)
  else
    (* Unused - RegLocation rl_src_unsafe = info->args[0]; *)
    rl_src_obj <- arg_at info 1 ;;  (* Object *)
    rl_src_offset <- arg_at info 2 ;;  (* long low *)
    let rl_src_offset := set_wide false rl_src_offset in  (* ignore high half in info->args[3] *)
    rl_src_value <- arg_at info 4 ;;  (* value to store *)
    when (is_volatile || is_ordered) (emit_ (GenMemBarrier kStoreStore)) ;;
    rl_object <- do_LoadValue cu rl_src_obj kCoreReg ;;
    rl_offset <- do_LoadValue cu rl_src_offset kCoreReg ;;
    rl_value <-
      (if is_long then
         rl_value <- do_LoadValueWide cu rl_src_value kCoreReg ;;
         emit_ (OpRegReg kOpAdd (GetReg (reg rl_object)) (GetReg (reg rl_offset))) ;;
         emit_ (StoreBaseDispWide (GetReg (reg rl_object)) 0 (GetReg (reg rl_value))
                  (GetHighReg (reg rl_value))) ;;
         ret rl_value
       else
         rl_value <- do_LoadValue cu rl_src_value kCoreReg ;;
         emit_ (StoreBaseIndexed (GetReg (reg rl_object)) (GetReg (reg rl_offset))
                  (GetReg (reg rl_value)) 0 kWord) ;;
         ret rl_value) ;;
    (* Free up the temp early, to ensure x86 doesn't run out of temporaries
       in MarkGCCard. *)
    emit_ (FreeTemp (GetReg (reg rl_offset))) ;;
    when is_volatile (emit_ (GenMemBarrier kStoreLoad)) ;;
    when is_object (emit_ (MarkGCCard (GetReg (reg rl_value)) (GetReg (reg rl_object)))) ;;
    ret (true, info).

(** The intrinsic routine of a recognised library operation. *)
Definition GenInlined (cu : CompilationUnit) (info : CallInfo) (m : InlineMethod)
    : M (bool * CallInfo) :=
  match m with
  | kIntrinsicDoubleCvt => GenInlinedDoubleCvt cu info
  | kIntrinsicFloatCvt => GenInlinedFloatCvt cu info
  | kIntrinsicReverseBytes size => GenInlinedReverseBytes cu info size
  | kIntrinsicAbsInt => GenInlinedAbsInt cu info
  | kIntrinsicAbsLong => GenInlinedAbsLong cu info
  | kIntrinsicAbsFloat => GenInlinedAbsFloat cu info
  | kIntrinsicAbsDouble => GenInlinedAbsDouble cu info
  | kIntrinsicCharAt => GenInlinedCharAt cu info
  | kIntrinsicCompareTo => GenInlinedStringCompareTo cu info
  | kIntrinsicIsEmptyOrLength is_empty => GenInlinedStringIsEmptyOrLength cu info is_empty
  | kIntrinsicIndexOf zero_based => GenInlinedIndexOf cu info zero_based
  | kIntrinsicCurrentThread => GenInlinedCurrentThread cu info
  | kIntrinsicUnsafeGet is_long is_volatile =>
      GenInlinedUnsafeGet cu info is_long is_volatile
  | kIntrinsicUnsafePut is_long is_object is_volatile is_ordered =>
      GenInlinedUnsafePut cu info is_long is_object is_volatile is_ordered
  end.

(** Modelled from the spec: the recogniser of library operations
    ([DexFileMethodInliner::GenIntrinsic], reached through the compiler
    driver's inliner map) is not part of this file.  It attempts the inline
    fast path of the operation the called method is recognised as and
    answers what that routine answers; a call that is no recognised
    operation is not handled. *)
Definition GenIntrinsic (cu : CompilationUnit) (info : CallInfo)
    : M (bool * CallInfo) :=
  match inline_methods_ cu (index info) with
  | Some m => GenInlined cu info m
  | None => ret (false, info)
  end.

Definition GenInvoke (cu : CompilationUnit) (info : CallInfo) : M CallInfo :=
  '(handled, info) <- GenIntrinsic cu info ;;
  if handled then ret info
  else GenInvokeNoInline cu info.

End GenInvoke.

(** ** The dispatch routines of this file, by name *)

Inductive DispatchRoutine :=
  | SDCallInsn | VCallInsn | InterfaceCallInsn
  | StaticCallInsnSP | DirectCallInsnSP | SuperCallInsnSP | VCallInsnSP
  | InterfaceCallInsnWithAccessCheck.

Definition routine_fn (rt : Runtime) (r : DispatchRoutine) : NextCallInsn :=
  match r with
  | SDCallInsn => NextSDCallInsn rt
  | VCallInsn => NextVCallInsn rt
  | InterfaceCallInsn => NextInterfaceCallInsn rt
  | StaticCallInsnSP => NextStaticCallInsnSP rt
  | DirectCallInsnSP => NextDirectCallInsnSP rt
  | SuperCallInsnSP => NextSuperCallInsnSP rt
  | VCallInsnSP => NextVCallInsnSP rt
  | InterfaceCallInsnWithAccessCheck => NextInterfaceCallInsnWithAccessCheck rt
  end.

(** The step of a routine that loads the compiled entry point into the
    invoke-target register, if it has one. *)
Definition entry_point_step (r : DispatchRoutine) (direct_code direct_method : Z)
    : option Z :=
  match r with
  | SDCallInsn =>
      if negb (direct_code =? 0) && negb (direct_method =? 0) then None else Some 3
  | VCallInsn => Some 4
  | InterfaceCallInsn => Some 5
  | _ => None
  end.

(** The unresolved-call routine and the trampoline of an invocation kind. *)
Definition slow_path_routine (rt : Runtime) (t : InvokeType) : NextCallInsn :=
  match t with
  | kStatic => NextStaticCallInsnSP rt
  | kDirect => NextDirectCallInsnSP rt
  | kSuper => NextSuperCallInsnSP rt
  | kVirtual => NextVCallInsnSP rt
  | kInterface => NextInterfaceCallInsnWithAccessCheck rt
  end.

Definition trampoline_of (t : InvokeType) : QuickEntrypoint :=
  match t with
  | kStatic => pInvokeStaticTrampolineWithAccessCheck
  | kDirect => pInvokeDirectTrampolineWithAccessCheck
  | kSuper => pInvokeSuperTrampolineWithAccessCheck
  | kVirtual => pInvokeVirtualTrampolineWithAccessCheck
  | kInterface => pInvokeInterfaceTrampolineWithAccessCheck
  end.

(** The state [s] with the calls [ops] logged after it. *)
Definition appended (s : CgState) (ops : list Op) : CgState :=
  mkCgState (lir s ++ ops) (slow_paths_ s).

(** ** Sample targets, for concrete runs *)

Module Sample.

Definition rt : Runtime :=
  {| DexCacheResolvedMethodsOffset := 28;
     EntryPointFromQuickCompiledCodeOffset := 40;
     ClassOffset := 0;
     VTableOffset := 44;
     ImTableOffset := 48;
     ArrayDataOffset := fun component_size => if component_size =? 8 then 16 else 12;
     StringValueOffset := 8;
     StringCountOffset := 12;
     StringOffsetOffset := 20;
     ThreadPeerOffset := 116;
     kImtSize := 64;
     QUICK_ENTRYPOINT_OFFSET := fun p =>
       match p with
       | pInvokeDirectTrampolineWithAccessCheck => 400
       | pInvokeInterfaceTrampolineWithAccessCheck => 404
       | pInvokeStaticTrampolineWithAccessCheck => 408
       | pInvokeSuperTrampolineWithAccessCheck => 412
       | pInvokeVirtualTrampolineWithAccessCheck => 416
       | pMemcpy => 380
       | pIndexOf => 372
       | pStringCompareTo => 376
       end;
     INVALID_REG := 255;
     INVALID_SREG := -1;
     MIR_IGNORE_NULL_CHECK := 1;
     MIR_IGNORE_RANGE_CHECK := 4;
     kVRegMethodPtrBaseReg := -2;
     kIsDebugBuild := true |}.

(** Core registers r0..r15, single floats from 32. *)
Definition arm_TargetReg (r : SpecialTargetRegister) : Z :=
  match r with
  | kSelf => 9 | kSuspend => 4 | kLr => 14 | kPc => 15 | kSp => 13
  | kArg0 => 0 | kArg1 => 1 | kArg2 => 2 | kArg3 => 3
  | kFArg0 => 0 | kFArg1 => 1 | kFArg2 => 2 | kFArg3 => 3
  | kRet0 => 0 | kRet1 => 1 | kInvokeTgt => 14 | kHiddenArg => 12
  | kHiddenFpArg => 255 | kCount => 255
  end.

(** eax, ecx, edx, ebx, esp; xmm registers from 32. *)
Definition x86_TargetReg (r : SpecialTargetRegister) : Z :=
  match r with
  | kSelf => 255 | kSuspend => 255 | kLr => 255 | kPc => 255 | kSp => 4
  | kArg0 => 0 | kArg1 => 1 | kArg2 => 2 | kArg3 => 3
  | kFArg0 => 0 | kFArg1 => 1 | kFArg2 => 2 | kFArg3 => 3
  | kRet0 => 0 | kRet1 => 2 | kInvokeTgt => 0 | kHiddenArg => 0
  | kHiddenFpArg => 32 | kCount => 255
  end.

(** A frame of 8 virtual registers, two of them promoted to the odd single
    float registers 33 and 35, and no value live in a temporary. *)
Definition backend (target_reg : SpecialTargetRegister -> Z) : Backend :=
  {| TargetReg := target_reg;
     GetArgMappingToPhysicalReg := fun arg_num =>
       if (arg_num <? 0) || (arg_num >=? 3) then 255 else target_reg kArg1 + arg_num;
     SRegOffset := fun s_reg => 64 + 4 * s_reg;
     VRegOffset := fun v_reg => if v_reg =? -2 then 0 else 64 + 4 * v_reg;
     promotion_map_ :=
       [ mkPromotionMap kLocDalvikFrame 0 kLocDalvikFrame 0 false;
         mkPromotionMap kLocDalvikFrame 0 kLocDalvikFrame 0 false;
         mkPromotionMap kLocDalvikFrame 0 kLocDalvikFrame 0 false;
         mkPromotionMap kLocDalvikFrame 0 kLocDalvikFrame 0 false;
         mkPromotionMap kLocPhysReg 5 kLocDalvikFrame 0 false;
         mkPromotionMap kLocDalvikFrame 0 kLocPhysReg 33 false;
         mkPromotionMap kLocDalvikFrame 0 kLocPhysReg 35 false;
         mkPromotionMap kLocDalvikFrame 0 kLocDalvikFrame 0 false;
         mkPromotionMap kLocDalvikFrame 0 kLocDalvikFrame 0 false ];
     ConstantValue := fun s_reg => if s_reg =? 7 then 65536 else 0;
     NumMethodIds := fun _ => 1000;
     GetMethodLoweringInfo := fun mir =>
       mkMirMethodLoweringInfo kVirtual kVirtual 0 (mir =? 1)
         (mkMethodReference 0 17) 6 0 0;
     UpdateLoc := fun _ rl => rl;
     UpdateLocWide := fun _ rl => rl;
     UpdateRawLoc := fun _ rl => rl;
     LoadHelper_result := fun _ _ => target_reg kInvokeTgt;
     AllocTemp_result := fun l => 5 + Z.of_nat (length l) mod 3;
     AllocTempDouble_result := fun _ => 34;
     LoadValue_result := fun _ rl _ =>
       set_reg (mkRegStorage k32BitSolo 6 255) (set_location kLocPhysReg rl);
     LoadValueWide_result := fun _ rl _ =>
       set_reg (mkRegStorage k64BitPair 6 7) (set_location kLocPhysReg rl);
     EvalLoc_result := fun _ rl _ _ =>
       set_reg (mkRegStorage k32BitSolo 8 255) (set_location kLocPhysReg rl);
     GetReturn_result := fun _ _ =>
       mkRegLocation kLocPhysReg false false false false false false false false
         (mkRegStorage k32BitSolo (target_reg kRet0) 255) (-1) (-1);
     GetReturnWide_result := fun _ _ =>
       mkRegLocation kLocPhysReg true false false false false false false false
         (mkRegStorage k64BitPair (target_reg kRet0) (target_reg kRet1)) (-1) (-1);
     GenNullCheck_result := fun _ _ _ => None |}.

Definition cu (isa : InstructionSet) : CompilationUnit :=
  {| instruction_set := isa;
     num_ins := 4;
     num_dalvik_registers := 8;
     cu_dex_file := 0;
     inline_methods_ := fun idx =>
       if idx =? 100 then Some kIntrinsicCharAt
       else if idx =? 101 then Some kIntrinsicCurrentThread
       else if idx =? 102 then Some (kIntrinsicIndexOf true)
       else None;
     cg := backend (match isa with kX86 => x86_TargetReg | _ => arm_TargetReg end) |}.

(** A value in its Dalvik frame slot [v]. *)
Definition in_frame (v : Z) (is_wide is_fp is_high : bool) : RegLocation :=
  mkRegLocation kLocDalvikFrame is_wide true false is_fp (negb is_fp) false is_high true
    (mkRegStorage kInvalid 255 255) v v.

Definition no_result : RegLocation :=
  mkRegLocation kLocInvalid false false false false false false false false
    (mkRegStorage kInvalid 255 255) (-1) (-1).

Definition call (words : list RegLocation) (idx mir : Z) : CallInfo :=
  {| num_arg_words := Z.of_nat (length words);
     args := words;
     result := no_result;
     opt_flags := 0;
     type := kVirtual;
     index := idx;
     is_range := false;
     offset := 12;
     mir := mir |}.

Definition s0 : CgState := mkCgState [] [].

Definition target : MethodReference := mkMethodReference 0 17.

End Sample.

(** ** Statements about the dispatch routines *)

(** The step index a routine returns at a state does not depend on the
    architecture of the compilation unit. *)
Definition step_indices_architecture_independent (rt : Runtime) : Prop :=
  forall r cu1 cu2 info state tm idx dc dm ty s a1 s1 a2 s2,
    routine_fn rt r cu1 info state tm idx dc dm ty s = Ok a1 s1 ->
    routine_fn rt r cu2 info state tm idx dc dm ty s = Ok a2 s2 ->
    a1 = a2.

(** What step 0 of [NextSDCallInsn] logs for a known code address and for a
    known method pointer. *)
Definition direct_code_load (cu : CompilationUnit) (tm : MethodReference)
    (ty : InvokeType) (direct_code : Z) : Op :=
  if direct_code =? kUnsignedMinusOne
  then LoadCodeAddress tm ty kInvokeTgt
  else LoadConstant (TargetReg (cg cu) kInvokeTgt) (to_int32 direct_code).

Definition direct_method_load (cu : CompilationUnit) (tm : MethodReference)
    (ty : InvokeType) (direct_method : Z) : Op :=
  if direct_method =? kUnsignedMinusOne
  then LoadMethodAddress tm ty kArg0
  else LoadConstant (TargetReg (cg cu) kArg0) (to_int32 direct_method).

(** With code address and method pointer both known, step 0 loads both and
    every other step is terminal, on every architecture. *)
Definition known_target_loads_code_and_method (rt : Runtime) : Prop :=
  forall cu info tm idx dc dm ty s,
    dc <> 0 -> dm <> 0 ->
    NextSDCallInsn rt cu info 0 tm idx dc dm ty s
      = Ok 1 (appended s [direct_code_load cu tm ty dc; direct_method_load cu tm ty dm])
    /\ forall state s', state <> 0 ->
         NextSDCallInsn rt cu info state tm idx dc dm ty s' = Ok (-1) s'.

(** The load of the trampoline of kind [t] into the invoke-target register
    and of the method index into argument 0. *)
Definition trampoline_load (rt : Runtime) (cu : CompilationUnit) (t : InvokeType) : Op :=
  LoadWordDisp (TargetReg (cg cu) kSelf) (QUICK_ENTRYPOINT_OFFSET rt (trampoline_of t))
    (TargetReg (cg cu) kInvokeTgt).

Definition method_index_load (cu : CompilationUnit) (tm : MethodReference) : Op :=
  LoadConstant (TargetReg (cg cu) kArg0) (to_int32 (dex_method_index tm)).

(** An unresolved call of any kind loads trampoline and method index at
    state 0 and is terminal at every other state, on every architecture. *)
Definition unresolved_loads_trampoline_and_index (rt : Runtime) : Prop :=
  forall t cu info tm idx dc dm ty s,
    cu_dex_file cu = dex_file tm ->
    slow_path_routine rt t cu info 0 tm idx dc dm ty s
      = Ok 1 (appended s [trampoline_load rt cu t; method_index_load cu tm])
    /\ forall state s', state <> 0 ->
         slow_path_routine rt t cu info state tm idx dc dm ty s' = Ok (-1) s'.

(** ** Statements about FlushIns *)

(** [i] is an index into the promotion map. *)
Definition pm_valid (cu : CompilationUnit) (i : Z) : Prop :=
  0 <= i < Z.of_nat (length (promotion_map_ (cg cu))).

(** The reads of [FlushIns] stay inside [promotion_map_] and [ArgLocs]:
    every incoming word has a promotion map entry, every word arriving in a
    register has a location record, and the other half of a wide one has a
    promotion map entry as well. *)
Definition ins_in_bounds (rt : Runtime) (cu : CompilationUnit)
    (ArgLocs : list RegLocation) : Prop :=
  forall i, 0 <= i < num_ins cu ->
    let start_vreg := num_dalvik_registers cu - num_ins cu in
    pm_valid cu (start_vreg + i)
    /\ (GetArgMappingToPhysicalReg (cg cu) i <> INVALID_REG rt ->
        exists t_loc,
          nth_error ArgLocs (Z.to_nat i) = Some t_loc
          /\ (wide t_loc = true ->
              pm_valid cu (start_vreg + i + (if high_word t_loc then -1 else 1)))).

(** The calls logged from [s] to [s']. *)
Definition logged (s s' : CgState) (ops : list Op) : Prop :=
  lir s' = lir s ++ ops.

Module SampleIns.

(** Incoming words 0 and 1 are the halves of a long. *)
Definition ins_long : list RegLocation :=
  [ Sample.in_frame 4 true false false; Sample.in_frame 5 true false true;
    Sample.in_frame 6 false false false; Sample.in_frame 7 false false false ].

(** Incoming words 1 and 2 are the halves of a double. *)
Definition ins_double : list RegLocation :=
  [ Sample.in_frame 4 false false false; Sample.in_frame 5 true true false;
    Sample.in_frame 6 true true true; Sample.in_frame 7 false false false ].

Definition method_loc : RegLocation := Sample.in_frame (-2) false false false.

End SampleIns.

(** ** Statements about the x86 stack copy *)

(** Width in bytes of an xmm move: [movaps]/[movups] move 128 bits,
    [movlps]/[movhps] one 64-bit half. *)
Definition move_bytes (m : MoveType) : Z :=
  match m with
  | kMovA128FP | kMovU128FP => 16
  | kMovLo128FP | kMovHi128FP => 8
  end.

(** Bytes a copy instruction writes to the stack, and reads from it. *)
Definition stored_bytes (o : Op) : Z :=
  match o with
  | StoreWordDisp _ _ _ => 4
  | OpMovMemReg _ _ _ m => move_bytes m
  | _ => 0
  end.

Definition loaded_bytes (o : Op) : Z :=
  match o with
  | LoadWordDisp _ _ _ => 4
  | OpMovRegMem _ _ _ m => move_bytes m
  | _ => 0
  end.

Definition total (f : Op -> Z) (ops : list Op) : Z :=
  fold_right (fun o acc => f o + acc) 0 ops.

(** A single-word move through a core register. *)
Definition is_word_move (o : Op) : bool :=
  match o with
  | LoadWordDisp _ _ _ | StoreWordDisp _ _ _ => true
  | _ => false
  end.

Definition is_xmm_alloc (o : Op) : bool :=
  match o with AllocTempDouble => true | _ => false end.

(** The loop picks the 128-bit move. *)
Definition picks_128bit (current_src_offset current_dest_offset regs_left : Z) : bool :=
  (regs_left =? 4)
  || ((regs_left >? 4)
      && ((Z.land current_src_offset 15 =? 0) || (Z.land current_dest_offset 15 =? 0))).

(** An xmm temporary is always available (the [CHECK_GT] of the loop). *)
Definition xmm_temp_available (cu : CompilationUnit) : Prop :=
  forall l, AllocTempDouble_result (cg cu) l > 0.

(** The copy of [count] stack-resident words moves [(count - 3) * 4] bytes,
    for the counts the specification lists. *)
Definition copy_moves_count_minus_3_words : Prop :=
  forall cu src dst count s,
    xmm_temp_available cu ->
    In count [1; 3; 4; 5; 16; 17] ->
    exists r ops,
      X86StackCopy cu src dst count s = Ok r (appended s ops)
      /\ total stored_bytes ops = (count - 3) * 4.

(** ** Statements about logs *)

(** Whenever [m] completes, every call it logged satisfies [P]. *)
Definition emits_only {A} (P : Op -> Prop) (m : M A) : Prop :=
  forall s a s', m s = Ok a s' -> exists ops, logged s s' ops /\ Forall P ops.

(** What [LoadArgRegs] may log: a wide load only into a register pair that
    ends at the last argument register or before, and into the last
    argument register only a narrow location. *)
Definition arg_load_fits (cu : CompilationUnit) (o : Op) : Prop :=
  match o with
  | LoadValueDirectWideFixed rl lo hi =>
      hi = lo + 1 /\ lo <= TargetReg (cg cu) kArg2 /\ hi <= TargetReg (cg cu) kArg3
  | LoadValueDirectFixed rl r =>
      r = TargetReg (cg cu) kArg3 -> wide rl = false
  | _ => True
  end.

(** [LoadArgRegs] sees the location as wide ([b] true) or as narrow ([b]
    false), whatever has been logged by the time it looks at it. *)
Definition seen_wide (cu : CompilationUnit) (rl : RegLocation) (b : bool) : Prop :=
  forall l, wide (UpdateRawLoc (cg cu) l rl) = b.

(** Argument word 2 is assigned to the last of three consecutive argument
    registers: the words before it fill the registers before kArg3.  When
    the receiver is skipped, word 1 is narrow and takes kArg2; otherwise
    word 0 is wide and takes kArg1 and kArg2, or words 0 and 1 are narrow
    and take one of them each. *)
Definition word_2_meets_last_register (cu : CompilationUnit) (info : CallInfo)
    (skip_this : bool) : Prop :=
  2 < num_arg_words info
  /\ if skip_this then
       exists a1, nth_error (args info) 1 = Some a1 /\ seen_wide cu a1 false
     else
       exists a0,
         nth_error (args info) 0 = Some a0
         /\ (seen_wide cu a0 true
             \/ (seen_wide cu a0 false
                 /\ exists a1,
                      nth_error (args info) 1 = Some a1 /\ seen_wide cu a1 false)).

(** ** Statements about intrinsics and call emission *)

(** On MIPS every intrinsic routine declines and logs nothing. *)
Definition every_intrinsic_declines_on_mips (rt : Runtime) : Prop :=
  forall cu info m s,
    instruction_set cu = kMips ->
    GenInlined rt cu info m s = Ok (false, info) s.

(** The call instruction of a full invocation. *)
Definition is_invoke_call (rt : Runtime) (cu : CompilationUnit) (o : Op) : Prop :=
  match o with
  | OpReg kOpBlx r => r = TargetReg (cg cu) kInvokeTgt
  | CallWithLinkerFixup _ _ => True
  | OpMem kOpBlx r disp =>
      r = TargetReg (cg cu) kArg0 /\ disp = EntryPointFromQuickCompiledCodeOffset rt
  | OpThreadMem kOpBlx off =>
      exists t, off = QUICK_ENTRYPOINT_OFFSET rt (trampoline_of t)
  | _ => False
  end.

Definition is_safepoint_mark (o : Op) : bool :=
  match o with MarkSafepointPC _ => true | _ => false end.

(** Every launchpad jumps back to a resume label after re-issuing the
    invocation. *)
Definition every_launchpad_resumes (rt : Runtime) : Prop :=
  forall cu p s info s',
    IntrinsicLaunchpadPath_Compile rt cu p s = Ok info s' ->
    exists resume, last (lir s') FlushAllRegs = OpUnconditionalBranch resume.

(** Neither a safepoint mark nor a store of the stack copy. *)
Definition quiet (o : Op) : bool :=
  negb (is_safepoint_mark o) && (stored_bytes o =? 0).

Definition no_mark (o : Op) : Prop := is_safepoint_mark o = false.

(** The helper call of the inlined string search and string comparison. *)
Definition is_helper_call (rt : Runtime) (e : QuickEntrypoint) (o : Op) : Prop :=
  match o with
  | OpReg kOpBlx _ => True
  | OpThreadMem kOpBlx off => off = QUICK_ENTRYPOINT_OFFSET rt e
  | _ => False
  end.

Definition quiet_op (o : Op) : Prop := quiet o = true.

(** The four calls that open every launchpad, logged from [s]. *)
Definition launchpad_entry (p : LaunchPad) (s : CgState) : list Op :=
  [ ResetRegPool; ResetDefTracking; GenerateTargetLabel (fromfast_ p);
    SetOpcode (length (lir s) + 2)%nat kPseudoIntrinsicRetry ].

(** A launchpad registered by the inlined string search: it resumes at the
    target label logged right after the helper call of the fast path. *)
Definition resumes_after_call (s' : CgState) (p : LaunchPad) : Prop :=
  exists resume n r_tgt,
    cont_ p = Some resume
    /\ resume = S n
    /\ nth_error (lir s') n = Some (OpReg kOpBlx r_tgt)
    /\ nth_error (lir s') resume = Some (NewLIR0 kPseudoTargetLabel).

Definition no_resume (p : LaunchPad) : Prop := cont_ p = None.

(** The launchpads registered from [s] to [s']. *)
Definition registered (s s' : CgState) (ps : list LaunchPad) : Prop :=
  slow_paths_ s' = slow_paths_ s ++ ps.

(** Whenever [m] completes, every launchpad it registered satisfies [Q]. *)
Definition registers_only {A} (Q : LaunchPad -> Prop) (m : M A) : Prop :=
  forall s a s', m s = Ok a s' -> exists ps, registered s s' ps /\ Forall Q ps.

(** Whenever [m] completes, its result and the launchpads it registered
    satisfy [Q]. *)
Definition registers_list {A} (m : M A) (Q : A -> list LaunchPad -> Prop) : Prop :=
  forall s a s', m s = Ok a s' -> exists ps, registered s s' ps /\ Q a ps.

Module SampleCalls.

(** [s.charAt(i)], [s.indexOf(c)]: a receiver and one argument word. *)
Definition two_words : list RegLocation :=
  [Sample.in_frame 4 false false false; Sample.in_frame 5 false false false].

Definition charAt : CallInfo := Sample.call two_words 100 1.

Definition indexOf : CallInfo := Sample.call two_words 102 1.

(** A static call of four argument words, words 2 and 3 holding a long. *)
Definition long_at_word_2 : CallInfo :=
  Sample.call [Sample.in_frame 0 false false false;
               Sample.in_frame 1 false false false;
               Sample.in_frame 2 true false false;
               Sample.in_frame 3 true false true] 0 0.

(** The launchpad the inlined [charAt] registers on Thumb2: the range-check
    branch is the 14th call it logs, and there is no resume label. *)
Definition charAt_launchpad : LaunchPad :=
  mkLaunchPad (set_opt_flags 1 charAt) 12 (Some 13%nat) None.

End SampleCalls.

(** ** Statements about results and loop bounds *)

(** Whenever [m] completes, its result satisfies [R]. *)
Definition returns {A} (R : A -> Prop) (m : M A) : Prop :=
  forall s a s', m s = Ok a s' -> R a.

(** [m] never stops because a loop bound of the model was too small: when it
    stops, it is on a failed check or a read out of bounds. *)
Definition enough_fuel {A} (m : M A) : Prop :=
  forall s, m s <> Stop OutOfFuel.

(** How many more calls the loop that finishes the call sequence can make
    from a state. *)
Definition steps_left (call_state : Z) : nat :=
  if call_state <? 0 then 0%nat else Z.to_nat (Z.max 1 (7 - call_state)).

(** ** The runtime helper calls

    The other members of the [CallRuntimeHelper] family: each loads its
    arguments into the argument registers between the two parts of the
    helper call. *)

Section RuntimeHelpers.

Variable rt : Runtime.

Definition CallRuntimeHelperImm (cu : CompilationUnit) (helper_offset arg0 : Z)
    (safepoint_pc : bool) : M unit :=
  let cg := cg cu in
  r_tgt <- CallHelperSetup cu helper_offset ;;
  emit_ (LoadConstant (TargetReg cg kArg0) arg0) ;;
  emit_ ClobberCallerSave ;;
  CallHelper cu r_tgt helper_offset safepoint_pc ;;
  ret tt.

Definition CallRuntimeHelperReg (cu : CompilationUnit) (helper_offset arg0 : Z)
    (safepoint_pc : bool) : M unit :=
  let cg := cg cu in
  r_tgt <- CallHelperSetup cu helper_offset ;;
  emit_ (OpRegCopy (TargetReg cg kArg0) arg0) ;;
  emit_ ClobberCallerSave ;;
  CallHelper cu r_tgt helper_offset safepoint_pc ;;
  ret tt.

Definition CallRuntimeHelperRegLocation (cu : CompilationUnit) (helper_offset : Z)
    (arg0 : RegLocation) (safepoint_pc : bool) : M unit :=
  let cg := cg cu in
  r_tgt <- CallHelperSetup cu helper_offset ;;
  (if wide arg0 then
     emit_ (LoadValueDirectWideFixed arg0
              (if fp arg0 then TargetReg cg kFArg0 else TargetReg cg kArg0)
              (if fp arg0 then TargetReg cg kFArg1 else TargetReg cg kArg1))
   else
     emit_ (LoadValueDirectFixed arg0
              (if fp arg0 then TargetReg cg kFArg0 else TargetReg cg kArg0))) ;;
  emit_ ClobberCallerSave ;;
  CallHelper cu r_tgt helper_offset safepoint_pc ;;
  ret tt.

Definition CallRuntimeHelperImmImm (cu : CompilationUnit) (helper_offset arg0 arg1 : Z)
    (safepoint_pc : bool) : M unit :=
  let cg := cg cu in
  r_tgt <- CallHelperSetup cu helper_offset ;;
  emit_ (LoadConstant (TargetReg cg kArg0) arg0) ;;
  emit_ (LoadConstant (TargetReg cg kArg1) arg1) ;;
  emit_ ClobberCallerSave ;;
  CallHelper cu r_tgt helper_offset safepoint_pc ;;
  ret tt.

Definition CallRuntimeHelperImmRegLocation (cu : CompilationUnit)
    (helper_offset arg0 : Z) (arg1 : RegLocation) (safepoint_pc : bool) : M unit :=
  let cg := cg cu in
  r_tgt <- CallHelperSetup cu helper_offset ;;
  (if negb (wide arg1) then
     emit_ (LoadValueDirectFixed arg1 (TargetReg cg kArg1))
   else
     emit_ (LoadValueDirectWideFixed arg1 (TargetReg cg kArg1) (TargetReg cg kArg2))) ;;
  emit_ (LoadConstant (TargetReg cg kArg0) arg0) ;;
  emit_ ClobberCallerSave ;;
  CallHelper cu r_tgt helper_offset safepoint_pc ;;
  ret tt.

Definition CallRuntimeHelperRegLocationImm (cu : CompilationUnit) (helper_offset : Z)
    (arg0 : RegLocation) (arg1 : Z) (safepoint_pc : bool) : M unit :=
  let cg := cg cu in
  r_tgt <- CallHelperSetup cu helper_offset ;;
  emit_ (LoadValueDirectFixed arg0 (TargetReg cg kArg0)) ;;
  emit_ (LoadConstant (TargetReg cg kArg1) arg1) ;;
  emit_ ClobberCallerSave ;;
  CallHelper cu r_tgt helper_offset safepoint_pc ;;
  ret tt.

Definition CallRuntimeHelperImmReg (cu : CompilationUnit) (helper_offset arg0 arg1 : Z)
    (safepoint_pc : bool) : M unit :=
  let cg := cg cu in
  r_tgt <- CallHelperSetup cu helper_offset ;;
  emit_ (OpRegCopy (TargetReg cg kArg1) arg1) ;;
  emit_ (LoadConstant (TargetReg cg kArg0) arg0) ;;
  emit_ ClobberCallerSave ;;
  CallHelper cu r_tgt helper_offset safepoint_pc ;;
  ret tt.

Definition CallRuntimeHelperRegImm (cu : CompilationUnit) (helper_offset arg0 arg1 : Z)
    (safepoint_pc : bool) : M unit :=
  let cg := cg cu in
  r_tgt <- CallHelperSetup cu helper_offset ;;
  emit_ (OpRegCopy (TargetReg cg kArg0) arg0) ;;
  emit_ (LoadConstant (TargetReg cg kArg1) arg1) ;;
  emit_ ClobberCallerSave ;;
  CallHelper cu r_tgt helper_offset safepoint_pc ;;
  ret tt.

Definition CallRuntimeHelperImmMethod (cu : CompilationUnit) (helper_offset arg0 : Z)
    (safepoint_pc : bool) : M unit :=
  let cg := cg cu in
  r_tgt <- CallHelperSetup cu helper_offset ;;
  emit_ (LoadCurrMethodDirect (TargetReg cg kArg1)) ;;
  emit_ (LoadConstant (TargetReg cg kArg0) arg0) ;;
  emit_ ClobberCallerSave ;;
  CallHelper cu r_tgt helper_offset safepoint_pc ;;
  ret tt.

Definition CallRuntimeHelperRegMethod (cu : CompilationUnit) (helper_offset arg0 : Z)
    (safepoint_pc : bool) : M unit :=
  let cg := cg cu in
  r_tgt <- CallHelperSetup cu helper_offset ;;
  DCHECK rt (negb (TargetReg cg kArg1 =? arg0)) ;;
  when (negb (TargetReg cg kArg0 =? arg0))
    (emit_ (OpRegCopy (TargetReg cg kArg0) arg0)) ;;
  emit_ (LoadCurrMethodDirect (TargetReg cg kArg1)) ;;
  emit_ ClobberCallerSave ;;
  CallHelper cu r_tgt helper_offset safepoint_pc ;;
  ret tt.

Definition CallRuntimeHelperRegMethodRegLocation (cu : CompilationUnit)
    (helper_offset arg0 : Z) (arg2 : RegLocation) (safepoint_pc : bool) : M unit :=
  let cg := cg cu in
  r_tgt <- CallHelperSetup cu helper_offset ;;
  DCHECK rt (negb (TargetReg cg kArg1 =? arg0)) ;;
  when (negb (TargetReg cg kArg0 =? arg0))
    (emit_ (OpRegCopy (TargetReg cg kArg0) arg0)) ;;
  emit_ (LoadCurrMethodDirect (TargetReg cg kArg1)) ;;
  emit_ (LoadValueDirectFixed arg2 (TargetReg cg kArg2)) ;;
  emit_ ClobberCallerSave ;;
  CallHelper cu r_tgt helper_offset safepoint_pc ;;
  ret tt.

Definition CallRuntimeHelperRegLocationRegLocation (cu : CompilationUnit)
    (helper_offset : Z) (arg0 arg1 : RegLocation) (safepoint_pc : bool) : M unit :=
  let cg := cg cu in
  r_tgt <- CallHelperSetup cu helper_offset ;;
  (if negb (wide arg0) then
     emit_ (LoadValueDirectFixed arg0
              (if fp arg0 then TargetReg cg kFArg0 else TargetReg cg kArg0)) ;;
     if negb (wide arg1) then
       if is_isa cu kMips then
         emit_ (LoadValueDirectFixed arg1
                  (if fp arg1 then TargetReg cg kFArg2 else TargetReg cg kArg1))
       else
         emit_ (LoadValueDirectFixed arg1 (TargetReg cg kArg1))
     else
       if is_isa cu kMips then
         emit_ (LoadValueDirectWideFixed arg1
                  (if fp arg1 then TargetReg cg kFArg2 else TargetReg cg kArg1)
                  (if fp arg1 then TargetReg cg kFArg3 else TargetReg cg kArg2))
       else
         emit_ (LoadValueDirectWideFixed arg1 (TargetReg cg kArg1) (TargetReg cg kArg2))
   else
     emit_ (LoadValueDirectWideFixed arg0
              (if fp arg0 then TargetReg cg kFArg0 else TargetReg cg kArg0)
              (if fp arg0 then TargetReg cg kFArg1 else TargetReg cg kArg1)) ;;
     if negb (wide arg1) then
       emit_ (LoadValueDirectFixed arg1
                (if fp arg1 then TargetReg cg kFArg2 else TargetReg cg kArg2))
     else
       emit_ (LoadValueDirectWideFixed arg1
                (if fp arg1 then TargetReg cg kFArg2 else TargetReg cg kArg2)
                (if fp arg1 then TargetReg cg kFArg3 else TargetReg cg kArg3))) ;;
  emit_ ClobberCallerSave ;;
  CallHelper cu r_tgt helper_offset safepoint_pc ;;
  ret tt.

Definition CallRuntimeHelperRegReg (cu : CompilationUnit) (helper_offset arg0 arg1 : Z)
    (safepoint_pc : bool) : M unit :=
  let cg := cg cu in
  r_tgt <- CallHelperSetup cu helper_offset ;;
  (* check copy into arg0 won't clobber arg1 *)
  DCHECK rt (negb (TargetReg cg kArg0 =? arg1)) ;;
  emit_ (OpRegCopy (TargetReg cg kArg0) arg0) ;;
  emit_ (OpRegCopy (TargetReg cg kArg1) arg1) ;;
  emit_ ClobberCallerSave ;;
  CallHelper cu r_tgt helper_offset safepoint_pc ;;
  ret tt.

Definition CallRuntimeHelperImmMethodRegLocation (cu : CompilationUnit)
    (helper_offset arg0 : Z) (arg2 : RegLocation) (safepoint_pc : bool) : M unit :=
  let cg := cg cu in
  r_tgt <- CallHelperSetup cu helper_offset ;;
  emit_ (LoadValueDirectFixed arg2 (TargetReg cg kArg2)) ;;
  emit_ (LoadCurrMethodDirect (TargetReg cg kArg1)) ;;
  emit_ (LoadConstant (TargetReg cg kArg0) arg0) ;;
  emit_ ClobberCallerSave ;;
  CallHelper cu r_tgt helper_offset safepoint_pc ;;
  ret tt.

Definition CallRuntimeHelperImmMethodImm (cu : CompilationUnit)
    (helper_offset arg0 arg2 : Z) (safepoint_pc : bool) : M unit :=
  let cg := cg cu in
  r_tgt <- CallHelperSetup cu helper_offset ;;
  emit_ (LoadCurrMethodDirect (TargetReg cg kArg1)) ;;
  emit_ (LoadConstant (TargetReg cg kArg2) arg2) ;;
  emit_ (LoadConstant (TargetReg cg kArg0) arg0) ;;
  emit_ ClobberCallerSave ;;
  CallHelper cu r_tgt helper_offset safepoint_pc ;;
  ret tt.

Definition CallRuntimeHelperImmRegLocationRegLocation (cu : CompilationUnit)
    (helper_offset arg0 : Z) (arg1 arg2 : RegLocation) (safepoint_pc : bool)
    : M unit :=
  let cg := cg cu in
  r_tgt <- CallHelperSetup cu helper_offset ;;
  DCHECK rt (negb (wide arg1)) ;;
  emit_ (LoadValueDirectFixed arg1 (TargetReg cg kArg1)) ;;
  (if negb (wide arg2) then
     emit_ (LoadValueDirectFixed arg2 (TargetReg cg kArg2))
   else
     emit_ (LoadValueDirectWideFixed arg2 (TargetReg cg kArg2) (TargetReg cg kArg3))) ;;
  emit_ (LoadConstant (TargetReg cg kArg0) arg0) ;;
  emit_ ClobberCallerSave ;;
  CallHelper cu r_tgt helper_offset safepoint_pc ;;
  ret tt.

(** The third check of the source reads [arg1] again, not [arg2]. *)
Definition CallRuntimeHelperRegLocationRegLocationRegLocation (cu : CompilationUnit)
    (helper_offset : Z) (arg0 arg1 arg2 : RegLocation) (safepoint_pc : bool)
    : M unit :=
  let cg := cg cu in
  r_tgt <- CallHelperSetup cu helper_offset ;;
  DCHECK rt (negb (wide arg0)) ;;
  emit_ (LoadValueDirectFixed arg0 (TargetReg cg kArg0)) ;;
  DCHECK rt (negb (wide arg1)) ;;
  emit_ (LoadValueDirectFixed arg1 (TargetReg cg kArg1)) ;;
  DCHECK rt (negb (wide arg1)) ;;
  emit_ (LoadValueDirectFixed arg2 (TargetReg cg kArg2)) ;;
  emit_ ClobberCallerSave ;;
  CallHelper cu r_tgt helper_offset safepoint_pc ;;
  ret tt.

End RuntimeHelpers.

(** The helper-call routines of this file, by name, with their arguments. *)
Inductive HelperCall :=
  | HelperImm (arg0 : Z)
  | HelperReg (arg0 : Z)
  | HelperRegLocation (arg0 : RegLocation)
  | HelperImmImm (arg0 arg1 : Z)
  | HelperImmRegLocation (arg0 : Z) (arg1 : RegLocation)
  | HelperRegLocationImm (arg0 : RegLocation) (arg1 : Z)
  | HelperImmReg (arg0 arg1 : Z)
  | HelperRegImm (arg0 arg1 : Z)
  | HelperImmMethod (arg0 : Z)
  | HelperRegMethod (arg0 : Z)
  | HelperRegMethodRegLocation (arg0 : Z) (arg2 : RegLocation)
  | HelperRegLocationRegLocation (arg0 arg1 : RegLocation)
  | HelperRegReg (arg0 arg1 : Z)
  | HelperRegRegImm (arg0 arg1 arg2 : Z)
  | HelperImmMethodRegLocation (arg0 : Z) (arg2 : RegLocation)
  | HelperImmMethodImm (arg0 arg2 : Z)
  | HelperImmRegLocationRegLocation (arg0 : Z) (arg1 arg2 : RegLocation)
  | HelperRegLocationRegLocationRegLocation (arg0 arg1 arg2 : RegLocation).

Definition helper_fn (rt : Runtime) (cu : CompilationUnit) (helper_offset : Z)
    (h : HelperCall) (safepoint_pc : bool) : M unit :=
  match h with
  | HelperImm a0 => CallRuntimeHelperImm cu helper_offset a0 safepoint_pc
  | HelperReg a0 => CallRuntimeHelperReg cu helper_offset a0 safepoint_pc
  | HelperRegLocation a0 => CallRuntimeHelperRegLocation cu helper_offset a0 safepoint_pc
  | HelperImmImm a0 a1 => CallRuntimeHelperImmImm cu helper_offset a0 a1 safepoint_pc
  | HelperImmRegLocation a0 a1 =>
      CallRuntimeHelperImmRegLocation cu helper_offset a0 a1 safepoint_pc
  | HelperRegLocationImm a0 a1 =>
      CallRuntimeHelperRegLocationImm cu helper_offset a0 a1 safepoint_pc
  | HelperImmReg a0 a1 => CallRuntimeHelperImmReg cu helper_offset a0 a1 safepoint_pc
  | HelperRegImm a0 a1 => CallRuntimeHelperRegImm cu helper_offset a0 a1 safepoint_pc
  | HelperImmMethod a0 => CallRuntimeHelperImmMethod cu helper_offset a0 safepoint_pc
  | HelperRegMethod a0 => CallRuntimeHelperRegMethod rt cu helper_offset a0 safepoint_pc
  | HelperRegMethodRegLocation a0 a2 =>
      CallRuntimeHelperRegMethodRegLocation rt cu helper_offset a0 a2 safepoint_pc
  | HelperRegLocationRegLocation a0 a1 =>
      CallRuntimeHelperRegLocationRegLocation cu helper_offset a0 a1 safepoint_pc
  | HelperRegReg a0 a1 => CallRuntimeHelperRegReg rt cu helper_offset a0 a1 safepoint_pc
  | HelperRegRegImm a0 a1 a2 =>
      CallRuntimeHelperRegRegImm rt cu helper_offset a0 a1 a2 safepoint_pc
  | HelperImmMethodRegLocation a0 a2 =>
      CallRuntimeHelperImmMethodRegLocation cu helper_offset a0 a2 safepoint_pc
  | HelperImmMethodImm a0 a2 =>
      CallRuntimeHelperImmMethodImm cu helper_offset a0 a2 safepoint_pc
  | HelperImmRegLocationRegLocation a0 a1 a2 =>
      CallRuntimeHelperImmRegLocationRegLocation rt cu helper_offset a0 a1 a2 safepoint_pc
  | HelperRegLocationRegLocationRegLocation a0 a1 a2 =>
      CallRuntimeHelperRegLocationRegLocationRegLocation rt cu helper_offset a0 a1 a2
        safepoint_pc
  end.

(** ** Statements about the runtime helper calls *)

(** One of the core or floating argument registers. *)
Definition is_arg_reg (cu : CompilationUnit) (r : Z) : Prop :=
  exists k, In k [kArg0; kArg1; kArg2; kArg3; kFArg0; kFArg1; kFArg2; kFArg3]
            /\ r = TargetReg (cg cu) k.

(** Two argument registers that hold the halves of a wide argument. *)
Definition is_arg_pair (cu : CompilationUnit) (lo hi : Z) : Prop :=
  exists a b,
    In (a, b) [(kArg0, kArg1); (kArg1, kArg2); (kArg2, kArg3);
               (kFArg0, kFArg1); (kFArg2, kFArg3)]
    /\ lo = TargetReg (cg cu) a /\ hi = TargetReg (cg cu) b.

(** The load of one helper argument: a constant, a register copy, a value
    or the current method, into an argument register. *)
Definition helper_arg_load (cu : CompilationUnit) (o : Op) : Prop :=
  match o with
  | LoadConstant r _ | OpRegCopy r _ | LoadValueDirectFixed _ r
  | LoadCurrMethodDirect r => is_arg_reg cu r
  | LoadValueDirectWideFixed _ lo hi => is_arg_pair cu lo hi
  | _ => False
  end.

(** The loads of the arguments of a helper call, in the order they are
    made: which value goes to which argument register.  A location goes to
    the core or to the floating register of its position where the routine
    distinguishes them. *)
Definition helper_loads (cu : CompilationUnit) (h : HelperCall) : list Op :=
  let reg := TargetReg (cg cu) in
  let pick (rl : RegLocation) (core float : SpecialTargetRegister) :=
    if fp rl then reg float else reg core in
  match h with
  | HelperImm a0 => [LoadConstant (reg kArg0) a0]
  | HelperReg a0 => [OpRegCopy (reg kArg0) a0]
  | HelperRegLocation a0 =>
      if wide a0
      then [LoadValueDirectWideFixed a0 (pick a0 kArg0 kFArg0) (pick a0 kArg1 kFArg1)]
      else [LoadValueDirectFixed a0 (pick a0 kArg0 kFArg0)]
  | HelperImmImm a0 a1 => [LoadConstant (reg kArg0) a0; LoadConstant (reg kArg1) a1]
  | HelperImmRegLocation a0 a1 =>
      [ if wide a1 then LoadValueDirectWideFixed a1 (reg kArg1) (reg kArg2)
        else LoadValueDirectFixed a1 (reg kArg1);
        LoadConstant (reg kArg0) a0 ]
  | HelperRegLocationImm a0 a1 =>
      [LoadValueDirectFixed a0 (reg kArg0); LoadConstant (reg kArg1) a1]
  | HelperImmReg a0 a1 => [OpRegCopy (reg kArg1) a1; LoadConstant (reg kArg0) a0]
  | HelperRegImm a0 a1 => [OpRegCopy (reg kArg0) a0; LoadConstant (reg kArg1) a1]
  | HelperImmMethod a0 => [LoadCurrMethodDirect (reg kArg1); LoadConstant (reg kArg0) a0]
  | HelperRegMethod a0 =>
      (if reg kArg0 =? a0 then [] else [OpRegCopy (reg kArg0) a0])
      ++ [LoadCurrMethodDirect (reg kArg1)]
  | HelperRegMethodRegLocation a0 a2 =>
      (if reg kArg0 =? a0 then [] else [OpRegCopy (reg kArg0) a0])
      ++ [LoadCurrMethodDirect (reg kArg1); LoadValueDirectFixed a2 (reg kArg2)]
  | HelperRegLocationRegLocation a0 a1 =>
      if wide a0 then
        [ LoadValueDirectWideFixed a0 (pick a0 kArg0 kFArg0) (pick a0 kArg1 kFArg1);
          if wide a1
          then LoadValueDirectWideFixed a1 (pick a1 kArg2 kFArg2) (pick a1 kArg3 kFArg3)
          else LoadValueDirectFixed a1 (pick a1 kArg2 kFArg2) ]
      else
        [ LoadValueDirectFixed a0 (pick a0 kArg0 kFArg0);
          if is_isa cu kMips then
            if wide a1
            then LoadValueDirectWideFixed a1 (pick a1 kArg1 kFArg2) (pick a1 kArg2 kFArg3)
            else LoadValueDirectFixed a1 (pick a1 kArg1 kFArg2)
          else
            if wide a1
            then LoadValueDirectWideFixed a1 (reg kArg1) (reg kArg2)
            else LoadValueDirectFixed a1 (reg kArg1) ]
  | HelperRegReg a0 a1 => [OpRegCopy (reg kArg0) a0; OpRegCopy (reg kArg1) a1]
  | HelperRegRegImm a0 a1 a2 =>
      [OpRegCopy (reg kArg0) a0; OpRegCopy (reg kArg1) a1; LoadConstant (reg kArg2) a2]
  | HelperImmMethodRegLocation a0 a2 =>
      [ LoadValueDirectFixed a2 (reg kArg2); LoadCurrMethodDirect (reg kArg1);
        LoadConstant (reg kArg0) a0 ]
  | HelperImmMethodImm a0 a2 =>
      [ LoadCurrMethodDirect (reg kArg1); LoadConstant (reg kArg2) a2;
        LoadConstant (reg kArg0) a0 ]
  | HelperImmRegLocationRegLocation a0 a1 a2 =>
      [ LoadValueDirectFixed a1 (reg kArg1);
        if wide a2 then LoadValueDirectWideFixed a2 (reg kArg2) (reg kArg3)
        else LoadValueDirectFixed a2 (reg kArg2);
        LoadConstant (reg kArg0) a0 ]
  | HelperRegLocationRegLocationRegLocation a0 a1 a2 =>
      [ LoadValueDirectFixed a0 (reg kArg0); LoadValueDirectFixed a1 (reg kArg1);
        LoadValueDirectFixed a2 (reg kArg2) ]
  end.

(** Part 1 and part 2 of a helper call: the target is loaded into a
    register, called through and freed, except on x86, which calls through
    thread memory. *)
Definition helper_setup (cu : CompilationUnit) (helper_offset : Z) : list Op :=
  if is_isa cu kX86 then [] else [LoadHelper helper_offset].

Definition helper_call (cu : CompilationUnit) (helper_offset : Z) (s : CgState)
    : list Op :=
  if is_isa cu kX86 then [OpThreadMem kOpBlx helper_offset]
  else
    let r_tgt := LoadHelper_result (cg cu) (lir s) helper_offset in
    [OpReg kOpBlx r_tgt; FreeTemp r_tgt].

(** The checks a debug build makes on the arguments of a helper call. *)
Definition helper_checks (cu : CompilationUnit) (h : HelperCall) : bool :=
  match h with
  | HelperRegMethod a0 | HelperRegMethodRegLocation a0 _ =>
      negb (TargetReg (cg cu) kArg1 =? a0)
  | HelperRegReg _ a1 | HelperRegRegImm _ a1 _ =>
      negb (TargetReg (cg cu) kArg0 =? a1)
  | HelperImmRegLocationRegLocation _ a1 _ => negb (wide a1)
  | HelperRegLocationRegLocationRegLocation a0 a1 _ => negb (wide a0) && negb (wide a1)
  | _ => true
  end.

Module SampleHelpers.

(** [memcpy(r5, r6, 64)] as the range path of an invocation calls it. *)
Definition memcpy : HelperCall := HelperRegRegImm 5 6 64.

End SampleHelpers.

(** ** Statements about the dispatch sequences *)

(** The number of steps of a routine's sequence: the states at which it
    answers the next state rather than the terminal sentinel. *)
Definition sequence_length (r : DispatchRoutine) (cu : CompilationUnit)
    (direct_code direct_method : Z) : Z :=
  match r with
  | SDCallInsn =>
      if negb (direct_code =? 0) && negb (direct_method =? 0) then 1
      else if is_isa cu kX86 then 3 else 4
  | VCallInsn => if is_isa cu kX86 then 4 else 5
  | InterfaceCallInsn => if is_isa cu kX86 then 5 else 6
  | _ => 1
  end.

Definition in_sequence (r : DispatchRoutine) (cu : CompilationUnit)
    (direct_code direct_method state : Z) : bool :=
  (0 <=? state) && (state <? sequence_length r cu direct_code direct_method).

(** The register a call of a dispatch step writes. *)
Definition written_reg (cu : CompilationUnit) (o : Op) : option Z :=
  match o with
  | LoadConstant r _ | LoadCurrMethodDirect r | LoadWordDisp _ _ r
  | LoadValueDirectFixed _ r | OpRegCopy r _ => Some r
  | LoadCodeAddress _ _ k | LoadMethodAddress _ _ k => Some (TargetReg (cg cu) k)
  | _ => None
  end.

(** The registers a routine's steps may write: the target method goes to
    kArg0 and its code to kInvokeTgt; the virtual and interface sequences
    load the receiver into kArg1, and the interface sequence the method
    index into the hidden argument registers. *)
Definition dispatch_regs (r : DispatchRoutine) : list SpecialTargetRegister :=
  match r with
  | VCallInsn => [kArg0; kArg1; kInvokeTgt]
  | InterfaceCallInsn => [kArg0; kArg1; kInvokeTgt; kHiddenArg; kHiddenFpArg]
  | _ => [kArg0; kInvokeTgt]
  end.

(** What a dispatch step may log: a load into one of the routine's
    registers, or the null check of the receiver. *)
Definition dispatch_step_op (r : DispatchRoutine) (cu : CompilationUnit) (o : Op)
    : Prop :=
  match written_reg cu o with
  | Some d => exists k, In k (dispatch_regs r) /\ d = TargetReg (cg cu) k
  | None =>
      match o with
      | GenNullCheck m_reg _ => m_reg = TargetReg (cg cu) kArg1
      | MarkPossibleNullPointerException _ => True
      | _ => False
      end
  end.

(** ** Statements about argument marshalling *)

(** The location [rl] was read from argument word [lo_arg] or a later one,
    as the argument loop loads it: updated to where the value lives now,
    and narrowed when only one register is left for a wide one. *)
Definition from_arg (cu : CompilationUnit) (info : CallInfo) (lo_arg : Z)
    (rl : RegLocation) : Prop :=
  exists k l a,
    lo_arg <= k < num_arg_words info
    /\ nth_error (args info) (Z.to_nat k) = Some a
    /\ (rl = UpdateRawLoc (cg cu) l a
        \/ rl = set_is_const false (set_wide false (UpdateRawLoc (cg cu) l a))).

(** A load of such an argument word into register [lo_reg] or a later one,
    up to the last argument register. *)
Definition loads_arg_from (cu : CompilationUnit) (info : CallInfo) (lo_reg lo_arg : Z)
    (o : Op) : Prop :=
  match o with
  | LoadValueDirectFixed rl r =>
      lo_reg <= r <= TargetReg (cg cu) kArg3 /\ from_arg cu info lo_arg rl
  | LoadValueDirectWideFixed rl r r' =>
      lo_reg <= r <= TargetReg (cg cu) kArg2 /\ r' = r + 1 /\ from_arg cu info lo_arg rl
  | _ => False
  end.

(** Where a store of the non-range path goes: argument word [k], the
    fourth or a later one, is stored [(k + 1) * 4] bytes above the stack
    pointer, past the slot of the method and those of the three words that
    travel in registers. *)
Definition outs_store (cu : CompilationUnit) (info : CallInfo) (o : Op) : Prop :=
  match o with
  | StoreBaseDisp r_base disp _ _ | StoreWordDisp r_base disp _
  | StoreBaseDispWide r_base disp _ _ =>
      r_base = TargetReg (cg cu) kSp
      /\ exists k, 3 <= k < num_arg_words info /\ disp = (k + 1) * 4
  | _ => True
  end.

(** ** Statements about completion and invariants *)

(** [m] always runs to completion: no check fails, no read is out of
    bounds and no loop bound is too small. *)
Definition completes {A} (m : M A) : Prop :=
  forall s, exists a s', m s = Ok a s'.

(** Whenever [m] starts in a state satisfying [P] and completes, result and
    final state satisfy [Q]. *)
Definition hoare {A} (P : CgState -> Prop) (m : M A) (Q : A -> CgState -> Prop)
    : Prop :=
  forall s a s', P s -> m s = Ok a s' -> Q a s'.

(** ** Statements about the range path *)


(** The calls that matter for how the stack-passed words are copied: block
    copies, the load of a helper, call instructions and safepoint marks. *)
Definition copy_event (o : Op) : list Op :=
  match o with
  | OpVldm _ _ | OpVstm _ _ | LoadHelper _ | MarkSafepointPC _
  | OpReg kOpBlx _ | OpThreadMem kOpBlx _ | OpMem kOpBlx _ _
  | CallWithLinkerFixup _ _ => [o]
  | _ => []
  end.

Definition no_copy_event (o : Op) : Prop := copy_event o = [].

(** The call of the memcpy helper that copies the words of [info] from
    [start_offset] to the outgoing area. *)
Definition memcpy_call (rt : Runtime) (cu : CompilationUnit) (info : CallInfo)
    (start_offset r_tgt : Z) : list Op :=
  let cg := cg cu in
  [ OpRegRegImm kOpAdd (TargetReg cg kArg0) (TargetReg cg kSp) 16;
    OpRegRegImm kOpAdd (TargetReg cg kArg1) (TargetReg cg kSp) start_offset;
    LoadHelper (QUICK_ENTRYPOINT_OFFSET rt pMemcpy);
    OpRegCopy (TargetReg cg kArg0) (TargetReg cg kArg0);
    OpRegCopy (TargetReg cg kArg1) (TargetReg cg kArg1);
    LoadConstant (TargetReg cg kArg2) (to_int32 ((num_arg_words info - 3) * 4));
    ClobberCallerSave;
    OpReg kOpBlx r_tgt;
    FreeTemp r_tgt ].

Module SampleArgs.

Definition word (v : Z) : RegLocation := Sample.in_frame v false false false.

(** Five narrow argument words. *)
Definition five_words : list RegLocation := [word 0; word 1; word 2; word 3; word 4].

(** Seven narrow argument words, as a range invocation passes them. *)
Definition seven_words : list RegLocation :=
  [word 0; word 1; word 2; word 3; word 4; word 5; word 6].

Definition call5 : CallInfo := Sample.call five_words 0 0.

Definition call7 : CallInfo := Sample.call seven_words 0 0.

(** Five argument words of which words 2 and 3 hold a wide value. *)
Definition call5_wide : CallInfo :=
  Sample.call [word 0; word 1; Sample.in_frame 2 true false false;
               Sample.in_frame 3 false false true; word 4] 0 0.

End SampleArgs.

(** ** Statements about the whole invocation *)

(** The loads that leave the target method (or, for an unresolved call, its
    index) in kArg0: a known method pointer, the entry of the dex cache, of
    the vtable or of the interface method table, or the method index. *)
Definition method_loads (rt : Runtime) (cu : CompilationUnit) (tm : MethodReference)
    (method_idx direct_method : Z) (ty : InvokeType) : list Op :=
  let cg := cg cu in
  [ LoadConstant (TargetReg cg kArg0) (to_int32 direct_method);
    LoadMethodAddress tm ty kArg0;
    LoadWordDisp (TargetReg cg kArg0)
      (to_int32 (ArrayDataOffset rt 4 + dex_method_index tm * 4)) (TargetReg cg kArg0);
    LoadWordDisp (TargetReg cg kInvokeTgt)
      (to_int32 (method_idx * 4 + ArrayDataOffset rt 4)) (TargetReg cg kArg0);
    LoadWordDisp (TargetReg cg kInvokeTgt)
      (to_int32 ((method_idx mod kImtSize rt) * 4 + ArrayDataOffset rt 4))
      (TargetReg cg kArg0);
    LoadConstant (TargetReg cg kArg0) (to_int32 (dex_method_index tm)) ].

(** The loads that leave the address to call in kInvokeTgt: a known code
    address, the entry point of the method in kArg0, or a trampoline. *)
Definition code_loads (rt : Runtime) (cu : CompilationUnit) (tm : MethodReference)
    (direct_code : Z) (ty : InvokeType) : list Op :=
  let cg := cg cu in
  [ LoadConstant (TargetReg cg kInvokeTgt) (to_int32 direct_code);
    LoadCodeAddress tm ty kInvokeTgt;
    LoadWordDisp (TargetReg cg kArg0) (EntryPointFromQuickCompiledCodeOffset rt)
      (TargetReg cg kInvokeTgt) ]
  ++ map (fun t => LoadWordDisp (TargetReg cg kSelf)
                     (QUICK_ENTRYPOINT_OFFSET rt (trampoline_of t))
                     (TargetReg cg kInvokeTgt))
       [kStatic; kDirect; kVirtual; kSuper; kInterface].

(** The step of a routine that loads the target method, and the step that
    loads the address to call on a target other than x86. *)
Definition method_step (r : DispatchRoutine) (direct_code direct_method : Z) : Z :=
  match r with
  | SDCallInsn =>
      if negb (direct_code =? 0) && negb (direct_method =? 0) then 0 else 2
  | VCallInsn => 3
  | InterfaceCallInsn => 4
  | _ => 0
  end.

Definition code_step (r : DispatchRoutine) (direct_code direct_method : Z) : Z :=
  match r with
  | SDCallInsn =>
      if negb (direct_code =? 0) && negb (direct_method =? 0) then 0
      else if negb (direct_code =? 0) then 1 else 3
  | VCallInsn => 4
  | InterfaceCallInsn => 5
  | _ => 0
  end.

(** How far a call sequence has come when the routine is at [call_state]
    in state [s], since [s0]: it has not passed step [k] yet, or one of the
    calls [tgt] is already logged. *)
Definition call_progress (tgt : Op -> Prop) (k : Z) (s0 : CgState) (call_state : Z)
    (s : CgState) : Prop :=
  exists ops, logged s0 s ops /\ (0 <= call_state <= k \/ Exists tgt ops).

(** What a full invocation logs before the sequence of the call and after
    the call instruction and its safepoint mark. *)
Definition invoke_prologue (cu : CompilationUnit) (info : CallInfo) : list Op :=
  let method_info := GetMethodLoweringInfo (cg cu) (mir info) in
  [ FlushAllRegs; LockCallTemps;
    ProcessedInvoke (GetInvokeType method_info) (StatsFlags method_info) ].

(** The store of the returned value to the result of the invocation: the
    MOVE_RESULT that follows is done with the call.  The value stored is
    the return location of the result's width and kind that the backend
    gives for the log [l], the calls logged when it is fetched. *)
Definition is_result_move (cu : CompilationUnit) (info : CallInfo) (l : list Op)
    (ops : list Op) : Prop :=
  if RegLocationType_eqb (location (result info)) kLocInvalid then ops = []
  else if wide (result info) then
    ops = [ GetReturnWide (fp (result info));
            StoreValueWide (result info)
              (GetReturnWide_result (cg cu) l (fp (result info))) ]
  else
    ops = [ GetReturn (fp (result info));
            StoreValue (result info) (GetReturn_result (cg cu) l (fp (result info))) ].

(** [m] can stop only because a loop bound of the model ran out: no check
    fails and no read is out of bounds. *)
Definition safe {A} (m : M A) : Prop :=
  forall s f, m s = Stop f -> f = OutOfFuel.

(** The dispatch routine of the invocation loads the receiver itself: a
    virtual or interface call resolved at compile time. *)
Definition dispatch_loads_receiver (method_info : MirMethodLoweringInfo) : bool :=
  FastPath method_info
  && match GetSharpType method_info with
     | kVirtual | kInterface => true
     | _ => false
     end.

(** What a full invocation needs to be lowered without a fault: the
    argument array holds every argument word, and the receiver when the
    dispatch sequence loads it; the target method is a method of the dex
    file being compiled; and on x86 the stack copy finds an xmm
    temporary. *)
Definition invocation_well_formed (cu : CompilationUnit) (info : CallInfo) : Prop :=
  let method_info := GetMethodLoweringInfo (cg cu) (mir info) in
  let target_method := GetTargetMethod method_info in
  cu_dex_file cu = dex_file target_method
  /\ dex_method_index target_method
     < NumMethodIds (cg cu) (dex_file target_method)
  /\ num_arg_words info <= Z.of_nat (length (args info))
  /\ (dispatch_loads_receiver method_info = true -> args info <> [])
  /\ (instruction_set cu = kX86 -> xmm_temp_available cu).

Module SampleRelease.

(** The sample runtime as a release build: debug checks compiled out. *)
Definition rt : Runtime :=
  {| DexCacheResolvedMethodsOffset := DexCacheResolvedMethodsOffset Sample.rt;
     EntryPointFromQuickCompiledCodeOffset :=
       EntryPointFromQuickCompiledCodeOffset Sample.rt;
     ClassOffset := ClassOffset Sample.rt;
     VTableOffset := VTableOffset Sample.rt;
     ImTableOffset := ImTableOffset Sample.rt;
     ArrayDataOffset := ArrayDataOffset Sample.rt;
     StringValueOffset := StringValueOffset Sample.rt;
     StringCountOffset := StringCountOffset Sample.rt;
     StringOffsetOffset := StringOffsetOffset Sample.rt;
     ThreadPeerOffset := ThreadPeerOffset Sample.rt;
     kImtSize := kImtSize Sample.rt;
     QUICK_ENTRYPOINT_OFFSET := QUICK_ENTRYPOINT_OFFSET Sample.rt;
     INVALID_REG := INVALID_REG Sample.rt;
     INVALID_SREG := INVALID_SREG Sample.rt;
     MIR_IGNORE_NULL_CHECK := MIR_IGNORE_NULL_CHECK Sample.rt;
     MIR_IGNORE_RANGE_CHECK := MIR_IGNORE_RANGE_CHECK Sample.rt;
     kVRegMethodPtrBaseReg := kVRegMethodPtrBaseReg Sample.rt;
     kIsDebugBuild := false |}.

End SampleRelease.

(** ** Statements about what FlushIns logs *)

(** The calls that home the incoming method pointer: it is live in kArg0,
    stored to the location of the method, and flushed to the bottom of the
    frame when the method pointer was promoted. *)
Definition method_home_op (rt : Runtime) (cu : CompilationUnit) (rl_method : RegLocation)
    (o : Op) : Prop :=
  let cg := cg cu in
  match o with
  | MarkLive r s_reg => r = TargetReg cg kArg0 /\ s_reg = s_reg_low rl_method
  | StoreValue rl_dest rl_src =>
      rl_dest = rl_method
      /\ location rl_src = kLocPhysReg
      /\ GetReg (reg rl_src) = TargetReg cg kArg0
      /\ home rl_src = false
  | StoreWordDisp r_base disp r_src =>
      r_base = TargetReg cg kSp /\ disp = 0 /\ r_src = TargetReg cg kArg0
      /\ location rl_method = kLocPhysReg
  | _ => False
  end.

(** The incoming word is promoted to a register of its own kind. *)
Definition promoted_for (t_loc : RegLocation) (v_map : PromotionMap) : Prop :=
  if fp t_loc then fp_location v_map = kLocPhysReg
  else core_location v_map = kLocPhysReg.

(** What FlushIns logs for an incoming word: a word that arrives in a
    register is copied to the register it was promoted to, and stored to
    its home in the frame only when it is wide or not promoted for its
    kind; a word that arrives in the frame is loaded from its home into the
    registers it was promoted to. *)
Definition in_word_op (rt : Runtime) (cu : CompilationUnit) (ArgLocs : list RegLocation)
    (o : Op) : Prop :=
  exists i v_map,
    let cg := cg cu in
    let start_vreg := num_dalvik_registers cu - num_ins cu in
    let reg := GetArgMappingToPhysicalReg cg i in
    0 <= i < num_ins cu
    /\ nth_error (promotion_map_ cg) (Z.to_nat (start_vreg + i)) = Some v_map
    /\ match o with
       | OpRegCopy r_dest r_src =>
           r_src = reg /\ reg <> INVALID_REG rt
           /\ exists t_loc,
                nth_error ArgLocs (Z.to_nat i) = Some t_loc
                /\ promoted_for t_loc v_map
                /\ r_dest = (if fp t_loc then FpReg v_map else core_reg v_map)
       | StoreBaseDisp r_base disp r_src size =>
           r_base = TargetReg cg kSp /\ disp = SRegOffset cg (start_vreg + i)
           /\ r_src = reg /\ size = kWord /\ reg <> INVALID_REG rt
           /\ exists t_loc,
                nth_error ArgLocs (Z.to_nat i) = Some t_loc
                /\ (wide t_loc = true \/ ~ promoted_for t_loc v_map)
       | LoadWordDisp r_base disp r_dest =>
           r_base = TargetReg cg kSp /\ disp = SRegOffset cg (start_vreg + i)
           /\ reg = INVALID_REG rt
           /\ ((core_location v_map = kLocPhysReg /\ r_dest = core_reg v_map)
               \/ (fp_location v_map = kLocPhysReg /\ r_dest = FpReg v_map))
       | _ => False
       end.

(** ** Statements about the intrinsics *)

(** The call descriptor an intrinsic hands to its launchpad: the one of the
    invocation with the null check recorded as done. *)
Definition null_checked (rt : Runtime) (info : CallInfo) : CallInfo :=
  set_opt_flags (Z.lor (opt_flags info) (MIR_IGNORE_NULL_CHECK rt)) info.

(** The launchpad retries the invocation [info] at its dex pc, without
    repeating the null check. *)
Definition retries (rt : Runtime) (info : CallInfo) (p : LaunchPad) : Prop :=
  info_ p = null_checked rt info /\ current_dex_pc_ p = offset info.

Definition is_branch (o : Op) : bool :=
  match o with
  | OpCondBranch _ _ | OpCmpImmBranch _ _ _ _ | OpCmpMemImmBranch _ _ _ _ _ _
  | OpUnconditionalBranch _ => true
  | _ => false
  end.

Module SampleIntrinsics.

(** [s.indexOf(c)] for a constant [c] = 0x10000, held in virtual register 7. *)
Definition indexOf_supplementary : CallInfo :=
  Sample.call [Sample.in_frame 4 false false false;
               set_is_const true (Sample.in_frame 7 false false false)] 102 1.

(** [s.charAt(i)] with the range check already known to hold. *)
Definition charAt_unchecked : CallInfo := set_opt_flags 4 SampleCalls.charAt.

(** [s.charAt(i)] whose value is moved to virtual register 6. *)
Definition charAt_with_result : CallInfo :=
  {| num_arg_words := 2;
     args := SampleCalls.two_words;
     result := Sample.in_frame 6 false false false;
     opt_flags := 0;
     type := kVirtual;
     index := 100;
     is_range := false;
     offset := 12;
     mir := 1 |}.

End SampleIntrinsics.

(** The argument words an intrinsic routine reads: one more than the
    highest index of [info->args] it accesses. *)
Definition words_read (m : InlineMethod) : Z :=
  match m with
  | kIntrinsicCurrentThread => 0
  | kIntrinsicCharAt | kIntrinsicCompareTo => 2
  | kIntrinsicIndexOf zero_based => if zero_based then 2 else 3
  | kIntrinsicUnsafeGet _ _ => 3
  | kIntrinsicUnsafePut _ _ _ _ => 5
  | _ => 1
  end.

(** The current-thread accessor has an expansion for Thumb2, MIPS and x86
    only, and checks that in every build. *)
Definition expands_on (cu : CompilationUnit) (m : InlineMethod) : bool :=
  match m with
  | kIntrinsicCurrentThread => is_isa cu kThumb2 || is_isa cu kMips || is_isa cu kX86
  | _ => true
  end.

(** What the debug-build assertions of the intrinsics ask of the caller:
    [isEmpty] and the long [abs] are expanded for Thumb2 and x86 only, and
    bytes are reversed in a long, a word or a signed half word. *)
Definition debug_checks_hold (cu : CompilationUnit) (m : InlineMethod) : bool :=
  match m with
  | kIntrinsicIsEmptyOrLength true | kIntrinsicAbsLong =>
      is_isa cu kMips || is_isa cu kThumb2 || is_isa cu kX86
  | kIntrinsicReverseBytes size =>
      is_isa cu kMips || OpSize_eqb size kLong || OpSize_eqb size kWord
      || OpSize_eqb size kSignedHalf
  | _ => true
  end.



(** Where an intrinsic puts its value: the result location of the
    invocation, or the return-value location when the invocation has no
    result location. *)
Definition inline_target (cu : CompilationUnit) (info : CallInfo) (is_wide : bool)
    (rl_dest : RegLocation) : Prop :=
  if RegLocationType_eqb (location (result info)) kLocInvalid then
    exists l, rl_dest = if is_wide then GetReturnWide_result (cg cu) l false
                        else GetReturn_result (cg cu) l false
  else rl_dest = result info.

Definition stores_result (cu : CompilationUnit) (info : CallInfo) (o : Op) : Prop :=
  match o with
  | StoreValue rl_dest _ => inline_target cu info false rl_dest
  | StoreValueWide rl_dest _ => inline_target cu info true rl_dest
  | _ => True
  end.

(** ** Statements about the stack copy on x86 *)

(** An aligned 128-bit move addresses a multiple of 16 from the stack
    pointer, and the low half of a split move a multiple of 8. *)
Definition aligned_move (o : Op) : Prop :=
  match o with
  | OpMovRegMem _ _ disp move_type | OpMovMemReg _ disp _ move_type =>
      match move_type with
      | kMovA128FP => Z.land disp 15 = 0
      | kMovLo128FP => Z.land disp 7 = 0 /\ Z.land disp 15 <> 0
      | _ => True
      end
  | _ => True
  end.

(** An access of the copy to the frame: [size] bytes at [disp] from
    [r_base], into or out of [reg]. *)
Inductive StackAccess :=
  | StackLoad (r_base disp reg size : Z)
  | StackStore (r_base disp reg size : Z).

Definition stack_access (o : Op) : list StackAccess :=
  match o with
  | OpMovRegMem r_dest r_base disp move_type =>
      [StackLoad r_base disp r_dest (move_bytes move_type)]
  | LoadWordDisp r_base disp r_dest => [StackLoad r_base disp r_dest 4]
  | OpMovMemReg r_base disp r_src move_type =>
      [StackStore r_base disp r_src (move_bytes move_type)]
  | StoreWordDisp r_base disp r_src => [StackStore r_base disp r_src 4]
  | _ => []
  end.

(** The loads fill [temp] from the bytes [from, to) off [sp], in order and
    without gap or overlap. *)
Fixpoint reads (sp temp from : Z) (l : list StackAccess) (to : Z) : Prop :=
  match l with
  | [] => from = to
  | StackLoad r_base disp reg size :: l =>
      r_base = sp /\ disp = from /\ reg = temp /\ 0 < size
      /\ reads sp temp (from + size) l to
  | StackStore _ _ _ _ :: _ => False
  end.

(** The stores write [temp] to the bytes [from, to) off [sp], in order and
    without gap or overlap. *)
Fixpoint writes (sp temp from : Z) (l : list StackAccess) (to : Z) : Prop :=
  match l with
  | [] => from = to
  | StackStore r_base disp reg size :: l =>
      r_base = sp /\ disp = from /\ reg = temp /\ 0 < size
      /\ writes sp temp (from + size) l to
  | StackLoad _ _ _ _ :: _ => False
  end.

(** The accesses copy [bytes] bytes from [src] to [dst] off [sp], chunk by
    chunk: each chunk is read into a temporary and written from the same
    temporary to the same distance from [dst], before the next chunk is
    read. *)
Inductive copied (sp : Z) : Z -> Z -> list StackAccess -> Z -> Prop :=
  | copied_done src dst : copied sp src dst [] 0
  | copied_chunk src dst temp size loads stores rest bytes :
      0 < size ->
      reads sp temp src loads (src + size) ->
      writes sp temp dst stores (dst + size) ->
      copied sp (src + size) (dst + size) rest bytes ->
      copied sp src dst (loads ++ stores ++ rest) (size + bytes).

(** ** Statements about the words passed on the stack *)

Definition size_bytes (size : OpSize) : Z :=
  match size with
  | kWord | kSingle => 4
  | kLong | kDouble => 8
  | kUnsignedHalf | kSignedHalf => 2
  | kUnsignedByte | kSignedByte => 1
  end.

(** A store to memory: base register, displacement and bytes written. *)
Definition outs_write (o : Op) : list (Z * Z * Z) :=
  match o with
  | StoreBaseDisp r_base disp _ size => [(r_base, disp, size_bytes size)]
  | StoreWordDisp r_base disp _ => [(r_base, disp, 4)]
  | StoreBaseDispWide r_base disp _ _ => [(r_base, disp, 8)]
  | _ => []
  end.

(** The stores write the bytes [from, to) off [sp], in order and without
    gap or overlap. *)
Fixpoint covers (sp from : Z) (l : list (Z * Z * Z)) (to : Z) : Prop :=
  match l with
  | [] => from = to
  | (r_base, disp, bytes) :: l =>
      r_base = sp /\ disp = from /\ covers sp (from + bytes) l to
  end.

(** Since [s0] the outgoing area has been written from offset 16, the slot
    of argument word 3, up to [to]. *)
Definition outs_written (cu : CompilationUnit) (s0 : CgState) (to : Z) (s : CgState)
    : Prop :=
  exists ops,
    logged s0 s ops
    /\ covers (TargetReg (cg cu) kSp) 16 (flat_map outs_write ops) to.

(** What the non-range path has stored when it is done: nothing for up to
    three argument words; otherwise the slots of the words from the fourth
    to the last, one store after the other with no gap and no slot written
    twice, ending at the last word or, when a wide value starts at the last
    word, one word further. *)
Definition stack_words_written (cu : CompilationUnit) (info : CallInfo)
    (s s' : CgState) : Prop :=
  exists ops,
    logged s s' ops
    /\ if num_arg_words info >? 3 then
         exists last,
           num_arg_words info <= last <= num_arg_words info + 1
           /\ covers (TargetReg (cg cu) kSp) 16 (flat_map outs_write ops) ((last + 1) * 4)
       else flat_map outs_write ops = [].

(** ** Statements about the retry of a launchpad *)

(** A null check is made with the optimisation flags [flags]. *)
Definition null_check_with (flags : Z) (o : Op) : Prop :=
  match o with
  | GenNullCheck _ opt => opt = flags
  | _ => True
  end.

(** A null check is made with MIR_IGNORE_NULL_CHECK set: the check is known
    to have been done. *)
Definition null_check_elided (rt : Runtime) (o : Op) : Prop :=
  match o with
  | GenNullCheck _ opt =>
      Z.land opt (MIR_IGNORE_NULL_CHECK rt) = MIR_IGNORE_NULL_CHECK rt
  | _ => True
  end.


(** * Properties *)

Lemma InstructionSet_eqb_spec a b : reflect (a = b) (InstructionSet_eqb a b).
Proof. destruct a, b; simpl; constructor; congruence. Qed.

Lemma RegLocationType_eqb_spec a b : reflect (a = b) (RegLocationType_eqb a b).
Proof. destruct a, b; simpl; constructor; congruence. Qed.

Lemma appended_nil s : appended s [] = s.
Proof. destruct s; unfold appended; simpl; now rewrite app_nil_r. Qed.

Lemma appended_appended s l1 l2 : appended (appended s l1) l2 = appended s (l1 ++ l2).
Proof. unfold appended; simpl; now rewrite app_assoc. Qed.

Lemma emit_appended o s : emit_ o s = Ok tt (appended s [o]).
Proof. reflexivity. Qed.

Lemma bind_Ok_inv {A B} (m : M A) (k : A -> M B) s b s' :
  bind m k s = Ok b s' -> exists a s1, m s = Ok a s1 /\ k a s1 = Ok b s'.
Proof.
  unfold bind. destruct (m s) as [a s1|f]; [|discriminate].
  intros H. now exists a, s1.
Qed.

Lemma bind_Ok {A B} (m : M A) (k : A -> M B) s a s1 :
  m s = Ok a s1 -> bind m k s = k a s1.
Proof. unfold bind. now intros ->. Qed.

(** Unfold the monad on a goal or hypothesis. *)
Ltac mrun :=
  cbv [bind ret emit_ emit when CHECK stop ask call_r] in *;
  cbn [lir slow_paths_] in *.

(** Case analysis on an innermost scrutinee. *)
Ltac case_if :=
  match goal with
  | |- context [match ?b with _ => _ end] =>
      lazymatch b with
      | context [match _ with _ => _ end] => fail
      | _ => destruct b eqn:?
      end
  | H : context [match ?b with _ => _ end] |- _ =>
      lazymatch b with
      | context [match _ with _ => _ end] => fail
      | _ => destruct b eqn:?
      end
  end.

Ltac unfold_routines :=
  unfold NextSDCallInsn, NextVCallInsn, NextInterfaceCallInsn,
    NextStaticCallInsnSP, NextDirectCallInsnSP, NextSuperCallInsnSP,
    NextVCallInsnSP, NextInterfaceCallInsnWithAccessCheck, NextInvokeInsnSP.

(** ** Loops and logs *)

(** A call logged after [pre] whose arguments were read off the log. *)
Lemma logged_at s s1 s' pre (f : list Op -> Op) post :
  logged s s1 pre -> logged s1 s' (f (lir s1) :: post) ->
  logged s s' (pre ++ f (lir s ++ pre) :: post).
Proof. unfold logged. intros H1 H2. rewrite H2, H1, <- app_assoc. reflexivity. Qed.

Lemma while_step {X} n cond (body : X -> M X) x s x' s' :
  cond x = true ->
  while_ (S n) cond body x s = Ok x' s' ->
  exists x1 s1, body x s = Ok x1 s1 /\ while_ n cond body x1 s1 = Ok x' s'.
Proof. intros Hc H. simpl in H. rewrite Hc in H. now apply bind_Ok_inv in H. Qed.

Lemma while_done {X} n cond (body : X -> M X) x s x' s' :
  cond x = false -> while_ n cond body x s = Ok x' s' -> x' = x /\ s' = s.
Proof.
  intros Hc H. destruct n; simpl in H; rewrite Hc in H; inversion H; auto.
Qed.

Lemma logged_refl s : logged s s [].
Proof. unfold logged. now rewrite app_nil_r. Qed.

Lemma logged_trans s1 s2 s3 l1 l2 :
  logged s1 s2 l1 -> logged s2 s3 l2 -> logged s1 s3 (l1 ++ l2).
Proof. unfold logged. intros H1 H2. now rewrite H2, H1, app_assoc. Qed.

Lemma logged_appended s ops : logged s (appended s ops) ops.
Proof. reflexivity. Qed.

(** A counting loop [for (i = lo; i < hi; i++) body(i)] runs to the end
    when every iteration does, and keeps an invariant. *)
Lemma while_count (body : Z -> M unit) (hi : Z) (Inv : Z -> CgState -> Prop) :
  (forall j s, j < hi -> Inv j s -> exists s', body j s = Ok tt s' /\ Inv (j + 1) s') ->
  forall n i s,
    Z.of_nat n = hi - i -> Inv i s ->
    exists s',
      while_ n (fun i => i <? hi) (fun i => body i ;; ret (i + 1))%cg i s = Ok hi s'
      /\ Inv hi s'.
Proof.
  intros Hbody. induction n as [|n IH]; intros i s Hn Hinv.
  - assert (i = hi) by lia. subst. simpl. rewrite Z.ltb_irrefl.
    exists s. split; [reflexivity | assumption].
  - simpl. assert (Hlt : i < hi) by lia.
    rewrite (proj2 (Z.ltb_lt i hi) Hlt).
    destruct (Hbody i s Hlt Hinv) as (s1 & Hb & Hinv1).
    unfold bind at 1. unfold bind at 1. rewrite Hb. unfold ret at 1.
    apply IH; [lia | assumption].
Qed.

Ltac mcases := repeat (mrun; case_if); mrun.

Ltac solve_appended :=
  first [ exists []; rewrite appended_nil; reflexivity
        | eexists; unfold appended; cbn [lir slow_paths_];
          rewrite <- ?app_assoc; reflexivity ].

(** ** What a computation may log *)

Lemma emits_only_ret {A} P (a : A) : emits_only P (ret a).
Proof. intros s x s' H. inversion H; subst. exists []. split; [apply logged_refl | constructor]. Qed.

Lemma emits_only_stop {A} P f : emits_only P (@stop A f).
Proof. intros s x s' H. discriminate. Qed.

Lemma emits_only_ask {A} P (f : list Op -> A) : emits_only P (ask f).
Proof. intros s x s' H. inversion H; subst. exists []. split; [apply logged_refl | constructor]. Qed.

Lemma emits_only_emit P o : P o -> emits_only P (emit o).
Proof.
  intros Ho s x s' H. inversion H; subst. exists [o].
  split; [reflexivity | now constructor].
Qed.

Lemma emits_only_bind {A B} P (m : M A) (k : A -> M B) :
  emits_only P m -> (forall a, emits_only P (k a)) -> emits_only P (bind m k).
Proof.
  intros Hm Hk s b s' H. apply bind_Ok_inv in H. destruct H as (a & s1 & H1 & H2).
  destruct (Hm _ _ _ H1) as (l1 & Hl1 & Hp1).
  destruct (Hk a _ _ _ H2) as (l2 & Hl2 & Hp2).
  exists (l1 ++ l2). split; [eapply logged_trans; eassumption | now apply Forall_app].
Qed.

Lemma emits_only_emit_ P o : P o -> emits_only P (emit_ o).
Proof.
  intros Ho. apply emits_only_bind; [now apply emits_only_emit | intros; apply emits_only_ret].
Qed.

Lemma emits_only_call_r {A} P o (f : list Op -> A) : P o -> emits_only P (call_r o f).
Proof.
  intros Ho. unfold call_r. apply emits_only_bind; [apply emits_only_ask|].
  intros a. apply emits_only_bind; [now apply emits_only_emit_ | intros; apply emits_only_ret].
Qed.

Lemma emits_only_when P b m :
  (b = true -> emits_only P m) -> emits_only P (when b m).
Proof. destruct b; simpl; intros H; [now apply H | apply emits_only_ret]. Qed.

Lemma emits_only_CHECK P b : emits_only P (CHECK b).
Proof. destruct b; [apply emits_only_ret | apply emits_only_stop]. Qed.

Lemma emits_only_DCHECK rt P b : emits_only P (DCHECK rt b).
Proof. unfold DCHECK. destruct (kIsDebugBuild rt); [apply emits_only_CHECK | apply emits_only_ret]. Qed.

Lemma emits_only_arg_at P info i : emits_only P (arg_at info i).
Proof.
  unfold arg_at. destruct (i <? 0); [apply emits_only_stop|].
  destruct (nth_error _ _); [apply emits_only_ret | apply emits_only_stop].
Qed.

Lemma emits_only_AddSlowPath P p : emits_only P (AddSlowPath p).
Proof.
  intros s x s' H. inversion H; subst. exists [].
  split; [unfold logged; simpl; now rewrite app_nil_r | constructor].
Qed.

Lemma emits_only_while {X} P fuel cond (body : X -> M X) :
  (forall x, emits_only P (body x)) ->
  forall x, emits_only P (while_ fuel cond body x).
Proof.
  intros Hb. induction fuel as [|n IH]; intros x; simpl.
  - destruct (cond x); [apply emits_only_stop | apply emits_only_ret].
  - destruct (cond x); [|apply emits_only_ret].
    apply emits_only_bind; [apply Hb | apply IH].
Qed.

Lemma emits_only_weaken {A} (P Q : Op -> Prop) (m : M A) :
  (forall o, P o -> Q o) -> emits_only P m -> emits_only Q m.
Proof.
  intros HPQ Hm s a s' H. destruct (Hm _ _ _ H) as (ops & Hl & Hf).
  exists ops. split; [assumption|]. eapply Forall_impl; eassumption.
Qed.

(** Decompose a computation into the calls it logs. *)
Ltac emits_step :=
  lazymatch goal with
  | |- emits_only _ (ret _) => apply emits_only_ret
  | |- emits_only _ (stop _) => apply emits_only_stop
  | |- emits_only _ (ask _) => apply emits_only_ask
  | |- emits_only _ (CHECK _) => apply emits_only_CHECK
  | |- emits_only _ (DCHECK _ _) => apply emits_only_DCHECK
  | |- emits_only _ (arg_at _ _) => apply emits_only_arg_at
  | |- emits_only _ (AddSlowPath _) => apply emits_only_AddSlowPath
  | |- emits_only _ (emit_ _) => apply emits_only_emit_
  | |- emits_only _ (emit _) => apply emits_only_emit
  | |- emits_only _ (call_r _ _) => apply emits_only_call_r
  | |- emits_only _ (when _ _) => apply emits_only_when; intros ?; try discriminate
  | |- emits_only _ (bind _ _) => apply emits_only_bind; [|intros ?]
  | |- emits_only _ (match ?x with _ => _ end) => destruct x eqn:?
  end.

Ltac emits := repeat emits_step.

(** ** Results and loop bounds *)

Lemma returns_ret {A} (R : A -> Prop) a : R a -> returns R (ret a).
Proof. intros Ha s x s' H. now inversion H; subst. Qed.

Lemma returns_stop {A} (R : A -> Prop) f : returns R (@stop A f).
Proof. intros s x s' H. discriminate. Qed.

Lemma returns_bind {A B} (R1 : A -> Prop) (R : B -> Prop) (m : M A) (k : A -> M B) :
  returns R1 m -> (forall a, R1 a -> returns R (k a)) -> returns R (bind m k).
Proof.
  intros Hm Hk s b s' H. apply bind_Ok_inv in H. destruct H as (a & s1 & H1 & H2).
  eapply Hk; [eapply Hm|]; eassumption.
Qed.

Lemma returns_bind_any {A B} (R : B -> Prop) (m : M A) (k : A -> M B) :
  (forall a, returns R (k a)) -> returns R (bind m k).
Proof.
  intros Hk. apply returns_bind with (R1 := fun _ => True); [intros ? ? ? _; exact I|].
  intros a _. apply Hk.
Qed.

(** Decompose a computation down to the values it returns. *)
Ltac rets_step :=
  lazymatch goal with
  | |- returns _ (ret _) => apply returns_ret
  | |- returns _ (stop _) => apply returns_stop
  | |- returns _ (bind _ _) => apply returns_bind_any; intros ?
  | |- returns _ (match ?x with _ => _ end) => destruct x eqn:?
  end.

Ltac rets := repeat rets_step.

Lemma enough_fuel_ret {A} (a : A) : enough_fuel (ret a).
Proof. intros s H. discriminate. Qed.

Lemma enough_fuel_stop {A} f : f <> OutOfFuel -> enough_fuel (@stop A f).
Proof. intros Hf s H. inversion H. contradiction. Qed.

Lemma enough_fuel_ask {A} (f : list Op -> A) : enough_fuel (ask f).
Proof. intros s H. discriminate. Qed.

Lemma enough_fuel_emit o : enough_fuel (emit o).
Proof. intros s H. discriminate. Qed.

Lemma enough_fuel_bind_val {A B} (R : A -> Prop) (m : M A) (k : A -> M B) :
  returns R m -> enough_fuel m -> (forall a, R a -> enough_fuel (k a)) ->
  enough_fuel (bind m k).
Proof.
  intros HR Hm Hk s H. unfold bind in H.
  destruct (m s) as [a s1|f] eqn:E.
  - exact (Hk a (HR _ _ _ E) s1 H).
  - apply (Hm s). congruence.
Qed.

Lemma enough_fuel_bind {A B} (m : M A) (k : A -> M B) :
  enough_fuel m -> (forall a, enough_fuel (k a)) -> enough_fuel (bind m k).
Proof.
  intros Hm Hk. apply enough_fuel_bind_val with (R := fun _ => True);
    [intros ? ? ? _; exact I | assumption | intros a _; apply Hk].
Qed.

Lemma enough_fuel_emit_ o : enough_fuel (emit_ o).
Proof. apply enough_fuel_bind; [apply enough_fuel_emit | intros; apply enough_fuel_ret]. Qed.

Lemma enough_fuel_call_r {A} o (f : list Op -> A) : enough_fuel (call_r o f).
Proof.
  unfold call_r. apply enough_fuel_bind; [apply enough_fuel_ask|]. intros a.
  apply enough_fuel_bind; [apply enough_fuel_emit_ | intros; apply enough_fuel_ret].
Qed.

Lemma enough_fuel_when b m : enough_fuel m -> enough_fuel (when b m).
Proof. destruct b; simpl; intros H; [assumption | apply enough_fuel_ret]. Qed.

Lemma enough_fuel_CHECK b : enough_fuel (CHECK b).
Proof. destruct b; [apply enough_fuel_ret | apply enough_fuel_stop; discriminate]. Qed.

Lemma enough_fuel_DCHECK rt b : enough_fuel (DCHECK rt b).
Proof.
  unfold DCHECK. destruct (kIsDebugBuild rt); [apply enough_fuel_CHECK | apply enough_fuel_ret].
Qed.

Lemma enough_fuel_arg_at info i : enough_fuel (arg_at info i).
Proof.
  unfold arg_at. destruct (i <? 0); [apply enough_fuel_stop; discriminate|].
  destruct (nth_error _ _); [apply enough_fuel_ret | apply enough_fuel_stop; discriminate].
Qed.

Lemma enough_fuel_loc_at l i : enough_fuel (loc_at l i).
Proof.
  unfold loc_at. destruct (i <? 0); [apply enough_fuel_stop; discriminate|].
  destruct (nth_error _ _); [apply enough_fuel_ret | apply enough_fuel_stop; discriminate].
Qed.

Lemma enough_fuel_promotion_map_at cu i : enough_fuel (promotion_map_at cu i).
Proof.
  unfold promotion_map_at. destruct (i <? 0); [apply enough_fuel_stop; discriminate|].
  destruct (nth_error _ _); [apply enough_fuel_ret | apply enough_fuel_stop; discriminate].
Qed.

Lemma enough_fuel_AddSlowPath p : enough_fuel (AddSlowPath p).
Proof. intros s H. discriminate. Qed.

(** A loop whose variables decrease a measure with every iteration never
    runs out of a bound that is at least the measure. *)
Lemma enough_fuel_while {X} (cond : X -> bool) (body : X -> M X) (mu : X -> nat) :
  (forall x, cond x = true -> (0 < mu x)%nat) ->
  (forall x, cond x = true -> returns (fun x' => (mu x' < mu x)%nat) (body x)) ->
  (forall x, enough_fuel (body x)) ->
  forall fuel x, (mu x <= fuel)%nat -> enough_fuel (while_ fuel cond body x).
Proof.
  intros Hpos Hdec Hbody. induction fuel as [|n IH]; intros x Hmu; simpl.
  - destruct (cond x) eqn:E; [|apply enough_fuel_ret].
    specialize (Hpos x E). lia.
  - destruct (cond x) eqn:E; [|apply enough_fuel_ret].
    apply enough_fuel_bind_val with (R := fun x' => (mu x' < mu x)%nat).
    + now apply Hdec.
    + apply Hbody.
    + intros x' Hlt. apply IH. lia.
Qed.

Ltac fuels_step :=
  lazymatch goal with
  | |- enough_fuel (ret _) => apply enough_fuel_ret
  | |- enough_fuel (stop _) => apply enough_fuel_stop; discriminate
  | |- enough_fuel (ask _) => apply enough_fuel_ask
  | |- enough_fuel (CHECK _) => apply enough_fuel_CHECK
  | |- enough_fuel (DCHECK _ _) => apply enough_fuel_DCHECK
  | |- enough_fuel (arg_at _ _) => apply enough_fuel_arg_at
  | |- enough_fuel (loc_at _ _) => apply enough_fuel_loc_at
  | |- enough_fuel (promotion_map_at _ _) => apply enough_fuel_promotion_map_at
  | |- enough_fuel (AddSlowPath _) => apply enough_fuel_AddSlowPath
  | |- enough_fuel (emit_ _) => apply enough_fuel_emit_
  | |- enough_fuel (emit _) => apply enough_fuel_emit
  | |- enough_fuel (call_r _ _) => apply enough_fuel_call_r
  | |- enough_fuel (when _ _) => apply enough_fuel_when
  | |- enough_fuel (bind _ _) => apply enough_fuel_bind; [|intros ?]
  | |- enough_fuel (match ?x with _ => _ end) => destruct x eqn:?
  end.

Ltac fuels := repeat fuels_step.

Section DispatchProperties.

Variable rt : Runtime.

Lemma NextInvokeInsnSP_value cu info trampoline state tm idx s a s' :
  NextInvokeInsnSP cu info trampoline state tm idx s = Ok a s' ->
  a = if state =? 0 then 1 else -1.
Proof.
  unfold NextInvokeInsnSP. mrun.
  repeat case_if; intros H; inversion H; reflexivity.
Qed.

Lemma step_index_same_off_entry_point r cu1 cu2 info state tm idx dc dm ty s a1 s1 a2 s2 :
  entry_point_step r dc dm <> Some state ->
  routine_fn rt r cu1 info state tm idx dc dm ty s = Ok a1 s1 ->
  routine_fn rt r cu2 info state tm idx dc dm ty s = Ok a2 s2 ->
  a1 = a2.
Proof.
  intros Hne H1 H2.
  destruct r; simpl in *;
    try (apply NextInvokeInsnSP_value in H1; apply NextInvokeInsnSP_value in H2;
         congruence).
  - unfold NextSDCallInsn in *. 
    destruct (negb (dc =? 0) && negb (dm =? 0)) eqn:Hk.
    + destruct (state =? 0) eqn:E0.
      * mrun. repeat case_if; inversion H1; inversion H2; congruence.
      * inversion H1; inversion H2; congruence.
    + destruct (state =? 0) eqn:E0.
      { mrun. inversion H1; inversion H2; congruence. }
      destruct (state =? 1) eqn:E1.
      { mrun. repeat case_if; inversion H1; inversion H2; congruence. }
      destruct (state =? 2) eqn:E2.
      { mrun. repeat case_if; inversion H1; inversion H2; congruence. }
      destruct (state =? 3) eqn:E3.
      { apply Z.eqb_eq in E3. subst. congruence. }
      inversion H1; inversion H2; congruence.
  - unfold NextVCallInsn in *.
    destruct (state =? 0) eqn:E0.
    { unfold arg_at in *. mrun. repeat case_if; inversion H1; inversion H2; congruence. }
    destruct (state =? 1) eqn:E1.
    { mrun. inversion H1; inversion H2; congruence. }
    destruct (state =? 2) eqn:E2.
    { mrun. inversion H1; inversion H2; congruence. }
    destruct (state =? 3) eqn:E3.
    { mrun. inversion H1; inversion H2; congruence. }
    destruct (state =? 4) eqn:E4.
    { apply Z.eqb_eq in E4. subst. congruence. }
    inversion H1; inversion H2; congruence.
  - unfold NextInterfaceCallInsn in *.
    destruct (state =? 0) eqn:E0.
    { mrun. repeat case_if; inversion H1; inversion H2; congruence. }
    destruct (state =? 1) eqn:E1.
    { unfold arg_at in *. mrun. repeat case_if; inversion H1; inversion H2; congruence. }
    destruct (state =? 2) eqn:E2.
    { mrun. inversion H1; inversion H2; congruence. }
    destruct (state =? 3) eqn:E3.
    { mrun. inversion H1; inversion H2; congruence. }
    destruct (state =? 4) eqn:E4.
    { mrun. inversion H1; inversion H2; congruence. }
    destruct (state =? 5) eqn:E5.
    { apply Z.eqb_eq in E5. subst. congruence. }
    inversion H1; inversion H2; congruence.
Qed.

End DispatchProperties.

Section DispatchClaims.

Variable rt : Runtime.

Lemma is_isa_true cu i : instruction_set cu = i -> is_isa cu i = true.
Proof. unfold is_isa. intros ->. now destruct i. Qed.

Lemma is_isa_false cu i : instruction_set cu <> i -> is_isa cu i = false.
Proof.
  unfold is_isa. intros H.
  destruct (InstructionSet_eqb_spec (instruction_set cu) i); congruence.
Qed.

(** C1 (amended).  The step index returned by a dispatch routine at a state
    is the same on every architecture, except at the step that loads the
    compiled entry point (state 3 of the static/direct routine when code
    address or method pointer is unknown, state 4 of the virtual routine,
    state 5 of the interface routine): there x86 logs nothing and returns
    the terminal sentinel at once, while every other architecture logs at
    most one load, returns the next index and is terminal one step later. *)
Theorem step_indices_agree_except_entry_point_load :
  forall r info state tm idx dc dm ty,
    (forall cu1 cu2 s a1 s1 a2 s2,
        entry_point_step r dc dm <> Some state ->
        routine_fn rt r cu1 info state tm idx dc dm ty s = Ok a1 s1 ->
        routine_fn rt r cu2 info state tm idx dc dm ty s = Ok a2 s2 ->
        a1 = a2)
    /\ (forall cu s,
        entry_point_step r dc dm = Some state ->
        instruction_set cu = kX86 ->
        routine_fn rt r cu info state tm idx dc dm ty s = Ok (-1) s)
    /\ (forall cu s,
        entry_point_step r dc dm = Some state ->
        instruction_set cu <> kX86 ->
        exists ops,
          (length ops <= 1)%nat
          /\ routine_fn rt r cu info state tm idx dc dm ty s
             = Ok (state + 1) (appended s ops)
          /\ forall s', routine_fn rt r cu info (state + 1) tm idx dc dm ty s'
                        = Ok (-1) s').
Proof.
  intros r info state tm idx dc dm ty. split; [|split].
  - intros. eapply step_index_same_off_entry_point; eauto.
  - intros cu s He Hx. apply is_isa_true in Hx.
    destruct r; simpl in He; try discriminate; simpl.
    + destruct (negb (dc =? 0) && negb (dm =? 0)) eqn:Hk; [discriminate|].
      inversion He; subst. unfold NextSDCallInsn. rewrite Hk, Hx. reflexivity.
    + inversion He; subst. unfold NextVCallInsn. rewrite Hx. reflexivity.
    + inversion He; subst. unfold NextInterfaceCallInsn. rewrite Hx. reflexivity.
  - intros cu s He Hx. apply is_isa_false in Hx.
    destruct r; simpl in He; try discriminate; simpl.
    + destruct (negb (dc =? 0) && negb (dm =? 0)) eqn:Hk; [discriminate|].
      inversion He; subst. unfold NextSDCallInsn. rewrite Hk, Hx. simpl.
      destruct (dc =? 0).
      * eexists [_]. split; [simpl; lia|]. split; reflexivity.
      * exists []. split; [simpl; lia|]. rewrite appended_nil. split; reflexivity.
    + inversion He; subst. unfold NextVCallInsn. rewrite Hx. simpl.
      eexists [_]. split; [simpl; lia|]. split; reflexivity.
    + inversion He; subst. unfold NextInterfaceCallInsn. rewrite Hx. simpl.
      eexists [_]. split; [simpl; lia|]. split; reflexivity.
Qed.

(** C2 (amended).  With code address and method pointer both known, step 0
    of the static/direct routine loads the method pointer into argument 0
    on every architecture and the code address into the invoke-target
    register on every architecture but x86, returns 1, and every other step
    returns the terminal sentinel and logs nothing. *)
Theorem known_target_single_step :
  forall cu info tm idx dc dm ty s,
    dc <> 0 -> dm <> 0 ->
    NextSDCallInsn rt cu info 0 tm idx dc dm ty s
      = Ok 1 (appended s
                ((if is_isa cu kX86 then [] else [direct_code_load cu tm ty dc])
                 ++ [direct_method_load cu tm ty dm]))
    /\ forall state s', state <> 0 ->
         NextSDCallInsn rt cu info state tm idx dc dm ty s' = Ok (-1) s'.
Proof.
  intros cu info tm idx dc dm ty s Hc Hm.
  apply Z.eqb_neq in Hc. apply Z.eqb_neq in Hm.
  unfold NextSDCallInsn. rewrite Hc, Hm. simpl. split.
  - unfold direct_code_load, direct_method_load.
    destruct (is_isa cu kX86), (dc =? kUnsignedMinusOne), (dm =? kUnsignedMinusOne);
      simpl; mrun; unfold appended; simpl; rewrite <- ?app_assoc; reflexivity.
  - intros state s' Hs. apply Z.eqb_neq in Hs. now rewrite Hs.
Qed.

(** C3 (amended).  The unresolved-call routine of every invocation kind
    loads the method index into argument 0 at state 0, preceded on every
    architecture but x86 by the load of the kind's trampoline into the
    invoke-target register, and returns 1; at every other state it returns
    the terminal sentinel and logs nothing.  No class or vtable load is
    logged. *)
Theorem unresolved_single_step :
  forall t cu info tm idx dc dm ty s,
    cu_dex_file cu = dex_file tm ->
    slow_path_routine rt t cu info 0 tm idx dc dm ty s
      = Ok 1 (appended s
                ((if is_isa cu kX86 then [] else [trampoline_load rt cu t])
                 ++ [method_index_load cu tm]))
    /\ forall state s', state <> 0 ->
         slow_path_routine rt t cu info state tm idx dc dm ty s' = Ok (-1) s'.
Proof.
  intros t cu info tm idx dc dm ty s Hd.
  apply Z.eqb_eq in Hd.
  split.
  - destruct t; simpl;
      unfold NextStaticCallInsnSP, NextDirectCallInsnSP, NextSuperCallInsnSP,
        NextVCallInsnSP, NextInterfaceCallInsnWithAccessCheck, NextInvokeInsnSP,
        trampoline_load, method_index_load; simpl;
      destruct (is_isa cu kX86); simpl; mrun; rewrite Hd;
      unfold appended; simpl; rewrite <- ?app_assoc; reflexivity.
  - intros state s' Hs. apply Z.eqb_neq in Hs.
    destruct t; simpl;
      unfold NextStaticCallInsnSP, NextDirectCallInsnSP, NextSuperCallInsnSP,
        NextVCallInsnSP, NextInterfaceCallInsnWithAccessCheck, NextInvokeInsnSP;
      now rewrite Hs.
Qed.

End DispatchClaims.

(** C1, as stated, fails: at state 4 the virtual routine returns 5 on Thumb2
    and the terminal sentinel on x86. *)
Lemma step_indices_differ_on_x86 :
  ~ step_indices_architecture_independent Sample.rt.
Proof.
  intros H.
  specialize (H VCallInsn (Sample.cu kThumb2) (Sample.cu kX86)
                (Sample.call [Sample.in_frame 4 false false false] 0 1) 4
                Sample.target 6 0 0 kVirtual Sample.s0).
  simpl in H. unfold NextVCallInsn in H. simpl in H.
  specialize (H _ _ _ _ eq_refl eq_refl). discriminate.
Qed.

Lemma step_indices_agree_except_entry_point_load_witness :
  routine_fn Sample.rt VCallInsn (Sample.cu kX86)
    (Sample.call [Sample.in_frame 4 false false false] 0 1) 4
    Sample.target 6 0 0 kVirtual Sample.s0 = Ok (-1) Sample.s0.
Proof.
  apply (step_indices_agree_except_entry_point_load Sample.rt VCallInsn
           (Sample.call [Sample.in_frame 4 false false false] 0 1) 4
           Sample.target 6 0 0 kVirtual); reflexivity.
Defined.

(** C2, as stated, fails: on x86 step 0 loads the method pointer only. *)
Lemma known_target_on_x86_loads_method_only :
  ~ known_target_loads_code_and_method Sample.rt.
Proof.
  intros H.
  destruct (H (Sample.cu kX86) (Sample.call [] 0 0) Sample.target 0 4096 8192
              kStatic Sample.s0) as [H0 _]; try discriminate.
Qed.

Lemma known_target_single_step_witness :
  NextSDCallInsn Sample.rt (Sample.cu kX86) (Sample.call [] 0 0) 0 Sample.target 0
    4096 8192 kStatic Sample.s0
  = Ok 1 (appended Sample.s0 [LoadConstant 0 8192]).
Proof.
  apply (known_target_single_step Sample.rt (Sample.cu kX86) (Sample.call [] 0 0)
           Sample.target 0 4096 8192 kStatic Sample.s0); discriminate.
Defined.

(** C3, as stated, fails: on x86 the step loads the method index only. *)
Lemma unresolved_on_x86_loads_index_only :
  ~ unresolved_loads_trampoline_and_index Sample.rt.
Proof.
  intros H.
  destruct (H kVirtual (Sample.cu kX86) (Sample.call [] 0 0) Sample.target 0 0 0
              kVirtual Sample.s0 eq_refl) as [H0 _].
  discriminate.
Qed.

Lemma unresolved_single_step_witness :
  slow_path_routine Sample.rt kVirtual (Sample.cu kThumb2) (Sample.call [] 0 0) 0
    Sample.target 0 0 0 kVirtual Sample.s0
  = Ok 1 (appended Sample.s0 [LoadWordDisp 9 416 14; LoadConstant 0 17]).
Proof.
  apply (unresolved_single_step Sample.rt kVirtual (Sample.cu kThumb2)
           (Sample.call [] 0 0) Sample.target 0 0 0 kVirtual Sample.s0).
  reflexivity.
Defined.

Section FuelProperties.

Variable rt : Runtime.
Variable cu : CompilationUnit.

Lemma routine_enough_fuel r info state tm idx dc dm ty :
  enough_fuel (routine_fn rt r cu info state tm idx dc dm ty).
Proof. destruct r; simpl; unfold_routines; fuels. Qed.

(** A dispatch routine answers the next step index or the terminal
    sentinel, and the sentinel from step 6 on. *)
Lemma routine_returns r info state tm idx dc dm ty :
  returns (fun a => a = -1 \/ (a = state + 1 /\ 0 <= state <= 5))
    (routine_fn rt r cu info state tm idx dc dm ty).
Proof.
  destruct r; simpl; unfold_routines;
    repeat match goal with
           | |- context [state =? ?n] => destruct (Z.eqb_spec state n); [subst|]
           end;
    rets; lia.
Qed.

Lemma routine_steps_left r info state tm idx dc dm ty :
  (state >=? 0) = true ->
  returns (fun a => (steps_left a < steps_left state)%nat)
    (routine_fn rt r cu info state tm idx dc dm ty).
Proof.
  intros Hs s a s' H. apply routine_returns in H.
  apply Z.geb_le in Hs. unfold steps_left.
  destruct H as [->|[-> Hr]].
  - simpl. destruct (Z.ltb_spec state 0); lia.
  - destruct (Z.ltb_spec (state + 1) 0); [lia|].
    destruct (Z.ltb_spec state 0); lia.
Qed.

Lemma FlushIns_enough_fuel ArgLocs rl_method :
  enough_fuel (FlushIns rt cu ArgLocs rl_method).
Proof.
  unfold FlushIns. fuels.
  apply enough_fuel_while with (mu := fun i => Z.to_nat (num_ins cu - i)).
  - intros i Hi. apply Z.ltb_lt in Hi. lia.
  - intros i Hi. apply Z.ltb_lt in Hi. rets. lia.
  - intros i. unfold FlushIns_word. fuels.
  - lia.
Qed.

Lemma LoadArgRegs_enough_fuel r info call_state tm idx dc dm ty skip_this :
  enough_fuel
    (LoadArgRegs cu info call_state (routine_fn rt r) tm idx dc dm ty skip_this).
Proof.
  unfold LoadArgRegs.
  set (last := TargetReg (cg cu) kArg3).
  destruct skip_this;
    (apply enough_fuel_bind; [|intros [[? ?] ?]; apply enough_fuel_ret];
     apply enough_fuel_while
       with (mu := fun x : Z * Z * Z => Z.to_nat (last - fst (fst x) + 1));
     [ intros [[nr na] cs] Hc; apply andb_prop in Hc; destruct Hc as [Hc _];
       apply Z.leb_le in Hc; simpl; lia
     | intros [[nr na] cs] Hc; apply andb_prop in Hc; destruct Hc as [Hc _];
       apply Z.leb_le in Hc; unfold LoadArgRegs_body;
       apply returns_bind_any; intros ?; apply returns_bind_any; intros ?;
       apply returns_bind with (R1 := fun p : Z * Z => nr <= fst p);
       [ rets; simpl; lia
       | intros [nr' na'] Hle; simpl in Hle; rets; simpl; lia ]
     | intros [[nr na] cs]; unfold LoadArgRegs_body; fuels; apply routine_enough_fuel
     | simpl; lia ]).
Qed.


Lemma GenDalvikArgsNoRange_enough_fuel r info call_state pcr tm idx dc dm ty skip_this :
  enough_fuel
    (GenDalvikArgsNoRange rt cu info call_state pcr (routine_fn rt r) tm idx dc dm ty
       skip_this).
Proof.
  unfold GenDalvikArgsNoRange.
  destruct (num_arg_words info =? 0); [apply enough_fuel_ret|].
  apply enough_fuel_bind; [apply routine_enough_fuel | intros cs1].
  apply enough_fuel_bind; [apply enough_fuel_DCHECK | intros _].
  apply enough_fuel_bind;
    [|intros cs2; fuels; apply LoadArgRegs_enough_fuel].
  destruct (num_arg_words info >? 3); [|apply enough_fuel_ret].
  apply enough_fuel_bind; [apply enough_fuel_arg_at | intros rl_use0].
  apply enough_fuel_bind; [apply enough_fuel_arg_at | intros rl_use1].
  apply enough_fuel_bind; [apply enough_fuel_arg_at | intros rl_use2].
  apply enough_fuel_bind_val with (R := fun p : Z * Z => 3 <= fst p).
  - rets; simpl; lia.
  - fuels; apply routine_enough_fuel.
  - intros [next_use cs] Hge. simpl in Hge.
    apply enough_fuel_bind; [|intros [? ?]; apply enough_fuel_ret].
    apply enough_fuel_while
      with (mu := fun x : Z * Z => Z.to_nat (num_arg_words info - fst x)).
    + intros [nu c] Hc. apply Z.ltb_lt in Hc. simpl. lia.
    + intros [nu c] Hc. apply Z.ltb_lt in Hc.
      apply returns_bind_any; intros ?. apply returns_bind_any; intros ?.
      apply returns_bind_any; intros [[? ?] ?].
      apply returns_bind with (R1 := fun nu' => nu < nu'); [rets; lia|].
      intros nu' Hlt. rets. simpl. lia.
    + intros [nu c]. fuels; apply routine_enough_fuel.
    + simpl. lia.
Qed.

Lemma X86StackCopy_enough_fuel src dst n :
  enough_fuel (X86StackCopy cu src dst n).
Proof.
  unfold X86StackCopy.
  apply enough_fuel_while with (mu := fun x : Z * Z * Z => Z.to_nat (snd x)).
  - intros [[a b] c] Hc. apply Z.gtb_lt in Hc. simpl. lia.
  - intros [[a b] c] Hc. apply Z.gtb_lt in Hc. unfold X86StackCopy_step.
    apply returns_bind with (R1 := fun bytes => bytes = 16 \/ bytes = 4).
    + rets; auto.
    + intros bytes Hb. apply returns_ret. cbn [snd].
      assert (Hk : Z.shiftr bytes 2 = 4 \/ Z.shiftr bytes 2 = 1)
        by (destruct Hb; subst; auto).
      unfold to_int32.
      pose proof (Z.mod_pos_bound (c - Z.shiftr bytes 2 + 2147483648) 4294967296).
      destruct (Z_lt_le_dec (c - Z.shiftr bytes 2) 2147483648).
      * rewrite Z.mod_small by lia. lia.
      * lia.
  - intros [[a b] c]. unfold X86StackCopy_step. fuels.
  - simpl. lia.
Qed.

Lemma GenDalvikArgsRange_enough_fuel r info call_state pcr tm idx dc dm ty skip_this :
  enough_fuel
    (GenDalvikArgsRange rt cu info call_state pcr (routine_fn rt r) tm idx dc dm ty
       skip_this).
Proof.
  unfold GenDalvikArgsRange.
  destruct (num_arg_words info <=? 5); [apply GenDalvikArgsNoRange_enough_fuel|].
  apply enough_fuel_bind.
  { apply enough_fuel_while with (mu := fun na => Z.to_nat (num_arg_words info - na)).
    - intros na Hc. apply Z.ltb_lt in Hc. lia.
    - intros na Hc. apply Z.ltb_lt in Hc. rets; lia.
    - intros na. fuels.
    - lia. }
  intros _. unfold CallRuntimeHelperRegRegImm, CallHelperSetup, CallHelper.
  fuels; try apply routine_enough_fuel; try apply LoadArgRegs_enough_fuel;
    apply X86StackCopy_enough_fuel.
Qed.

Lemma GenInvokeNoInline_enough_fuel info :
  enough_fuel (GenInvokeNoInline rt cu info).
Proof.
  unfold GenInvokeNoInline.
  apply enough_fuel_bind; [apply enough_fuel_emit_ | intros _].
  apply enough_fuel_bind; [apply enough_fuel_emit_ | intros _].
  apply enough_fuel_bind; [apply enough_fuel_emit_ | intros _].
  apply enough_fuel_bind_val
    with (R := fun sel : bool * NextCallInsn * bool =>
                 exists r, snd (fst sel) = routine_fn rt r).
  - rets; cbn [fst snd]; try destruct (FastPath _);
      first [ now exists SDCallInsn | now exists VCallInsn
            | now exists InterfaceCallInsn | now exists StaticCallInsnSP
            | now exists DirectCallInsnSP | now exists SuperCallInsnSP
            | now exists VCallInsnSP | now exists InterfaceCallInsnWithAccessCheck ].
  - fuels.
  - intros [[p_null_ck next] skip_this] [r Hr]. cbn [fst snd] in Hr. subst next.
    apply enough_fuel_bind.
    { destruct (negb (is_range _));
        [apply GenDalvikArgsNoRange_enough_fuel | apply GenDalvikArgsRange_enough_fuel]. }
    intros cs. apply enough_fuel_bind.
    { apply enough_fuel_while with (mu := steps_left).
      - intros x Hx. apply Z.geb_le in Hx. unfold steps_left.
        destruct (Z.ltb_spec x 0); lia.
      - intros x Hx. now apply routine_steps_left.
      - intros x. apply routine_enough_fuel.
      - unfold steps_left, kMaxCallSteps. destruct (Z.ltb_spec cs 0); lia. }
    intros _. fuels.
Qed.

Lemma Compile_enough_fuel p :
  enough_fuel (IntrinsicLaunchpadPath_Compile rt cu p).
Proof.
  unfold IntrinsicLaunchpadPath_Compile.
  apply enough_fuel_bind; [apply enough_fuel_emit_ | intros _].
  apply enough_fuel_bind; [apply enough_fuel_emit_ | intros _].
  apply enough_fuel_bind; [apply enough_fuel_emit | intros label].
  apply enough_fuel_bind; [apply enough_fuel_emit_ | intros _].
  apply enough_fuel_bind; [apply GenInvokeNoInline_enough_fuel | intros info].
  fuels.
Qed.

Lemma GenInlined_enough_fuel info m :
  enough_fuel (GenInlined rt cu info m).
Proof.
  destruct m; simpl;
    unfold GenInlinedDoubleCvt, GenInlinedFloatCvt, GenInlinedReverseBytes,
      GenInlinedAbsInt, GenInlinedAbsLong, GenInlinedAbsFloat, GenInlinedAbsDouble,
      GenInlinedCharAt, GenInlinedStringCompareTo, GenInlinedStringIsEmptyOrLength,
      GenInlinedIndexOf, GenInlinedCurrentThread, GenInlinedUnsafeGet,
      GenInlinedUnsafePut, InlineTarget, InlineTargetWide, AddIntrinsicLaunchpad,
      do_LoadValue, do_LoadValueWide, do_AllocTemp, do_EvalLoc;
    fuels.
Qed.

(** No loop bound of the model is ever too small: the routines of this file
    stop only where the C++ aborts on a failed check or reads outside an
    array. *)
Theorem loop_bounds_suffice :
  (forall ArgLocs rl_method, enough_fuel (FlushIns rt cu ArgLocs rl_method))
  /\ (forall info, enough_fuel (GenInvokeNoInline rt cu info))
  /\ (forall info, enough_fuel (GenInvoke rt cu info))
  /\ (forall p, enough_fuel (IntrinsicLaunchpadPath_Compile rt cu p)).
Proof.
  split; [|split; [|split]].
  - apply FlushIns_enough_fuel.
  - apply GenInvokeNoInline_enough_fuel.
  - intros info. unfold GenInvoke, GenIntrinsic.
    apply enough_fuel_bind.
    + destruct (inline_methods_ cu (index info));
        [apply GenInlined_enough_fuel | apply enough_fuel_ret].
    + intros [handled info']. destruct handled;
        [apply enough_fuel_ret | apply GenInvokeNoInline_enough_fuel].
  - apply Compile_enough_fuel.
Qed.

End FuelProperties.

Section FlushInsProperties.

Variable rt : Runtime.

Lemma promotion_map_at_valid cu j :
  pm_valid cu j -> exists p, promotion_map_at cu j = ret p
                             /\ nth_error (promotion_map_ (cg cu)) (Z.to_nat j) = Some p.
Proof.
  unfold pm_valid, promotion_map_at. intros [H0 H1].
  rewrite (proj2 (Z.ltb_ge j 0) H0).
  destruct (nth_error (promotion_map_ (cg cu)) (Z.to_nat j)) as [p|] eqn:E.
  - now exists p.
  - apply nth_error_None in E. lia.
Qed.

Lemma promotion_map_at_some cu j p :
  0 <= j -> nth_error (promotion_map_ (cg cu)) (Z.to_nat j) = Some p ->
  promotion_map_at cu j = ret p.
Proof.
  unfold promotion_map_at. intros H0 E.
  now rewrite (proj2 (Z.ltb_ge j 0) H0), E.
Qed.

Lemma loc_at_some ArgLocs i t :
  0 <= i -> nth_error ArgLocs (Z.to_nat i) = Some t -> loc_at ArgLocs i = ret t.
Proof.
  unfold loc_at. intros H0 E. now rewrite (proj2 (Z.ltb_ge i 0) H0), E.
Qed.

(** Every word of the loop of [FlushIns] is processed without a fault. *)
Lemma FlushIns_word_total cu ArgLocs i s :
  ins_in_bounds rt cu ArgLocs -> 0 <= i < num_ins cu ->
  exists ops,
    FlushIns_word rt cu ArgLocs (num_dalvik_registers cu - num_ins cu) i s
    = Ok tt (appended s ops).
Proof.
  intros Hwf Hi. destruct (Hwf i Hi) as [Hv Hreg]. cbv zeta in Hreg.
  set (start := num_dalvik_registers cu - num_ins cu) in *.
  unfold FlushIns_word.
  destruct (promotion_map_at_valid cu _ Hv) as (v_map & -> & _).
  unfold bind at 1, ret at 1.
  destruct (GetArgMappingToPhysicalReg (cg cu) i =? INVALID_REG rt) eqn:Ereg; simpl.
  - mcases; solve_appended.
  - apply Z.eqb_neq in Ereg. destruct (Hreg Ereg) as (t_loc & Ht & Hw).
    rewrite (loc_at_some _ _ _ (proj1 Hi) Ht).
    unfold bind at 1, ret at 1.
    destruct (wide t_loc) eqn:Ew.
    + specialize (Hw eq_refl).
      destruct (promotion_map_at_valid cu _ Hw) as (p_map & Hp & _).
      assert (Hlo : pm_valid cu (start + i + (if high_word t_loc then -1 else 0))).
      { unfold pm_valid in *. destruct (high_word t_loc); lia. }
      assert (Hhi : pm_valid cu (start + i + (if high_word t_loc then -1 else 0) + 1)).
      { unfold pm_valid in *. destruct (high_word t_loc); lia. }
      destruct (promotion_map_at_valid cu _ Hlo) as (lo & Hlo' & _).
      destruct (promotion_map_at_valid cu _ Hhi) as (hi & Hhi' & _).
      rewrite Hp, Hlo', Hhi'.
      mcases; solve_appended.
    + mcases; solve_appended.
Qed.


(** What one word logs ends up in the log of [FlushIns]. *)
Lemma FlushIns_logs_word cu ArgLocs rl_method s i op :
  ins_in_bounds rt cu ArgLocs -> 0 <= i < num_ins cu ->
  (forall s1, exists ops,
      FlushIns_word rt cu ArgLocs (num_dalvik_registers cu - num_ins cu) i s1
      = Ok tt (appended s1 ops) /\ In op ops) ->
  exists s' ops,
    FlushIns rt cu ArgLocs rl_method s = Ok tt s' /\ logged s s' ops /\ In op ops.
Proof.
  intros Hwf Hi Hword. unfold FlushIns.
  assert (Hn : (num_ins cu =? 0) = false) by (apply Z.eqb_neq; lia).
  rewrite Hn.
  set (start := num_dalvik_registers cu - num_ins cu) in *.
  match goal with
  | |- context [bind (emit_ ?a) (fun _ => bind (emit_ ?b) (fun _ => bind (when ?c ?d) _))] =>
      assert (Hpre : exists pre s1,
                 logged s s1 pre
                 /\ forall (k : unit -> M unit),
                     bind (emit_ a) (fun _ => bind (emit_ b) (fun _ => bind (when c d) k)) s
                     = k tt s1)
  end.
  { destruct (is_phys (location rl_method)).
    - eexists _, _. split; [|intros k; reflexivity]. unfold logged. simpl.
      rewrite <- !app_assoc. reflexivity.
    - eexists _, _. split; [|intros k; reflexivity]. unfold logged. simpl.
      rewrite <- !app_assoc. reflexivity. }
  destruct Hpre as (pre & s1 & Hlog1 & Hrun). rewrite Hrun. clear Hrun.
  destruct (while_count
              (fun j => FlushIns_word rt cu ArgLocs start j) (num_ins cu)
              (fun j st => 0 <= j /\ exists ops, logged s1 st ops /\ (i < j -> In op ops)))
    with (n := Z.to_nat (num_ins cu)) (i := 0) (s := s1) as (s2 & Hloop & _ & ops & Hlog2 & Hin).
  - intros j st Hj (Hj0 & ops & Hlog & Hin).
    destruct (Z.eq_dec j i) as [->|Hne].
    + destruct (Hword st) as (w & Hw & Hinw).
      exists (appended st w). split; [exact Hw|]. split; [lia|].
      exists (ops ++ w). split.
      * eapply logged_trans; [exact Hlog | apply logged_appended].
      * intros _. apply in_or_app. now right.
    + destruct (FlushIns_word_total cu ArgLocs j st Hwf (conj Hj0 Hj)) as (w & Hw).
      exists (appended st w). split; [exact Hw|]. split; [lia|].
      exists (ops ++ w). split.
      * eapply logged_trans; [exact Hlog | apply logged_appended].
      * intros Hlt. apply in_or_app. left. apply Hin. lia.
  - lia.
  - split; [lia|]. exists []. split; [apply logged_refl | lia].
  - unfold bind at 1. rewrite Hloop. unfold ret.
    exists s2, (pre ++ ops). split; [reflexivity|]. split.
    + eapply logged_trans; eassumption.
    + apply in_or_app. right. apply Hin. lia.
Qed.

(** C4.  A wide incoming argument word that arrives in a register and whose
    other half was promoted differently (the core or the floating promotion
    of the paired virtual register differs from this half's) is stored to
    its stack home by [FlushIns], whether or not the word was also copied
    to a promoted register of its own. *)
Theorem half_promoted_wide_in_is_flushed :
  forall cu ArgLocs rl_method s i t_loc v_map p_map,
    let start_vreg := num_dalvik_registers cu - num_ins cu in
    let reg := GetArgMappingToPhysicalReg (cg cu) i in
    ins_in_bounds rt cu ArgLocs ->
    0 <= i < num_ins cu ->
    reg <> INVALID_REG rt ->
    nth_error ArgLocs (Z.to_nat i) = Some t_loc ->
    wide t_loc = true ->
    nth_error (promotion_map_ (cg cu)) (Z.to_nat (start_vreg + i)) = Some v_map ->
    nth_error (promotion_map_ (cg cu))
      (Z.to_nat (start_vreg + i + (if high_word t_loc then -1 else 1))) = Some p_map ->
    core_location p_map <> core_location v_map
    \/ fp_location p_map <> fp_location v_map ->
    exists s' ops,
      FlushIns rt cu ArgLocs rl_method s = Ok tt s'
      /\ logged s s' ops
      /\ In (StoreBaseDisp (TargetReg (cg cu) kSp) (SRegOffset (cg cu) (start_vreg + i))
               reg kWord) ops.
Proof.
  intros cu ArgLocs rl_method s i t_loc v_map p_map start reg Hwf Hi Hreg Ht Hw Hv Hp Hhalf.
  apply FlushIns_logs_word with (i := i); [assumption..|].
  intros s1. fold start.
  destruct (Hwf i Hi) as [Hvi Hri]. cbv zeta in Hri. fold start in Hvi, Hri.
  destruct (Hri Hreg) as (t' & Ht' & Hpv). rewrite Ht in Ht'. inversion Ht'; subst t'.
  specialize (Hpv Hw).
  assert (Hb : negb (RegLocationType_eqb (core_location p_map) (core_location v_map))
               || negb (RegLocationType_eqb (fp_location p_map) (fp_location v_map)) = true).
  { destruct (RegLocationType_eqb_spec (core_location p_map) (core_location v_map));
      destruct (RegLocationType_eqb_spec (fp_location p_map) (fp_location v_map));
      simpl; try reflexivity. tauto. }
  unfold FlushIns_word.
  rewrite (promotion_map_at_some cu _ _ (proj1 Hvi) Hv).
  rewrite (loc_at_some _ _ _ (proj1 Hi) Ht).
  fold reg. apply Z.eqb_neq in Hreg. rewrite Hreg. simpl.
  mrun. rewrite Hw.
  rewrite (promotion_map_at_some cu _ _ (proj1 Hpv) Hp).
  mrun.
  destruct (is_phys (core_location v_map) && negb (fp t_loc));
    [|destruct (is_phys (fp_location v_map) && fp t_loc)];
    mrun; rewrite Hb; simpl; rewrite andb_false_r; mrun;
    (eexists; split;
     [unfold appended; cbn [lir slow_paths_]; rewrite <- ?app_assoc; reflexivity
     | simpl; auto]).
Qed.


Lemma land_1_odd x : Z.land x 1 = if Z.odd x then 1 else 0.
Proof.
  change 1 with (Z.ones 1) at 1. rewrite Z.land_ones by lia.
  change (2 ^ 1) with 2. apply Zmod_odd.
Qed.

(** C5.  On Thumb2 a wide floating incoming argument word that arrives in a
    register is stored to its stack home by [FlushIns] whenever the floating
    registers promoted for its two halves do not form a double: the low one
    is odd-numbered, or the high one is not the low one plus one.  This
    holds in particular when both halves are promoted. *)
Theorem misaligned_float_pair_is_flushed :
  forall cu ArgLocs rl_method s i t_loc lo hi,
    let start_vreg := num_dalvik_registers cu - num_ins cu in
    let reg := GetArgMappingToPhysicalReg (cg cu) i in
    let lowreg_index := start_vreg + i + (if high_word t_loc then -1 else 0) in
    instruction_set cu = kThumb2 ->
    ins_in_bounds rt cu ArgLocs ->
    0 <= i < num_ins cu ->
    reg <> INVALID_REG rt ->
    nth_error ArgLocs (Z.to_nat i) = Some t_loc ->
    wide t_loc = true ->
    fp t_loc = true ->
    nth_error (promotion_map_ (cg cu)) (Z.to_nat lowreg_index) = Some lo ->
    nth_error (promotion_map_ (cg cu)) (Z.to_nat (lowreg_index + 1)) = Some hi ->
    Z.odd (FpReg lo) = true \/ FpReg hi <> FpReg lo + 1 ->
    exists s' ops,
      FlushIns rt cu ArgLocs rl_method s = Ok tt s'
      /\ logged s s' ops
      /\ In (StoreBaseDisp (TargetReg (cg cu) kSp) (SRegOffset (cg cu) (start_vreg + i))
               reg kWord) ops.
Proof.
  intros cu ArgLocs rl_method s i t_loc lo hi start reg lowreg_index
         Hisa Hwf Hi Hreg Ht Hw Hfp Hlo Hhi Hbad.
  apply FlushIns_logs_word with (i := i); [assumption..|].
  intros s1. fold start.
  destruct (Hwf i Hi) as [Hvi Hri]. cbv zeta in Hri. fold start in Hvi, Hri.
  destruct (Hri Hreg) as (t' & Ht' & Hpv). rewrite Ht in Ht'. inversion Ht'; subst t'.
  specialize (Hpv Hw).
  destruct (promotion_map_at_valid cu _ Hvi) as (v_map & Hv & _).
  destruct (promotion_map_at_valid cu _ Hpv) as (p_map & Hp & _).
  assert (Hlo0 : 0 <= lowreg_index).
  { unfold lowreg_index, pm_valid in *. destruct (high_word t_loc); lia. }
  assert (Hlo1 : 0 <= lowreg_index + 1) by lia.
  assert (Hb : negb (Z.land (FpReg lo) 1 =? 0) || negb (FpReg hi =? FpReg lo + 1) = true).
  { rewrite land_1_odd. destruct Hbad as [Ho|Hn].
    - now rewrite Ho.
    - apply Z.eqb_neq in Hn. rewrite Hn. apply orb_true_r. }
  unfold FlushIns_word.
  rewrite Hv, (loc_at_some _ _ _ (proj1 Hi) Ht).
  fold reg. apply Z.eqb_neq in Hreg. rewrite Hreg. simpl.
  mrun. rewrite Hw, Hfp, Hp, (is_isa_true _ _ Hisa).
  fold lowreg_index.
  rewrite (promotion_map_at_some cu _ _ Hlo0 Hlo).
  rewrite (promotion_map_at_some cu _ _ Hlo1 Hhi).
  cbn [negb]. rewrite !andb_false_r, !andb_true_r. mrun.
  destruct (is_phys (fp_location v_map)); mrun;
    destruct (negb (RegLocationType_eqb (core_location p_map) (core_location v_map))
              || negb (RegLocationType_eqb (fp_location p_map) (fp_location v_map)));
    cbn [negb orb andb]; mrun; rewrite ?Hb;
    (eexists; split;
     [unfold appended; cbn [lir slow_paths_]; rewrite <- ?app_assoc; reflexivity
     | simpl; auto]).
Qed.

End FlushInsProperties.

Lemma sample_ins_in_bounds ArgLocs :
  length ArgLocs = 4%nat ->
  ins_in_bounds Sample.rt (Sample.cu kThumb2) ArgLocs.
Proof.
  intros Hlen i Hi. simpl in Hi.
  destruct ArgLocs as [|a0 [|a1 [|a2 [|a3 [|]]]]]; try discriminate.
  assert (Hc : i = 0 \/ i = 1 \/ i = 2 \/ i = 3) by lia.
  destruct Hc as [-> | [-> | [-> | ->]]]; simpl; (split; [unfold pm_valid; simpl; lia|]);
    intros Hr; try (exfalso; apply Hr; reflexivity);
    eexists; (split; [reflexivity|]); intros _;
    match goal with |- context [if ?b then _ else _] => destruct b end;
    unfold pm_valid; simpl; lia.
Qed.

Lemma half_promoted_wide_in_is_flushed_witness :
  exists s' ops,
    FlushIns Sample.rt (Sample.cu kThumb2) SampleIns.ins_long SampleIns.method_loc
      Sample.s0 = Ok tt s'
    /\ logged Sample.s0 s' ops
    /\ In (StoreBaseDisp 13 80 1 kWord) ops.
Proof.
  apply (half_promoted_wide_in_is_flushed Sample.rt (Sample.cu kThumb2)
           SampleIns.ins_long SampleIns.method_loc Sample.s0 0
           (Sample.in_frame 4 true false false)
           (mkPromotionMap kLocPhysReg 5 kLocDalvikFrame 0 false)
           (mkPromotionMap kLocDalvikFrame 0 kLocPhysReg 33 false)).
  - apply sample_ins_in_bounds. reflexivity.
  - simpl. lia.
  - simpl. discriminate.
  - reflexivity.
  - reflexivity.
  - reflexivity.
  - reflexivity.
  - left. discriminate.
Defined.

Lemma misaligned_float_pair_is_flushed_witness :
  exists s' ops,
    FlushIns Sample.rt (Sample.cu kThumb2) SampleIns.ins_double SampleIns.method_loc
      Sample.s0 = Ok tt s'
    /\ logged Sample.s0 s' ops
    /\ In (StoreBaseDisp 13 84 2 kWord) ops.
Proof.
  apply (misaligned_float_pair_is_flushed Sample.rt (Sample.cu kThumb2)
           SampleIns.ins_double SampleIns.method_loc Sample.s0 1
           (Sample.in_frame 5 true true false)
           (mkPromotionMap kLocDalvikFrame 0 kLocPhysReg 33 false)
           (mkPromotionMap kLocDalvikFrame 0 kLocPhysReg 35 false)).
  - reflexivity.
  - apply sample_ins_in_bounds. reflexivity.
  - simpl. lia.
  - simpl. discriminate.
  - reflexivity.
  - reflexivity.
  - reflexivity.
  - reflexivity.
  - reflexivity.
  - left. reflexivity.
Defined.

Section LoadArgRegsProperties.

Variable rt : Runtime.
Variable cu : CompilationUnit.

(** The argument registers are numbered upwards, as the loop of
    [LoadArgRegs] assumes. *)
Hypothesis Hargs12 : TargetReg (cg cu) kArg1 < TargetReg (cg cu) kArg2.
Hypothesis Hargs23 : TargetReg (cg cu) kArg2 < TargetReg (cg cu) kArg3.

Lemma routine_arg_loads_fit r info state tm idx dc dm ty :
  emits_only (arg_load_fits cu) (routine_fn rt r cu info state tm idx dc dm ty).
Proof.
  destruct r; simpl;
    unfold NextSDCallInsn, NextVCallInsn, NextInterfaceCallInsn,
      NextStaticCallInsnSP, NextDirectCallInsnSP, NextSuperCallInsnSP,
      NextVCallInsnSP, NextInterfaceCallInsnWithAccessCheck, NextInvokeInsnSP;
    emits; simpl; auto; intros; lia.
Qed.

Lemma LoadArgRegs_body_arg_loads_fit r info tm idx dc dm ty x :
  emits_only (arg_load_fits cu)
    (LoadArgRegs_body cu info (routine_fn rt r) tm idx dc dm ty x).
Proof.
  destruct x as [[next_reg next_arg] call_state]. unfold LoadArgRegs_body.
  apply emits_only_bind; [apply emits_only_arg_at | intros rl_arg].
  apply emits_only_bind; [apply emits_only_ask | intros rl_arg'].
  apply emits_only_bind.
  - destruct (wide rl_arg' && (next_reg <=? TargetReg (cg cu) kArg2)) eqn:E.
    + apply andb_prop in E. destruct E as [_ E]. apply Z.leb_le in E.
      emits. simpl. lia.
    + emits. simpl. intros _. destruct (wide rl_arg') eqn:Ew; [reflexivity | assumption].
  - intros [nr na]. apply emits_only_bind; [apply routine_arg_loads_fit|].
    intros. apply emits_only_ret.
Qed.

Lemma LoadArgRegs_arg_loads_fit r info call_state tm idx dc dm ty skip_this :
  emits_only (arg_load_fits cu)
    (LoadArgRegs cu info call_state (routine_fn rt r) tm idx dc dm ty skip_this).
Proof.
  unfold LoadArgRegs. destruct skip_this;
    (apply emits_only_bind;
     [apply emits_only_while; apply LoadArgRegs_body_arg_loads_fit
     | intros [[? ?] ?]; apply emits_only_ret]).
Qed.

Lemma LoadArgRegs_body_inv r info tm idx dc dm ty next_reg next_arg call_state s x s' :
  LoadArgRegs_body cu info (routine_fn rt r) tm idx dc dm ty
    (next_reg, next_arg, call_state) s = Ok x s' ->
  exists rl post call_state',
    0 <= next_arg
    /\ nth_error (args info) (Z.to_nat next_arg) = Some rl
    /\ let u := UpdateRawLoc (cg cu) (lir s) rl in
       if wide u && (next_reg <=? TargetReg (cg cu) kArg2)
       then x = (next_reg + 1 + 1, next_arg + 1 + 1, call_state')
            /\ logged s s' (LoadValueDirectWideFixed u next_reg (next_reg + 1) :: post)
       else x = (next_reg + 1, next_arg + 1, call_state')
            /\ logged s s'
                 (LoadValueDirectFixed
                    (if wide u then set_is_const false (set_wide false u) else u)
                    next_reg :: post).
Proof.
  intros H. unfold LoadArgRegs_body in H.
  apply bind_Ok_inv in H. destruct H as (rl & s1 & H1 & H).
  unfold arg_at in H1. destruct (Z.ltb_spec next_arg 0) as [Hlt|Hge]; [discriminate|].
  destruct (nth_error (args info) (Z.to_nat next_arg)) as [rl'|] eqn:Hn; [|discriminate].
  inversion H1; subst rl' s1; clear H1.
  apply bind_Ok_inv in H. destruct H as (u & s2 & H2 & H).
  inversion H2; subst u s2; clear H2.
  apply bind_Ok_inv in H. destruct H as ([nr na] & s3 & H3 & H).
  apply bind_Ok_inv in H. destruct H as (cs' & s4 & H4 & H).
  inversion H; subst x s4; clear H.
  destruct (routine_arg_loads_fit _ _ _ _ _ _ _ _ _ _ _ H4) as (post & Hpost & _).
  exists rl, post, cs'. split; [exact Hge|]. split; [reflexivity|]. cbv zeta.
  destruct (wide (UpdateRawLoc (cg cu) (lir s) rl) && (next_reg <=? TargetReg (cg cu) kArg2));
    inversion H3; subst nr na s3; clear H3;
    (split; [reflexivity|]);
    unfold logged in *; rewrite Hpost; cbn [lir]; rewrite <- app_assoc; reflexivity.
Qed.

(** The iteration at the last argument register is the last one, and loads
    one word into it. *)
Lemma LoadArgRegs_loop_at_last_register r info tm idx dc dm ty fuel call_state s x s' :
  2 < num_arg_words info ->
  while_ (S fuel)
    (fun '(next_reg, next_arg, _) =>
       (next_reg <=? TargetReg (cg cu) kArg3) && (next_arg <? num_arg_words info))
    (LoadArgRegs_body cu info (routine_fn rt r) tm idx dc dm ty)
    (TargetReg (cg cu) kArg3, 2, call_state) s = Ok x s' ->
  exists rl post,
    nth_error (args info) 2 = Some rl
    /\ let u := UpdateRawLoc (cg cu) (lir s) rl in
       logged s s'
         (LoadValueDirectFixed
            (if wide u then set_is_const false (set_wide false u) else u)
            (TargetReg (cg cu) kArg3) :: post).
Proof.
  intros Hn H. apply while_step in H.
  2:{ cbv beta iota. rewrite Z.leb_refl. now apply Z.ltb_lt. }
  destruct H as (x1 & s1 & H1 & H2).
  apply LoadArgRegs_body_inv in H1.
  destruct H1 as (rl & post & cs' & _ & Hrl & H1). cbv zeta in H1.
  rewrite (proj2 (Z.leb_gt _ _) Hargs23), andb_false_r in H1.
  destruct H1 as [-> Hl].
  apply while_done in H2; [|cbv beta iota; rewrite (proj2 (Z.leb_gt _ _)); [reflexivity|lia]].
  destruct H2 as [_ ->].
  exists rl, post. split; [exact Hrl | exact Hl].
Qed.

Lemma LoadArgRegs_last_register r info call_state tm idx dc dm ty skip_this
    s call_state' s' :
  TargetReg (cg cu) kArg2 = TargetReg (cg cu) kArg1 + 1 ->
  TargetReg (cg cu) kArg3 = TargetReg (cg cu) kArg2 + 1 ->
  word_2_meets_last_register cu info skip_this ->
  LoadArgRegs cu info call_state (routine_fn rt r) tm idx dc dm ty skip_this s
  = Ok call_state' s' ->
  exists rl pre post,
    nth_error (args info) 2 = Some rl
    /\ let u := UpdateRawLoc (cg cu) (lir s ++ pre) rl in
       logged s s'
         (pre
          ++ LoadValueDirectFixed
               (if wide u then set_is_const false (set_wide false u) else u)
               (TargetReg (cg cu) kArg3) :: post).
Proof.
  intros E12 E23 [Hn Hreach] H. unfold LoadArgRegs in H.
  destruct skip_this.
  - (* the receiver is skipped: word 1 takes kArg2 *)
    destruct Hreach as (a1 & Ha1 & Hw1).
    apply bind_Ok_inv in H. destruct H as ([[nr na] cs] & s2 & Hloop & Hret).
    inversion Hret; subst call_state' s2; clear Hret.
    replace (TargetReg (cg cu) kArg3 - (TargetReg (cg cu) kArg1 + 1) + 1) with 2
      in Hloop by lia.
    change (Z.to_nat 2) with 2%nat in Hloop. change (0 + 1) with 1 in Hloop.
    apply while_step in Hloop.
    2:{ cbv beta iota. apply andb_true_intro. split; [apply Z.leb_le | apply Z.ltb_lt]; lia. }
    destruct Hloop as (x1 & s1 & H1 & Hloop).
    apply LoadArgRegs_body_inv in H1.
    destruct H1 as (rl1 & post1 & cs1 & _ & Hrl1 & H1). cbv zeta in H1.
    change (Z.to_nat 1) with 1%nat in Hrl1. rewrite Ha1 in Hrl1.
    inversion Hrl1; subst rl1; clear Hrl1.
    rewrite (Hw1 (lir s)) in H1. cbn [andb] in H1. destruct H1 as [-> Hl1].
    replace (TargetReg (cg cu) kArg1 + 1 + 1) with (TargetReg (cg cu) kArg3)
      in Hloop by lia.
    change (1 + 1) with 2 in Hloop.
    apply LoadArgRegs_loop_at_last_register in Hloop; [|exact Hn].
    destruct Hloop as (rl & post & Hrl & Hl). cbv zeta in Hl.
    eexists rl, _, post. split; [exact Hrl|]. cbv zeta.
    exact (logged_at _ _ _ _ (fun l => LoadValueDirectFixed
                        (if wide (UpdateRawLoc (cg cu) l rl)
                         then set_is_const false (set_wide false (UpdateRawLoc (cg cu) l rl))
                         else UpdateRawLoc (cg cu) l rl)
                        (TargetReg (cg cu) kArg3)) _ Hl1 Hl).
  - destruct Hreach as (a0 & Ha0 & Hreach).
    apply bind_Ok_inv in H. destruct H as ([[nr na] cs] & s2 & Hloop & Hret).
    inversion Hret; subst call_state' s2; clear Hret.
    replace (TargetReg (cg cu) kArg3 - TargetReg (cg cu) kArg1 + 1) with 3 in Hloop by lia.
    change (Z.to_nat 3) with 3%nat in Hloop.
    apply while_step in Hloop.
    2:{ cbv beta iota. apply andb_true_intro. split; [apply Z.leb_le | apply Z.ltb_lt]; lia. }
    destruct Hloop as (x1 & s1 & H1 & Hloop).
    apply LoadArgRegs_body_inv in H1.
    destruct H1 as (rl0 & post0 & cs1 & _ & Hrl0 & H1). cbv zeta in H1.
    change (Z.to_nat 0) with 0%nat in Hrl0. rewrite Ha0 in Hrl0.
    inversion Hrl0; subst rl0; clear Hrl0.
    destruct Hreach as [Hw0 | (Hw0 & a1 & Ha1 & Hw1)].
    + (* word 0 is wide and takes kArg1 and kArg2 *)
      rewrite (Hw0 (lir s)) in H1. rewrite (proj2 (Z.leb_le _ _)) in H1 by lia.
      cbn [andb] in H1. destruct H1 as [-> Hl0].
      replace (TargetReg (cg cu) kArg1 + 1 + 1) with (TargetReg (cg cu) kArg3)
        in Hloop by lia.
      change (0 + 1 + 1) with 2 in Hloop.
      apply LoadArgRegs_loop_at_last_register in Hloop; [|exact Hn].
      destruct Hloop as (rl & post & Hrl & Hl). cbv zeta in Hl.
      eexists rl, _, post. split; [exact Hrl|]. cbv zeta.
      exact (logged_at _ _ _ _ (fun l => LoadValueDirectFixed
                        (if wide (UpdateRawLoc (cg cu) l rl)
                         then set_is_const false (set_wide false (UpdateRawLoc (cg cu) l rl))
                         else UpdateRawLoc (cg cu) l rl)
                        (TargetReg (cg cu) kArg3)) _ Hl0 Hl).
    + (* words 0 and 1 are narrow and take kArg1 and kArg2 *)
      rewrite (Hw0 (lir s)) in H1. cbn [andb] in H1. destruct H1 as [-> Hl0].
      change (0 + 1) with 1 in Hloop.
      apply while_step in Hloop.
      2:{ cbv beta iota. apply andb_true_intro.
          split; [apply Z.leb_le | apply Z.ltb_lt]; lia. }
      destruct Hloop as (x2 & s1' & H1 & Hloop).
      apply LoadArgRegs_body_inv in H1.
      destruct H1 as (rl1 & post1 & cs2 & _ & Hrl1 & H1). cbv zeta in H1.
      change (Z.to_nat 1) with 1%nat in Hrl1. rewrite Ha1 in Hrl1.
      inversion Hrl1; subst rl1; clear Hrl1.
      rewrite (Hw1 (lir s1)) in H1. cbn [andb] in H1. destruct H1 as [-> Hl1].
      replace (TargetReg (cg cu) kArg1 + 1 + 1) with (TargetReg (cg cu) kArg3)
        in Hloop by lia.
      change (1 + 1) with 2 in Hloop.
      apply LoadArgRegs_loop_at_last_register in Hloop; [|exact Hn].
      destruct Hloop as (rl & post & Hrl & Hl). cbv zeta in Hl.
      eexists rl, _, post. split; [exact Hrl|]. cbv zeta.
      exact (logged_at _ _ _ _ (fun l => LoadValueDirectFixed
                        (if wide (UpdateRawLoc (cg cu) l rl)
                         then set_is_const false (set_wide false (UpdateRawLoc (cg cu) l rl))
                         else UpdateRawLoc (cg cu) l rl)
                        (TargetReg (cg cu) kArg3)) _ (logged_trans _ _ _ _ _ Hl0 Hl1) Hl).
Qed.

End LoadArgRegsProperties.

(** C10.  With the argument registers numbered upwards, a wide argument
    whose first word is assigned to the last argument register (kArg3) is
    loaded by [LoadArgRegs] as a single word into that register, from its
    location with the wide and constant flags cleared; and whatever
    [LoadArgRegs] logs with a dispatch routine of this file, a wide pair is
    loaded only into a low register at kArg2 or before, its high register
    at most kArg3, and nothing wide is loaded into kArg3; the loop always
    comes to its end within the three argument registers.  With three
    consecutive argument registers, every completed run of [LoadArgRegs] in
    which argument word 2 meets kArg3 has logged the load of that word into
    kArg3 as a single word, from the location [UpdateRawLoc] gave at that
    point of the log, with the wide and constant flags cleared when it is
    wide. *)
Theorem wide_argument_at_last_register_loads_low_half :
  forall rt cu,
    TargetReg (cg cu) kArg1 < TargetReg (cg cu) kArg2 ->
    TargetReg (cg cu) kArg2 < TargetReg (cg cu) kArg3 ->
    (forall info (next : NextCallInsn) tm idx dc dm ty next_arg call_state s rl,
        0 <= next_arg ->
        nth_error (args info) (Z.to_nat next_arg) = Some rl ->
        wide (UpdateRawLoc (cg cu) (lir s) rl) = true ->
        LoadArgRegs_body cu info next tm idx dc dm ty
          (TargetReg (cg cu) kArg3, next_arg, call_state) s
        = (call_state' <- next cu info call_state tm idx dc dm ty ;;
           ret (TargetReg (cg cu) kArg3 + 1, next_arg + 1, call_state'))%cg
            (appended s
               [LoadValueDirectFixed
                  (set_is_const false (set_wide false (UpdateRawLoc (cg cu) (lir s) rl)))
                  (TargetReg (cg cu) kArg3)]))
    /\ (forall r info call_state tm idx dc dm ty skip_this,
        emits_only (arg_load_fits cu)
          (LoadArgRegs cu info call_state (routine_fn rt r) tm idx dc dm ty skip_this)
        /\ enough_fuel
             (LoadArgRegs cu info call_state (routine_fn rt r) tm idx dc dm ty
                skip_this))
    /\ (forall r info call_state tm idx dc dm ty skip_this s call_state' s',
        TargetReg (cg cu) kArg2 = TargetReg (cg cu) kArg1 + 1 ->
        TargetReg (cg cu) kArg3 = TargetReg (cg cu) kArg2 + 1 ->
        word_2_meets_last_register cu info skip_this ->
        LoadArgRegs cu info call_state (routine_fn rt r) tm idx dc dm ty skip_this s
        = Ok call_state' s' ->
        exists rl pre post,
          nth_error (args info) 2 = Some rl
          /\ let u := UpdateRawLoc (cg cu) (lir s ++ pre) rl in
             logged s s'
               (pre
                ++ LoadValueDirectFixed
                     (if wide u then set_is_const false (set_wide false u) else u)
                     (TargetReg (cg cu) kArg3) :: post)).
Proof.
  intros rt cu H12 H23. split; [|split].
  - intros info next tm idx dc dm ty next_arg call_state s rl Hn Hrl Hw.
    unfold LoadArgRegs_body, arg_at.
    rewrite (proj2 (Z.ltb_ge next_arg 0) Hn), Hrl.
    mrun. rewrite Hw.
    rewrite (proj2 (Z.leb_gt _ _) H23). reflexivity.
  - intros. split; [now apply LoadArgRegs_arg_loads_fit | apply LoadArgRegs_enough_fuel].
  - intros r info call_state tm idx dc dm ty skip_this s call_state' s' E12 E23 Hreach H.
    eapply LoadArgRegs_last_register; eassumption.
Qed.

Lemma wide_argument_at_last_register_loads_low_half_witness :
  exists call_state' s' pre post,
    LoadArgRegs (Sample.cu kThumb2) SampleCalls.long_at_word_2
      0 (routine_fn Sample.rt SDCallInsn) Sample.target 0 0 0 kStatic false Sample.s0
    = Ok call_state' s'
    /\ logged Sample.s0 s'
         (pre ++ LoadValueDirectFixed (Sample.in_frame 2 false false false) 3 :: post).
Proof.
  destruct (LoadArgRegs (Sample.cu kThumb2) SampleCalls.long_at_word_2
              0 (routine_fn Sample.rt SDCallInsn) Sample.target 0 0 0 kStatic false
              Sample.s0) as [call_state' s'|f] eqn:E.
  - destruct (wide_argument_at_last_register_loads_low_half Sample.rt (Sample.cu kThumb2))
      as (_ & _ & Hlast); [simpl; lia | simpl; lia |].
    destruct (Hlast SDCallInsn SampleCalls.long_at_word_2 0 Sample.target 0 0 0 kStatic
                false Sample.s0 call_state' s') as (rl & pre & post & Hrl & Hl).
    + reflexivity.
    + reflexivity.
    + split; [simpl; lia|].
      exists (Sample.in_frame 0 false false false). split; [reflexivity|].
      right. split; [intros l; reflexivity|].
      exists (Sample.in_frame 1 false false false). split; [reflexivity|].
      intros l. reflexivity.
    + exact E.
    + inversion Hrl; subst rl. exists call_state', s', pre, post.
      split; [reflexivity | exact Hl].
  - vm_compute in E. discriminate.
Defined.

(** A run of [LoadArgRegs]: the long in argument words 2 and 3 reaches r3 as
    one narrow word. *)
Example LoadArgRegs_long_at_r3 :
  LoadArgRegs (Sample.cu kThumb2)
    (Sample.call [Sample.in_frame 0 false false false;
                  Sample.in_frame 1 false false false;
                  Sample.in_frame 2 true false false;
                  Sample.in_frame 3 true false true] 0 0)
    0 (routine_fn Sample.rt SDCallInsn) Sample.target 0 0 0 kStatic false Sample.s0
  = Ok 3 (appended Sample.s0
            [ LoadValueDirectFixed (Sample.in_frame 0 false false false) 1;
              LoadCurrMethodDirect 0;
              LoadValueDirectFixed (Sample.in_frame 1 false false false) 2;
              LoadWordDisp 0 28 0;
              LoadValueDirectFixed (Sample.in_frame 2 false false false) 3;
              LoadWordDisp 0 80 0 ]).
Proof. reflexivity. Qed.

(** ** The x86 stack copy *)

Lemma total_app f l1 l2 : total f (l1 ++ l2) = total f l1 + total f l2.
Proof. unfold total. induction l1; simpl; lia. Qed.

Lemma to_int32_small z : -2147483648 <= z < 2147483648 -> to_int32 z = z.
Proof. intros H. unfold to_int32. rewrite Z.mod_small; lia. Qed.

Lemma shiftr_16_2 : Z.shiftr 16 2 = 4.
Proof. reflexivity. Qed.

Lemma shiftr_16_1 : Z.shiftr 16 1 = 8.
Proof. reflexivity. Qed.

Lemma shiftr_4_2 : Z.shiftr 4 2 = 1.
Proof. reflexivity. Qed.

Section StackCopy.

Variable cu : CompilationUnit.
Hypothesis Hxmm : xmm_temp_available cu.

(** One iteration moves 16 bytes when the 128-bit move is picked and 4
    bytes otherwise, and counts the words moved down. *)
Lemma X86StackCopy_step_spec src dst n s :
  0 < n < 2147483648 ->
  let wide_move := picks_128bit src dst n in
  let k := if wide_move then 4 else 1 in
  exists ops,
    X86StackCopy_step cu (src, dst, n) s
    = Ok (to_int32 (src + 4 * k), to_int32 (dst + 4 * k), n - k) (appended s ops)
    /\ total stored_bytes ops = 4 * k
    /\ total loaded_bytes ops = 4 * k
    /\ (wide_move = true ->
        forallb (fun o => negb (is_word_move o)) ops = true
        /\ length (filter is_xmm_alloc ops) = 1%nat).
Proof.
  intros Hn wide_move k. unfold X86StackCopy_step.
  fold (picks_128bit src dst n). fold wide_move.
  assert (Hk : 1 <= k <= n).
  { unfold k, wide_move, picks_128bit.
    destruct (Z.eqb_spec n 4); simpl; [lia|].
    destruct (Z.gtb_spec n 4); simpl; [|lia].
    destruct (_ || _); lia. }
  destruct wide_move eqn:Ew; subst k.
  - mrun.
    assert (Ht : (AllocTempDouble_result (cg cu) (lir s) >? 0) = true).
    { apply Z.gtb_lt. specialize (Hxmm (lir s)). lia. }
    rewrite Ht.
    destruct (Z.land src 15 =? 0); [|destruct (Z.land src 7 =? 0)];
      (destruct (Z.land dst 15 =? 0); [|destruct (Z.land dst 7 =? 0)]);
      mrun; change (4 * 4) with 16; rewrite ?shiftr_16_2, ?shiftr_16_1;
      rewrite (to_int32_small (n - 4)) by lia;
      (eexists; split;
       [unfold appended; cbn [lir slow_paths_]; rewrite <- ?app_assoc; reflexivity
       | repeat split; reflexivity]).
  - mrun. rewrite ?shiftr_4_2. change (4 * 1) with 4.
    rewrite (to_int32_small (n - 1)) by lia.
    eexists; split;
      [unfold appended; cbn [lir slow_paths_]; rewrite <- ?app_assoc; reflexivity
      | repeat split; try reflexivity; discriminate].
Qed.

(** The loop runs until no word is left and moves four bytes per word. *)
Lemma X86StackCopy_loop fuel :
  forall n src dst s,
    0 <= n < 2147483648 -> n <= Z.of_nat fuel ->
    exists src' dst' ops,
      while_ fuel (fun '(_, _, regs_left) => regs_left >? 0) (X86StackCopy_step cu)
        (src, dst, n) s
      = Ok (src', dst', 0) (appended s ops)
      /\ total stored_bytes ops = 4 * n
      /\ total loaded_bytes ops = 4 * n.
Proof.
  induction fuel as [|fuel IH]; intros n src dst s Hn Hf.
  - assert (n = 0) by lia. subst. simpl.
    exists src, dst, []. rewrite appended_nil. repeat split; reflexivity.
  - cbn [while_]. destruct (Z.gtb_spec n 0) as [Hpos|Hz].
    + destruct (X86StackCopy_step_spec src dst n s (conj Hpos (proj2 Hn)))
        as (ops & Hstep & Hst & Hld & _).
      cbv zeta in Hstep, Hst, Hld.
      set (k := if picks_128bit src dst n then 4 else 1) in *.
      assert (Hk : 1 <= k <= n).
      { unfold k, picks_128bit.
        destruct (Z.eqb_spec n 4); simpl; [lia|].
        destruct (Z.gtb_spec n 4); simpl; [|lia].
        destruct (_ || _); lia. }
      unfold bind. rewrite Hstep.
      destruct (IH (n - k) (to_int32 (src + 4 * k)) (to_int32 (dst + 4 * k))
                  (appended s ops)) as (src' & dst' & ops' & Hrun & Hst' & Hld');
        [lia | lia |].
      exists src', dst', (ops ++ ops'). rewrite Hrun, appended_appended.
      rewrite !total_app. repeat split; try reflexivity; lia.
    + assert (n = 0) by lia. subst.
      exists src, dst, []. rewrite appended_nil. repeat split; reflexivity.
Qed.

End StackCopy.

(** ** Safepoints *)

Lemma quiet_no_mark o : quiet o = true -> no_mark o.
Proof. unfold quiet, no_mark. destruct (is_safepoint_mark o); simpl; congruence. Qed.

Section SafepointProperties.

Variable rt : Runtime.
Variable cu : CompilationUnit.

Lemma routine_quiet r info state tm idx dc dm ty :
  emits_only quiet_op (routine_fn rt r cu info state tm idx dc dm ty).
Proof. destruct r; simpl; unfold_routines; emits; reflexivity. Qed.

Lemma LoadArgRegs_quiet r info call_state tm idx dc dm ty skip_this :
  emits_only quiet_op
    (LoadArgRegs cu info call_state (routine_fn rt r) tm idx dc dm ty skip_this).
Proof.
  unfold LoadArgRegs. destruct skip_this;
    (apply emits_only_bind;
     [apply emits_only_while; intros [[? ?] ?]; unfold LoadArgRegs_body;
      emits; try reflexivity; apply routine_quiet
     | intros [[? ?] ?]; apply emits_only_ret]).
Qed.

Lemma routine_no_mark r info state tm idx dc dm ty :
  emits_only no_mark (routine_fn rt r cu info state tm idx dc dm ty).
Proof. eapply emits_only_weaken; [apply quiet_no_mark | apply routine_quiet]. Qed.

Lemma LoadArgRegs_no_mark r info call_state tm idx dc dm ty skip_this :
  emits_only no_mark
    (LoadArgRegs cu info call_state (routine_fn rt r) tm idx dc dm ty skip_this).
Proof. eapply emits_only_weaken; [apply quiet_no_mark | apply LoadArgRegs_quiet]. Qed.

Lemma GenDalvikArgsNoRange_no_mark r info call_state pcr tm idx dc dm ty skip_this :
  emits_only no_mark
    (GenDalvikArgsNoRange rt cu info call_state pcr (routine_fn rt r) tm idx dc dm ty
       skip_this).
Proof.
  unfold GenDalvikArgsNoRange.
  emits; try reflexivity;
    try apply routine_no_mark; try apply LoadArgRegs_no_mark.
  apply emits_only_while. intros [? ?].
  emits; try reflexivity; apply routine_no_mark.
Qed.

Lemma X86StackCopy_no_mark src dst n :
  emits_only no_mark (X86StackCopy cu src dst n).
Proof.
  unfold X86StackCopy. apply emits_only_while. intros [[? ?] ?].
  unfold X86StackCopy_step. emits; reflexivity.
Qed.

Lemma GenDalvikArgsRange_no_mark r info call_state pcr tm idx dc dm ty skip_this :
  emits_only no_mark
    (GenDalvikArgsRange rt cu info call_state pcr (routine_fn rt r) tm idx dc dm ty
       skip_this).
Proof.
  unfold GenDalvikArgsRange.
  destruct (num_arg_words info <=? 5); [apply GenDalvikArgsNoRange_no_mark|].
  apply emits_only_bind.
  { apply emits_only_while. intros ?. emits; reflexivity. }
  intros _. unfold CallRuntimeHelperRegRegImm, CallHelperSetup, CallHelper.
  emits; try reflexivity;
    try apply routine_no_mark; try apply LoadArgRegs_no_mark;
    try apply X86StackCopy_no_mark.
Qed.


Lemma nth_error_middle {A} (l : list A) x l' :
  nth_error (l ++ x :: l') (length l) = Some x.
Proof. rewrite nth_error_app2 by lia. now rewrite Nat.sub_diag. Qed.

(** The full invocation logs one safepoint mark, and it marks the call
    instruction, which is logged right before it. *)
Lemma GenInvokeNoInline_marks_call info s info' s' :
  GenInvokeNoInline rt cu info s = Ok info' s' ->
  exists pre call post,
    logged s s' (pre ++ [call; MarkSafepointPC (length (lir s) + length pre)%nat] ++ post)
    /\ is_invoke_call rt cu call
    /\ Forall no_mark pre /\ Forall no_mark post.
Proof.
  unfold GenInvokeNoInline. intros H.
  apply bind_Ok_inv in H. destruct H as (u1 & s1 & H1 & H).
  apply bind_Ok_inv in H. destruct H as (u2 & s2 & H2 & H).
  apply bind_Ok_inv in H. destruct H as (u3 & s3 & H3 & H).
  apply bind_Ok_inv in H. destruct H as (sel & s4 & H4 & H).
  destruct sel as [[p_null_ck next] skip_this].
  apply bind_Ok_inv in H. destruct H as (cs & s5 & H5 & H).
  apply bind_Ok_inv in H. destruct H as (cs' & s6 & H6 & H).
  apply bind_Ok_inv in H. destruct H as (call_inst & s7 & H7 & H).
  apply bind_Ok_inv in H. destruct H as (u8 & s8 & H8 & H).
  assert (L3 : exists ops, logged s s3 ops /\ Forall no_mark ops).
  { inversion H1; inversion H2; inversion H3; subst. eexists. split.
    - unfold logged. simpl. rewrite <- !app_assoc. reflexivity.
    - repeat constructor. }
  assert (Hsel : s4 = s3 /\ exists r, next = routine_fn rt r).
  { set (method_info := GetMethodLoweringInfo (cg cu) (mir info)) in *.
    cbn [type set_type] in H4.
    destruct (GetSharpType method_info), (FastPath method_info);
      unfold DCHECK in H4; simpl in H4;
      try (destruct (kIsDebugBuild rt); simpl in H4);
      try discriminate; inversion H4; subst; (split; [reflexivity|]);
      first [ now exists SDCallInsn | now exists VCallInsn
            | now exists InterfaceCallInsn | now exists StaticCallInsnSP
            | now exists DirectCallInsnSP | now exists SuperCallInsnSP
            | now exists VCallInsnSP | now exists InterfaceCallInsnWithAccessCheck ]. }
  destruct Hsel as (-> & r & ->).
  assert (L5 : exists ops, logged s3 s5 ops /\ Forall no_mark ops).
  { destruct (negb (is_range _)).
    - eapply GenDalvikArgsNoRange_no_mark; eassumption.
    - eapply GenDalvikArgsRange_no_mark; eassumption. }
  assert (L6 : exists ops, logged s5 s6 ops /\ Forall no_mark ops).
  { eapply emits_only_while; [|eassumption]. intros x. apply routine_no_mark. }
  assert (L7 : exists call, s7 = appended s6 [call] /\ call_inst = length (lir s6)
                            /\ is_invoke_call rt cu call).
  { destruct (negb (is_isa cu kX86)).
    - inversion H7; subst. eexists. repeat split.
    - destruct (FastPath _).
      + destruct (_ =? kUnsignedMinusOne); inversion H7; subst;
          eexists; repeat split.
      + inversion H7; subst. eexists. split; [reflexivity|]. split; [reflexivity|].
        cbn [type set_type is_invoke_call].
        destruct (GetSharpType _);
          [exists kStatic | exists kDirect | exists kVirtual | exists kSuper
          | exists kInterface]; reflexivity. }
  assert (L9 : exists ops, logged s8 s' ops /\ Forall no_mark ops).
  { revert H. apply emits_only_bind; [apply emits_only_emit_; reflexivity|].
    intros _. apply emits_only_bind; [|intros; apply emits_only_ret].
    emits; reflexivity. }
  destruct L3 as (o3 & Hl3 & Hf3). destruct L5 as (o5 & Hl5 & Hf5).
  destruct L6 as (o6 & Hl6 & Hf6). destruct L7 as (call & -> & -> & Hcall).
  destruct L9 as (o9 & Hl9 & Hf9).
  inversion H8; subst s8.
  exists (o3 ++ o5 ++ o6), call, o9. repeat split; try assumption.
  - unfold logged in *. cbn [lir appended] in Hl9. rewrite Hl9, Hl6, Hl5, Hl3.
    rewrite !length_app, <- !app_assoc. simpl.
    rewrite <- !Nat.add_assoc. reflexivity.
  - repeat (apply Forall_app; split); assumption.
Qed.


Ltac find_in := simpl; repeat (first [left; reflexivity | right]).

Ltac finish_log :=
  eexists; split;
  [unfold logged; cbn [lir slow_paths_]; rewrite <- ?app_assoc; reflexivity|].

(** The inlined string search calls its helper and logs no safepoint mark. *)
Lemma GenInlinedIndexOf_call_unmarked info zero_based s info' s' :
  GenInlinedIndexOf rt cu info zero_based s = Ok (true, info') s' ->
  exists ops,
    logged s s' ops
    /\ (exists call, In call ops /\ is_helper_call rt pIndexOf call)
    /\ Forall no_mark ops.
Proof.
  unfold GenInlinedIndexOf, InlineTarget, AddIntrinsicLaunchpad, AddSlowPath, DCHECK,
    arg_at.
  intros H. mcases; try discriminate;
    inversion H; subst; clear H;
    (finish_log; split;
     [match goal with
      | |- context [OpReg kOpBlx ?r] => exists (OpReg kOpBlx r)
      end; split; [find_in | exact I]
     | repeat constructor]).
Qed.

(** The inlined string comparison calls its helper and logs no safepoint
    mark. *)
Lemma GenInlinedStringCompareTo_call_unmarked info s info' s' :
  GenInlinedStringCompareTo rt cu info s = Ok (true, info') s' ->
  exists ops,
    logged s s' ops
    /\ (exists call, In call ops /\ is_helper_call rt pStringCompareTo call)
    /\ Forall no_mark ops.
Proof.
  unfold GenInlinedStringCompareTo, InlineTarget, AddIntrinsicLaunchpad, AddSlowPath,
    DCHECK, arg_at.
  intros H. mcases; try discriminate;
    inversion H; subst; clear H;
    (finish_log; split;
     [first [ match goal with
              | |- context [OpReg kOpBlx ?r] => exists (OpReg kOpBlx r)
              end; split; [find_in | exact I]
            | match goal with
              | |- context [OpThreadMem kOpBlx ?r] => exists (OpThreadMem kOpBlx r)
              end; split; [find_in | reflexivity] ]
     | repeat constructor]).
Qed.

End SafepointProperties.

(** C9.  The helper call logged by the inlined string search and by the
    inlined string comparison is not marked as a safepoint: these fast paths
    log their call and no safepoint mark at all.  The full invocation path,
    whenever it completes, has logged exactly one safepoint mark, right
    after its call instruction and naming it; and it stops short of that
    only where the C++ aborts on a failed check or reads outside the
    argument array, never on a loop bound of the model. *)
Theorem inlined_helper_calls_unmarked_full_call_marked :
  forall rt cu,
    (forall info zero_based s info' s',
        GenInlinedIndexOf rt cu info zero_based s = Ok (true, info') s' ->
        exists ops,
          logged s s' ops
          /\ (exists call, In call ops /\ is_helper_call rt pIndexOf call)
          /\ Forall no_mark ops)
    /\ (forall info s info' s',
        GenInlinedStringCompareTo rt cu info s = Ok (true, info') s' ->
        exists ops,
          logged s s' ops
          /\ (exists call, In call ops /\ is_helper_call rt pStringCompareTo call)
          /\ Forall no_mark ops)
    /\ (forall info s info' s',
        GenInvokeNoInline rt cu info s = Ok info' s' ->
        exists pre call post,
          logged s s'
            (pre ++ [call; MarkSafepointPC (length (lir s) + length pre)%nat] ++ post)
          /\ is_invoke_call rt cu call
          /\ Forall no_mark pre /\ Forall no_mark post)
    /\ (forall info, enough_fuel (GenInvokeNoInline rt cu info)).
Proof.
  intros rt cu. split; [|split; [|split]].
  - apply GenInlinedIndexOf_call_unmarked.
  - apply GenInlinedStringCompareTo_call_unmarked.
  - apply GenInvokeNoInline_marks_call.
  - apply GenInvokeNoInline_enough_fuel.
Qed.

Lemma inlined_helper_calls_unmarked_full_call_marked_witness :
  exists info' s' pre call post,
    GenInvokeNoInline Sample.rt (Sample.cu kThumb2) SampleCalls.charAt Sample.s0
    = Ok info' s'
    /\ logged Sample.s0 s' (pre ++ [call; MarkSafepointPC (length pre)] ++ post)
    /\ is_invoke_call Sample.rt (Sample.cu kThumb2) call
    /\ Forall no_mark pre /\ Forall no_mark post.
Proof.
  destruct (inlined_helper_calls_unmarked_full_call_marked Sample.rt (Sample.cu kThumb2))
    as (_ & _ & Hfull & _).
  destruct (GenInvokeNoInline Sample.rt (Sample.cu kThumb2) SampleCalls.charAt Sample.s0)
    as [info' s'|f] eqn:E.
  - destruct (Hfull _ _ _ _ E) as (pre & call & post & Hlog & Hcall & Hpre & Hpost).
    exists info', s', pre, call, post. repeat split; assumption.
  - vm_compute in E. discriminate.
Defined.

(** A full virtual invocation on Thumb2: the call through the invoke-target
    register is followed by its safepoint mark. *)
Example full_invoke_marks_call :
  exists info' s' pre post,
    GenInvokeNoInline Sample.rt (Sample.cu kThumb2) SampleCalls.charAt Sample.s0
    = Ok info' s'
    /\ lir s' = pre ++ [OpReg kOpBlx 14; MarkSafepointPC (length pre)] ++ post
    /\ post = [ClobberCallerSave].
Proof.
  eexists _, _, _, _. split; [vm_compute; reflexivity|].
  split; [|reflexivity].
  cbn [lir]. 
  match goal with
  | |- ?l = _ => 
      let n := eval vm_compute in (length l - 3)%nat in
      instantiate (1 := firstn n l)
  end.
  vm_compute. reflexivity.
Qed.

(** ** The stack copy inside the range path *)

Lemma total_quiet ops : Forall quiet_op ops -> total stored_bytes ops = 0.
Proof.
  induction 1 as [|o ops Ho _ IH]; [reflexivity|].
  simpl. rewrite IH. unfold quiet_op, quiet in Ho.
  apply andb_prop in Ho. destruct Ho as [_ Ho]. apply Z.eqb_eq in Ho. lia.
Qed.

Lemma GenDalvikArgsRange_x86_copy rt cu r info call_state pcr tm idx dc dm ty skip_this
    s call_state' s' :
  instruction_set cu = kX86 ->
  xmm_temp_available cu ->
  5 < num_arg_words info ->
  num_arg_words info - 3 < 2147483648 ->
  GenDalvikArgsRange rt cu info call_state pcr (routine_fn rt r) tm idx dc dm ty
    skip_this s = Ok call_state' s' ->
  exists ops,
    logged s s' ops /\ total stored_bytes ops = (num_arg_words info - 3) * 4.
Proof.
  intros Hisa Hxmm Hn Hn'. unfold GenDalvikArgsRange.
  rewrite (proj2 (Z.leb_gt _ _) Hn).
  assert (Ht : is_isa cu kThumb2 = false) by (unfold is_isa; now rewrite Hisa).
  rewrite Ht, (is_isa_true _ _ Hisa). cbn [andb].
  intros H.
  apply bind_Ok_inv in H. destruct H as (n1 & s1 & H1 & H).
  apply bind_Ok_inv in H. destruct H as (u2 & s2 & H2 & H).
  apply bind_Ok_inv in H. destruct H as (args3 & s3 & H3 & H).
  apply bind_Ok_inv in H. destruct H as (u4 & s4 & H4 & H).
  apply bind_Ok_inv in H. destruct H as (cs5 & s5 & H5 & H).
  apply bind_Ok_inv in H. destruct H as (cs6 & s6 & H6 & H).
  apply bind_Ok_inv in H. destruct H as (cs7 & s7 & H7 & H).
  apply bind_Ok_inv in H. destruct H as (u8 & s8 & H8 & H).
  inversion H; subst; clear H.
  assert (L1 : exists ops, logged s s1 ops /\ Forall quiet_op ops).
  { revert H1. apply emits_only_while. intros ?. emits; reflexivity. }
  assert (L2 : exists ops, logged s1 s2 ops /\ Forall quiet_op ops).
  { revert H2. apply emits_only_DCHECK. }
  assert (L3 : exists ops, logged s2 s3 ops /\ Forall quiet_op ops).
  { revert H3. apply emits_only_arg_at. }
  assert (L4 : exists ops, logged s3 s4 ops /\ Forall quiet_op ops).
  { revert H4. apply emits_only_DCHECK. }
  assert (L5 : exists ops, logged s4 s5 ops
                           /\ total stored_bytes ops = (num_arg_words info - 3) * 4).
  { apply bind_Ok_inv in H5. destruct H5 as (x & s4' & Hc & Hr).
    inversion Hr; subst; clear Hr.
    destruct (X86StackCopy_loop cu Hxmm (Z.to_nat (num_arg_words info - 3))
                (num_arg_words info - 3) (SRegOffset (cg cu) (s_reg_low args3))
                (4 + 3 * 4) s4) as (src' & dst' & ops & Hrun & Hst & _); [lia | lia |].
    unfold X86StackCopy in Hc. rewrite Hrun in Hc. inversion Hc; subst.
    exists ops. split; [apply logged_appended | lia]. }
  assert (L6 : exists ops, logged s5 s6 ops /\ Forall quiet_op ops).
  { revert H6. apply LoadArgRegs_quiet. }
  assert (L7 : exists ops, logged s6 s7 ops /\ Forall quiet_op ops).
  { revert H7. apply routine_quiet. }
  assert (L8 : exists ops, logged s7 s' ops /\ Forall quiet_op ops).
  { revert H8. apply emits_only_when. intros _. apply emits_only_emit_. reflexivity. }
  destruct L1 as (o1 & Hl1 & Hq1). destruct L2 as (o2 & Hl2 & Hq2).
  destruct L3 as (o3 & Hl3 & Hq3). destruct L4 as (o4 & Hl4 & Hq4).
  destruct L5 as (o5 & Hl5 & Hb5). destruct L6 as (o6 & Hl6 & Hq6).
  destruct L7 as (o7 & Hl7 & Hq7). destruct L8 as (o8 & Hl8 & Hq8).
  exists (o1 ++ o2 ++ o3 ++ o4 ++ o5 ++ o6 ++ o7 ++ o8). split.
  - unfold logged in *. rewrite Hl8, Hl7, Hl6, Hl5, Hl4, Hl3, Hl2, Hl1.
    now rewrite <- !app_assoc.
  - rewrite !total_app.
    rewrite (total_quiet _ Hq1), (total_quiet _ Hq2), (total_quiet _ Hq3),
      (total_quiet _ Hq4), (total_quiet _ Hq6), (total_quiet _ Hq7), (total_quiet _ Hq8).
    lia.
Qed.

(** C6 (amended).  On x86 the stack copy of the range path moves four bytes
    for every stack-resident argument word: [count * 4] bytes for [count]
    such words, as many read from the caller's frame as written to the
    outgoing area.  Whenever exactly 4 words are left the loop picks the
    128-bit move through one xmm temporary, whatever the alignment, and no
    single-word move.  For the [n > 5] argument words of a range invocation
    the copy instructions logged by [GenDalvikArgsRange] write
    [(n - 3) * 4] bytes in all. *)
Theorem x86_stack_copy_moves_four_bytes_per_word :
  forall cu src dst count s,
    xmm_temp_available cu ->
    0 <= count < 2147483648 ->
    (exists src' dst' ops,
        X86StackCopy cu src dst count s = Ok (src', dst', 0) (appended s ops)
        /\ total stored_bytes ops = count * 4
        /\ total loaded_bytes ops = count * 4)
    /\ (count = 4 ->
        exists src' dst' ops,
          X86StackCopy cu src dst count s = Ok (src', dst', 0) (appended s ops)
          /\ total stored_bytes ops = 16
          /\ forallb (fun o => negb (is_word_move o)) ops = true
          /\ length (filter is_xmm_alloc ops) = 1%nat)
    /\ (forall rt r info call_state pcr tm idx dc dm ty skip_this call_state' s',
        instruction_set cu = kX86 ->
        num_arg_words info = count + 3 ->
        5 < num_arg_words info ->
        GenDalvikArgsRange rt cu info call_state pcr (routine_fn rt r) tm idx dc dm ty
          skip_this s = Ok call_state' s' ->
        exists ops,
          logged s s' ops
          /\ total stored_bytes ops = (num_arg_words info - 3) * 4).
Proof.
  intros cu src dst count s Hxmm Hc. split; [|split].
  - unfold X86StackCopy.
    destruct (X86StackCopy_loop cu Hxmm (Z.to_nat count) count src dst s Hc)
      as (src' & dst' & ops & Hrun & Hst & Hld); [lia|].
    exists src', dst', ops. rewrite Hrun. repeat split; lia.
  - intros ->. unfold X86StackCopy. change (Z.to_nat 4) with 4%nat.
    cbn [while_]. change (4 >? 0) with true. cbv iota.
    destruct (X86StackCopy_step_spec cu Hxmm src dst 4 s) as (ops & Hstep & Hst & _ & Hw);
      [lia|].
    cbv zeta in Hstep, Hst, Hw. change (picks_128bit src dst 4) with true in *.
    cbv iota in Hstep, Hst. change (4 - 4) with 0 in Hstep.
    unfold bind. rewrite Hstep. cbn [while_]. change (0 >? 0) with false. cbv iota.
    unfold ret. destruct (Hw eq_refl) as [Hnw Hone].
    eexists _, _, ops. repeat split; try assumption.
  - intros rt r info call_state pcr tm idx dc dm ty skip_this call_state' s'
           Hisa Hn H5 Hrun.
    eapply GenDalvikArgsRange_x86_copy; try eassumption. lia.
Qed.

(** C6, as stated, fails: the copy of one stack-resident word moves 4
    bytes, not (1 - 3) * 4. *)
Lemma copy_of_one_word_moves_4_bytes :
  ~ copy_moves_count_minus_3_words.
Proof.
  intros H.
  destruct (H (Sample.cu kX86) 80 16 1 Sample.s0) as (r & ops & Hrun & Hbytes).
  - intros l. simpl. lia.
  - simpl. auto.
  - vm_compute in Hrun. inversion Hrun; subst. vm_compute in Hbytes. discriminate.
Qed.

Lemma x86_stack_copy_moves_four_bytes_per_word_witness :
  exists src' dst' ops,
    X86StackCopy (Sample.cu kX86) 80 16 17 Sample.s0
    = Ok (src', dst', 0) (appended Sample.s0 ops)
    /\ total stored_bytes ops = 17 * 4
    /\ total loaded_bytes ops = 17 * 4.
Proof.
  apply (x86_stack_copy_moves_four_bytes_per_word (Sample.cu kX86) 80 16 17 Sample.s0).
  - intros l. simpl. lia.
  - lia.
Defined.

(** ** Intrinsics *)

Lemma land_lnot_65535 v :
  Z.land v (Z.lnot 65535) = 0 <-> 0 <= v <= 65535.
Proof.
  change 65535 with (Z.ones 16) at 1.
  rewrite <- Z.ldiff_land, Z.ldiff_ones_r by lia.
  rewrite Z.shiftl_mul_pow2, Z.shiftr_div_pow2 by lia.
  change (2 ^ 16) with 65536.
  split; intros H.
  - assert (v / 65536 = 0) by lia. apply Z.div_small_iff in H0; lia.
  - rewrite Z.div_small by lia. reflexivity.
Qed.

Lemma arg_at_some info i rl :
  0 <= i -> nth_error (args info) (Z.to_nat i) = Some rl -> arg_at info i = ret rl.
Proof.
  unfold arg_at. intros H0 E. now rewrite (proj2 (Z.ltb_ge i 0) H0), E.
Qed.

Section IntrinsicProperties.

Variable rt : Runtime.

(** C8 (amended).  On MIPS every intrinsic routine of this file other than
    the current-thread accessor declines: it answers false, logs nothing and
    leaves the call descriptor as it was; so does the string search whose
    constant search character lies outside 0..0xFFFF, on every architecture.
    When the intrinsic attempt declines, [GenInvoke] continues with the
    standard non-inlined lowering from the very same state; no fault is
    raised. *)
Theorem declined_intrinsic_falls_back :
  (forall cu info m s,
      instruction_set cu = kMips ->
      m <> kIntrinsicCurrentThread ->
      GenInlined rt cu info m s = Ok (false, info) s)
  /\ (forall cu info zero_based s rl_obj rl_char,
      nth_error (args info) 0 = Some rl_obj ->
      nth_error (args info) 1 = Some rl_char ->
      is_const rl_char = true ->
      ~ 0 <= ConstantValue (cg cu) (orig_sreg rl_char) <= 65535 ->
      GenInlinedIndexOf rt cu info zero_based s = Ok (false, info) s)
  /\ (forall cu info info' s s',
      GenIntrinsic rt cu info s = Ok (false, info') s' ->
      GenInvoke rt cu info s = GenInvokeNoInline rt cu info' s').
Proof.
  split; [|split].
  - intros cu info m s Hm Hne. apply is_isa_true in Hm.
    destruct m; try congruence; simpl;
      unfold GenInlinedDoubleCvt, GenInlinedFloatCvt, GenInlinedReverseBytes,
        GenInlinedAbsInt, GenInlinedAbsLong, GenInlinedAbsFloat, GenInlinedAbsDouble,
        GenInlinedCharAt, GenInlinedStringCompareTo, GenInlinedStringIsEmptyOrLength,
        GenInlinedIndexOf, GenInlinedUnsafeGet, GenInlinedUnsafePut;
      rewrite Hm; reflexivity.
  - intros cu info zero_based s rl_obj rl_char H0 H1 Hc Hv.
    unfold GenInlinedIndexOf.
    destruct (is_isa cu kMips); [reflexivity|].
    rewrite (arg_at_some info 0 rl_obj), (arg_at_some info 1 rl_char);
      [|lia|exact H1|lia|exact H0].
    mrun. rewrite Hc.
    destruct (Z.eqb_spec (Z.land (ConstantValue (cg cu) (orig_sreg rl_char)) (Z.lnot 65535)) 0)
      as [E|E]; [|reflexivity].
    apply land_lnot_65535 in E. contradiction.
  - intros cu info info' s s' H. unfold GenInvoke, bind. now rewrite H.
Qed.

End IntrinsicProperties.

(** C8, as stated, fails: the current-thread accessor is expanded inline on
    MIPS. *)
Lemma current_thread_is_inlined_on_mips :
  ~ every_intrinsic_declines_on_mips Sample.rt.
Proof.
  intros H.
  specialize (H (Sample.cu kMips) (Sample.call [] 101 0) kIntrinsicCurrentThread
                Sample.s0 eq_refl).
  vm_compute in H. discriminate.
Qed.

Lemma declined_intrinsic_falls_back_witness :
  GenInvoke Sample.rt (Sample.cu kMips)
    (Sample.call [Sample.in_frame 4 false false false;
                  Sample.in_frame 5 false false false] 100 0) Sample.s0
  = GenInvokeNoInline Sample.rt (Sample.cu kMips)
      (Sample.call [Sample.in_frame 4 false false false;
                    Sample.in_frame 5 false false false] 100 0) Sample.s0.
Proof.
  destruct (declined_intrinsic_falls_back Sample.rt) as (Hmips & _ & Hfall).
  apply Hfall.
  exact (Hmips (Sample.cu kMips) _ kIntrinsicCharAt Sample.s0 eq_refl
           ltac:(discriminate)).
Defined.

(** ** Launchpads *)

Lemma nth_error_last {A} (l : list A) x : nth_error (l ++ [x]) (length l) = Some x.
Proof. apply nth_error_middle. Qed.

Lemma nth_error_extend {A} (l l' : list A) n x :
  nth_error l n = Some x -> nth_error (l ++ l') n = Some x.
Proof.
  intros H. rewrite nth_error_app1; [assumption|].
  apply nth_error_Some. congruence.
Qed.

Ltac find_nth := repeat first [apply nth_error_last | apply nth_error_extend].

Section LaunchpadProperties.

Variable rt : Runtime.
Variable cu : CompilationUnit.

Lemma Compile_unfolded p s :
  IntrinsicLaunchpadPath_Compile rt cu p s
  = match GenInvokeNoInline rt cu (info_ p) (appended s (launchpad_entry p s)) with
    | Ok info s1 =>
        Ok info match cont_ p with
                | Some resume => appended s1 [OpUnconditionalBranch resume]
                | None => s1
                end
    | Stop f => Stop f
    end.
Proof.
  unfold IntrinsicLaunchpadPath_Compile, launchpad_entry.
  mrun.
  replace (length ((lir s ++ [ResetRegPool]) ++ [ResetDefTracking]))
    with (length (lir s) + 2)%nat by (rewrite !length_app; simpl; lia).
  unfold appended. cbn [lir slow_paths_]. rewrite <- !app_assoc. cbn [app].
  destruct (GenInvokeNoInline _ _ _ _) as [info s1|f]; [|reflexivity].
  destruct (cont_ p); reflexivity.
Qed.

Lemma GenInlinedIndexOf_registers info zero_based s b info' s' :
  GenInlinedIndexOf rt cu info zero_based s = Ok (b, info') s' ->
  exists ps, registered s s' ps /\ Forall (resumes_after_call s') ps.
Proof.
  unfold GenInlinedIndexOf, InlineTarget, AddIntrinsicLaunchpad, AddSlowPath, DCHECK,
    arg_at.
  intros H. mcases; try discriminate;
    inversion H; subst; clear H;
    first [ exists []; split;
            [unfold registered; cbn [slow_paths_]; now rewrite app_nil_r | constructor]
          | eexists [_]; split; [reflexivity|]; constructor; [|constructor];
            unfold resumes_after_call; cbn [cont_ lir];
            eexists _, _, _; split; [reflexivity|]; split;
            [rewrite length_app, Nat.add_1_r; reflexivity|]; split; find_nth ].
Qed.

Lemma GenInlinedStringCompareTo_registers info s b info' s' :
  GenInlinedStringCompareTo rt cu info s = Ok (b, info') s' ->
  exists ps, registered s s' ps /\ Forall no_resume ps.
Proof.
  unfold GenInlinedStringCompareTo, InlineTarget, AddIntrinsicLaunchpad, AddSlowPath,
    DCHECK, arg_at.
  intros H. mcases; try discriminate;
    inversion H; subst; clear H;
    first [ exists []; split;
            [unfold registered; cbn [slow_paths_]; now rewrite app_nil_r | constructor]
          | eexists [_]; split; [reflexivity|]; repeat constructor ].
Qed.

(** A completed string search registers one launchpad when the character
    is not a constant, and none when it is. *)
Lemma GenInlinedIndexOf_registers_one info zero_based s info' s' :
  GenInlinedIndexOf rt cu info zero_based s = Ok (true, info') s' ->
  exists rl_char,
    nth_error (args info) 1 = Some rl_char
    /\ if is_const rl_char then registered s s' []
       else exists p, registered s s' [p] /\ resumes_after_call s' p.
Proof.
  unfold GenInlinedIndexOf, InlineTarget, AddIntrinsicLaunchpad, AddSlowPath, DCHECK,
    arg_at.
  intros H. mcases; try discriminate;
    inversion H; subst; clear H;
    (eexists; split; [eassumption|]);
    repeat match goal with
           | E : is_const _ = _ |- _ => rewrite E; clear E
           end;
    first [ unfold registered; cbn [slow_paths_]; now rewrite app_nil_r
          | eexists; split; [reflexivity|];
            unfold resumes_after_call; cbn [cont_ lir];
            eexists _, _, _; split; [reflexivity|]; split;
            [rewrite length_app, Nat.add_1_r; reflexivity|]; split; find_nth ].
Qed.

(** A completed string comparison registers one launchpad. *)
Lemma GenInlinedStringCompareTo_registers_one info s info' s' :
  GenInlinedStringCompareTo rt cu info s = Ok (true, info') s' ->
  exists p, registered s s' [p] /\ no_resume p.
Proof.
  unfold GenInlinedStringCompareTo, InlineTarget, AddIntrinsicLaunchpad, AddSlowPath,
    DCHECK, arg_at.
  intros H. mcases; try discriminate;
    inversion H; subst; clear H;
    eexists; split; reflexivity.
Qed.

Lemma registered_refl s : registered s s [].
Proof. unfold registered. now rewrite app_nil_r. Qed.

Lemma registered_trans s1 s2 s3 l1 l2 :
  registered s1 s2 l1 -> registered s2 s3 l2 -> registered s1 s3 (l1 ++ l2).
Proof. unfold registered. intros H1 H2. now rewrite H2, H1, app_assoc. Qed.

Lemma registers_only_ret {A} Q (a : A) : registers_only Q (ret a).
Proof.
  intros s x s' H. inversion H; subst. exists [].
  split; [apply registered_refl | constructor].
Qed.

Lemma registers_only_stop {A} Q f : registers_only Q (@stop A f).
Proof. intros s x s' H. discriminate. Qed.

Lemma registers_only_ask {A} Q (f : list Op -> A) : registers_only Q (ask f).
Proof.
  intros s x s' H. inversion H; subst. exists [].
  split; [apply registered_refl | constructor].
Qed.

Lemma registers_only_emit Q o : registers_only Q (emit o).
Proof.
  intros s x s' H. inversion H; subst. exists [].
  split; [unfold registered; cbn [slow_paths_]; now rewrite app_nil_r | constructor].
Qed.

Lemma registers_only_bind {A B} Q (m : M A) (k : A -> M B) :
  registers_only Q m -> (forall a, registers_only Q (k a)) -> registers_only Q (bind m k).
Proof.
  intros Hm Hk s b s' H. apply bind_Ok_inv in H. destruct H as (a & s1 & H1 & H2).
  destruct (Hm _ _ _ H1) as (l1 & Hl1 & Hp1).
  destruct (Hk a _ _ _ H2) as (l2 & Hl2 & Hp2).
  exists (l1 ++ l2). split; [eapply registered_trans; eassumption | now apply Forall_app].
Qed.

Lemma registers_only_emit_ Q o : registers_only Q (emit_ o).
Proof.
  apply registers_only_bind; [apply registers_only_emit | intros; apply registers_only_ret].
Qed.

Lemma registers_only_call_r {A} Q o (f : list Op -> A) : registers_only Q (call_r o f).
Proof.
  unfold call_r. apply registers_only_bind; [apply registers_only_ask|].
  intros a. apply registers_only_bind;
    [apply registers_only_emit_ | intros; apply registers_only_ret].
Qed.

Lemma registers_only_when Q b m :
  (b = true -> registers_only Q m) -> registers_only Q (when b m).
Proof. destruct b; simpl; intros H; [now apply H | apply registers_only_ret]. Qed.

Lemma registers_only_CHECK Q b : registers_only Q (CHECK b).
Proof. destruct b; [apply registers_only_ret | apply registers_only_stop]. Qed.

Lemma registers_only_DCHECK Q b : registers_only Q (DCHECK rt b).
Proof.
  unfold DCHECK. destruct (kIsDebugBuild rt);
    [apply registers_only_CHECK | apply registers_only_ret].
Qed.

Lemma registers_only_arg_at Q info i : registers_only Q (arg_at info i).
Proof.
  unfold arg_at. destruct (i <? 0); [apply registers_only_stop|].
  destruct (nth_error _ _); [apply registers_only_ret | apply registers_only_stop].
Qed.

Lemma registers_only_AddSlowPath (Q : LaunchPad -> Prop) p :
  Q p -> registers_only Q (AddSlowPath p).
Proof.
  intros Hp s x s' H. inversion H; subst. exists [p].
  split; [reflexivity | now constructor].
Qed.

(** Decompose a computation into the launchpads it registers. *)
Ltac registers_step :=
  lazymatch goal with
  | |- registers_only _ (ret _) => apply registers_only_ret
  | |- registers_only _ (stop _) => apply registers_only_stop
  | |- registers_only _ (ask _) => apply registers_only_ask
  | |- registers_only _ (CHECK _) => apply registers_only_CHECK
  | |- registers_only _ (DCHECK _ _) => apply registers_only_DCHECK
  | |- registers_only _ (arg_at _ _) => apply registers_only_arg_at
  | |- registers_only _ (AddSlowPath _) => apply registers_only_AddSlowPath
  | |- registers_only _ (emit_ _) => apply registers_only_emit_
  | |- registers_only _ (emit _) => apply registers_only_emit
  | |- registers_only _ (call_r _ _) => apply registers_only_call_r
  | |- registers_only _ (when _ _) => apply registers_only_when; intros ?; try discriminate
  | |- registers_only _ (bind _ _) => apply registers_only_bind; [|intros ?]
  | |- registers_only _ (match ?x with _ => _ end) => destruct x eqn:?
  end.

Ltac registers := repeat registers_step.

Lemma GenInlinedCharAt_registers info :
  registers_only no_resume (GenInlinedCharAt rt cu info).
Proof.
  unfold GenInlinedCharAt, InlineTarget, AddIntrinsicLaunchpad,
    do_LoadValue, do_AllocTemp, do_EvalLoc.
  registers; reflexivity.
Qed.

Lemma registers_list_bind {A B} (m : M A) (k : A -> M B) Q :
  registers_only (fun _ => False) m ->
  (forall a, registers_list (k a) Q) ->
  registers_list (bind m k) Q.
Proof.
  intros Hm Hk s b s' H. apply bind_Ok_inv in H. destruct H as (a & s1 & H1 & H2).
  destruct (Hm _ _ _ H1) as (l1 & Hl1 & Hn).
  destruct (Hk a _ _ _ H2) as (l2 & Hl2 & Hq).
  destruct l1 as [|p l1]; [|inversion Hn; contradiction].
  exists l2. split; [|exact Hq].
  unfold registered in *. rewrite Hl2, Hl1, app_nil_r. reflexivity.
Qed.

Lemma registers_list_ret {A} (a : A) (Q : A -> list LaunchPad -> Prop) :
  Q a [] -> registers_list (ret a) Q.
Proof.
  intros Hq s x s' H. inversion H; subst. exists []. split; [apply registered_refl | exact Hq].
Qed.

(** Walk through the calls that register nothing. *)
Ltac to_launchpad :=
  repeat lazymatch goal with
         | |- registers_list (bind (AddIntrinsicLaunchpad _ _ _) _) _ => fail
         | |- registers_list (bind _ _) _ =>
             apply registers_list_bind; [solve [registers] | intros ?]
         | |- registers_list (match ?x with _ => _ end) _ => destruct x eqn:?
         end.

(** A completed character access registers one launchpad when it checks
    the range, and none when the check is known to hold. *)
Lemma GenInlinedCharAt_registers_one info :
  registers_list (GenInlinedCharAt rt cu info)
    (fun r ps =>
       fst r = true ->
       if Z.land (opt_flags info) (MIR_IGNORE_RANGE_CHECK rt) =? 0
       then exists p, ps = [p] /\ no_resume p
       else ps = []).
Proof.
  unfold GenInlinedCharAt, InlineTarget, do_LoadValue, do_AllocTemp, do_EvalLoc.
  destruct (is_isa cu kMips); [apply registers_list_ret; discriminate|].
  remember (Z.land (opt_flags info) (MIR_IGNORE_RANGE_CHECK rt) =? 0) as range_check
    eqn:Hrc.
  to_launchpad; try (apply registers_list_ret; intros _; reflexivity).
  all: intros ? ? ? H; unfold AddIntrinsicLaunchpad, AddSlowPath in H;
    mrun; inversion H; subst; clear H;
    (eexists [_]; split; [reflexivity|]); intros _; eexists; split; reflexivity.
Qed.

End LaunchpadProperties.

(** C7 (amended).  Every intrinsic launchpad, when materialized, first
    resets the register pool and the definition tracking and labels the
    retry entry, then re-issues the operation as a full non-inlined
    invocation, and then jumps back to its resume label if it was
    registered with one, and logs no jump otherwise.  A completed inlined
    string search whose character is not a constant registers exactly one
    launchpad, with the target label logged right after the helper call of
    the fast path as its resume label; with a constant character it
    registers none.  A completed inlined character access registers
    exactly one launchpad when it checks the range, and a completed inlined
    string comparison always exactly one, both without a resume label.  No
    other launchpad is registered by these three. *)
Theorem launchpad_resets_reinvokes_and_resumes_if_asked :
  forall rt cu,
    (forall p s,
        IntrinsicLaunchpadPath_Compile rt cu p s
        = match GenInvokeNoInline rt cu (info_ p) (appended s (launchpad_entry p s)) with
          | Ok info s1 =>
              Ok info match cont_ p with
                      | Some resume => appended s1 [OpUnconditionalBranch resume]
                      | None => s1
                      end
          | Stop f => Stop f
          end)
    /\ (forall info zero_based s b info' s',
        GenInlinedIndexOf rt cu info zero_based s = Ok (b, info') s' ->
        exists ps, registered s s' ps /\ Forall (resumes_after_call s') ps)
    /\ (forall info, registers_only no_resume (GenInlinedCharAt rt cu info))
    /\ (forall info, registers_only no_resume (GenInlinedStringCompareTo rt cu info))
    /\ (forall info zero_based s info' s',
        GenInlinedIndexOf rt cu info zero_based s = Ok (true, info') s' ->
        exists rl_char,
          nth_error (args info) 1 = Some rl_char
          /\ if is_const rl_char then registered s s' []
             else exists p, registered s s' [p] /\ resumes_after_call s' p)
    /\ (forall info,
        registers_list (GenInlinedCharAt rt cu info)
          (fun r ps =>
             fst r = true ->
             if Z.land (opt_flags info) (MIR_IGNORE_RANGE_CHECK rt) =? 0
             then exists p, ps = [p] /\ no_resume p
             else ps = []))
    /\ (forall info s info' s',
        GenInlinedStringCompareTo rt cu info s = Ok (true, info') s' ->
        exists p, registered s s' [p] /\ no_resume p).
Proof.
  intros rt cu. repeat split.
  - apply Compile_unfolded.
  - apply GenInlinedIndexOf_registers.
  - apply GenInlinedCharAt_registers.
  - intros info s [b info'] s'. apply GenInlinedStringCompareTo_registers.
  - apply GenInlinedIndexOf_registers_one.
  - apply GenInlinedCharAt_registers_one.
  - apply GenInlinedStringCompareTo_registers_one.
Qed.

(** The inlined [charAt] registers a launchpad without resume label. *)
Example charAt_registers_launchpad :
  exists info' s',
    GenInlinedCharAt Sample.rt (Sample.cu kThumb2) SampleCalls.charAt Sample.s0
    = Ok (true, info') s'
    /\ slow_paths_ s' = [SampleCalls.charAt_launchpad].
Proof. eexists _, _. split; vm_compute; reflexivity. Qed.

(** C7, as stated, fails: the launchpad of the inlined [charAt] ends with
    the re-issued invocation, not with a jump back. *)
Lemma charAt_launchpad_does_not_resume :
  ~ every_launchpad_resumes Sample.rt.
Proof.
  intros H.
  assert (E : exists info s',
             IntrinsicLaunchpadPath_Compile Sample.rt (Sample.cu kThumb2)
               SampleCalls.charAt_launchpad Sample.s0 = Ok info s'
             /\ last (lir s') FlushAllRegs = ClobberCallerSave).
  { eexists _, _. split; vm_compute; reflexivity. }
  destruct E as (info & s' & E & Hlast).
  destruct (H _ _ _ _ _ E) as (resume & Hr).
  rewrite Hlast in Hr. discriminate.
Qed.

Lemma launchpad_resets_reinvokes_and_resumes_if_asked_witness :
  exists info' s' p,
    GenInlinedIndexOf Sample.rt (Sample.cu kThumb2) SampleCalls.indexOf true Sample.s0
    = Ok (true, info') s'
    /\ registered Sample.s0 s' [p] /\ resumes_after_call s' p.
Proof.
  destruct (launchpad_resets_reinvokes_and_resumes_if_asked Sample.rt (Sample.cu kThumb2))
    as (_ & _ & _ & _ & Hidx & _).
  destruct (GenInlinedIndexOf Sample.rt (Sample.cu kThumb2) SampleCalls.indexOf true
              Sample.s0) as [[[|] info'] s'|f] eqn:E.
  - destruct (Hidx _ _ _ _ _ E) as (rl_char & Hc & Hreg).
    inversion Hc; subst rl_char. cbn [is_const Sample.in_frame] in Hreg.
    destruct Hreg as (p & Hreg & Hres).
    exists info', s', p. split; [reflexivity|]. split; assumption.
  - vm_compute in E. discriminate.
  - vm_compute in E. discriminate.
Defined.


(** * Further properties *)

(** ** The runtime helper calls *)

Ltac unfold_helpers :=
  unfold CallRuntimeHelperImm, CallRuntimeHelperReg, CallRuntimeHelperRegLocation,
    CallRuntimeHelperImmImm, CallRuntimeHelperImmRegLocation,
    CallRuntimeHelperRegLocationImm, CallRuntimeHelperImmReg, CallRuntimeHelperRegImm,
    CallRuntimeHelperImmMethod, CallRuntimeHelperRegMethod,
    CallRuntimeHelperRegMethodRegLocation, CallRuntimeHelperRegLocationRegLocation,
    CallRuntimeHelperRegReg, CallRuntimeHelperRegRegImm,
    CallRuntimeHelperImmMethodRegLocation, CallRuntimeHelperImmMethodImm,
    CallRuntimeHelperImmRegLocationRegLocation,
    CallRuntimeHelperRegLocationRegLocationRegLocation,
    CallHelperSetup, CallHelper, DCHECK.

Ltac arg_reg :=
  first [ eexists; split; [|reflexivity]; simpl; tauto
        | eexists _, _; split; [|split; reflexivity]; simpl; tauto ].

(** X1.  Every runtime helper call of the family follows one protocol.  On
    every target but x86 the helper's address is loaded first; then every
    argument of the call is loaded into its argument register: a constant
    with a constant load, a register with a register copy (left out by the
    two routines that take a register and the method when the register is
    kArg0 already), a location with a direct load, the current method into
    kArg1.  The first argument goes to kArg0, the second to kArg1 and the
    third to kArg2; a wide location takes two neighbouring registers, and
    the location after a wide one the next two.  Then the caller-save
    registers are clobbered and the call is made: through the register the
    address was loaded into, which is freed right after, or on x86 through
    thread memory.  The call is marked as a safepoint exactly when the
    caller asked for it, and the mark names the call instruction. *)
Theorem helper_call_protocol :
  forall rt cu helper_offset h safepoint_pc s s',
    helper_fn rt cu helper_offset h safepoint_pc s = Ok tt s' ->
    let before_call :=
      helper_setup cu helper_offset ++ helper_loads cu h ++ [ClobberCallerSave] in
    Forall (helper_arg_load cu) (helper_loads cu h)
    /\ logged s s'
         (before_call ++ helper_call cu helper_offset s
          ++ if safepoint_pc
             then [MarkSafepointPC (length (lir s ++ before_call))]
             else []).
Proof.
  intros rt cu helper_offset h safepoint_pc s s' H.
  unfold helper_setup, helper_call, helper_loads, logged.
  destruct h; simpl in H; revert H; unfold_helpers;
    destruct (is_isa cu kX86), safepoint_pc; intros H; mcases;
    try discriminate; inversion H; subst; clear H;
    cbn [lir slow_paths_ negb app];
    (split;
     [repeat constructor; cbn [helper_arg_load]; arg_reg
     |cbv zeta; rewrite <- ?app_assoc; cbn [app]; reflexivity]).
Qed.

Lemma helper_call_protocol_witness :
  Forall (helper_arg_load (Sample.cu kThumb2))
    [OpRegCopy 0 5; OpRegCopy 1 6; LoadConstant 2 64]
  /\ logged Sample.s0
       (appended Sample.s0
          [LoadHelper 380; OpRegCopy 0 5; OpRegCopy 1 6; LoadConstant 2 64;
           ClobberCallerSave; OpReg kOpBlx 14; FreeTemp 14; MarkSafepointPC 5%nat])
       ([LoadHelper 380; OpRegCopy 0 5; OpRegCopy 1 6; LoadConstant 2 64;
         ClobberCallerSave; OpReg kOpBlx 14; FreeTemp 14; MarkSafepointPC 5%nat]).
Proof.
  apply (helper_call_protocol Sample.rt (Sample.cu kThumb2) 380 SampleHelpers.memcpy true
           Sample.s0).
  reflexivity.
Defined.

(** X2.  A runtime helper call never reads out of bounds and cannot fail in
    a release build.  A debug build aborts it exactly when an argument breaks
    a check of the source: a register argument that the copies into the
    argument registers would clobber, or a wide location where a narrow one
    is expected.  The third location of the three-location call is not
    checked: the source checks the second one twice. *)
Theorem helper_call_fails_only_on_debug_check :
  forall rt cu helper_offset h safepoint_pc s,
    if kIsDebugBuild rt && negb (helper_checks cu h)
    then helper_fn rt cu helper_offset h safepoint_pc s = Stop CheckFailed
    else exists s', helper_fn rt cu helper_offset h safepoint_pc s = Ok tt s'.
Proof.
  intros rt cu helper_offset h safepoint_pc s.
  destruct h; cbn [helper_fn helper_checks]; unfold_helpers;
    destruct (kIsDebugBuild rt); cbn [andb negb];
    repeat match goal with
           | |- context [wide ?a] => destruct (wide a); cbn [andb negb]
           | |- context [?x =? ?y] => destruct (x =? y); cbn [andb negb]
           end;
    destruct (is_isa cu kX86), safepoint_pc; mcases;
    first [reflexivity | eexists; reflexivity].
Qed.

(** ** The dispatch sequences *)

Ltac seq_done Hb :=
  simpl in Hb; try discriminate Hb;
  repeat match type of Hb with
         | context [?a <=? ?b] => destruct (Z.leb_spec a b)
         | context [?a <? ?b] => destruct (Z.ltb_spec a b)
         end;
  simpl in Hb; try discriminate Hb;
  first [ reflexivity | lia | assumption
        | split; first [reflexivity | assumption | discriminate | lia] ].

(** X3.  Every dispatch routine is a counter over a sequence of fixed
    length: within the sequence it answers the next state, and outside it
    (also at a negative state) it answers the terminal sentinel, logs
    nothing and cannot fail.  The sequence has one step for an unresolved
    call and for a static or direct call whose code and method are known,
    four steps for another static or direct call, five for a virtual and six
    for an interface call, and one step fewer for these three on x86, which
    needs no load of the entry point.  A step inside the sequence fails
    only on a check or on a missing receiver. *)
Theorem dispatch_sequence_length :
  forall rt r cu info state tm idx dc dm ty s,
    match routine_fn rt r cu info state tm idx dc dm ty s with
    | Ok a s' =>
        if in_sequence r cu dc dm state then a = state + 1
        else a = -1 /\ s' = s
    | Stop f => in_sequence r cu dc dm state = true /\ f <> OutOfFuel
    end.
Proof.
  intros rt r cu info state tm idx dc dm ty s.
  remember (in_sequence r cu dc dm state) as b eqn:Hb.
  unfold in_sequence, sequence_length in Hb.
  destruct r; cbn [routine_fn]; unfold_routines; unfold arg_at;
    repeat match goal with
           | |- context [state =? ?n] => destruct (Z.eqb_spec state n); [subst state|]
           end;
    destruct (is_isa cu kX86); mcases; seq_done Hb.
Qed.

Lemma routine_dispatch_step_op rt r cu info state tm idx dc dm ty :
  emits_only (dispatch_step_op r cu) (routine_fn rt r cu info state tm idx dc dm ty).
Proof.
  destruct r; cbn [routine_fn]; unfold_routines; emits;
    unfold dispatch_step_op; cbn [written_reg dispatch_regs];
    first [ reflexivity | exact I | eexists; split; [|reflexivity]; simpl; tauto ].
Qed.

(** X4.  The steps of a dispatch routine write only the registers of the
    call sequence: the target method into kArg0 and its code into
    kInvokeTgt; the virtual and the interface sequence also load the
    receiver into kArg1 and null-check it there, and the interface sequence
    sets the hidden argument registers.  No step writes kArg2 or kArg3, and
    no step of a static, direct or unresolved call writes kArg1; no step
    stores, branches or calls.  This is what lets the steps be interleaved
    with the loads of the arguments. *)
Theorem dispatch_steps_write_own_registers :
  forall rt r cu info state tm idx dc dm ty,
    emits_only (dispatch_step_op r cu) (routine_fn rt r cu info state tm idx dc dm ty).
Proof. intros. apply routine_dispatch_step_op. Qed.

(** ** Invariants of loops *)

Lemma emits_only_bind_val {A B} P (R : A -> Prop) (m : M A) (k : A -> M B) :
  returns R m -> emits_only P m -> (forall a, R a -> emits_only P (k a)) ->
  emits_only P (bind m k).
Proof.
  intros HR Hm Hk s b s' H. apply bind_Ok_inv in H. destruct H as (a & s1 & H1 & H2).
  destruct (Hm _ _ _ H1) as (l1 & Hl1 & Hp1).
  destruct (Hk a (HR _ _ _ H1) _ _ _ H2) as (l2 & Hl2 & Hp2).
  exists (l1 ++ l2). split; [eapply logged_trans; eassumption | now apply Forall_app].
Qed.

(** A loop logs only what its body logs while the invariant holds. *)
Lemma emits_only_while_inv {X} P (Inv : X -> Prop) fuel cond (body : X -> M X) :
  (forall x, Inv x -> cond x = true -> emits_only P (body x) /\ returns Inv (body x)) ->
  forall x, Inv x -> emits_only P (while_ fuel cond body x).
Proof.
  intros Hb. induction fuel as [|n IH]; intros x Hx; simpl.
  - destruct (cond x); [apply emits_only_stop | apply emits_only_ret].
  - destruct (cond x) eqn:E; [|apply emits_only_ret].
    destruct (Hb x Hx E) as [He Hr].
    apply emits_only_bind_val with (R := Inv); [assumption | assumption |].
    intros x' Hx'. now apply IH.
Qed.

Lemma returns_arg_at info i :
  returns (fun rl => 0 <= i /\ nth_error (args info) (Z.to_nat i) = Some rl)
    (arg_at info i).
Proof.
  unfold arg_at. intros s a s'. destruct (Z.ltb_spec i 0) as [Hlt|Hge]; [discriminate|].
  destruct (nth_error _ _) eqn:E; [|discriminate].
  intros Hr. inversion Hr; subst. split; [lia | reflexivity].
Qed.

Lemma returns_ask {A} (f : list Op -> A) :
  returns (fun a => exists l, a = f l) (ask f).
Proof. intros s a s' H. exists (lir s). now inversion H. Qed.

Lemma returns_weaken {A} (R R' : A -> Prop) (m : M A) :
  (forall a, R a -> R' a) -> returns R m -> returns R' m.
Proof. intros HR Hm s a s' H. apply HR. eapply Hm; eassumption. Qed.

(** ** The argument registers *)

Section LoadArgRegsRange.

Variable cu : CompilationUnit.
Variable info : CallInfo.
Variable next : NextCallInsn.
Variables (tm : MethodReference) (idx dc dm : Z) (ty : InvokeType).
Variable P : Op -> Prop.
Hypothesis Hnext : forall st, emits_only P (next cu info st tm idx dc dm ty).

Lemma LoadArgRegs_body_loads lo_reg lo_arg next_reg next_arg call_state :
  lo_reg <= next_reg -> lo_arg <= next_arg ->
  (next_reg <=? TargetReg (cg cu) kArg3) && (next_arg <? num_arg_words info) = true ->
  emits_only (fun o => P o \/ loads_arg_from cu info lo_reg lo_arg o)
    (LoadArgRegs_body cu info next tm idx dc dm ty (next_reg, next_arg, call_state))
  /\ returns (fun x : Z * Z * Z => lo_reg <= fst (fst x) /\ lo_arg <= snd (fst x))
       (LoadArgRegs_body cu info next tm idx dc dm ty (next_reg, next_arg, call_state)).
Proof.
  intros Hr Ha Hc. apply andb_prop in Hc. destruct Hc as [Hc1 Hc2].
  apply Z.leb_le in Hc1. apply Z.ltb_lt in Hc2.
  unfold LoadArgRegs_body. split.
  - apply emits_only_bind_val with (1 := returns_arg_at info next_arg);
      [apply emits_only_arg_at|].
    intros a [Hn Hnth].
    apply emits_only_bind_val with (1 := returns_ask _); [apply emits_only_ask|].
    intros rl [l ->].
    assert (Hfrom : forall rl',
               rl' = UpdateRawLoc (cg cu) l a
               \/ rl' = set_is_const false (set_wide false (UpdateRawLoc (cg cu) l a)) ->
               from_arg cu info lo_arg rl').
    { intros rl' Hrl. exists next_arg, l, a. repeat split; try assumption; lia. }
    apply emits_only_bind.
    + destruct (wide (UpdateRawLoc (cg cu) l a) && (next_reg <=? TargetReg (cg cu) kArg2))
        eqn:E.
      * apply andb_prop in E. destruct E as [_ E]. apply Z.leb_le in E.
        emits. right. cbn [loads_arg_from]. repeat split; try lia. apply Hfrom. now left.
      * emits. right. cbn [loads_arg_from]. repeat split; try lia. apply Hfrom.
        destruct (wide (UpdateRawLoc (cg cu) l a)); [now right | now left].
    + intros [nr na]. apply emits_only_bind.
      * eapply emits_only_weaken; [|apply Hnext]. intros o Ho. now left.
      * intros. apply emits_only_ret.
  - apply returns_bind_any; intros a. apply returns_bind_any; intros rl.
    apply returns_bind with (R1 := fun p : Z * Z => next_reg <= fst p /\ next_arg <= snd p).
    + rets; cbn [fst snd]; lia.
    + intros [nr na] [H1 H2]. cbn [fst snd] in H1, H2. rets. cbn [fst snd]. lia.
Qed.

Lemma LoadArgRegs_loads call_state (skip_this : bool) :
  emits_only
    (fun o => P o
              \/ loads_arg_from cu info
                   (TargetReg (cg cu) kArg1 + (if skip_this then 1 else 0))
                   (if skip_this then 1 else 0) o)
    (LoadArgRegs cu info call_state next tm idx dc dm ty skip_this).
Proof.
  unfold LoadArgRegs. destruct skip_this;
    (apply emits_only_bind; [|intros [[? ?] ?]; apply emits_only_ret];
     match goal with
     | |- emits_only (fun o => _ \/ loads_arg_from _ _ ?lo_reg ?lo_arg o) _ =>
         apply emits_only_while_inv
           with (Inv := fun x : Z * Z * Z => lo_reg <= fst (fst x) /\ lo_arg <= snd (fst x))
     end;
     [ intros [[nr na] cs] [H1 H2] Hc; cbn [fst snd] in H1, H2;
       now apply LoadArgRegs_body_loads
     | cbn [fst snd]; lia ]).
Qed.

End LoadArgRegsRange.

(** X5.  Whatever the dispatch routine logs, [LoadArgRegs] adds to it only
    loads of argument words into the argument registers kArg1 to kArg3, a
    wide one into a pair that starts at kArg2 at the latest.  When it is
    asked to skip the receiver, it loads neither argument word 0 nor the
    register kArg1: both are left to the dispatch routine. *)
Theorem LoadArgRegs_leaves_receiver_to_dispatch :
  forall cu info call_state (next : NextCallInsn) tm idx dc dm ty (skip_this : bool)
         (P : Op -> Prop),
    (forall st, emits_only P (next cu info st tm idx dc dm ty)) ->
    emits_only
      (fun o => P o
                \/ loads_arg_from cu info
                     (TargetReg (cg cu) kArg1 + (if skip_this then 1 else 0))
                     (if skip_this then 1 else 0) o)
      (LoadArgRegs cu info call_state next tm idx dc dm ty skip_this).
Proof. intros. now apply LoadArgRegs_loads. Qed.

Lemma LoadArgRegs_leaves_receiver_to_dispatch_witness :
  emits_only
    (fun o => dispatch_step_op VCallInsn (Sample.cu kThumb2) o
              \/ loads_arg_from (Sample.cu kThumb2) SampleCalls.charAt 2 1 o)
    (LoadArgRegs (Sample.cu kThumb2) SampleCalls.charAt 0 (routine_fn Sample.rt VCallInsn)
       Sample.target 6 0 0 kVirtual true).
Proof.
  apply (LoadArgRegs_leaves_receiver_to_dispatch (Sample.cu kThumb2) SampleCalls.charAt 0
           (routine_fn Sample.rt VCallInsn) Sample.target 6 0 0 kVirtual true
           (dispatch_step_op VCallInsn (Sample.cu kThumb2))).
  intros st. apply routine_dispatch_step_op.
Defined.

(** A virtual call of two words on Thumb2: the receiver reaches r1 through
    the dispatch sequence, the argument r2 through the argument loop. *)
Example LoadArgRegs_skips_receiver :
  LoadArgRegs (Sample.cu kThumb2) SampleCalls.charAt 0 (routine_fn Sample.rt VCallInsn)
    Sample.target 6 0 0 kVirtual true Sample.s0
  = Ok 1 (appended Sample.s0
            [ LoadValueDirectFixed (Sample.in_frame 5 false false false) 2;
              LoadValueDirectFixed (Sample.in_frame 4 false false false) 1 ]).
Proof. reflexivity. Qed.

(** ** The stores of the non-range path *)

Section OutsStores.

Variable rt : Runtime.
Variable cu : CompilationUnit.
Variable info : CallInfo.

Ltac not_a_store := try (cbn [outs_store]; exact I).

Lemma routine_outs_store r state tm idx dc dm ty :
  emits_only (outs_store cu info) (routine_fn rt r cu info state tm idx dc dm ty).
Proof. destruct r; cbn [routine_fn]; unfold_routines; emits; exact I. Qed.

Lemma LoadArgRegs_outs_store r call_state tm idx dc dm ty skip_this :
  emits_only (outs_store cu info)
    (LoadArgRegs cu info call_state (routine_fn rt r) tm idx dc dm ty skip_this).
Proof.
  unfold LoadArgRegs. destruct skip_this;
    (apply emits_only_bind;
     [apply emits_only_while; intros [[? ?] ?]; unfold LoadArgRegs_body;
      emits; not_a_store; apply routine_outs_store
     | intros [[? ?] ?]; apply emits_only_ret]).
Qed.

Lemma GenDalvikArgsNoRange_outs_store r call_state pcr tm idx dc dm ty skip_this :
  emits_only (outs_store cu info)
    (GenDalvikArgsNoRange rt cu info call_state pcr (routine_fn rt r) tm idx dc dm ty
       skip_this).
Proof.
  unfold GenDalvikArgsNoRange.
  destruct (num_arg_words info =? 0); [apply emits_only_ret|].
  apply emits_only_bind; [apply routine_outs_store | intros cs1].
  apply emits_only_bind; [apply emits_only_DCHECK | intros _].
  apply emits_only_bind;
    [|intros cs2; emits; not_a_store; apply LoadArgRegs_outs_store].
  destruct (Z.gtb_spec (num_arg_words info) 3) as [Hn|Hn]; [|apply emits_only_ret].
  apply emits_only_bind; [apply emits_only_arg_at | intros rl_use0].
  apply emits_only_bind; [apply emits_only_arg_at | intros rl_use1].
  apply emits_only_bind; [apply emits_only_arg_at | intros rl_use2].
  apply emits_only_bind_val with (R := fun p : Z * Z => 3 <= fst p).
  - rets; simpl; lia.
  - emits; not_a_store; try apply routine_outs_store;
      (split; [reflexivity | exists 3; lia]).
  - intros [next_use cs] Hge. cbn [fst] in Hge.
    apply emits_only_bind; [|intros [? ?]; apply emits_only_ret].
    apply emits_only_while_inv with (Inv := fun x : Z * Z => 3 <= fst x);
      [|exact Hge].
    intros [nu c] Hinv Hc. cbn [fst] in Hinv. apply Z.ltb_lt in Hc. split.
    + emits; not_a_store; try apply routine_outs_store;
        (split; [reflexivity | exists nu; lia]).
    + apply returns_bind_any; intros ?. apply returns_bind_any; intros ?.
      apply returns_bind_any; intros [[? ?] ?].
      apply returns_bind with (R1 := fun nu' => nu < nu'); [rets; lia|].
      intros nu' Hlt. rets. cbn [fst]. lia.
Qed.

End OutsStores.

(** X6.  The non-range path stores an argument word to the stack only when
    it is the fourth word or a later one, and it stores word [k] at
    [(k + 1) * 4] bytes above the stack pointer: the slot of the method at
    offset 0 and the slots of the three words that travel in registers are
    never written.  The dispatch steps interleaved with the stores store
    nothing. *)
Theorem non_range_stores_only_stack_words :
  forall rt cu info r call_state pcr tm idx dc dm ty skip_this,
    emits_only (outs_store cu info)
      (GenDalvikArgsNoRange rt cu info call_state pcr (routine_fn rt r) tm idx dc dm ty
         skip_this).
Proof. intros. apply GenDalvikArgsNoRange_outs_store. Qed.

(** Five argument words of a static call on Thumb2: words 3 and 4 are
    stored at offsets 16 and 20. *)
Example non_range_stores_words_3_and_4 :
  exists s',
    GenDalvikArgsNoRange Sample.rt (Sample.cu kThumb2) SampleArgs.call5 0 false
      (routine_fn Sample.rt SDCallInsn) Sample.target 0 0 0 kStatic false Sample.s0
    = Ok (-1) s'
    /\ filter (fun o => match o with StoreWordDisp _ _ _ => true | _ => false end) (lir s')
       = [StoreWordDisp 13 16 2; StoreWordDisp 13 20 2].
Proof. eexists. split; reflexivity. Qed.

(** ** Events of a log *)





Lemma flat_map_quiet {E} (f : Op -> list E) ops :
  Forall (fun o => f o = []) ops -> flat_map f ops = [].
Proof. induction 1 as [|o ops Ho _ IH]; [reflexivity|]. simpl. now rewrite Ho, IH. Qed.



(** ** The copy of the stack-passed words on the other targets *)

Section RangeCopy.

Variable rt : Runtime.
Variable cu : CompilationUnit.
Variable info : CallInfo.

Lemma routine_no_copy_event r state tm idx dc dm ty :
  emits_only no_copy_event (routine_fn rt r cu info state tm idx dc dm ty).
Proof. destruct r; cbn [routine_fn]; unfold_routines; emits; reflexivity. Qed.

Lemma LoadArgRegs_no_copy_event r call_state tm idx dc dm ty skip_this :
  emits_only no_copy_event
    (LoadArgRegs cu info call_state (routine_fn rt r) tm idx dc dm ty skip_this).
Proof.
  eapply emits_only_weaken;
    [|apply LoadArgRegs_loads with (P := no_copy_event);
      intros; apply routine_no_copy_event].
  intros o [Ho|Ho]; [assumption|]. destruct o; try contradiction; reflexivity.
Qed.

Lemma range_scan_no_copy_event fuel next_arg :
  emits_only no_copy_event
    (while_ fuel (fun next_arg => next_arg <? num_arg_words info)
       (fun next_arg =>
          loc <- arg_at info next_arg ;;
          if wide loc then
            loc <- ask (fun l => UpdateLocWide (cg cu) l loc) ;;
            when ((next_arg >=? 2) && is_phys (location loc))
              (emit_ (StoreBaseDispWide (TargetReg (cg cu) kSp)
                        (SRegOffset (cg cu) (s_reg_low loc))
                        (GetReg (reg loc)) (GetHighReg (reg loc)))) ;;
            ret (next_arg + 2)
          else
            loc <- ask (fun l => UpdateLoc (cg cu) l loc) ;;
            when ((next_arg >=? 3) && is_phys (location loc))
              (emit_ (StoreBaseDisp (TargetReg (cg cu) kSp)
                        (SRegOffset (cg cu) (s_reg_low loc))
                        (GetReg (reg loc)) kWord)) ;;
            ret (next_arg + 1))
       next_arg).
Proof. apply emits_only_while. intros ?. emits; reflexivity. Qed.



End RangeCopy.



(** The range path of seven words on Thumb2 runs to the end. *)
Example thumb2_range_copy_runs :
  exists s',
    GenDalvikArgsRange Sample.rt (Sample.cu kThumb2) SampleArgs.call7 0 false
      (routine_fn Sample.rt SDCallInsn) Sample.target 0 0 0 kStatic false Sample.s0
    = Ok (-1) s'
    /\ flat_map copy_event (lir s') = [OpVldm 3 4; OpVstm 3 4].
Proof. eexists. split; vm_compute; reflexivity. Qed.

Lemma GenDalvikArgsRange_memcpy rt cu info r call_state pcr tm idx dc dm ty skip_this a3
    s call_state' s' :
  instruction_set cu <> kX86 ->
  instruction_set cu <> kThumb2 \/ 19 < num_arg_words info ->
  5 < num_arg_words info ->
  nth_error (args info) 3 = Some a3 ->
  GenDalvikArgsRange rt cu info call_state pcr (routine_fn rt r) tm idx dc dm ty
    skip_this s = Ok call_state' s' ->
  exists pre post r_tgt,
    logged s s'
      (pre ++ memcpy_call rt cu info (SRegOffset (cg cu) (s_reg_low a3)) r_tgt ++ post)
    /\ Forall no_copy_event pre /\ Forall no_copy_event post.
Proof.
  intros Hx86 Hsel Hn Ha3. unfold GenDalvikArgsRange.
  rewrite (proj2 (Z.leb_gt _ _) Hn), (is_isa_false _ _ Hx86).
  assert (Ht : is_isa cu kThumb2 && (num_arg_words info - 3 <=? 16) = false).
  { destruct Hsel as [Ht|Hbig].
    - now rewrite (is_isa_false _ _ Ht).
    - rewrite (proj2 (Z.leb_gt _ _)) by lia. apply andb_false_r. }
  rewrite Ht. rewrite (arg_at_some info 3 a3) by (try lia; exact Ha3).
  intros H.
  apply bind_Ok_inv in H. destruct H as (n1 & s1 & H1 & H).
  apply bind_Ok_inv in H. destruct H as (u2 & s2 & H2 & H).
  apply bind_Ok_inv in H. destruct H as (args3 & s3 & H3 & H).
  inversion H3; subst args3 s3; clear H3.
  apply bind_Ok_inv in H. destruct H as (u4 & s4 & H4 & H).
  apply bind_Ok_inv in H. destruct H as (cs5 & s5 & H5 & H).
  apply bind_Ok_inv in H. destruct H as (cs6 & s6 & H6 & H).
  apply bind_Ok_inv in H. destruct H as (cs7 & s7 & H7 & H).
  apply bind_Ok_inv in H. destruct H as (u8 & s8 & H8 & H).
  inversion H; subst; clear H.
  assert (L1 : exists ops, logged s s1 ops /\ Forall no_copy_event ops).
  { revert H1. apply range_scan_no_copy_event. }
  assert (L2 : exists ops, logged s1 s2 ops /\ Forall no_copy_event ops).
  { revert H2. apply emits_only_DCHECK. }
  assert (L4 : exists ops, logged s2 s4 ops /\ Forall no_copy_event ops).
  { revert H4. apply emits_only_DCHECK. }
  assert (L5 : exists r_tgt,
             logged s4 s5
               (memcpy_call rt cu info (SRegOffset (cg cu) (s_reg_low a3)) r_tgt)).
  { revert H5.
    unfold CallRuntimeHelperRegRegImm, CallHelperSetup, CallHelper, DCHECK, memcpy_call.
    rewrite (is_isa_false _ _ Hx86). intros H5. mcases; try discriminate;
      inversion H5; subst; clear H5;
      (eexists; unfold logged; cbn [lir]; rewrite <- ?app_assoc; reflexivity). }
  assert (L6 : exists ops, logged s5 s6 ops /\ Forall no_copy_event ops).
  { revert H6. apply LoadArgRegs_no_copy_event. }
  assert (L7 : exists ops, logged s6 s7 ops /\ Forall no_copy_event ops).
  { revert H7. apply routine_no_copy_event. }
  assert (L8 : exists ops, logged s7 s' ops /\ Forall no_copy_event ops).
  { revert H8. apply emits_only_when. intros _. apply emits_only_emit_. reflexivity. }
  destruct L1 as (o1 & Hl1 & Hq1). destruct L2 as (o2 & Hl2 & Hq2).
  destruct L4 as (o4 & Hl4 & Hq4). destruct L5 as (r_tgt & Hl5).
  destruct L6 as (o6 & Hl6 & Hq6). destruct L7 as (o7 & Hl7 & Hq7).
  destruct L8 as (o8 & Hl8 & Hq8).
  exists (o1 ++ o2 ++ o4), (o6 ++ o7 ++ o8), r_tgt. split; [|split].
  - unfold logged in *. rewrite Hl8, Hl7, Hl6, Hl5, Hl4, Hl2, Hl1.
    now rewrite <- !app_assoc.
  - repeat (apply Forall_app; split); assumption.
  - repeat (apply Forall_app; split); assumption.
Qed.

(** X8.  On every target other than x86, the range path copies the
    stack-passed words with a call of the memcpy helper whenever the block
    copy is not chosen, that is on a target other than Thumb2 whatever the
    number of words, and on Thumb2 from 20 argument words on.  The helper
    gets the outgoing area (16 bytes above the stack pointer) in kArg0, the
    home of argument word 3 in kArg1 and four bytes per stack-passed word
    in kArg2.  Its call is not marked as a safepoint, and nothing else the
    range path logs is a call, a block copy or a safepoint mark. *)
Theorem range_copy_falls_back_to_memcpy :
  forall rt cu info r call_state pcr tm idx dc dm ty skip_this a3 s call_state' s',
    instruction_set cu <> kX86 ->
    instruction_set cu <> kThumb2 \/ 19 < num_arg_words info ->
    5 < num_arg_words info ->
    nth_error (args info) 3 = Some a3 ->
    GenDalvikArgsRange rt cu info call_state pcr (routine_fn rt r) tm idx dc dm ty
      skip_this s = Ok call_state' s' ->
    exists pre post r_tgt,
      logged s s'
        (pre ++ memcpy_call rt cu info (SRegOffset (cg cu) (s_reg_low a3)) r_tgt ++ post)
      /\ Forall no_copy_event pre /\ Forall no_copy_event post.
Proof. intros. eapply GenDalvikArgsRange_memcpy; eassumption. Qed.

Lemma range_copy_falls_back_to_memcpy_witness :
  exists call_state' s' pre post r_tgt,
    GenDalvikArgsRange Sample.rt (Sample.cu kArm) SampleArgs.call7 0 false
      (routine_fn Sample.rt SDCallInsn) Sample.target 0 0 0 kStatic false Sample.s0
    = Ok call_state' s'
    /\ logged Sample.s0 s'
         (pre ++ memcpy_call Sample.rt (Sample.cu kArm) SampleArgs.call7 76 r_tgt ++ post)
    /\ Forall no_copy_event pre /\ Forall no_copy_event post.
Proof.
  destruct (GenDalvikArgsRange Sample.rt (Sample.cu kArm) SampleArgs.call7 0 false
              (routine_fn Sample.rt SDCallInsn) Sample.target 0 0 0 kStatic false
              Sample.s0) as [cs' s'|f] eqn:E.
  - destruct (range_copy_falls_back_to_memcpy Sample.rt (Sample.cu kArm) SampleArgs.call7
                SDCallInsn 0 false Sample.target 0 0 0 kStatic false (SampleArgs.word 3)
                Sample.s0 cs' s') as (pre & post & r_tgt & H);
      [discriminate | left; discriminate | simpl; lia | reflexivity | exact E |].
    exists cs', s', pre, post, r_tgt. split; [reflexivity | exact H].
  - vm_compute in E. discriminate.
Defined.

(** ** Invariants through a computation *)

Lemma hoare_ret {A} (P : CgState -> Prop) (a : A) (Q : A -> CgState -> Prop) :
  (forall s, P s -> Q a s) -> hoare P (ret a) Q.
Proof. intros H s x s' Hp Hr. inversion Hr; subst. now apply H. Qed.

Lemma hoare_bind {A B} (P : CgState -> Prop) (m : M A) (k : A -> M B)
    (Q : A -> CgState -> Prop) (R : B -> CgState -> Prop) :
  hoare P m Q -> (forall a, hoare (Q a) (k a) R) -> hoare P (bind m k) R.
Proof.
  intros Hm Hk s b s' Hp H. apply bind_Ok_inv in H. destruct H as (a & s1 & H1 & H2).
  eapply Hk; [eapply Hm|]; eassumption.
Qed.

Lemma hoare_weaken {A} (P : CgState -> Prop) (m : M A) (Q Q' : A -> CgState -> Prop) :
  hoare P m Q -> (forall a s, Q a s -> Q' a s) -> hoare P m Q'.
Proof. intros Hm HQ s a s' Hp H. apply HQ. eapply Hm; eassumption. Qed.

Lemma hoare_while {X} (Inv : X -> CgState -> Prop) cond (body : X -> M X) :
  (forall x, cond x = true -> hoare (Inv x) (body x) Inv) ->
  forall fuel x,
    hoare (Inv x) (while_ fuel cond body x) (fun x' s => Inv x' s /\ cond x' = false).
Proof.
  intros Hb. induction fuel as [|n IH]; intros x; simpl.
  - destruct (cond x) eqn:E; [intros s a s' _ H; discriminate|].
    apply hoare_ret. auto.
  - destruct (cond x) eqn:E; [|apply hoare_ret; auto].
    eapply hoare_bind; [apply Hb; assumption | intros x'; apply IH].
Qed.

(** A loop that threads the state of the call sequence through as the last
    of its variables. *)
Lemma hoare_while_snd {X} (Inv : Z -> CgState -> Prop) cond
    (body : X * Z -> M (X * Z)) :
  (forall x, hoare (Inv (snd x)) (body x) (fun x' => Inv (snd x'))) ->
  forall fuel x c,
    hoare (Inv c) (while_ fuel cond body (x, c)) (fun x' => Inv (snd x')).
Proof.
  intros Hb fuel x c.
  eapply hoare_weaken;
    [apply (hoare_while (fun x' => Inv (snd x')) cond body (fun x' _ => Hb x') fuel (x, c))|].
  cbn beta. intros ? ? [? _]. assumption.
Qed.

(** ** The sequence of a call runs through all its steps *)

Section CallProgress.

Variable rt : Runtime.
Variable cu : CompilationUnit.
Variable info : CallInfo.
Variable r : DispatchRoutine.
Variables (tm : MethodReference) (idx dc dm : Z) (ty : InvokeType).
Variable tgt : Op -> Prop.
Variable k : Z.
Variable s0 : CgState.

(** The routine does not leave the sequence before step [k], and logs one
    of the calls [tgt] at step [k]. *)
Hypothesis Hstep : forall st s a s',
  routine_fn rt r cu info st tm idx dc dm ty s = Ok a s' ->
  exists ops, logged s s' ops
              /\ (st = k -> Exists tgt ops) /\ (0 <= st < k -> a = st + 1).

Lemma progress_frame {A} (m : M A) st :
  emits_only (fun _ => True) m -> hoare ((call_progress tgt k s0) st) m (fun _ => (call_progress tgt k s0) st).
Proof.
  intros Hm s a s' (ops & Hl & Hp) H. destruct (Hm _ _ _ H) as (ops' & Hl' & _).
  exists (ops ++ ops'). split; [eapply logged_trans; eassumption|].
  destruct Hp as [Hp|Hp]; [now left | right]. apply Exists_app. now left.
Qed.

Lemma progress_step st :
  hoare ((call_progress tgt k s0) st) (routine_fn rt r cu info st tm idx dc dm ty) (call_progress tgt k s0).
Proof.
  intros s a s' (ops & Hl & Hp) H. destruct (Hstep _ _ _ _ H) as (ops' & Hl' & Hk & Hlt).
  exists (ops ++ ops'). split; [eapply logged_trans; eassumption|].
  destruct Hp as [Hp|Hp].
  - destruct (Z.eq_dec st k) as [->|Hne].
    + right. apply Exists_app. right. now apply Hk.
    + left. rewrite Hlt by lia. lia.
  - right. apply Exists_app. now left.
Qed.

Ltac frame_step :=
  eapply hoare_bind; [apply progress_frame; emits; exact I | intros ?; cbv beta].

Ltac next_step :=
  eapply hoare_bind; [apply progress_step | intros ?].

Ltac done_step := apply hoare_ret; cbn [fst snd]; auto.

Lemma LoadArgRegs_progress call_state skip_this :
  hoare ((call_progress tgt k s0) call_state)
    (LoadArgRegs cu info call_state (routine_fn rt r) tm idx dc dm ty skip_this) (call_progress tgt k s0).
Proof.
  unfold LoadArgRegs. destruct skip_this;
    (apply hoare_bind with (Q := fun x : Z * Z * Z => (call_progress tgt k s0) (snd x));
     [|intros [[? ?] ?]; done_step];
     apply hoare_while_snd;
     intros [[nr na] cs]; unfold LoadArgRegs_body; cbn [snd];
     frame_step; frame_step; frame_step;
     match goal with |- hoare _ (match ?p with _ => _ end) _ => destruct p end;
     next_step; done_step).
Qed.

Lemma GenDalvikArgsNoRange_progress call_state pcr skip_this :
  hoare ((call_progress tgt k s0) call_state)
    (GenDalvikArgsNoRange rt cu info call_state pcr (routine_fn rt r) tm idx dc dm ty
       skip_this) (call_progress tgt k s0).
Proof.
  unfold GenDalvikArgsNoRange.
  destruct (num_arg_words info =? 0); [done_step|].
  next_step. frame_step.
  apply hoare_bind with (Q := (call_progress tgt k s0));
    [|intros cs2; eapply hoare_bind; [apply LoadArgRegs_progress | intros cs3];
      frame_step; done_step].
  destruct (num_arg_words info >? 3); [|done_step].
  frame_step. frame_step. frame_step.
  apply hoare_bind with (Q := fun p : Z * Z => (call_progress tgt k s0) (snd p)).
  - match goal with |- hoare _ (if ?c then _ else _) _ => destruct c end; [|done_step].
    frame_step.
    apply hoare_bind with (Q := fun p : Z * Z => (call_progress tgt k s0) (snd p)).
    + match goal with |- hoare _ (if ?c then _ else _) _ => destruct c end; [done_step|].
      frame_step. next_step. done_step.
    + intros [reg cs']. cbn [snd]. frame_step. next_step. done_step.
  - intros [next_use cs']. cbn [snd].
    apply hoare_bind with (Q := fun p : Z * Z => (call_progress tgt k s0) (snd p));
      [|intros [? ?]; done_step].
    apply hoare_while_snd.
    intros [nu c]. cbn [snd]. frame_step. frame_step.
    apply hoare_bind with (Q := fun p : Z * Z * Z => (call_progress tgt k s0) (snd p)).
    + match goal with |- hoare _ (if ?c then _ else _) _ => destruct c end; [done_step|].
      frame_step. next_step. done_step.
    + intros [[lo hi] c']. cbn [snd]. frame_step. next_step. done_step.
Qed.

Lemma GenDalvikArgsRange_progress call_state pcr skip_this :
  hoare ((call_progress tgt k s0) call_state)
    (GenDalvikArgsRange rt cu info call_state pcr (routine_fn rt r) tm idx dc dm ty
       skip_this) (call_progress tgt k s0).
Proof.
  unfold GenDalvikArgsRange.
  destruct (num_arg_words info <=? 5); [apply GenDalvikArgsNoRange_progress|].
  eapply hoare_bind;
    [apply progress_frame, emits_only_while; intros ?; emits; exact I
    |intros ?; cbv beta].
  frame_step. frame_step. frame_step.
  apply hoare_bind with (Q := (call_progress tgt k s0));
    [|intros cs5; eapply hoare_bind; [apply LoadArgRegs_progress | intros cs6];
      next_step; frame_step; done_step].
  destruct (is_isa cu kThumb2 && _).
  - next_step. frame_step. frame_step. frame_step. frame_step. next_step.
    frame_step. next_step. frame_step. frame_step. frame_step. next_step. done_step.
  - destruct (is_isa cu kX86).
    + eapply hoare_bind;
        [apply progress_frame; unfold X86StackCopy; apply emits_only_while;
         intros [[? ?] ?]; unfold X86StackCopy_step; emits; exact I
        |intros ?; cbv beta; done_step].
    + frame_step. frame_step.
      eapply hoare_bind;
        [apply progress_frame;
         unfold CallRuntimeHelperRegRegImm, CallHelperSetup, CallHelper; emits; exact I
        |intros ?; cbv beta; done_step].
Qed.

(** When the sequence is finished, the calls [tgt] have been logged. *)
Lemma call_sequence_progress call_state pcr skip_this (is_range : bool) s cs1 s1 cs2 s2 :
  0 <= k ->
  call_progress tgt k s0 call_state s ->
  (if negb is_range
   then GenDalvikArgsNoRange rt cu info call_state pcr (routine_fn rt r) tm idx dc dm ty
          skip_this
   else GenDalvikArgsRange rt cu info call_state pcr (routine_fn rt r) tm idx dc dm ty
          skip_this) s = Ok cs1 s1 ->
  while_ kMaxCallSteps (fun call_state => call_state >=? 0)
    (fun call_state => routine_fn rt r cu info call_state tm idx dc dm ty) cs1 s1
  = Ok cs2 s2 ->
  exists ops, logged s0 s2 ops /\ Exists tgt ops.
Proof.
  intros Hk HJ Hargs Hloop.
  assert (HJ1 : (call_progress tgt k s0) cs1 s1).
  { destruct (negb is_range).
    - eapply GenDalvikArgsNoRange_progress; eassumption.
    - eapply GenDalvikArgsRange_progress; eassumption. }
  assert (HJ2 := hoare_while (call_progress tgt k s0) (fun cs => cs >=? 0)
                   (fun cs => routine_fn rt r cu info cs tm idx dc dm ty)
                   (fun x _ => progress_step x) kMaxCallSteps cs1 s1 cs2 s2 HJ1 Hloop).
  cbn beta in HJ2.
  destruct HJ2 as [(ops & Hl & Hp) Hneg]. exists ops. split; [assumption|].
  destruct Hp as [Hp|Hp]; [|assumption].
  rewrite Z.geb_leb in Hneg. apply Z.leb_gt in Hneg. lia.
Qed.

End CallProgress.

Ltac pick_in := simpl; repeat first [left; reflexivity | right].

Ltac find_load :=
  repeat first [ apply Exists_cons_hd; solve [pick_in] | apply Exists_cons_tl ].

Ltac step_cases state :=
  repeat match goal with
         | |- context [state =? ?n] => destruct (Z.eqb_spec state n); [subst state|]
         | H : context [state =? ?n] |- _ => destruct (Z.eqb_spec state n); [subst state|]
         end.

Ltac step_done :=
  eexists; split;
  [unfold logged; cbn [lir]; first [now rewrite app_nil_r | rewrite <- ?app_assoc; reflexivity]
  |split; intros; first [lia | discriminate | reflexivity | find_load]].

(** Every routine logs the load of the target method at its method step,
    and stays in the sequence before it. *)
Lemma routine_method_step rt r cu info tm idx dc dm ty st s a s' :
  routine_fn rt r cu info st tm idx dc dm ty s = Ok a s' ->
  exists ops,
    logged s s' ops
    /\ (st = method_step r dc dm ->
        Exists (fun o => In o (method_loads rt cu tm idx dm ty)) ops)
    /\ (0 <= st < method_step r dc dm -> a = st + 1).
Proof.
  unfold method_step, method_loads.
  destruct r; cbn [routine_fn]; unfold_routines; unfold arg_at; intros H;
    step_cases st; mcases; try discriminate; inversion H; subst; clear H;
    step_done.
Qed.

(** On a target other than x86 every routine logs the load of the address
    to call at its code step, and stays in the sequence before it. *)
Lemma routine_code_step rt r cu info tm idx dc dm ty st s a s' :
  instruction_set cu <> kX86 ->
  routine_fn rt r cu info st tm idx dc dm ty s = Ok a s' ->
  exists ops,
    logged s s' ops
    /\ (st = code_step r dc dm -> Exists (fun o => In o (code_loads rt cu tm dc ty)) ops)
    /\ (0 <= st < code_step r dc dm -> a = st + 1).
Proof.
  intros Hx. apply is_isa_false in Hx.
  unfold code_step, code_loads.
  destruct r; cbn [routine_fn]; unfold_routines; unfold arg_at; rewrite ?Hx; intros H;
    step_cases st; mcases; try discriminate; inversion H; subst; clear H;
    step_done.
Qed.

Lemma method_step_nonneg r dc dm : 0 <= method_step r dc dm.
Proof. unfold method_step. destruct r; try lia. destruct (_ && _); lia. Qed.

Lemma code_step_nonneg r dc dm : 0 <= code_step r dc dm.
Proof.
  unfold code_step. destruct r; try lia.
  destruct (_ && _); [lia|]. destruct (negb _); lia.
Qed.

(** ** The shape of a full invocation *)

Lemma GenInvokeNoInline_shape rt cu info s info' s' :
  GenInvokeNoInline rt cu info s = Ok info' s' ->
  let method_info := GetMethodLoweringInfo (cg cu) (mir info) in
  info' = set_type (GetSharpType method_info) info
  /\ exists seq call moved,
       logged s s'
         (invoke_prologue cu info ++ seq
          ++ [call; MarkSafepointPC (length (lir s ++ invoke_prologue cu info ++ seq));
              ClobberCallerSave]
          ++ moved)
       /\ is_invoke_call rt cu call
       /\ is_result_move cu info
            (lir s ++ invoke_prologue cu info ++ seq
             ++ [call;
                 MarkSafepointPC (length (lir s ++ invoke_prologue cu info ++ seq));
                 ClobberCallerSave])
            moved
       /\ Exists (fun o => In o (method_loads rt cu (GetTargetMethod method_info)
                                   (VTableIndex method_info) (DirectMethod method_info)
                                   (GetInvokeType method_info))) seq
       /\ (instruction_set cu <> kX86 ->
           Exists (fun o => In o (code_loads rt cu (GetTargetMethod method_info)
                                    (DirectCode method_info)
                                    (GetInvokeType method_info))) seq).
Proof.
  unfold GenInvokeNoInline. intros H. cbv zeta.
  set (method_info := GetMethodLoweringInfo (cg cu) (mir info)) in *.
  apply bind_Ok_inv in H. destruct H as (u1 & s1 & H1 & H).
  apply bind_Ok_inv in H. destruct H as (u2 & s2 & H2 & H).
  apply bind_Ok_inv in H. destruct H as (u3 & s3 & H3 & H).
  apply bind_Ok_inv in H. destruct H as (sel & s4 & H4 & H).
  destruct sel as [[p_null_ck next] skip_this].
  apply bind_Ok_inv in H. destruct H as (cs & s5 & H5 & H).
  apply bind_Ok_inv in H. destruct H as (cs' & s6 & H6 & H).
  apply bind_Ok_inv in H. destruct H as (call_inst & s7 & H7 & H).
  apply bind_Ok_inv in H. destruct H as (u8 & s8 & H8 & H).
  assert (L3 : s3 = appended s (invoke_prologue cu info)).
  { inversion H1; inversion H2; inversion H3; subst.
    unfold appended, invoke_prologue. cbn [lir slow_paths_].
    rewrite <- !app_assoc. reflexivity. }
  assert (Hsel : s4 = s3 /\ exists r, next = routine_fn rt r).
  { cbn [type set_type] in H4.
    destruct (GetSharpType method_info), (FastPath method_info);
      unfold DCHECK in H4; simpl in H4;
      try (destruct (kIsDebugBuild rt); simpl in H4);
      try discriminate; inversion H4; subst; (split; [reflexivity|]);
      first [ now exists SDCallInsn | now exists VCallInsn
            | now exists InterfaceCallInsn | now exists StaticCallInsnSP
            | now exists DirectCallInsnSP | now exists SuperCallInsnSP
            | now exists VCallInsnSP | now exists InterfaceCallInsnWithAccessCheck ]. }
  destruct Hsel as (-> & r & ->).
  assert (Hstart : forall tgt k, 0 <= k -> call_progress tgt k s3 0 s3).
  { intros tgt k Hk. exists []. split; [apply logged_refl | left; lia]. }
  pose (info2 := set_type (GetSharpType method_info) info).
  destruct (call_sequence_progress rt cu info2 r (GetTargetMethod method_info)
              (VTableIndex method_info) (DirectCode method_info)
              (DirectMethod method_info) (GetInvokeType method_info)
              (fun o => In o (method_loads rt cu (GetTargetMethod method_info)
                                (VTableIndex method_info) (DirectMethod method_info)
                                (GetInvokeType method_info)))
              (method_step r (DirectCode method_info) (DirectMethod method_info)) s3
              (fun st sa a sb => routine_method_step rt r cu _ _ _ _ _ _ st sa a sb)
              0 p_null_ck skip_this (is_range info2)
              s3 cs s5 cs' s6) as (seq & Hseq & Hmethod);
    [ apply method_step_nonneg | apply Hstart, method_step_nonneg
    | exact H5 | exact H6 | ].
  assert (Hcode : instruction_set cu <> kX86 ->
                  Exists (fun o => In o (code_loads rt cu (GetTargetMethod method_info)
                                           (DirectCode method_info)
                                           (GetInvokeType method_info))) seq).
  { intros Hx.
    destruct (call_sequence_progress rt cu info2 r (GetTargetMethod method_info)
                (VTableIndex method_info) (DirectCode method_info)
                (DirectMethod method_info) (GetInvokeType method_info)
                (fun o => In o (code_loads rt cu (GetTargetMethod method_info)
                                  (DirectCode method_info) (GetInvokeType method_info)))
                (code_step r (DirectCode method_info) (DirectMethod method_info)) s3
                (fun st sa a sb => routine_code_step rt r cu _ _ _ _ _ _ st sa a sb Hx)
                0 p_null_ck skip_this (is_range info2)
                s3 cs s5 cs' s6) as (seq' & Hseq' & Hc);
      [ apply code_step_nonneg | apply Hstart, code_step_nonneg
      | exact H5 | exact H6 | ].
    unfold logged in Hseq, Hseq'. rewrite Hseq in Hseq'.
    apply app_inv_head in Hseq'. now subst seq'. }
  assert (L7 : exists call, s7 = appended s6 [call] /\ call_inst = length (lir s6)
                            /\ is_invoke_call rt cu call).
  { destruct (negb (is_isa cu kX86)).
    - inversion H7; subst. eexists. repeat split.
    - destruct (FastPath _).
      + destruct (_ =? kUnsignedMinusOne); inversion H7; subst;
          eexists; repeat split.
      + inversion H7; subst. eexists. split; [reflexivity|]. split; [reflexivity|].
        cbn [type set_type is_invoke_call].
        destruct (GetSharpType _);
          [exists kStatic | exists kDirect | exists kVirtual | exists kSuper
          | exists kInterface]; reflexivity. }
  destruct L7 as (call & -> & -> & Hcall).
  inversion H8; subst s8 u8; clear H8.
  assert (L9 : info' = set_type (GetSharpType method_info) info
               /\ exists moved,
                    logged (appended s6 [call]) s'
                      ([MarkSafepointPC (length (lir s6)); ClobberCallerSave] ++ moved)
                    /\ is_result_move cu info
                         (lir s6
                          ++ [call; MarkSafepointPC (length (lir s6)); ClobberCallerSave])
                         moved).
  { revert H. unfold is_result_move. cbn [result set_type].
    destruct (RegLocationType_eqb (location (result info)) kLocInvalid);
      [|destruct (wide (result info))]; cbn [negb]; intros H; mrun;
      inversion H; subst; clear H; (split; [reflexivity|]);
      eexists; (split;
                [unfold logged; cbn [lir appended]; rewrite <- ?app_assoc; reflexivity|]);
      rewrite <- ?app_assoc; reflexivity. }
  destruct L9 as (-> & moved & Hl9 & Hmoved).
  assert (E : lir s6 = lir s ++ invoke_prologue cu info ++ seq).
  { unfold logged in Hseq. rewrite Hseq, L3. cbn [lir appended]. now rewrite <- app_assoc. }
  split; [reflexivity|]. exists seq, call, moved.
  split; [|split; [assumption|split; [|split; assumption]]].
  - unfold logged in *. cbn [lir appended] in Hl9. rewrite Hl9, Hseq.
    rewrite <- E, <- Hseq. cbn [lir appended]. rewrite E, <- !app_assoc. reflexivity.
  - rewrite E in Hmoved. rewrite <- !app_assoc in Hmoved. exact Hmoved.
Qed.



(** The sequence of a virtual call on Thumb2: receiver, null check, class,
    vtable, method, entry point, interleaved with the load of the one
    argument; then the call through r14. *)
Example virtual_call_sequence :
  exists info' s',
    GenInvokeNoInline Sample.rt (Sample.cu kThumb2) SampleCalls.charAt Sample.s0
    = Ok info' s'
    /\ lir s'
       = [ FlushAllRegs; LockCallTemps; ProcessedInvoke kVirtual 0;
           LoadValueDirectFixed (Sample.in_frame 4 false false false) 1;
           LoadValueDirectFixed (Sample.in_frame 5 false false false) 2;
           GenNullCheck 1 0; LoadWordDisp 1 0 14; MarkPossibleNullPointerException 0;
           LoadWordDisp 14 44 14; LoadWordDisp 14 36 0; LoadWordDisp 0 40 14;
           OpReg kOpBlx 14; MarkSafepointPC 11%nat; ClobberCallerSave ].
Proof. eexists _, _. split; vm_compute; reflexivity. Qed.

(** X10.  A full invocation frames its call: it first flushes all registers
    to their homes, locks the call temporaries and reports the invocation
    to the statistics, and after the call instruction and its safepoint
    mark it clobbers the caller-save registers and, when a result is
    expected, fetches the return register of the result's width and class
    and stores to the result location the return location the backend gave
    for that fetch, and logs nothing more.  The only thing it changes in
    the call descriptor is the kind of the invocation, which becomes the
    sharpened kind. *)
Theorem full_invocation_frames_the_call :
  forall rt cu info s info' s',
    GenInvokeNoInline rt cu info s = Ok info' s' ->
    info' = set_type (GetSharpType (GetMethodLoweringInfo (cg cu) (mir info))) info
    /\ exists seq call moved,
         let framed :=
           invoke_prologue cu info ++ seq
           ++ [call; MarkSafepointPC (length (lir s ++ invoke_prologue cu info ++ seq));
               ClobberCallerSave] in
         logged s s' (framed ++ moved)
         /\ is_invoke_call rt cu call
         /\ is_result_move cu info (lir s ++ framed) moved.
Proof.
  intros rt cu info s info' s' H.
  destruct (GenInvokeNoInline_shape _ _ _ _ _ _ H)
    as (Hinfo & seq & call & moved & Hl & Hcall & Hmoved & _).
  split; [exact Hinfo|]. exists seq, call, moved. cbv zeta.
  split; [|split; assumption].
  rewrite <- !app_assoc. exact Hl.
Qed.

Lemma full_invocation_frames_the_call_witness :
  exists info' s' seq call,
    GenInvokeNoInline Sample.rt (Sample.cu kX86) SampleIntrinsics.charAt_with_result
      Sample.s0
    = Ok info' s'
    /\ info' = SampleIntrinsics.charAt_with_result
    /\ logged Sample.s0 s'
         (invoke_prologue (Sample.cu kX86) SampleIntrinsics.charAt_with_result ++ seq
          ++ [ call; MarkSafepointPC (3 + length seq)%nat; ClobberCallerSave;
               GetReturn false;
               StoreValue (Sample.in_frame 6 false false false)
                 (GetReturn_result (cg (Sample.cu kX86)) [] false) ])
    /\ is_invoke_call Sample.rt (Sample.cu kX86) call.
Proof.
  destruct (GenInvokeNoInline Sample.rt (Sample.cu kX86)
              SampleIntrinsics.charAt_with_result Sample.s0)
    as [info' s'|f] eqn:E.
  - destruct (full_invocation_frames_the_call _ _ _ _ _ _ E)
      as (Hinfo & seq & call & moved & Hl & Hcall & Hmoved).
    cbv zeta in Hl, Hmoved. unfold is_result_move in Hmoved.
    cbn [result SampleIntrinsics.charAt_with_result location Sample.in_frame
         RegLocationType_eqb wide fp] in Hmoved.
    subst moved.
    exists info', s', seq, call.
    split; [reflexivity|]. split; [exact Hinfo|]. split; [|exact Hcall].
    unfold logged in *. rewrite Hl. rewrite <- !app_assoc. reflexivity.
  - vm_compute in E. discriminate.
Defined.

(** The move of the result of the sample call on x86: the return register
    eax is fetched and stored to virtual register 6. *)
Example full_invocation_moves_result :
  exists info' s',
    GenInvokeNoInline Sample.rt (Sample.cu kX86) SampleIntrinsics.charAt_with_result
      Sample.s0
    = Ok info' s'
    /\ skipn (length (lir s') - 3) (lir s')
       = [ ClobberCallerSave; GetReturn false;
           StoreValue (Sample.in_frame 6 false false false)
             (mkRegLocation kLocPhysReg false false false false false false false false
                (mkRegStorage k32BitSolo 0 255) (-1) (-1)) ].
Proof. eexists _, _. split; vm_compute; reflexivity. Qed.

(** ** Running without a fault *)

Lemma safe_ret {A} (a : A) : safe (ret a).
Proof. intros s f H. discriminate. Qed.

Lemma safe_ask {A} (f : list Op -> A) : safe (ask f).
Proof. intros s x H. discriminate. Qed.

Lemma safe_emit o : safe (emit o).
Proof. intros s f H. discriminate. Qed.

Lemma safe_AddSlowPath p : safe (AddSlowPath p).
Proof. intros s f H. discriminate. Qed.

Lemma safe_bind_val {A B} (R : A -> Prop) (m : M A) (k : A -> M B) :
  returns R m -> safe m -> (forall a, R a -> safe (k a)) -> safe (bind m k).
Proof.
  intros HR Hm Hk s f H. unfold bind in H.
  destruct (m s) as [a s1|f1] eqn:E.
  - exact (Hk a (HR _ _ _ E) s1 f H).
  - inversion H; subst. exact (Hm s f E).
Qed.

Lemma safe_bind {A B} (m : M A) (k : A -> M B) :
  safe m -> (forall a, safe (k a)) -> safe (bind m k).
Proof.
  intros Hm Hk. apply safe_bind_val with (R := fun _ => True);
    [intros ? ? ? _; exact I | assumption | intros a _; apply Hk].
Qed.

Lemma safe_emit_ o : safe (emit_ o).
Proof. apply safe_bind; [apply safe_emit | intros; apply safe_ret]. Qed.

Lemma safe_call_r {A} o (f : list Op -> A) : safe (call_r o f).
Proof.
  unfold call_r. apply safe_bind; [apply safe_ask|]. intros a.
  apply safe_bind; [apply safe_emit_ | intros; apply safe_ret].
Qed.

Lemma safe_when b m : (b = true -> safe m) -> safe (when b m).
Proof. destruct b; simpl; intros H; [now apply H | apply safe_ret]. Qed.

Lemma safe_CHECK b : b = true -> safe (CHECK b).
Proof. intros ->. apply safe_ret. Qed.

Lemma safe_DCHECK rt b : kIsDebugBuild rt = false \/ b = true -> safe (DCHECK rt b).
Proof.
  unfold DCHECK. intros [-> | ->]; [apply safe_ret|].
  destruct (kIsDebugBuild rt); apply safe_ret.
Qed.

Lemma safe_arg_at info i :
  0 <= i < Z.of_nat (length (args info)) -> safe (arg_at info i).
Proof.
  intros Hi. unfold arg_at. rewrite (proj2 (Z.ltb_ge i 0)) by lia.
  destruct (nth_error (args info) (Z.to_nat i)) eqn:E; [apply safe_ret|].
  apply nth_error_None in E. lia.
Qed.

Lemma safe_while_inv {X} (Inv : X -> Prop) cond (body : X -> M X) :
  (forall x, Inv x -> cond x = true -> safe (body x) /\ returns Inv (body x)) ->
  forall fuel x, Inv x -> safe (while_ fuel cond body x).
Proof.
  intros Hb. induction fuel as [|n IH]; intros x Hx; simpl.
  - destruct (cond x); [|apply safe_ret]. intros s f H. now inversion H.
  - destruct (cond x) eqn:E; [|apply safe_ret].
    destruct (Hb x Hx E) as [Hs Hr].
    apply safe_bind_val with (R := Inv); [assumption | assumption |].
    intros x' Hx'. now apply IH.
Qed.

Lemma completes_of_safe {A} (m : M A) : safe m -> enough_fuel m -> completes m.
Proof.
  intros Hs Hf s. destruct (m s) as [a s'|f] eqn:E; [now exists a, s'|].
  exfalso. apply (Hf s). rewrite E. f_equal. eapply Hs. eassumption.
Qed.

Lemma returns_call_r {A} o (f : list Op -> A) :
  returns (fun a => exists l, a = f l) (call_r o f).
Proof.
  unfold call_r. eapply returns_bind; [apply returns_ask|].
  intros a Ha. rets. assumption.
Qed.

Lemma is_isa_true_inv cu i : is_isa cu i = true -> instruction_set cu = i.
Proof.
  unfold is_isa. intros H. destruct (InstructionSet_eqb_spec (instruction_set cu) i);
    [assumption | discriminate].
Qed.

(** Decompose a computation into the checks it makes and the reads that
    must be in bounds. *)
Ltac safes_step :=
  lazymatch goal with
  | |- safe (ret _) => apply safe_ret
  | |- safe (ask _) => apply safe_ask
  | |- safe (CHECK _) => apply safe_CHECK
  | |- safe (DCHECK _ _) => apply safe_DCHECK
  | |- safe (arg_at _ _) => apply safe_arg_at
  | |- safe (AddSlowPath _) => apply safe_AddSlowPath
  | |- safe (emit_ _) => apply safe_emit_
  | |- safe (emit _) => apply safe_emit
  | |- safe (call_r _ _) => apply safe_call_r
  | |- safe (when _ _) => apply safe_when; intros ?
  | |- safe (bind _ _) => apply safe_bind; [|intros ?]
  | |- safe (match ?x with _ => _ end) => destruct x eqn:?
  end.

Ltac safes := repeat safes_step.

Section InvocationSafety.

Variable rt : Runtime.
Variable cu : CompilationUnit.
Variable info : CallInfo.
Variable tm : MethodReference.

Hypothesis Hrelease : kIsDebugBuild rt = false.
Hypothesis Hdex : cu_dex_file cu = dex_file tm.
Hypothesis Hidx : dex_method_index tm < NumMethodIds (cg cu) (dex_file tm).
Hypothesis Hargs : num_arg_words info <= Z.of_nat (length (args info)).
Hypothesis Hxmm : instruction_set cu = kX86 -> xmm_temp_available cu.

Ltac checks :=
  first [ now left
        | apply Z.ltb_lt; assumption
        | apply Z.eqb_eq; assumption
        | lia ].

Lemma routine_safe r state idx dc dm ty :
  (r = VCallInsn \/ r = InterfaceCallInsn -> args info <> []) ->
  safe (routine_fn rt r cu info state tm idx dc dm ty).
Proof.
  intros Hrecv.
  assert (Hlen : r = VCallInsn \/ r = InterfaceCallInsn ->
                 0 <= 0 < Z.of_nat (length (args info))).
  { intros Hr. specialize (Hrecv Hr). destruct (args info); [congruence | simpl; lia]. }
  destruct r; cbn [routine_fn]; unfold_routines; safes;
    first [checks | apply Hlen; auto].
Qed.

Lemma LoadArgRegs_safe r call_state idx dc dm ty skip_this :
  (r = VCallInsn \/ r = InterfaceCallInsn -> args info <> []) ->
  safe (LoadArgRegs cu info call_state (routine_fn rt r) tm idx dc dm ty skip_this).
Proof.
  intros Hrecv. unfold LoadArgRegs. destruct skip_this;
    (apply safe_bind; [|intros [[? ?] ?]; apply safe_ret];
     apply safe_while_inv with (Inv := fun x : Z * Z * Z => 0 <= snd (fst x));
     [|cbn [fst snd]; lia];
     intros [[nr na] cs] Hinv Hc; cbn [fst snd] in Hinv;
     apply andb_prop in Hc; destruct Hc as [_ Hc]; apply Z.ltb_lt in Hc;
     unfold LoadArgRegs_body; split;
     [ safes; try lia; now apply routine_safe
     | apply returns_bind_any; intros ?; apply returns_bind_any; intros ?;
       apply returns_bind with (R1 := fun p : Z * Z => 0 <= snd p);
       [rets; cbn [snd]; lia | intros [? ?] ?; rets; cbn [fst snd] in *; lia] ]).
Qed.

Lemma GenDalvikArgsNoRange_safe r call_state pcr idx dc dm ty skip_this :
  (r = VCallInsn \/ r = InterfaceCallInsn -> args info <> []) ->
  safe (GenDalvikArgsNoRange rt cu info call_state pcr (routine_fn rt r) tm idx dc dm ty
          skip_this).
Proof.
  intros Hrecv. unfold GenDalvikArgsNoRange.
  destruct (num_arg_words info =? 0); [apply safe_ret|].
  apply safe_bind; [now apply routine_safe | intros cs1].
  apply safe_bind; [apply safe_DCHECK; now left | intros _].
  apply safe_bind; [|intros cs2; safes; now apply LoadArgRegs_safe].
  destruct (Z.gtb_spec (num_arg_words info) 3) as [Hn|Hn]; [|apply safe_ret].
  apply safe_bind; [apply safe_arg_at; lia | intros rl_use0].
  apply safe_bind; [apply safe_arg_at; lia | intros rl_use1].
  apply safe_bind; [apply safe_arg_at; lia | intros rl_use2].
  apply safe_bind_val with (R := fun p : Z * Z => 3 <= fst p).
  - rets; simpl; lia.
  - safes; now apply routine_safe.
  - intros [next_use cs] Hge. cbn [fst] in Hge.
    apply safe_bind; [|intros [? ?]; apply safe_ret].
    apply safe_while_inv with (Inv := fun x : Z * Z => 3 <= fst x); [|exact Hge].
    intros [nu c] Hinv Hc. cbn [fst] in Hinv. apply Z.ltb_lt in Hc. split.
    + safes; try lia; now apply routine_safe.
    + apply returns_bind_any; intros ?. apply returns_bind_any; intros ?.
      apply returns_bind_any; intros [[? ?] ?].
      apply returns_bind with (R1 := fun nu' => nu < nu'); [rets; lia|].
      intros nu' Hlt. rets. cbn [fst]. lia.
Qed.

Lemma X86StackCopy_safe src dst n :
  instruction_set cu = kX86 -> safe (X86StackCopy cu src dst n).
Proof.
  intros Hx. specialize (Hxmm Hx). unfold X86StackCopy.
  apply safe_while_inv with (Inv := fun _ => True); [|exact I].
  intros [[a b] c] _ _. split; [|intros ? ? ? _; exact I].
  unfold X86StackCopy_step.
  apply safe_bind; [|intros ?; apply safe_ret].
  match goal with |- safe (if ?c then _ else _) => destruct c end; [|safes].
  apply safe_bind_val with (1 := returns_call_r _ _); [apply safe_call_r|].
  intros temp [l ->].
  apply safe_bind; [apply safe_CHECK, Z.gtb_lt; specialize (Hxmm l); lia | intros _].
  safes.
Qed.

Lemma GenDalvikArgsRange_safe r call_state pcr idx dc dm ty skip_this :
  (r = VCallInsn \/ r = InterfaceCallInsn -> args info <> []) ->
  safe (GenDalvikArgsRange rt cu info call_state pcr (routine_fn rt r) tm idx dc dm ty
          skip_this).
Proof.
  intros Hrecv. unfold GenDalvikArgsRange.
  destruct (Z.leb_spec (num_arg_words info) 5) as [Hn|Hn];
    [now apply GenDalvikArgsNoRange_safe|].
  apply safe_bind.
  { apply safe_while_inv with (Inv := fun na => 0 <= na); [|lia].
    intros na Hinv Hc. apply Z.ltb_lt in Hc. split; [safes; lia | rets; lia]. }
  intros _.
  apply safe_bind; [apply safe_DCHECK; now left | intros _].
  apply safe_bind; [apply safe_arg_at; lia | intros args3].
  apply safe_bind; [apply safe_DCHECK; now left | intros _].
  apply safe_bind;
    [|intros cs5; apply safe_bind; [now apply LoadArgRegs_safe | intros cs6];
      apply safe_bind; [now apply routine_safe | intros cs7]; safes].
  destruct (is_isa cu kThumb2 && _).
  - safes; now apply routine_safe.
  - destruct (is_isa cu kX86) eqn:Ex.
    + apply safe_bind; [|intros ?; apply safe_ret].
      apply X86StackCopy_safe. now apply is_isa_true_inv.
    + unfold CallRuntimeHelperRegRegImm, CallHelperSetup, CallHelper.
      safes. now left.
Qed.

End InvocationSafety.

Lemma GenInvokeNoInline_safe rt cu info :
  kIsDebugBuild rt = false ->
  invocation_well_formed cu info ->
  safe (GenInvokeNoInline rt cu info).
Proof.
  intros Hrel (Hdex & Hidx & Hargs & Hrecv & Hxmm). cbv zeta in *.
  unfold GenInvokeNoInline.
  set (method_info := GetMethodLoweringInfo (cg cu) (mir info)) in *.
  apply safe_bind; [apply safe_emit_ | intros _].
  apply safe_bind; [apply safe_emit_ | intros _].
  apply safe_bind; [apply safe_emit_ | intros _].
  apply safe_bind_val
    with (R := fun sel : bool * NextCallInsn * bool =>
                 exists r, snd (fst sel) = routine_fn rt r
                           /\ (r = VCallInsn \/ r = InterfaceCallInsn ->
                               dispatch_loads_receiver method_info = true)).
  - unfold dispatch_loads_receiver. cbn [type set_type].
    destruct (GetSharpType method_info), (FastPath method_info); rets; cbn [fst snd];
      first [ exists SDCallInsn; split; [reflexivity | intros [?|?]; discriminate]
            | exists VCallInsn; split; [reflexivity | reflexivity]
            | exists InterfaceCallInsn; split; [reflexivity | reflexivity]
            | exists StaticCallInsnSP; split; [reflexivity | intros [?|?]; discriminate]
            | exists DirectCallInsnSP; split; [reflexivity | intros [?|?]; discriminate]
            | exists SuperCallInsnSP; split; [reflexivity | intros [?|?]; discriminate]
            | exists VCallInsnSP; split; [reflexivity | intros [?|?]; discriminate]
            | exists InterfaceCallInsnWithAccessCheck;
              split; [reflexivity | intros [?|?]; discriminate] ].
  - safes. now left.
  - intros [[p_null_ck next] skip_this] (r & Hr & Hv). cbn [fst snd] in Hr. subst next.
    assert (Hrecv' : r = VCallInsn \/ r = InterfaceCallInsn ->
                     args (set_type (GetSharpType method_info) info) <> []).
    { intros H. cbn [args set_type]. auto. }
    apply safe_bind.
    { destruct (negb (is_range _));
        [apply GenDalvikArgsNoRange_safe | apply GenDalvikArgsRange_safe];
        assumption. }
    intros cs. apply safe_bind.
    { apply safe_while_inv with (Inv := fun _ => True); [|exact I].
      intros x _ _. split; [|intros ? ? ? _; exact I].
      apply routine_safe; assumption. }
    intros _. safes.
Qed.

(** X11.  In a release build a full invocation is lowered to the end, with
    no failed check and no read outside the argument array, whenever the
    argument array holds all the argument words of the invocation (and the
    receiver, when the dispatch sequence loads it), the target method
    belongs to the dex file being compiled and has a valid index, and, on
    x86, the stack copy finds an xmm temporary. *)
Theorem full_invocation_completes :
  forall rt cu info,
    kIsDebugBuild rt = false ->
    invocation_well_formed cu info ->
    completes (GenInvokeNoInline rt cu info).
Proof.
  intros rt cu info Hrel Hwf. apply completes_of_safe.
  - now apply GenInvokeNoInline_safe.
  - apply GenInvokeNoInline_enough_fuel.
Qed.

Lemma full_invocation_completes_witness :
  completes (GenInvokeNoInline SampleRelease.rt (Sample.cu kX86) SampleArgs.call7).
Proof.
  apply (full_invocation_completes SampleRelease.rt (Sample.cu kX86) SampleArgs.call7).
  - reflexivity.
  - unfold invocation_well_formed. cbn. repeat split; try lia; discriminate.
Defined.

(** ** The incoming arguments *)

Section FlushInsLog.

Variable rt : Runtime.
Variable cu : CompilationUnit.
Variable ArgLocs : list RegLocation.

Lemma returns_promotion_map_at i :
  returns (fun p => 0 <= i /\ nth_error (promotion_map_ (cg cu)) (Z.to_nat i) = Some p)
    (promotion_map_at cu i).
Proof.
  unfold promotion_map_at. intros s a s'.
  destruct (Z.ltb_spec i 0) as [Hlt|Hge]; [discriminate|].
  destruct (nth_error _ _) eqn:E; [|discriminate].
  intros Hr. inversion Hr; subst. split; [lia | reflexivity].
Qed.

Lemma returns_loc_at i :
  returns (fun t => nth_error ArgLocs (Z.to_nat i) = Some t) (loc_at ArgLocs i).
Proof.
  unfold loc_at. intros s a s'.
  destruct (Z.ltb_spec i 0) as [Hlt|Hge]; [discriminate|].
  destruct (nth_error _ _) eqn:E; [|discriminate].
  intros Hr. now inversion Hr; subst.
Qed.

Lemma emits_only_promotion_map_at P i : emits_only P (promotion_map_at cu i).
Proof.
  unfold promotion_map_at. destruct (i <? 0); [apply emits_only_stop|].
  destruct (nth_error _ _); [apply emits_only_ret | apply emits_only_stop].
Qed.

Lemma emits_only_loc_at P i : emits_only P (loc_at ArgLocs i).
Proof.
  unfold loc_at. destruct (i <? 0); [apply emits_only_stop|].
  destruct (nth_error _ _); [apply emits_only_ret | apply emits_only_stop].
Qed.

Lemma is_phys_true l : is_phys l = true -> l = kLocPhysReg.
Proof. unfold is_phys. now destruct (RegLocationType_eqb_spec l kLocPhysReg). Qed.

Lemma is_phys_false l : is_phys l = false -> l <> kLocPhysReg.
Proof. unfold is_phys. now destruct (RegLocationType_eqb_spec l kLocPhysReg). Qed.

Lemma FlushIns_word_ops i :
  0 <= i < num_ins cu ->
  emits_only (in_word_op rt cu ArgLocs)
    (FlushIns_word rt cu ArgLocs (num_dalvik_registers cu - num_ins cu) i).
Proof.
  intros Hi. unfold FlushIns_word.
  set (start := num_dalvik_registers cu - num_ins cu).
  apply emits_only_bind_val with (1 := returns_promotion_map_at _);
    [apply emits_only_promotion_map_at|].
  intros v_map [_ Hv].
  destruct (Z.eqb_spec (GetArgMappingToPhysicalReg (cg cu) i) (INVALID_REG rt))
    as [Hreg|Hreg]; cbn [negb].
  - emits; exists i, v_map; cbv zeta; fold start;
      (split; [exact Hi|]); (split; [exact Hv|]);
      (split; [reflexivity|]); (split; [reflexivity|]); (split; [exact Hreg|]);
      [left | right]; (split; [apply is_phys_true; assumption | reflexivity]).
  - apply emits_only_bind_val with (1 := returns_loc_at _); [apply emits_only_loc_at|].
    intros t_loc Ht.
    apply emits_only_bind_val
      with (R := fun need_flush : bool => need_flush = true -> ~ promoted_for t_loc v_map).
    + unfold promoted_for.
      destruct (is_phys (core_location v_map)) eqn:Ec, (fp t_loc) eqn:Ef;
        cbn [andb negb]; try (rets; discriminate);
        destruct (is_phys (fp_location v_map)) eqn:Efp; cbn [andb];
        rets; try discriminate; intros _; now apply is_phys_false.
    + unfold promoted_for.
      destruct (is_phys (core_location v_map) && negb (fp t_loc)) eqn:E1;
        [|destruct (is_phys (fp_location v_map) && fp t_loc) eqn:E2];
        emits; exists i, v_map; cbv zeta; fold start;
        (split; [exact Hi|]); (split; [exact Hv|]);
        (split; [reflexivity|]); (split; [exact Hreg|]);
        exists t_loc; (split; [exact Ht|]).
      * apply andb_prop in E1. destruct E1 as [E1 E1']. apply negb_true_iff in E1'.
        unfold promoted_for. rewrite E1'. split; [now apply is_phys_true | reflexivity].
      * apply andb_prop in E2. destruct E2 as [E2 E2'].
        unfold promoted_for. rewrite E2'. split; [now apply is_phys_true | reflexivity].
    + intros need_flush Hnf.
      apply emits_only_bind_val
        with (R := fun need_flush' : bool =>
                     need_flush' = true ->
                     wide t_loc = true \/ ~ promoted_for t_loc v_map).
      * destruct (wide t_loc); [intros ? ? ? _ _; now left|].
        rets. intros H. right. now apply Hnf.
      * destruct (wide t_loc); [|apply emits_only_ret].
        apply emits_only_bind; [apply emits_only_promotion_map_at | intros p_map].
        match goal with |- emits_only _ (if ?c then _ else _) => destruct c end;
          [|apply emits_only_ret].
        apply emits_only_bind; [apply emits_only_promotion_map_at | intros lo].
        apply emits_only_bind; [apply emits_only_promotion_map_at | intros hi].
        match goal with |- emits_only _ (if ?c then _ else _) => destruct c end;
          apply emits_only_ret.
      * intros need_flush' Hnf'. apply emits_only_when. intros ->.
        apply emits_only_emit_. exists i, v_map. cbv zeta. fold start.
        split; [exact Hi|]. split; [exact Hv|].
        repeat (split; [reflexivity|]). split; [exact Hreg|].
        exists t_loc. split; [exact Ht | now apply Hnf'].
Qed.

Lemma FlushIns_ops rl_method :
  emits_only (fun o => method_home_op rt cu rl_method o \/ in_word_op rt cu ArgLocs o)
    (FlushIns rt cu ArgLocs rl_method).
Proof.
  unfold FlushIns.
  apply emits_only_bind; [apply emits_only_emit_; left; now split | intros _].
  apply emits_only_bind;
    [apply emits_only_emit_; left; cbn; repeat split; reflexivity | intros _].
  apply emits_only_bind.
  { apply emits_only_when. intros Hp. apply emits_only_emit_. left. cbn.
    repeat split; try reflexivity. now apply is_phys_true. }
  intros _. destruct (num_ins cu =? 0); [apply emits_only_ret|].
  apply emits_only_bind; [|intros; apply emits_only_ret].
  apply emits_only_while_inv with (Inv := fun i => 0 <= i); [|lia].
  intros i Hi Hc. apply Z.ltb_lt in Hc. split.
  - apply emits_only_bind; [|intros; apply emits_only_ret].
    eapply emits_only_weaken; [|apply FlushIns_word_ops; lia].
    intros o Ho. now right.
  - rets. lia.
Qed.

Lemma FlushIns_safe rl_method :
  ins_in_bounds rt cu ArgLocs -> safe (FlushIns rt cu ArgLocs rl_method).
Proof.
  intros Hwf. unfold FlushIns. safes.
  apply safe_while_inv with (Inv := fun i => 0 <= i); [|lia].
  intros i Hi Hc. apply Z.ltb_lt in Hc. split; [|rets; lia].
  apply safe_bind; [|intros; apply safe_ret].
  intros s f H.
  destruct (FlushIns_word_total rt cu ArgLocs i s Hwf (conj Hi Hc)) as (ops & E).
  rewrite E in H. discriminate.
Qed.

End FlushInsLog.

(** X12.  What [FlushIns] logs is accounted for word by word.  It first
    homes the incoming method pointer: marks kArg0 live, stores it to the
    location of the method, and writes it to the bottom of the frame when
    the method was promoted.  After that, every call it logs belongs to an
    incoming argument word: a word that arrives in a register is copied to
    the register it was promoted to for its kind, and stored to its home in
    the frame only when it is wide or not promoted for its kind; a word
    that arrives in the frame is loaded from its home into a register it
    was promoted to.  A narrow word promoted for its kind is never stored,
    and a word that arrives in the frame is never stored or copied. *)
Theorem FlushIns_logs_only_what_each_word_needs :
  forall rt cu ArgLocs rl_method,
    emits_only (fun o => method_home_op rt cu rl_method o \/ in_word_op rt cu ArgLocs o)
      (FlushIns rt cu ArgLocs rl_method).
Proof. intros. apply FlushIns_ops. Qed.

(** X13.  [FlushIns] runs to the end, with no fault, whenever its reads
    stay inside the promotion map and the array of incoming locations; in
    particular with no incoming argument at all, whatever the arrays
    hold. *)
Theorem FlushIns_completes_within_bounds :
  forall rt cu ArgLocs rl_method,
    ins_in_bounds rt cu ArgLocs ->
    completes (FlushIns rt cu ArgLocs rl_method).
Proof.
  intros rt cu ArgLocs rl_method Hwf. apply completes_of_safe.
  - now apply FlushIns_safe.
  - apply FlushIns_enough_fuel.
Qed.

Lemma FlushIns_completes_within_bounds_witness :
  completes (FlushIns Sample.rt (Sample.cu kThumb2) SampleIns.ins_double
               SampleIns.method_loc).
Proof.
  apply (FlushIns_completes_within_bounds Sample.rt (Sample.cu kThumb2)
           SampleIns.ins_double SampleIns.method_loc).
  apply sample_ins_in_bounds. reflexivity.
Defined.

(** The incoming words of the sample method on Thumb2: word 0 is copied to
    its promoted core register; the halves of the double in words 1 and 2,
    promoted to the odd registers 33 and 35, are copied and stored. *)
Example FlushIns_sample_log :
  FlushIns Sample.rt (Sample.cu kThumb2) SampleIns.ins_double SampleIns.method_loc
    Sample.s0
  = Ok tt (appended Sample.s0
             [ MarkLive 0 (-2);
               StoreValue SampleIns.method_loc
                 (set_home false
                    (set_reg (mkRegStorage k32BitSolo 0 255)
                       (set_location kLocPhysReg SampleIns.method_loc)));
               OpRegCopy 5 1;
               OpRegCopy 33 2; StoreBaseDisp 13 84 2 kWord;
               OpRegCopy 35 3; StoreBaseDisp 13 88 3 kWord ]).
Proof. reflexivity. Qed.

(** ** The intrinsics *)

Ltac unfold_intrinsics :=
  unfold GenInlinedDoubleCvt, GenInlinedFloatCvt, GenInlinedReverseBytes,
    GenInlinedAbsInt, GenInlinedAbsLong, GenInlinedAbsFloat, GenInlinedAbsDouble,
    GenInlinedCharAt, GenInlinedStringCompareTo, GenInlinedStringIsEmptyOrLength,
    GenInlinedIndexOf, GenInlinedCurrentThread, GenInlinedUnsafeGet,
    GenInlinedUnsafePut.

Lemma hoare_of_returns {A} (P : CgState -> Prop) (R : A -> Prop) (m : M A) :
  returns R m -> hoare P m (fun a _ => R a).
Proof. intros Hm s a s' _ H. eapply Hm. eassumption. Qed.

Lemma hoare_arg_at (P : CgState -> Prop) info i :
  hoare P (arg_at info i) (fun _ => P).
Proof.
  unfold arg_at. intros s a s' Hp H.
  destruct (i <? 0); [discriminate|].
  destruct (nth_error _ _); [|discriminate]. now inversion H; subst.
Qed.

(** Once past its guards an intrinsic answers true. *)
Ltac handled :=
  eapply hoare_weaken;
  [ apply hoare_of_returns with (R := fun p : bool * CallInfo => fst p = true);
    rets; reflexivity
  | cbv beta; intros ? ? E; rewrite E; discriminate ].

Lemma GenInlined_declines_cleanly rt cu info m s :
  hoare (fun s1 => s1 = s) (GenInlined rt cu info m)
    (fun p s1 => fst p = false -> s1 = s /\ snd p = info).
Proof.
  destruct m; cbn [GenInlined]; unfold_intrinsics;
    try (destruct (is_isa cu kMips);
         [apply hoare_ret; intros ? -> _; now split | ]);
    try solve [handled].
  eapply hoare_bind; [apply hoare_arg_at | intros rl_obj].
  eapply hoare_bind; [apply hoare_arg_at | intros rl_char].
  match goal with |- hoare _ (if ?c then _ else _) _ => destruct c end;
    [apply hoare_ret; intros ? -> _; now split | handled].
Qed.

(** X14.  A decline is always clean.  Whenever an intrinsic routine of this
    file answers false, it has logged no call, registered no launchpad and
    left the call descriptor as it was: no routine gives up after it
    started to generate code, so the full invocation that follows a decline
    starts from the state before the attempt. *)
Theorem decline_is_always_clean :
  forall rt cu info m s info' s',
    GenInlined rt cu info m s = Ok (false, info') s' ->
    s' = s /\ info' = info.
Proof.
  intros rt cu info m s info' s' H.
  exact (GenInlined_declines_cleanly rt cu info m s s (false, info') s' eq_refl H eq_refl).
Qed.

Lemma decline_is_always_clean_witness :
  Sample.s0 = Sample.s0
  /\ SampleIntrinsics.indexOf_supplementary = SampleIntrinsics.indexOf_supplementary.
Proof.
  apply (decline_is_always_clean Sample.rt (Sample.cu kThumb2)
           SampleIntrinsics.indexOf_supplementary (kIntrinsicIndexOf true)).
  reflexivity.
Defined.

Section IntrinsicLaunchpads.

Variable rt : Runtime.
Variable cu : CompilationUnit.
Variable info : CallInfo.

(** Decompose a computation into the launchpads it registers. *)
Ltac pads_step :=
  lazymatch goal with
  | |- registers_only _ (ret _) => apply registers_only_ret
  | |- registers_only _ (stop _) => apply registers_only_stop
  | |- registers_only _ (ask _) => apply registers_only_ask
  | |- registers_only _ (CHECK _) => apply registers_only_CHECK
  | |- registers_only _ (DCHECK _ _) => apply registers_only_DCHECK
  | |- registers_only _ (arg_at _ _) => apply registers_only_arg_at
  | |- registers_only _ (AddSlowPath _) => apply registers_only_AddSlowPath
  | |- registers_only _ (emit_ _) => apply registers_only_emit_
  | |- registers_only _ (emit _) => apply registers_only_emit
  | |- registers_only _ (call_r _ _) => apply registers_only_call_r
  | |- registers_only _ (when _ _) => apply registers_only_when; intros ?; try discriminate
  | |- registers_only _ (bind _ _) => apply registers_only_bind; [|intros ?]
  | |- registers_only _ (match ?x with _ => _ end) => destruct x eqn:?
  end.

Ltac pads := repeat pads_step.

Lemma GenInlined_registers_retries m :
  registers_only (retries rt info) (GenInlined rt cu info m).
Proof.
  destruct m; cbn [GenInlined]; unfold_intrinsics;
    unfold InlineTarget, InlineTargetWide, AddIntrinsicLaunchpad, do_LoadValue,
      do_LoadValueWide, do_AllocTemp, do_EvalLoc;
    pads; split; reflexivity.
Qed.

Lemma GenInlined_returns_descriptor m :
  returns (fun p => snd p = info \/ snd p = null_checked rt info)
    (GenInlined rt cu info m).
Proof.
  destruct m; cbn [GenInlined]; unfold_intrinsics; try (rets; auto; fail).
  (* the string search hands on the descriptor its launchpad was given *)
  destruct (is_isa cu kMips); [rets; auto|].
  apply returns_bind_any; intros rl_obj. apply returns_bind_any; intros rl_char.
  match goal with |- returns _ (if ?c then _ else _) => destruct c end; [rets; auto|].
  do 9 (apply returns_bind_any; intros ?).
  apply returns_bind
    with (R1 := fun i : CallInfo => i = info \/ i = null_checked rt info).
  - rets; auto.
  - intros i Hi. rets. exact Hi.
Qed.

Lemma GenInlinedCharAt_unchecked :
  Z.land (opt_flags info) (MIR_IGNORE_RANGE_CHECK rt) <> 0 ->
  registers_only (fun _ => False) (GenInlinedCharAt rt cu info)
  /\ emits_only (fun o => is_branch o = false) (GenInlinedCharAt rt cu info)
  /\ returns (fun p => p = (true, info) \/ p = (false, info)) (GenInlinedCharAt rt cu info).
Proof.
  intros Hflag. apply Z.eqb_neq in Hflag.
  unfold GenInlinedCharAt, InlineTarget, AddIntrinsicLaunchpad, do_LoadValue,
    do_AllocTemp, do_EvalLoc.
  rewrite Hflag. split; [|split].
  - pads.
  - emits; reflexivity.
  - rets; auto.
Qed.

End IntrinsicLaunchpads.

(** X15.  The launchpad of an intrinsic retries the very invocation, with
    the null check recorded as done.  Every launchpad registered by an
    intrinsic routine carries the call descriptor of the invocation with
    MIR_IGNORE_NULL_CHECK or-ed into its optimisation flags and nothing
    else changed, and the dex pc of the invocation; and the descriptor the
    routine hands back is either the one it was given or that same
    null-checked one. *)
Theorem intrinsic_launchpad_retries_null_checked :
  forall rt cu info m,
    registers_only (retries rt info) (GenInlined rt cu info m)
    /\ returns (fun p => snd p = info \/ snd p = null_checked rt info)
         (GenInlined rt cu info m).
Proof.
  intros. split;
    [apply GenInlined_registers_retries | apply GenInlined_returns_descriptor].
Qed.

(** X16.  With MIR_IGNORE_RANGE_CHECK set, the inlined [charAt] has no slow
    path: it logs no branch, registers no launchpad and hands back the call
    descriptor unchanged. *)
Theorem charAt_without_range_check_has_no_slow_path :
  forall rt cu info,
    Z.land (opt_flags info) (MIR_IGNORE_RANGE_CHECK rt) <> 0 ->
    registers_only (fun _ => False) (GenInlinedCharAt rt cu info)
    /\ emits_only (fun o => is_branch o = false) (GenInlinedCharAt rt cu info)
    /\ returns (fun p => p = (true, info) \/ p = (false, info))
         (GenInlinedCharAt rt cu info).
Proof. intros rt cu info H. now apply GenInlinedCharAt_unchecked. Qed.

Lemma charAt_without_range_check_has_no_slow_path_witness :
  registers_only (fun _ => False)
    (GenInlinedCharAt Sample.rt (Sample.cu kX86) SampleIntrinsics.charAt_unchecked)
  /\ emits_only (fun o => is_branch o = false)
       (GenInlinedCharAt Sample.rt (Sample.cu kX86) SampleIntrinsics.charAt_unchecked)
  /\ returns (fun p => p = (true, SampleIntrinsics.charAt_unchecked)
                       \/ p = (false, SampleIntrinsics.charAt_unchecked))
       (GenInlinedCharAt Sample.rt (Sample.cu kX86) SampleIntrinsics.charAt_unchecked).
Proof.
  apply (charAt_without_range_check_has_no_slow_path Sample.rt (Sample.cu kX86)
           SampleIntrinsics.charAt_unchecked).
  discriminate.
Defined.

(** The unchecked [charAt] on x86 runs, and registers nothing. *)
Example charAt_unchecked_runs :
  exists s',
    GenInlinedCharAt Sample.rt (Sample.cu kX86) SampleIntrinsics.charAt_unchecked Sample.s0
    = Ok (true, SampleIntrinsics.charAt_unchecked) s'
    /\ slow_paths_ s' = []
    /\ forallb (fun o => negb (is_branch o)) (lir s') = true.
Proof. eexists. split; [vm_compute; reflexivity | split; reflexivity]. Qed.

Section IntrinsicSafety.

Variable rt : Runtime.
Variable cu : CompilationUnit.
Variable info : CallInfo.

Ltac use_facts H :=
  repeat match goal with
         | E : ?b = _ |- _ =>
             tryif constr_eq E H then fail
             else match type of H with context [b] => rewrite E in H end
         end;
  cbn [orb andb negb] in H.

Ltac checked Hdbg :=
  first [ lia
        | now left
        | reflexivity
        | right; use_facts Hdbg; first [exact Hdbg | reflexivity | discriminate Hdbg] ].

(** Walk down to the computation of a branch. *)
Ltac safe_walk :=
  repeat lazymatch goal with
         | |- safe (bind ?m _) =>
             lazymatch type of m with
             | M (option _) => fail
             | M (option _ * _ * _) => fail
             | _ => apply safe_bind; [safes; try lia | intros ?]
             end
         end.

Ltac returns_walk :=
  repeat lazymatch goal with
         | |- returns _ (bind ?m _) =>
             lazymatch type of m with
             | M (option _) => fail
             | _ => apply returns_bind_any; intros ?
             end
         end.

Lemma GenInlined_safe m :
  words_read m <= Z.of_nat (length (args info)) ->
  expands_on cu m = true ->
  (kIsDebugBuild rt = true -> debug_checks_hold cu m = true) ->
  safe (GenInlined rt cu info m).
Proof.
  intros Hargs Hexp Hdbg.
  destruct m; cbn [GenInlined words_read expands_on debug_checks_hold] in *;
    unfold_intrinsics;
    unfold InlineTarget, InlineTargetWide, AddIntrinsicLaunchpad, do_LoadValue,
      do_LoadValueWide, do_AllocTemp, do_EvalLoc.
  all: try (destruct (kIsDebugBuild rt) eqn:Hd;
            [specialize (Hdbg eq_refl) | clear Hdbg];
            safes; solve [checked Hdbg | use_facts Hexp; exact Hexp]).
  - (* charAt: the range-check branch exists whenever the check is made *)
    destruct (is_isa cu kMips); [apply safe_ret|].
    remember (Z.land (opt_flags info) (MIR_IGNORE_RANGE_CHECK rt) =? 0) as range_check
      eqn:Hrc.
    safe_walk.
    apply safe_bind_val
      with (R := fun t : option LIRptr * Z * Z => range_check = true -> fst (fst t) <> None).
    + destruct (negb (is_isa cu kX86)); returns_walk;
        (apply returns_bind
           with (R1 := fun b : option LIRptr => range_check = true -> b <> None);
         [ destruct range_check; rets; intros; discriminate
         | intros b Hb; rets; exact Hb ]).
    + safes.
    + intros [[range_check_branch reg_off] reg_ptr] Hb. cbn [fst] in Hb.
      safes. right. destruct range_check_branch; [reflexivity|].
      now destruct Hb.
  - (* indexOf: the branch on a high code point exists iff the character is
       not a constant, and a constant that was not punted fits 16 bits *)
    destruct (is_isa cu kMips); [apply safe_ret|].
    apply safe_bind; [apply safe_arg_at; destruct zero_based; lia | intros rl_obj].
    apply safe_bind; [apply safe_arg_at; destruct zero_based; lia | intros rl_char].
    destruct (is_const rl_char) eqn:Hc; cbn [andb negb].
    + destruct (Z.land _ _ =? 0) eqn:Hfit; cbn [negb]; [|apply safe_ret].
      safe_walk.
      apply safe_bind_val with (R := fun h : option LIRptr => h = None);
        [rets; reflexivity | safes | intros h ->].
      safes; now right.
    + safe_walk.
      apply safe_bind_val with (R := fun h : option LIRptr => h <> None);
        [rets; discriminate | safes | intros h Hh].
      safes. right. destruct h; [reflexivity | now destruct Hh].
Qed.

End IntrinsicSafety.

(** X17.  An intrinsic routine runs to the end, in a debug build as well,
    whenever the call descriptor holds the argument words the routine
    reads, the target is one the routine has an expansion for, and, in a
    debug build, the target and operand size are among those its
    assertions admit.  In particular the assertions of the inlined
    [charAt] and [indexOf] on their own branches never fail. *)
Theorem intrinsic_completes :
  forall rt cu info m,
    words_read m <= Z.of_nat (length (args info)) ->
    expands_on cu m = true ->
    (kIsDebugBuild rt = true -> debug_checks_hold cu m = true) ->
    completes (GenInlined rt cu info m).
Proof.
  intros rt cu info m Hargs Hexp Hdbg. apply completes_of_safe.
  - now apply GenInlined_safe.
  - apply GenInlined_enough_fuel.
Qed.

Lemma intrinsic_completes_witness :
  completes (GenInlined Sample.rt (Sample.cu kThumb2) SampleCalls.indexOf
               (kIntrinsicIndexOf true)).
Proof.
  apply (intrinsic_completes Sample.rt (Sample.cu kThumb2) SampleCalls.indexOf
           (kIntrinsicIndexOf true)).
  - simpl. lia.
  - reflexivity.
  - reflexivity.
Defined.

(** X18.  The current-thread accessor is expanded for Thumb2, MIPS and x86
    only: on any other target it aborts on its check, in every build, after
    it evaluated the destination and before it logs a load. *)
Theorem current_thread_aborts_on_other_targets :
  forall rt cu info s,
    expands_on cu kIntrinsicCurrentThread = false ->
    GenInlined rt cu info kIntrinsicCurrentThread s = Stop CheckFailed.
Proof.
  intros rt cu info s H. cbn [expands_on] in H.
  apply orb_false_iff in H. destruct H as [H Hx].
  cbn [GenInlined]. unfold GenInlinedCurrentThread, InlineTarget, do_EvalLoc.
  rewrite H, Hx. destruct (RegLocationType_eqb _ _); reflexivity.
Qed.

Lemma current_thread_aborts_on_other_targets_witness :
  GenInlined Sample.rt (Sample.cu kArm) (Sample.call [] 101 0) kIntrinsicCurrentThread
    Sample.s0
  = Stop CheckFailed.
Proof.
  apply (current_thread_aborts_on_other_targets Sample.rt (Sample.cu kArm)
           (Sample.call [] 101 0) Sample.s0).
  reflexivity.
Defined.

(** ** Memory order of the unsafe accesses *)







(** ** Where the intrinsics put their value *)

Section IntrinsicResult.

Variable rt : Runtime.
Variable cu : CompilationUnit.
Variable info : CallInfo.

Lemma returns_InlineTarget info' :
  result info' = result info ->
  returns (inline_target cu info false) (InlineTarget cu info').
Proof.
  intros Hr. unfold InlineTarget, inline_target. rewrite Hr.
  destruct (RegLocationType_eqb _ _); [apply returns_call_r | now apply returns_ret].
Qed.

Lemma returns_InlineTargetWide :
  returns (inline_target cu info true) (InlineTargetWide cu info).
Proof.
  unfold InlineTargetWide, inline_target.
  destruct (RegLocationType_eqb _ _); [apply returns_call_r | now apply returns_ret].
Qed.

Lemma emits_only_InlineTarget info' : emits_only (stores_result cu info) (InlineTarget cu info').
Proof. unfold InlineTarget. emits. exact I. Qed.

Lemma emits_only_InlineTargetWide info' :
  emits_only (stores_result cu info) (InlineTargetWide cu info').
Proof. unfold InlineTargetWide. emits. exact I. Qed.

(** Decompose a computation into the calls it logs, keeping what is known
    of the destination. *)
Ltac stores_step :=
  lazymatch goal with
  | |- emits_only _ (bind (InlineTarget _ _) _) =>
      apply emits_only_bind_val with (1 := returns_InlineTarget _ eq_refl);
      [apply emits_only_InlineTarget | intros ? ?]
  | |- emits_only _ (bind (InlineTargetWide _ _) _) =>
      apply emits_only_bind_val with (1 := returns_InlineTargetWide);
      [apply emits_only_InlineTargetWide | intros ? ?]
  | |- emits_only _ (bind (if ?c then _ else _) _) => destruct c eqn:?
  | _ => emits_step
  end.

Ltac stores := repeat stores_step; try (cbn [stores_result]; first [exact I | assumption]).

Lemma GenInlined_stores_result m :
  emits_only (stores_result cu info) (GenInlined rt cu info m).
Proof.
  destruct m; cbn [GenInlined]; unfold_intrinsics;
    unfold AddIntrinsicLaunchpad, do_LoadValue, do_LoadValueWide, do_AllocTemp,
      do_EvalLoc;
    try (stores; fail).
  (* the string search reads the destination off the descriptor it hands on *)
  destruct (is_isa cu kMips); [stores|].
  apply emits_only_bind; [stores | intros rl_obj].
  apply emits_only_bind; [stores | intros rl_char].
  match goal with |- emits_only _ (if ?c then _ else _) => destruct c end; [stores|].
  do 9 (apply emits_only_bind; [stores | intros ?]).
  apply emits_only_bind_val with (R := fun i : CallInfo => result i = result info).
  - rets; reflexivity.
  - stores.
  - intros i Hi. apply emits_only_bind; [stores | intros rl_return].
    apply emits_only_bind_val with (1 := returns_InlineTarget i Hi);
      [apply emits_only_InlineTarget | intros rl_dest Hd].
    stores.
Qed.

End IntrinsicResult.

(** X20.  An intrinsic stores its value where the invocation wants its
    result.  Every [StoreValue] and [StoreValueWide] logged by an intrinsic
    routine has as destination the result location of the call descriptor,
    or, when the descriptor has no result location, the return-value
    location of the same width ([GetReturn(false)] for a narrow store,
    [GetReturnWide(false)] for a wide one). *)
Theorem intrinsic_stores_to_the_result_location :
  forall rt cu info m,
    emits_only (stores_result cu info) (GenInlined rt cu info m).
Proof. intros. apply GenInlined_stores_result. Qed.

(** ** Checks of the dispatch routines *)

Lemma routine_checks_pass rt cu info tm r state idx dc dm ty :
  cu_dex_file cu = dex_file tm ->
  dex_method_index tm < NumMethodIds (cg cu) (dex_file tm) ->
  (r = VCallInsn \/ r = InterfaceCallInsn -> args info <> []) ->
  safe (routine_fn rt r cu info state tm idx dc dm ty).
Proof.
  intros Hdex Hidx Hrecv.
  assert (Hlen : r = VCallInsn \/ r = InterfaceCallInsn ->
                 0 <= 0 < Z.of_nat (length (args info))).
  { intros Hr. specialize (Hrecv Hr). destruct (args info); [congruence | simpl; lia]. }
  destruct r; cbn [routine_fn]; unfold_routines; safes;
    first [ apply Z.ltb_lt; assumption
          | apply Z.eqb_eq; assumption
          | apply Hlen; auto ].
Qed.

(** X21.  A step of a dispatch routine runs to the end whenever the target
    method belongs to the dex file being compiled, its index lies within
    the method ids of that file and, for the virtual and interface
    routines, the call descriptor has a receiver word.  These are the only
    conditions its checks and reads depend on: the call state, the
    addresses and the invoke type play no role. *)
Theorem dispatch_step_completes :
  forall rt cu info tm r state idx dc dm ty,
    cu_dex_file cu = dex_file tm ->
    dex_method_index tm < NumMethodIds (cg cu) (dex_file tm) ->
    (r = VCallInsn \/ r = InterfaceCallInsn -> args info <> []) ->
    completes (routine_fn rt r cu info state tm idx dc dm ty).
Proof.
  intros rt cu info tm r state idx dc dm ty Hdex Hidx Hrecv.
  apply completes_of_safe.
  - now apply routine_checks_pass.
  - apply routine_enough_fuel.
Qed.

Lemma dispatch_step_completes_witness :
  completes (routine_fn Sample.rt VCallInsn (Sample.cu kThumb2) SampleCalls.charAt 1
               Sample.target 6 0 0 kVirtual).
Proof.
  apply (dispatch_step_completes Sample.rt (Sample.cu kThumb2) SampleCalls.charAt
           Sample.target VCallInsn 1 6 0 0 kVirtual).
  - reflexivity.
  - reflexivity.
  - discriminate.
Defined.

(** ** The stack copy on x86 *)

Lemma X86StackCopy_aligned cu src dst n :
  emits_only aligned_move (X86StackCopy cu src dst n).
Proof.
  unfold X86StackCopy.
  apply emits_only_while_inv with (Inv := fun _ : Z * Z * Z => True); [|exact I].
  intros [[current_src_offset current_dest_offset] regs_left] _ _.
  split; [|intros ? ? ? _; exact I].
  unfold X86StackCopy_step.
  destruct (Z.eqb_spec (Z.land current_src_offset 15) 0) as [Hs16|Hs16];
    destruct (Z.eqb_spec (Z.land current_src_offset 7) 0) as [Hs8|Hs8];
    destruct (Z.eqb_spec (Z.land current_dest_offset 15) 0) as [Hd16|Hd16];
    destruct (Z.eqb_spec (Z.land current_dest_offset 7) 0) as [Hd8|Hd8];
    emits; cbn [aligned_move]; auto.
Qed.

(** X22.  The 128-bit moves of the x86 stack copy respect alignment: a move
    that requires alignment is logged only at an offset from the stack
    pointer that is a multiple of 16, and a move is split into two 64-bit
    halves only at an offset that is a multiple of 8 and not of 16; at any
    other offset the unaligned move is used. *)
Theorem x86_stack_copy_uses_aligned_moves_at_aligned_offsets :
  forall cu src dst n,
    emits_only aligned_move (X86StackCopy cu src dst n).
Proof. intros. apply X86StackCopy_aligned. Qed.

Lemma copied_app sp src dst l1 n1 l2 n2 :
  copied sp src dst l1 n1 ->
  copied sp (src + n1) (dst + n1) l2 n2 ->
  copied sp src dst (l1 ++ l2) (n1 + n2).
Proof.
  intros H1. revert l2 n2.
  induction H1 as [src dst | src dst temp size loads stores rest bytes Hs Hr Hw Hc IH];
    intros l2 n2 H2.
  - rewrite !Z.add_0_r in H2. exact H2.
  - rewrite <- !app_assoc, <- Z.add_assoc.
    eapply copied_chunk; try eassumption.
    apply IH. now rewrite <- !Z.add_assoc.
Qed.

Lemma copied_one sp src dst temp size loads stores :
  0 < size ->
  reads sp temp src loads (src + size) ->
  writes sp temp dst stores (dst + size) ->
  copied sp src dst (loads ++ stores) size.
Proof.
  intros Hs Hr Hw.
  rewrite <- (app_nil_r stores), <- (Z.add_0_r size).
  eapply copied_chunk; try eassumption. constructor.
Qed.

(** Split the accesses of a chunk into its loads and its stores. *)
Ltac split_accesses l :=
  lazymatch l with
  | StackLoad ?b ?d ?r ?z :: ?t =>
      let p := split_accesses t in
      lazymatch p with
      | (?ls, ?ss) => constr:((StackLoad b d r z :: ls, ss))
      end
  | _ => constr:((@nil StackAccess, l))
  end.

Ltac one_chunk :=
  cbn [flat_map stack_access move_bytes app];
  lazymatch goal with
  | |- copied ?sp ?src ?dst ?l ?size =>
      let p := split_accesses l in
      lazymatch p with
      | (?ls, ?ss) =>
          lazymatch ls with
          | StackLoad _ _ ?t _ :: _ =>
              apply (copied_one sp src dst t size ls ss);
              [lia | cbn [reads]; repeat split; lia | cbn [writes]; repeat split; lia]
          end
      end
  end.

Section StackCopyChunks.

Variable cu : CompilationUnit.
Hypothesis Hxmm : xmm_temp_available cu.

Lemma X86StackCopy_step_copies src dst n s :
  0 < n ->
  -2147483648 <= src -> src + 4 * n < 2147483648 ->
  -2147483648 <= dst -> dst + 4 * n < 2147483648 ->
  exists k ops,
    1 <= k <= n
    /\ X86StackCopy_step cu (src, dst, n) s
       = Ok (src + 4 * k, dst + 4 * k, n - k) (appended s ops)
    /\ copied (TargetReg (cg cu) kSp) src dst (flat_map stack_access ops) (4 * k).
Proof.
  intros Hn Hs Hse Hd Hde. unfold X86StackCopy_step.
  fold (picks_128bit src dst n).
  destruct (picks_128bit src dst n) eqn:Ew.
  - assert (H4 : 4 <= n).
    { unfold picks_128bit in Ew.
      destruct (Z.eqb_spec n 4); [lia|]. destruct (Z.gtb_spec n 4); [lia|discriminate]. }
    exists 4. mrun.
    assert (Ht : (AllocTempDouble_result (cg cu) (lir s) >? 0) = true).
    { apply Z.gtb_lt. specialize (Hxmm (lir s)). lia. }
    rewrite Ht.
    destruct (Z.land src 15 =? 0); [|destruct (Z.land src 7 =? 0)];
      (destruct (Z.land dst 15 =? 0); [|destruct (Z.land dst 7 =? 0)]);
      mrun; change (4 * 4) with 16; rewrite ?shiftr_16_2, ?shiftr_16_1;
      rewrite ?(to_int32_small (n - 4)), ?(to_int32_small (src + 16)),
        ?(to_int32_small (dst + 16)), ?(to_int32_small (src + 8)),
        ?(to_int32_small (dst + 8)) by lia;
      (eexists; split; [lia|]; split;
       [unfold appended; cbn [lir slow_paths_]; rewrite <- ?app_assoc; reflexivity
       | one_chunk]).
  - exists 1. mrun. rewrite ?shiftr_4_2. change (4 * 1) with 4.
    rewrite ?(to_int32_small (n - 1)), ?(to_int32_small (src + 4)),
      ?(to_int32_small (dst + 4)) by lia.
    eexists; split; [lia|]; split;
      [unfold appended; cbn [lir slow_paths_]; rewrite <- ?app_assoc; reflexivity
      | one_chunk].
Qed.

Lemma X86StackCopy_loop_copies fuel :
  forall n src dst s,
    0 <= n -> n <= Z.of_nat fuel ->
    -2147483648 <= src -> src + 4 * n < 2147483648 ->
    -2147483648 <= dst -> dst + 4 * n < 2147483648 ->
    exists ops,
      while_ fuel (fun '(_, _, regs_left) => regs_left >? 0) (X86StackCopy_step cu)
        (src, dst, n) s
      = Ok (src + 4 * n, dst + 4 * n, 0) (appended s ops)
      /\ copied (TargetReg (cg cu) kSp) src dst (flat_map stack_access ops) (4 * n).
Proof.
  induction fuel as [|fuel IH]; intros n src dst s Hn Hf Hs Hse Hd Hde.
  - assert (n = 0) by lia. subst. simpl.
    exists []. rewrite appended_nil, !Z.add_0_r. split; [reflexivity | constructor].
  - cbn [while_]. destruct (Z.gtb_spec n 0) as [Hpos|Hz].
    + destruct (X86StackCopy_step_copies src dst n s Hpos Hs Hse Hd Hde)
        as (k & ops & Hk & Hstep & Hc).
      unfold bind. rewrite Hstep.
      destruct (IH (n - k) (src + 4 * k) (dst + 4 * k) (appended s ops))
        as (ops' & Hrun & Hc'); try lia.
      exists (ops ++ ops'). rewrite Hrun, appended_appended. split.
      * replace (src + 4 * k + 4 * (n - k)) with (src + 4 * n) by lia.
        replace (dst + 4 * k + 4 * (n - k)) with (dst + 4 * n) by lia.
        reflexivity.
      * rewrite flat_map_app. replace (4 * n) with (4 * k + 4 * (n - k)) by lia.
        now apply copied_app.
    + assert (n = 0) by lia. subst.
      exists []. rewrite appended_nil, !Z.add_0_r. split; [reflexivity | constructor].
Qed.

End StackCopyChunks.

(** X23.  The x86 stack copy copies every word to its place.  For [n] words
    at [src] and [dst] within the range of a 32-bit offset, and as long as
    an xmm temporary can be allocated, the loop runs to the end with the
    offsets advanced by [4 * n] and no word left, and the loads and stores
    it logged copy the [4 * n] bytes from [src] to [dst] off the stack
    pointer chunk by chunk: each chunk is read, in order and without gap
    or overlap, into one temporary and written from that temporary to the
    same distance from [dst], before the next chunk is read. *)
Theorem x86_stack_copy_copies_every_word :
  forall cu src dst n s,
    xmm_temp_available cu ->
    0 <= n ->
    -2147483648 <= src -> src + 4 * n < 2147483648 ->
    -2147483648 <= dst -> dst + 4 * n < 2147483648 ->
    exists ops,
      X86StackCopy cu src dst n s = Ok (src + 4 * n, dst + 4 * n, 0) (appended s ops)
      /\ copied (TargetReg (cg cu) kSp) src dst (flat_map stack_access ops) (4 * n).
Proof.
  intros cu src dst n s Hxmm Hn Hs Hse Hd Hde. unfold X86StackCopy.
  apply X86StackCopy_loop_copies; try assumption. lia.
Qed.

Lemma x86_stack_copy_copies_every_word_witness :
  exists ops,
    X86StackCopy (Sample.cu kX86) 76 12 6 Sample.s0
    = Ok (76 + 4 * 6, 12 + 4 * 6, 0) (appended Sample.s0 ops)
    /\ copied (TargetReg (cg (Sample.cu kX86)) kSp) 76 12 (flat_map stack_access ops)
         (4 * 6).
Proof.
  apply (x86_stack_copy_copies_every_word (Sample.cu kX86) 76 12 6 Sample.s0).
  - intros l. simpl. lia.
  - lia.
  - lia.
  - lia.
  - lia.
  - lia.
Defined.

(** Six words from offset 76 to offset 12: one word through kArg3, neither
    offset being a multiple of 16; then four words at once through the xmm
    temporary, from offset 80 to offset 16; then the last word. *)
Example x86_stack_copy_six_words :
  exists r s',
    X86StackCopy (Sample.cu kX86) 76 12 6 Sample.s0 = Ok r s'
    /\ flat_map stack_access (lir s')
       = [ StackLoad 4 76 3 4; StackStore 4 12 3 4;
           StackLoad 4 80 34 16; StackStore 4 16 34 16;
           StackLoad 4 96 3 4; StackStore 4 32 3 4 ].
Proof. eexists _, _. split; vm_compute; reflexivity. Qed.

(** ** The words passed on the stack *)

Lemma covers_app sp a l1 b l2 c :
  covers sp a l1 b -> covers sp b l2 c -> covers sp a (l1 ++ l2) c.
Proof.
  revert a. induction l1 as [|[[r d] z] l1 IH]; intros a H1 H2; simpl in *.
  - now subst.
  - destruct H1 as (Hr & Hd & H1). repeat split; try assumption. now apply IH.
Qed.

Lemma hoare_exists {A X} (P : X -> CgState -> Prop) (m : M A) Q :
  (forall x, hoare (P x) m Q) -> hoare (fun s => exists x, P x s) m Q.
Proof. intros H s a s' [x Hp] Hr. eapply H; eassumption. Qed.

Lemma hoare_pure {A} (phi : Prop) (P : CgState -> Prop) (m : M A) Q :
  (phi -> hoare P m Q) -> hoare (fun s => phi /\ P s) m Q.
Proof. intros H s a s' [Hphi Hp] Hr. eapply H; eassumption. Qed.

Section OutsCover.

Variable rt : Runtime.
Variable cu : CompilationUnit.
Variable info : CallInfo.
Variable r : DispatchRoutine.
Variables (tm : MethodReference) (idx dc dm : Z) (ty : InvokeType).
Variable s0 : CgState.

Lemma written_frame {A} (m : M A) to :
  emits_only (fun o => outs_write o = []) m ->
  hoare (outs_written cu s0 to) m (fun _ => outs_written cu s0 to).
Proof.
  intros Hm s a s' (ops & Hl & Hc) H. destruct (Hm _ _ _ H) as (ops' & Hl' & Hq).
  exists (ops ++ ops'). split; [eapply logged_trans; eassumption|].
  rewrite flat_map_app, (flat_map_quiet outs_write ops' Hq), app_nil_r. exact Hc.
Qed.

Lemma written_store o to bytes :
  outs_write o = [(TargetReg (cg cu) kSp, to, bytes)] ->
  hoare (outs_written cu s0 to) (emit_ o) (fun _ => outs_written cu s0 (to + bytes)).
Proof.
  intros Ho s a s' (ops & Hl & Hc) H. exists (ops ++ [o]). split.
  - eapply logged_trans; [eassumption|]. unfold emit_, bind, emit, ret in H.
    inversion H; subst. reflexivity.
  - rewrite flat_map_app. eapply covers_app; [eassumption|].
    simpl. rewrite Ho. simpl. auto.
Qed.

Lemma written_at to to' s : to = to' -> outs_written cu s0 to s -> outs_written cu s0 to' s.
Proof. now intros ->. Qed.

Lemma routine_writes_nothing state :
  emits_only (fun o => outs_write o = []) (routine_fn rt r cu info state tm idx dc dm ty).
Proof. destruct r; cbn [routine_fn]; unfold_routines; emits; reflexivity. Qed.

Lemma LoadArgRegs_writes_nothing call_state skip_this :
  emits_only (fun o => outs_write o = [])
    (LoadArgRegs cu info call_state (routine_fn rt r) tm idx dc dm ty skip_this).
Proof.
  unfold LoadArgRegs. destruct skip_this;
    (apply emits_only_bind;
     [apply emits_only_while; intros [[? ?] ?]; unfold LoadArgRegs_body;
      emits; try reflexivity; apply routine_writes_nothing
     | intros [[? ?] ?]; apply emits_only_ret]).
Qed.

Ltac quiet_step :=
  eapply hoare_bind;
  [ apply written_frame; emits;
    first [reflexivity | apply routine_writes_nothing | apply LoadArgRegs_writes_nothing]
  | intros ?; cbv beta ].

Lemma GenDalvikArgsNoRange_few_words call_state pcr skip_this :
  num_arg_words info <= 3 ->
  emits_only (fun o => outs_write o = [])
    (GenDalvikArgsNoRange rt cu info call_state pcr (routine_fn rt r) tm idx dc dm ty
       skip_this).
Proof.
  intros Hn. unfold GenDalvikArgsNoRange.
  destruct (num_arg_words info =? 0); [apply emits_only_ret|].
  destruct (Z.gtb_spec (num_arg_words info) 3) as [Hgt|_]; [lia|].
  emits; first [reflexivity | apply routine_writes_nothing | apply LoadArgRegs_writes_nothing].
Qed.

Lemma GenDalvikArgsNoRange_covers call_state pcr skip_this :
  3 < num_arg_words info ->
  hoare (outs_written cu s0 16)
    (GenDalvikArgsNoRange rt cu info call_state pcr (routine_fn rt r) tm idx dc dm ty
       skip_this)
    (fun _ s =>
       exists last,
         num_arg_words info <= last <= num_arg_words info + 1
         /\ outs_written cu s0 ((last + 1) * 4) s).
Proof.
  intros Hn. unfold GenDalvikArgsNoRange.
  destruct (Z.eqb_spec (num_arg_words info) 0) as [Hz|_]; [lia|].
  destruct (Z.gtb_spec (num_arg_words info) 3) as [_|Hle]; [|lia].
  quiet_step. quiet_step.
  set (Inv := fun (x : Z * Z) (s : CgState) =>
                3 <= fst x <= num_arg_words info + 1
                /\ outs_written cu s0 ((fst x + 1) * 4) s).
  apply hoare_bind
    with (Q := fun (_ : Z) s =>
                 exists last,
                   num_arg_words info <= last <= num_arg_words info + 1
                   /\ outs_written cu s0 ((last + 1) * 4) s).
  - quiet_step. quiet_step. quiet_step.
    apply hoare_bind with (Q := Inv).
    + match goal with |- hoare _ (if ?c then _ else _) _ => destruct c end.
      * quiet_step.
        apply hoare_bind with (Q := fun _ : Z * Z => outs_written cu s0 16).
        { match goal with |- hoare _ (if ?c then _ else _) _ => destruct c end;
            [apply hoare_ret; auto|].
          quiet_step. quiet_step. apply hoare_ret; auto. }
        intros [reg cs].
        eapply hoare_bind; [apply written_store; reflexivity | intros ?; cbv beta].
        quiet_step. apply hoare_ret. intros s Hw. split; [cbn [fst]; lia|].
        cbn [fst]. revert Hw. apply written_at. reflexivity.
      * apply hoare_ret. intros s Hw. split; [cbn [fst]; lia | exact Hw].
    + intros [next_use cs].
      apply hoare_bind
        with (Q := fun (x : Z * Z) s =>
                     Inv x s
                     /\ (let '(next_use, _) := x in next_use <? num_arg_words info) = false).
      * apply hoare_while. intros [nu c] Hc. apply Z.ltb_lt in Hc.
        unfold Inv. cbn [fst]. apply hoare_pure. intros Hnu.
        quiet_step. quiet_step.
        apply hoare_bind
          with (Q := fun _ : Z * Z * Z => outs_written cu s0 ((nu + 1) * 4)).
        { match goal with |- hoare _ (if ?c then _ else _) _ => destruct c end;
            [apply hoare_ret; auto|].
          quiet_step. quiet_step. apply hoare_ret; auto. }
        intros [[low_reg high_reg] c'].
        apply hoare_bind
          with (Q := fun (nu' : Z) s =>
                       nu < nu' <= nu + 2 /\ outs_written cu s0 ((nu' + 1) * 4) s).
        { match goal with |- hoare _ (if ?c then _ else _) _ => destruct c end;
            (eapply hoare_bind; [apply written_store; reflexivity | intros ?; cbv beta];
             apply hoare_ret; intros s Hw; split; [lia|];
             revert Hw; apply written_at; lia). }
        intros nu'. apply hoare_pure. intros Hnu'.
        quiet_step. apply hoare_ret. intros s Hw. cbn [fst]. split; [lia | exact Hw].
      * intros [nu c]. apply hoare_ret. unfold Inv. cbn [fst].
        intros s [[Hnu Hw] Hc]. apply Z.ltb_ge in Hc.
        exists nu. split; [lia | exact Hw].
  - intros cs. apply hoare_exists. intros last. apply hoare_pure. intros Hlast.
    quiet_step. quiet_step. apply hoare_ret. intros s Hw. now exists last.
Qed.

Lemma GenDalvikArgsNoRange_written call_state pcr skip_this :
  hoare (fun s => s = s0)
    (GenDalvikArgsNoRange rt cu info call_state pcr (routine_fn rt r) tm idx dc dm ty
       skip_this)
    (fun _ => stack_words_written cu info s0).
Proof.
  unfold stack_words_written.
  destruct (Z.gtb_spec (num_arg_words info) 3) as [Hn|Hn].
  - intros s a s' -> H.
    destruct (GenDalvikArgsNoRange_covers call_state pcr skip_this Hn s0 a s')
      as (last & Hlast & ops & Hl & Hc); [|exact H|].
    + exists []. split; [apply logged_refl | reflexivity].
    + exists ops. split; [exact Hl|]. now exists last.
  - intros s a s' -> H.
    destruct (GenDalvikArgsNoRange_few_words call_state pcr skip_this Hn _ _ _ H)
      as (ops & Hl & Hq).
    exists ops. split; [exact Hl | now apply flat_map_quiet].
Qed.

End OutsCover.

(** X24.  The non-range path writes every argument word that travels on the
    stack, once.  With more than three argument words, its stores to memory
    taken in the order they are logged start at offset 16 from the stack
    pointer, the slot of word 3, and each begins where the one before
    ended: no slot is skipped and none is written twice.  They end at the
    slot of the last argument word, or one word further when a wide value
    starts at the last word.  With three argument words or fewer it stores
    nothing. *)
Theorem non_range_writes_every_stack_word :
  forall rt cu info r call_state pcr tm idx dc dm ty skip_this s,
    hoare (fun s1 => s1 = s)
      (GenDalvikArgsNoRange rt cu info call_state pcr (routine_fn rt r) tm idx dc dm ty
         skip_this)
      (fun _ => stack_words_written cu info s).
Proof. intros. apply GenDalvikArgsNoRange_written. Qed.

(** Five argument words, the third of them the low half of a wide value
    that lives in the frame: the high half goes through kArg3 to offset 16,
    and word 4 to offset 20. *)
Example non_range_writes_wide_spanning :
  exists cs s',
    GenDalvikArgsNoRange Sample.rt (Sample.cu kThumb2) SampleArgs.call5_wide 0 false
      (routine_fn Sample.rt SDCallInsn) Sample.target 0 0 0 kStatic false Sample.s0
    = Ok cs s'
    /\ flat_map outs_write (lir s') = [(13, 16, 4); (13, 20, 4)].
Proof. eexists _, _. split; vm_compute; reflexivity. Qed.

(** ** The invocation driver *)

(** X25.  [GenInvoke] generates an invocation either inline or in full,
    never a mix of both: when it completes, either the called method is a
    recognised library operation whose intrinsic routine answered true, and
    the code is what that routine generated; or the code is what the full
    invocation generates from the state and call descriptor [GenInvoke]
    started with, the declined attempt having left no trace. *)
Theorem invoke_is_inlined_or_lowered_from_scratch :
  forall rt cu info s info' s',
    GenInvoke rt cu info s = Ok info' s' ->
    (exists m,
        inline_methods_ cu (index info) = Some m
        /\ GenInlined rt cu info m s = Ok (true, info') s')
    \/ GenInvokeNoInline rt cu info s = Ok info' s'.
Proof.
  intros rt cu info s info' s' H. unfold GenInvoke, GenIntrinsic, bind in H.
  destruct (inline_methods_ cu (index info)) as [m|]; [|right; exact H].
  destruct (GenInlined rt cu info m s) as [[[|] i] s1|f] eqn:E; [| |discriminate].
  - left. exists m. split; [reflexivity|]. unfold ret in H. now inversion H; subst.
  - right.
    destruct (GenInlined_declines_cleanly rt cu info m s s (false, i) s1 eq_refl E eq_refl)
      as [-> Hi].
    cbn [snd] in Hi. subst i. exact H.
Qed.

Lemma invoke_is_inlined_or_lowered_from_scratch_witness :
  exists info' s',
    GenInvokeNoInline Sample.rt (Sample.cu kThumb2) SampleIntrinsics.indexOf_supplementary
      Sample.s0
    = Ok info' s'.
Proof.
  destruct (GenInvoke Sample.rt (Sample.cu kThumb2) SampleIntrinsics.indexOf_supplementary
              Sample.s0) as [info' s'|f] eqn:E.
  - destruct (invoke_is_inlined_or_lowered_from_scratch Sample.rt (Sample.cu kThumb2)
                SampleIntrinsics.indexOf_supplementary Sample.s0 info' s' E)
      as [(m & Hm & Hr) | Hfull].
    + vm_compute in Hm. inversion Hm; subst m. vm_compute in Hr. discriminate.
    + exists info', s'. exact Hfull.
  - vm_compute in E. discriminate.
Defined.

(** ** The retry of a launchpad *)

Lemma registers_only_weaken {A} (Q Q' : LaunchPad -> Prop) (m : M A) :
  (forall p, Q p -> Q' p) -> registers_only Q m -> registers_only Q' m.
Proof.
  intros HQ Hm s a s' H. destruct (Hm _ _ _ H) as (ps & Hr & Hf).
  exists ps. split; [assumption|]. eapply Forall_impl; eassumption.
Qed.

Lemma land_lor_same a b : Z.land (Z.lor a b) b = b.
Proof.
  apply Z.bits_inj'. intros n Hn. rewrite Z.land_spec, Z.lor_spec.
  destruct (Z.testbit a n), (Z.testbit b n); reflexivity.
Qed.

Section NullChecks.

Variable rt : Runtime.
Variable cu : CompilationUnit.

Ltac flags_done := first [exact I | reflexivity].

Lemma routine_null_checks r info state tm idx dc dm ty :
  emits_only (null_check_with (opt_flags info))
    (routine_fn rt r cu info state tm idx dc dm ty).
Proof. destruct r; cbn [routine_fn]; unfold_routines; emits; flags_done. Qed.

Lemma LoadArgRegs_null_checks r info call_state tm idx dc dm ty skip_this :
  emits_only (null_check_with (opt_flags info))
    (LoadArgRegs cu info call_state (routine_fn rt r) tm idx dc dm ty skip_this).
Proof.
  unfold LoadArgRegs. destruct skip_this;
    (apply emits_only_bind;
     [apply emits_only_while; intros [[? ?] ?]; unfold LoadArgRegs_body;
      emits; try flags_done; apply routine_null_checks
     | intros [[? ?] ?]; apply emits_only_ret]).
Qed.

Lemma GenDalvikArgsNoRange_null_checks r info call_state pcr tm idx dc dm ty skip_this :
  emits_only (null_check_with (opt_flags info))
    (GenDalvikArgsNoRange rt cu info call_state pcr (routine_fn rt r) tm idx dc dm ty
       skip_this).
Proof.
  unfold GenDalvikArgsNoRange.
  emits; try flags_done;
    try apply routine_null_checks; try apply LoadArgRegs_null_checks.
  apply emits_only_while. intros [? ?].
  emits; try flags_done; apply routine_null_checks.
Qed.

Lemma GenDalvikArgsRange_null_checks r info call_state pcr tm idx dc dm ty skip_this :
  emits_only (null_check_with (opt_flags info))
    (GenDalvikArgsRange rt cu info call_state pcr (routine_fn rt r) tm idx dc dm ty
       skip_this).
Proof.
  unfold GenDalvikArgsRange.
  destruct (num_arg_words info <=? 5); [apply GenDalvikArgsNoRange_null_checks|].
  apply emits_only_bind.
  { apply emits_only_while. intros ?. emits; flags_done. }
  intros _. unfold CallRuntimeHelperRegRegImm, CallHelperSetup, CallHelper.
  emits; try flags_done;
    try apply routine_null_checks; try apply LoadArgRegs_null_checks.
  unfold X86StackCopy. apply emits_only_while. intros [[? ?] ?].
  unfold X86StackCopy_step. emits; flags_done.
Qed.

Lemma GenInvokeNoInline_null_checks info :
  emits_only (null_check_with (opt_flags info)) (GenInvokeNoInline rt cu info).
Proof.
  unfold GenInvokeNoInline.
  set (method_info := GetMethodLoweringInfo (cg cu) (mir info)).
  set (info' := set_type (GetSharpType method_info) info).
  change (opt_flags info) with (opt_flags info').
  apply emits_only_bind; [apply emits_only_emit_; exact I | intros _].
  apply emits_only_bind; [apply emits_only_emit_; exact I | intros _].
  apply emits_only_bind; [apply emits_only_emit_; exact I | intros _].
  apply emits_only_bind_val
    with (R := fun sel : bool * NextCallInsn * bool =>
                 exists r, snd (fst sel) = routine_fn rt r).
  - destruct (type info'), (FastPath method_info); rets; cbn [fst snd];
      first [ now exists SDCallInsn | now exists VCallInsn
            | now exists InterfaceCallInsn | now exists StaticCallInsnSP
            | now exists DirectCallInsnSP | now exists SuperCallInsnSP
            | now exists VCallInsnSP | now exists InterfaceCallInsnWithAccessCheck ].
  - emits.
  - intros [[p_null_ck next] skip_this] (r & Hr). cbn [fst snd] in Hr. subst next.
    apply emits_only_bind.
    { destruct (negb (is_range info'));
        [apply GenDalvikArgsNoRange_null_checks | apply GenDalvikArgsRange_null_checks]. }
    intros cs. apply emits_only_bind.
    { apply emits_only_while. intros ?. apply routine_null_checks. }
    intros _. emits; flags_done.
Qed.

Lemma Compile_null_checks p :
  emits_only (null_check_with (opt_flags (info_ p))) (IntrinsicLaunchpadPath_Compile rt cu p).
Proof.
  unfold IntrinsicLaunchpadPath_Compile.
  emits; try flags_done. apply GenInvokeNoInline_null_checks.
Qed.

Lemma retry_elides_null_check info p :
  retries rt info p ->
  emits_only (null_check_elided rt) (IntrinsicLaunchpadPath_Compile rt cu p).
Proof.
  intros [Hi _]. eapply emits_only_weaken; [|apply Compile_null_checks].
  intros o. destruct o; try (intros _; exact I).
  cbn [null_check_with null_check_elided]. intros ->.
  rewrite Hi. unfold null_checked. cbn [opt_flags set_opt_flags]. apply land_lor_same.
Qed.

End NullChecks.

(** X26.  The retry of an intrinsic does not repeat the null check of the
    fast path.  For every launchpad that an intrinsic routine registers,
    the invocation that the launchpad generates when it is compiled makes
    its null checks, those of the receiver in the virtual and interface
    dispatch sequences and after the argument loads, with
    MIR_IGNORE_NULL_CHECK set in the flags it passes. *)
Theorem launchpad_retry_skips_the_null_check :
  forall rt cu info m,
    registers_only
      (fun p => emits_only (null_check_elided rt) (IntrinsicLaunchpadPath_Compile rt cu p))
      (GenInlined rt cu info m).
Proof.
  intros rt cu info m.
  eapply registers_only_weaken; [|apply GenInlined_registers_retries].
  intros p Hp. eapply retry_elides_null_check. exact Hp.
Qed.

(** The launchpad of the sample [charAt] retries a virtual call; its
    receiver check carries the flag. *)
Example charAt_retry_null_check :
  exists info' s',
    IntrinsicLaunchpadPath_Compile Sample.rt (Sample.cu kThumb2)
      SampleCalls.charAt_launchpad Sample.s0 = Ok info' s'
    /\ filter (fun o => match o with GenNullCheck _ _ => true | _ => false end) (lir s')
       = [GenNullCheck 1 1].
Proof. eexists _, _. split; vm_compute; reflexivity. Qed.
